(** * Mixed-integer encodings of neural-network Lyapunov certificates

    A shallow embedding of the MILP-building code of
    [neural_network_lyapunov] ([feedback_system.py], [control_lyapunov.py])
    and of the behaviour its test-suite pins down, and of the sample
    buffer of [robust_value_approx] ([samples_buffer.py]).

    Numbers.  The Python code computes with float64 tensors; the embedding
    idealises them as exact rationals ([Q], compared with [==]), so every
    statement below is about the arithmetic the code intends, not about
    rounding.  A 1-D tensor is a [list Q], a 2-D tensor a list of rows.

    The solver.  [gurobi_torch_mip.GurobiTorchMIP] is an imperative store of
    variables and linear constraints.  It is embedded as a record
    [GurobiTorchMIP]; the Python functions that receive the [mip] object and
    mutate it become computations in a state-and-exception monad [M]. *)

From Stdlib Require Import QArith Qminmax Qabs Lqa List Lia Bool Arith PeanoNat
                           Permutation.
Import ListNotations.
Open Scope Q_scope.

(* ================================================================== *)
(** * Part I.  Definitions                                             *)
(* ================================================================== *)

(** ** Tensors *)

Definition tensor := list Q.
Definition matrix := list (list Q).

(** [a @ b] for two 1-D tensors. *)
Fixpoint dot (a b : tensor) : Q :=
  match a, b with
  | x :: a', y :: b' => x * y + dot a' b'
  | _, _ => 0
  end.

(** [A @ x] for a 2-D and a 1-D tensor. *)
Definition matvec (A : matrix) (x : tensor) : tensor :=
  map (fun row => dot row x) A.

(** Elementwise binary operation on tensors of the same shape. *)
Fixpoint zipWith {A B C : Type} (f : A -> B -> C) (u : list A) (v : list B)
  : list C :=
  match u, v with
  | x :: u', y :: v' => f x y :: zipWith f u' v'
  | _, _ => []
  end.

Definition vadd (u v : tensor) : tensor := zipWith Qplus u v.
Definition vsub (u v : tensor) : tensor := zipWith Qminus u v.
Definition vmul (u v : tensor) : tensor := zipWith Qmult u v.
Definition vscale (c : Q) (u : tensor) : tensor := map (Qmult c) u.
Definition vneg (u : tensor) : tensor := map Qopp u.

(** [x @ A] for a 1-D tensor [x] and a 2-D tensor [A]: the linear
    combination of the rows of [A]; [n] is the number of columns. *)
Fixpoint vecmat (n : nat) (x : tensor) (A : matrix) : tensor :=
  match x, A with
  | c :: x', row :: A' => vadd (vscale c row) (vecmat n x' A')
  | _, _ => repeat 0 n
  end.

Definition vsum (u : tensor) : Q := fold_right Qplus 0 u.

(** [torch.norm(v, p=1)]. *)
Definition norm1 (u : tensor) : Q := vsum (map Qabs u).

(** [torch.eye(n)], row [i]. *)
Definition eye_row (n i : nat) : tensor :=
  map (fun j => if Nat.eqb i j then 1 else 0) (seq 0 n).
Definition eye (n : nat) : matrix := map (eye_row n) (seq 0 n).

Definition mneg (A : matrix) : matrix := map vneg A.

(** Equality and order of tensors, componentwise. *)
Definition veq (u v : tensor) : Prop := Forall2 Qeq u v.
Definition vle (u v : tensor) : Prop := Forall2 Qle u v.
Definition in_box (lo up x : tensor) : Prop := vle lo x /\ vle x up.

Definition vleb (u v : tensor) : bool :=
  (Nat.eqb (length u) (length v)) && forallb (fun p => Qle_bool (fst p) (snd p)) (combine u v).
Definition in_boxb (lo up x : tensor) : bool := vleb lo x && vleb x up.

(** [torch.min] of a non-empty 1-D tensor. *)
Fixpoint tensor_min (d : Q) (u : tensor) : Q :=
  match u with
  | [] => d
  | x :: u' => Qmin d (tensor_min x u')
  end.

(** ** Control limits

    [u_lower_limit] and [u_upper_limit] are numpy arrays whose entries are
    finite or infinite: "Set u_lower_limit[i] to -infinity if you don't want
    saturation", "Set u_upper_limit[i] to infinity".  An entry is modelled
    as [option Q]; [None] is the infinite value of that side. *)

Definition limit := option Q.

(** [np.isinf]. *)
Definition isinf (l : limit) : bool :=
  match l with None => true | Some _ => false end.

(** [torch.min(v, upper)] and [torch.max(v, lower)] against a limit. *)
Definition min_upper (v : Q) (up : limit) : Q :=
  match up with None => v | Some u => Qmin v u end.
Definition max_lower (v : Q) (lo : limit) : Q :=
  match lo with None => v | Some l => Qmax v l end.

(** [lower <= upper] where [lower] is finite or -inf and [upper] finite or
    +inf. *)
Definition limit_leb (lo up : limit) : bool :=
  match lo, up with
  | Some l, Some u => Qle_bool l u
  | _, _ => true
  end.

(** ** The MIP store ([gurobi_torch_mip.GurobiTorchMIP]) *)

Inductive VType := CONTINUOUS | BINARY.
Inductive Sense := LESS_EQUAL | EQUAL | GREATER_EQUAL.
Inductive ModelSense := MINIMIZE | MAXIMIZE.

(** A gurobi variable: its bounds ([None] is -inf for [lb] and +inf for
    [ub]) and its type.  Variables are named by their position in the
    model. *)
Record Var := mkVar { lb : limit; ub : limit; vtype : VType }.

Abbreviation var := nat (only parsing).

(** A linear expression [sum c_k * v_k]. *)
Definition LinExpr := list (Q * var).

Record LConstr := mkLConstr { expr : LinExpr; sense : Sense; rhs : Q }.

Record GurobiTorchMIP := mkMIP {
  vars : list Var;
  constrs : list LConstr;
  obj : LinExpr;
  obj_constant : Q;
  obj_sense : ModelSense
}.

Definition empty_mip : GurobiTorchMIP := mkMIP [] [] [] 0 MINIMIZE.

Definition nvars (m : GurobiTorchMIP) : nat := length (vars m).

(** *** Values of a model *)

Definition assignment := var -> Q.

Definition vals (a : assignment) (xs : list var) : tensor := map a xs.

Fixpoint eval (a : assignment) (e : LinExpr) : Q :=
  match e with
  | [] => 0
  | (c, v) :: e' => c * a v + eval a e'
  end.

Definition holds (a : assignment) (c : LConstr) : Prop :=
  match sense c with
  | LESS_EQUAL => eval a (expr c) <= rhs c
  | EQUAL => eval a (expr c) == rhs c
  | GREATER_EQUAL => rhs c <= eval a (expr c)
  end.

Definition holdsb (a : assignment) (c : LConstr) : bool :=
  match sense c with
  | LESS_EQUAL => Qle_bool (eval a (expr c)) (rhs c)
  | EQUAL => Qeq_bool (eval a (expr c)) (rhs c)
  | GREATER_EQUAL => Qle_bool (rhs c) (eval a (expr c))
  end.

Definition lb_ok (l : limit) (q : Q) : Prop :=
  match l with None => True | Some b => b <= q end.
Definition ub_ok (u : limit) (q : Q) : Prop :=
  match u with None => True | Some b => q <= b end.

Definition var_ok (v : Var) (q : Q) : Prop :=
  lb_ok (lb v) q /\ ub_ok (ub v) q /\
  (vtype v = BINARY -> q == 0 \/ q == 1).

Definition var_okb (v : Var) (q : Q) : bool :=
  match lb v with None => true | Some b => Qle_bool b q end &&
  match ub v with None => true | Some b => Qle_bool q b end &&
  match vtype v with
  | CONTINUOUS => true
  | BINARY => Qeq_bool q 0 || Qeq_bool q 1
  end.

(** A feasible point of the model: every variable within its bounds and of
    its type, every constraint satisfied. *)
Definition feasible (m : GurobiTorchMIP) (a : assignment) : Prop :=
  (forall i v, nth_error (vars m) i = Some v -> var_ok v (a i)) /\
  Forall (holds a) (constrs m).

Definition feasibleb (m : GurobiTorchMIP) (a : assignment) : bool :=
  forallb (fun p => var_okb (snd p) (a (fst p)))
          (combine (seq 0 (nvars m)) (vars m)) &&
  forallb (holdsb a) (constrs m).

Definition objective_value (m : GurobiTorchMIP) (a : assignment) : Q :=
  eval a (obj m) + obj_constant m.

(** What [gurobi_model.optimize()] reports.  [optimal m a v]: the solver may
    stop at the point [a] with [ObjVal = v]. *)
Definition better (s : ModelSense) (v w : Q) : Prop :=
  match s with MINIMIZE => v <= w | MAXIMIZE => w <= v end.

Definition optimal (m : GurobiTorchMIP) (a : assignment) (v : Q) : Prop :=
  feasible m a /\ objective_value m a == v /\
  forall a', feasible m a' -> better (obj_sense m) v (objective_value m a').

Definition status_OPTIMAL (m : GurobiTorchMIP) : Prop :=
  exists a v, optimal m a v.
Definition status_INFEASIBLE (m : GurobiTorchMIP) : Prop :=
  forall a, ~ feasible m a.

(** ** The monad of MIP-building code

    A Python function that takes [mip] and may fail an [assert] or [raise]
    is a function from the store to either an error or a result and the new
    store. *)

Inductive Error := AssertionError | Exception.

Inductive Result (A : Type) :=
| Ok (r : A) (m : GurobiTorchMIP)
| Raise (e : Error).
Arguments Ok {A} r m.
Arguments Raise {A} e.

Definition M (A : Type) := GurobiTorchMIP -> Result A.

Definition ret {A} (r : A) : M A := fun m => Ok r m.
Definition bind {A B} (c : M A) (k : A -> M B) : M B :=
  fun m => match c m with
           | Ok r m' => k r m'
           | Raise e => Raise e
           end.
Definition raise {A} (e : Error) : M A := fun _ => Raise e.
Definition assert_ (b : bool) : M unit :=
  if b then ret tt else raise AssertionError.

Declare Scope mip_scope.
Delimit Scope mip_scope with mip.
Notation "x <- c1 ;; c2" := (bind c1 (fun x => c2))
  (at level 61, c1 at next level, right associativity) : mip_scope.
Notation "' pat <- c1 ;; c2" := (bind c1 (fun x => match x with pat => c2 end))
  (at level 61, pat pattern, c1 at next level, right associativity) : mip_scope.
Notation "c1 ;; c2" := (bind c1 (fun _ => c2))
  (at level 61, right associativity) : mip_scope.
Open Scope mip_scope.

(** [for i in range(...)]: run [body] on each index in turn. *)
Fixpoint for_each {A} (l : list A) (body : A -> M unit) : M unit :=
  match l with
  | [] => ret tt
  | i :: l' => body i ;; for_each l' body
  end.

Definition mip_add_vars (m : GurobiTorchMIP) (vs : list Var) : GurobiTorchMIP :=
  mkMIP (vars m ++ vs) (constrs m) (obj m) (obj_constant m) (obj_sense m).

Definition mip_add_constrs (m : GurobiTorchMIP) (cs : list LConstr)
  : GurobiTorchMIP :=
  mkMIP (vars m) (constrs m ++ cs) (obj m) (obj_constant m) (obj_sense m).

(** [mip.addVars(num, lb, ub, vtype)]: returns the new variables. *)
Definition addVars (num : nat) (l u : limit) (t : VType) : M (list var) :=
  fun m => Ok (seq (nvars m) num) (mip_add_vars m (repeat (mkVar l u t) num)).

(** [mip.addVars(num, lb=lbs, ub=ubs)] with one bound per variable, as in
    [mip.addVars(system.x_dim, lb=x_val, ub=x_val)]. *)
Definition addVars_bounds (lbs ubs : tensor) : M (list var) :=
  fun m =>
    Ok (seq (nvars m) (length (combine lbs ubs)))
       (mip_add_vars m
          (map (fun p => mkVar (Some (fst p)) (Some (snd p)) CONTINUOUS)
               (combine lbs ubs))).

Definition add_constrs (cs : list LConstr) : M unit :=
  fun m => Ok tt (mip_add_constrs m cs).

(** [sum_k coeffs[k] @ variables[k]] as one linear expression. *)
Definition lin (coeffs : list tensor) (variables : list (list var)) : LinExpr :=
  concat (zipWith (fun c v => combine c v) coeffs variables).

(** [mip.addLConstr(coeffs, variables, sense, rhs)]. *)
Definition addLConstr (coeffs : list tensor) (variables : list (list var))
           (s : Sense) (r : Q) : M unit :=
  add_constrs [mkLConstr (lin coeffs variables) s r].

(** [mip.addMConstrs(A, variables, sense, b)]: for every row [i],
    [sum_k A[k][i,:] @ variables[k]  sense  b[i]]. *)
Definition mrow (A : list matrix) (variables : list (list var)) (s : Sense)
           (ib : nat * Q) : LConstr :=
  mkLConstr (lin (map (fun Ak => nth (fst ib) Ak []) A) variables) s (snd ib).

Definition addMConstrs (A : list matrix) (variables : list (list var))
           (s : Sense) (b : tensor) : M unit :=
  add_constrs (map (mrow A variables s) (combine (seq 0 (length b)) b)).

(** [mip.setObjective(coeffs, variables, constant, sense)]. *)
Definition setObjective (coeffs : list tensor) (variables : list (list var))
           (constant : Q) (s : ModelSense) : M unit :=
  fun m => Ok tt (mkMIP (vars m) (constrs m) (lin coeffs variables) constant s).

(** [v.lb = q] and [v.ub = q] on an existing variable. *)
Fixpoint update_nth {A} (i : nat) (f : A -> A) (l : list A) : list A :=
  match l, i with
  | [], _ => []
  | x :: l', O => f x :: l'
  | x :: l', S i' => x :: update_nth i' f l'
  end.

Definition set_lb (v : var) (q : Q) : M unit :=
  fun m => Ok tt (mkMIP (update_nth v (fun g => mkVar (Some q) (ub g) (vtype g))
                                    (vars m))
                        (constrs m) (obj m) (obj_constant m) (obj_sense m)).
Definition set_ub (v : var) (q : Q) : M unit :=
  fun m => Ok tt (mkMIP (update_nth v (fun g => mkVar (lb g) (Some q) (vtype g))
                                    (vars m))
                        (constrs m) (obj m) (obj_constant m) (obj_sense m)).

Definition get_var (v : var) : M Var :=
  fun m => match nth_error (vars m) v with
           | Some g => Ok g m
           | None => Raise Exception
           end.

(** ** Constraint bundles ([gurobi_torch_mip.MixedIntegerConstraintsReturn]) *)

(** Modelled from the spec: [gurobi_torch_mip.py] is not part of the
    sources.  The spec's data model describes the bundle as inequality
    coefficients and right-hand side over the input, slack and binary
    variables, equality coefficients over the same, and an affine map from
    input, slack and binary variables to the declared output; the field names
    are the ones [feedback_system.py] and the tests read ([Aout_input],
    [Aout_slack], [Aout_binary], [Cout]).  A coefficient block that Python
    leaves [None] is [None] here. *)
Record MixedIntegerConstraintsReturn := mkBundle {
  num_slack : nat;
  num_binary : nat;
  Ain_input : matrix; Ain_slack : matrix; Ain_binary : matrix;
  rhs_in : tensor;
  Aeq_input : matrix; Aeq_slack : matrix; Aeq_binary : matrix;
  rhs_eq : tensor;
  Aout_input : option matrix;
  Aout_slack : option matrix;
  Aout_binary : option matrix;
  Cout : tensor
}.

Definition is_None {A} (o : option A) : bool :=
  match o with None => true | Some _ => false end.

(** A [None] coefficient block contributes no term. *)
Definition block (o : option matrix) : matrix :=
  match o with None => [] | Some A => A end.

(** Modelled from the spec: [mip.add_mixed_integer_linear_constraints(
    mip_cnstr_return, input_vars, output_vars, ...)] creates the slack and
    the binary variables of the bundle, adds its inequality and equality
    rows over (input, slack, binary) and, when [output_vars] is not [None],
    ties the output variables to the bundle's affine output map.  It returns
    the slack and the binary variables. *)
Definition add_mixed_integer_linear_constraints
           (mip_cnstr_return : MixedIntegerConstraintsReturn)
           (input_vars : list var) (output_vars : option (list var))
           (binary_var_type : VType) : M (list var * list var) :=
  slack <- addVars (num_slack mip_cnstr_return) None None CONTINUOUS ;;
  binary <- addVars (num_binary mip_cnstr_return) (Some 0) (Some 1)
                    binary_var_type ;;
  addMConstrs [Ain_input mip_cnstr_return; Ain_slack mip_cnstr_return;
               Ain_binary mip_cnstr_return]
              [input_vars; slack; binary] LESS_EQUAL
              (rhs_in mip_cnstr_return) ;;
  addMConstrs [Aeq_input mip_cnstr_return; Aeq_slack mip_cnstr_return;
               Aeq_binary mip_cnstr_return]
              [input_vars; slack; binary] EQUAL
              (rhs_eq mip_cnstr_return) ;;
  match output_vars with
  | None => ret tt
  | Some out =>
      addMConstrs [eye (length (Cout mip_cnstr_return));
                   mneg (block (Aout_input mip_cnstr_return));
                   mneg (block (Aout_slack mip_cnstr_return));
                   mneg (block (Aout_binary mip_cnstr_return))]
                  [out; input_vars; slack; binary] EQUAL
                  (Cout mip_cnstr_return)
  end ;;
  ret (slack, binary).

(** The values a bundle describes, independently of any model: the rows it
    imposes on (input, slack, binary) and the output it maps them to. *)
Definition row_val (A : matrix) (i : nat) (v : tensor) : Q := dot (nth i A []) v.

Definition bundle_rows_hold (bnd : MixedIntegerConstraintsReturn)
           (xin s b : tensor) : Prop :=
  (forall i, (i < length (rhs_in bnd))%nat ->
     row_val (Ain_input bnd) i xin + (row_val (Ain_slack bnd) i s +
       (row_val (Ain_binary bnd) i b + 0)) <= nth i (rhs_in bnd) 0) /\
  (forall i, (i < length (rhs_eq bnd))%nat ->
     row_val (Aeq_input bnd) i xin + (row_val (Aeq_slack bnd) i s +
       (row_val (Aeq_binary bnd) i b + 0)) == nth i (rhs_eq bnd) 0).

Definition bundle_output (bnd : MixedIntegerConstraintsReturn)
           (xin s b : tensor) : tensor :=
  map (fun ic => row_val (block (Aout_input bnd)) (fst ic) xin +
                 row_val (block (Aout_slack bnd)) (fst ic) s +
                 row_val (block (Aout_binary bnd)) (fst ic) b + snd ic)
      (combine (seq 0 (length (Cout bnd))) (Cout bnd)).

Definition is_binary (q : Q) : Prop := q == 0 \/ q == 1.

(** ** Networks *)

(** [torch.nn.Linear]: [weight] has one row per output feature. *)
Record Linear := mkLinear {
  in_features : nat;
  weight : matrix;
  bias : option tensor
}.

Definition out_features (l : Linear) : nat := length (weight l).

Definition bias_or_zeros (l : Linear) : tensor :=
  match bias l with
  | Some b => b
  | None => repeat 0 (out_features l)
  end.

Definition linear_forward (l : Linear) (x : tensor) : tensor :=
  vadd (matvec (weight l) x) (bias_or_zeros l).

(** [torch.nn.LeakyReLU(negative_slope)]; [negative_slope = 0] is ReLU. *)
Definition leaky_relu (negative_slope p : Q) : Q :=
  if Qle_bool 0 p then p else negative_slope * p.

(** [torch.nn.Sequential(linear, LeakyReLU, ..., linear)]: the hidden linear
    layers, each followed by the activation, and the last linear layer. *)
Record Sequential := mkSequential {
  hidden : list Linear;
  negative_slope : Q;
  output_layer : Linear
}.

Fixpoint hidden_forward (alpha : Q) (ls : list Linear) (x : tensor) : tensor :=
  match ls with
  | [] => x
  | l :: ls' => hidden_forward alpha ls' (map (leaky_relu alpha) (linear_forward l x))
  end.

Definition sequential_forward (net : Sequential) (x : tensor) : tensor :=
  linear_forward (output_layer net)
                 (hidden_forward (negative_slope net) (hidden net) x).

Definition first_layer (net : Sequential) : Linear :=
  match hidden net with
  | l :: _ => l
  | [] => output_layer net
  end.

(** ** Interval arithmetic *)

(** Modelled from the spec: [mip_utils.py] is not part of the sources.  For
    an affine layer with weight [W] and bias [b] and an input interval
    [[l,u]] the output interval is
    [[W+ l + W- u + b, W+ u + W- l + b]], [W+] and [W-] being the positive
    and the negative part of [W]. *)
Definition pos_part (c : Q) : Q := Qmax c 0.
Definition neg_part (c : Q) : Q := Qmin c 0.

Definition compute_range_by_IA (W : matrix) (b lo up : tensor)
  : tensor * tensor :=
  (vadd (map (fun row => dot (map pos_part row) lo + dot (map neg_part row) up) W) b,
   vadd (map (fun row => dot (map pos_part row) up + dot (map neg_part row) lo) W) b).

(** [mip_utils.propagate_bounds(layer, lo, up)] for a linear layer. *)
Definition propagate_bounds (l : Linear) (lo up : tensor) : tensor * tensor :=
  compute_range_by_IA (weight l) (bias_or_zeros l) lo up.

(** ** [compute_xhat] *)

(** Modelled from the spec: [compute_xhat.py] is not part of the sources.
    "xhat[i] = x*[i] if i is in xhat_indices, otherwise xhat[i]=x[i].  By
    default xhat_indices=None means xhat=x*" (docstring of [FeedbackSystem.__init__]). *)
Definition _get_xhat_val (x x_equilibrium : tensor)
           (xhat_indices : option (list nat)) : tensor :=
  match xhat_indices with
  | None => x_equilibrium
  | Some idx =>
      map (fun ix => if existsb (Nat.eqb (fst ix)) idx
                     then nth (fst ix) x_equilibrium 0
                     else snd ix)
          (combine (seq 0 (length x)) x)
  end.

(** [xhat_indices is None or xhat_indices == list(range(x_dim))]. *)
Definition xhat_is_equilibrium (xhat_indices : option (list nat)) (x_dim : nat)
  : bool :=
  match xhat_indices with
  | None => true
  | Some idx => if list_eq_dec Nat.eq_dec idx (seq 0 x_dim) then true else false
  end.

(** ** [feedback_system.py] *)

(** The forward model [x[n+1] = f(x[n], u[n])]: "either a HybridLinearSystem
    class, or a ReLU system".  A [HybridLinearSystem] steps to a pair of the
    next state and the active mode, a ReLU system to the next state. *)
Inductive ForwardDynamics :=
| HybridLinearSystem (step : tensor -> tensor -> tensor * nat)
| ReLUSystem (step : tensor -> tensor -> tensor).

(** The interface [FeedbackSystem] uses of its forward system.  Its classes
    ([hybrid_linear_system.py], [relu_system.py]) are not part of the
    sources: [add_dynamics_constraint(mip, x_var, x_next_var, u, ...)] is a
    field, and returns the slack and the binary variables it created. *)
Record ForwardSystem := mkForwardSystem {
  x_dim : nat;
  u_dim : nat;
  x_lo_all : tensor;
  x_up_all : tensor;
  dynamics : ForwardDynamics;
  add_dynamics_constraint :
    list var -> list var -> list var -> M (list var * list var)
}.

(** The two controller types [__init__] accepts; any other type raises
    "Unknown controller type." *)
Inductive Controller :=
| LinearController (l : Linear)
| SequentialController (net : Sequential).

Definition controller_forward (c : Controller) (x : tensor) : tensor :=
  match c with
  | LinearController l => linear_forward l x
  | SequentialController net => sequential_forward net x
  end.

Record FeedbackSystem := mkFeedbackSystem {
  forward_system : ForwardSystem;
  controller_network : Controller;
  x_equilibrium : tensor;
  u_equilibrium : tensor;
  u_lower_limit : list limit;
  u_upper_limit : list limit;
  xhat_indices : option (list nat)
}.

(** The assertions of [FeedbackSystem.__init__]. *)
Definition init_ok (fb : FeedbackSystem) : bool :=
  let fs := forward_system fb in
  match controller_network fb with
  | LinearController l =>
      Nat.eqb (in_features l) (x_dim fs) && Nat.eqb (out_features l) (u_dim fs)
  | SequentialController net =>
      Nat.eqb (in_features (first_layer net)) (x_dim fs) &&
      Nat.eqb (out_features (output_layer net)) (u_dim fs)
  end &&
  Nat.eqb (length (x_equilibrium fb)) (x_dim fs) &&
  Nat.eqb (length (u_equilibrium fb)) (u_dim fs) &&
  Nat.eqb (length (u_lower_limit fb)) (u_dim fs) &&
  Nat.eqb (length (u_upper_limit fb)) (u_dim fs).

(** [FeedbackSystem.compute_u] for a single state (the [len(x.shape) == 1]
    branch). *)
Definition compute_u (fb : FeedbackSystem) (x : tensor) : tensor :=
  let xhat := _get_xhat_val x (x_equilibrium fb) (xhat_indices fb) in
  let u_pre_sat :=
    vadd (vsub (controller_forward (controller_network fb) x)
               (controller_forward (controller_network fb) xhat))
         (u_equilibrium fb) in
  zipWith max_lower (zipWith min_upper u_pre_sat (u_upper_limit fb))
          (u_lower_limit fb).

(** [FeedbackSystem.step_forward]. *)
Definition step_forward (fb : FeedbackSystem) (x : tensor) : tensor :=
  let u := compute_u fb x in
  match dynamics (forward_system fb) with
  | HybridLinearSystem step => fst (step x u)
  | ReLUSystem step => step x u
  end.

Section FeedbackSystemCode.

(** Code of the repository that [feedback_system.py] calls and that is not
    part of the sources. *)

(** [utils.add_saturation_as_mixed_integer_constraint(mip, input_var,
    output_var, lower_limit, upper_limit, input_lower_bound,
    input_upper_bound)]. *)
Variable add_saturation_as_mixed_integer_constraint :
  var -> var -> Q -> Q -> Q -> Q -> M (list var).

(** [ReLUFreePattern(network, dtype).output_constraint(x_lo, x_up, method)]:
    of the tuple it returns, the bundle and the bounds of the network
    output. *)
Variable output_constraint :
  Sequential -> tensor -> tensor ->
  MixedIntegerConstraintsReturn * tensor * tensor.

(** [compute_xhat._compute_network_at_xhat(mip, x_var, x_equilibrium,
    relu_free_pattern, xhat_indices, x_lo, x_up)]: returns the slack and
    binary variables of the copy of the network evaluated at xhat, the
    output map [(Aout, Cout)] over that slack, and bounds of the value. *)
Variable _compute_network_at_xhat :
  list var -> tensor -> Sequential -> list nat -> tensor -> tensor ->
  M (list var * list var * matrix * tensor * tensor * tensor).

(** The body of the loop [for i in range(len(u_var))] of
    [_add_input_saturation_constraint]. *)
Definition saturation_of_dimension
           (u_var u_pre_sat : list var)
           (u_lower_limit u_upper_limit : list limit)
           (u_pre_sat_lo u_pre_sat_up : tensor) (i : nat) : M unit :=
  if isinf (nth i u_lower_limit None) && isinf (nth i u_upper_limit None)
  then addLConstr [[1; -(1)]] [[nth i u_var O; nth i u_pre_sat O]] EQUAL 0
  else
    assert_ (negb (isinf (nth i u_lower_limit None)) &&
             negb (isinf (nth i u_upper_limit None))) ;;
    match nth i u_lower_limit None, nth i u_upper_limit None with
    | Some lower, Some upper =>
        add_saturation_as_mixed_integer_constraint
          (nth i u_pre_sat O) (nth i u_var O) lower upper
          (nth i u_pre_sat_lo 0) (nth i u_pre_sat_up 0) ;;
        ret tt
    | _, _ => raise AssertionError
    end.

(** [_add_input_saturation_constraint]: "Add the MIP constraints of the
    saturation block. Also output the bounds of u after the
    saturation." *)
Definition _add_input_saturation_constraint
           (u_var u_pre_sat : list var)
           (u_lower_limit u_upper_limit : list limit)
           (u_pre_sat_lo u_pre_sat_up : tensor) : M (tensor * tensor) :=
  assert_ (forallb (fun p => limit_leb (fst p) (snd p))
                   (combine u_lower_limit u_upper_limit)) ;;
  assert_ (vleb u_pre_sat_lo u_pre_sat_up) ;;
  let u_lower_bound :=
    zipWith min_upper (zipWith max_lower u_pre_sat_lo u_lower_limit)
            u_upper_limit in
  let u_upper_bound :=
    zipWith max_lower (zipWith min_upper u_pre_sat_up u_upper_limit)
            u_lower_limit in
  for_each (seq 0 (length u_var))
           (saturation_of_dimension u_var u_pre_sat u_lower_limit
                                    u_upper_limit u_pre_sat_lo u_pre_sat_up) ;;
  assert_ (vleb u_lower_bound u_upper_bound) ;;
  ret (u_lower_bound, u_upper_bound).

Variable fb : FeedbackSystem.

(** [_add_linear_controller_mip_constraint]. *)
Definition _add_linear_controller_mip_constraint
           (l : Linear) (x_var u_var : list var)
  : M (list var * list var * tensor * tensor) :=
  let fs := forward_system fb in
  u_pre_sat <- addVars (u_dim fs) None None CONTINUOUS ;;
  assert_ (xhat_is_equilibrium (xhat_indices fb) (x_dim fs)) ;;
  let network_at_x_equilibrium := linear_forward l (x_equilibrium fb) in
  let bias := bias_or_zeros l in
  addMConstrs [mneg (eye (u_dim fs)); weight l] [u_pre_sat; x_var] EQUAL
              (vsub (vadd (vneg (u_equilibrium fb)) network_at_x_equilibrium)
                    bias) ;;
  let '(controller_network_output_lo, controller_network_output_up) :=
    propagate_bounds l (x_lo_all fs) (x_up_all fs) in
  let u_pre_sat_lo :=
    vadd (vsub controller_network_output_lo network_at_x_equilibrium)
         (u_equilibrium fb) in
  let u_pre_sat_up :=
    vadd (vsub controller_network_output_up network_at_x_equilibrium)
         (u_equilibrium fb) in
  '(u_lower_bound, u_upper_bound) <-
    _add_input_saturation_constraint u_var u_pre_sat
      (u_lower_limit fb) (u_upper_limit fb) u_pre_sat_lo u_pre_sat_up ;;
  ret ([], [], u_lower_bound, u_upper_bound).

(** [_add_network_controller_mip_constraint]. *)
Definition _add_network_controller_mip_constraint
           (net : Sequential) (x_var u_var : list var)
  : M (list var * list var * tensor * tensor) :=
  let fs := forward_system fb in
  let '(controller_mip_cnstr, controller_network_output_lo,
        controller_network_output_up) :=
    output_constraint net (x_lo_all fs) (x_up_all fs) in
  assert_ (is_None (Aout_input controller_mip_cnstr)) ;;
  assert_ (is_None (Aout_binary controller_mip_cnstr)) ;;
  '(controller_slack, controller_binary) <-
    add_mixed_integer_linear_constraints controller_mip_cnstr x_var None
                                         BINARY ;;
  u_pre_sat <- addVars (u_dim fs) None None CONTINUOUS ;;
  '(relu_xhat_coeff, relu_xhat_var, relu_xhat_constant,
    controller_relu_xhat_lo, controller_relu_xhat_up) <-
    (if xhat_is_equilibrium (xhat_indices fb) (x_dim fs)
     then
       let at_equilibrium := sequential_forward net (x_equilibrium fb) in
       ret ([], [], at_equilibrium, at_equilibrium, at_equilibrium)
     else
       '(relu_xhat_slack, relu_xhat_binary, relu_xhat_Aout, relu_xhat_Cout,
         xhat_lo, xhat_up) <-
         _compute_network_at_xhat x_var (x_equilibrium fb) net
           (match xhat_indices fb with Some idx => idx | None => [] end)
           (x_lo_all fs) (x_up_all fs) ;;
       ret ([relu_xhat_Aout], [relu_xhat_slack], relu_xhat_Cout,
            xhat_lo, xhat_up)) ;;
  addMConstrs ([block (Aout_slack controller_mip_cnstr);
                mneg (eye (u_dim fs))] ++ map mneg relu_xhat_coeff)
              ([controller_slack; u_pre_sat] ++ relu_xhat_var) EQUAL
              (vsub (vsub relu_xhat_constant (u_equilibrium fb))
                    (Cout controller_mip_cnstr)) ;;
  let u_pre_sat_lo :=
    vadd (vsub controller_network_output_lo controller_relu_xhat_up)
         (u_equilibrium fb) in
  let u_pre_sat_up :=
    vadd (vsub controller_network_output_up controller_relu_xhat_lo)
         (u_equilibrium fb) in
  '(u_lower_bound, u_upper_bound) <-
    _add_input_saturation_constraint u_var u_pre_sat
      (u_lower_limit fb) (u_upper_limit fb) u_pre_sat_lo u_pre_sat_up ;;
  ret (controller_slack, controller_binary, u_lower_bound, u_upper_bound).

(** [_add_controller_mip_constraint]. *)
Definition _add_controller_mip_constraint (x_var u_var : list var)
  : M (list var * list var * tensor * tensor) :=
  match controller_network fb with
  | SequentialController net =>
      _add_network_controller_mip_constraint net x_var u_var
  | LinearController l =>
      _add_linear_controller_mip_constraint l x_var u_var
  end.

(** [add_dynamics_mip_constraint]: returns
    [u, forward_slack, controller_slack, forward_binary,
     controller_binary]. *)
Definition add_dynamics_mip_constraint (x_var x_next_var : list var)
  : M (list var * list var * list var * list var * list var) :=
  let fs := forward_system fb in
  u <- addVars (u_dim fs) None None CONTINUOUS ;;
  '(forward_slack, forward_binary) <-
    add_dynamics_constraint fs x_var x_next_var u ;;
  '(controller_slack, controller_binary, u_lower_bound, u_upper_bound) <-
    _add_controller_mip_constraint x_var u ;;
  ret (u, forward_slack, controller_slack, forward_binary,
       controller_binary).

(** The closed-loop MIP at a fixed state: the state variables are created
    pinned, [x = mip.addVars(x_dim, lb=x_val, ub=x_val)] as
    [constraint_tester] pins them, the next state is free
    ([mip.addVars(x_dim, lb=-inf)]). *)
Definition closed_loop_mip_at (x_val : tensor)
  : M (list var * list var *
       (list var * list var * list var * list var * list var)) :=
  x <- addVars_bounds x_val x_val ;;
  x_next <- addVars (x_dim (forward_system fb)) None None CONTINUOUS ;;
  r <- add_dynamics_mip_constraint x x_next ;;
  ret (x, x_next, r).

End FeedbackSystemCode.

(** ** Specifying MIP-building code

    The constraints of a model mention variables of that model only. *)
Definition expr_wf (n : nat) (e : LinExpr) : Prop :=
  Forall (fun cv => (snd cv < n)%nat) e.
Definition wf_mip (m : GurobiTorchMIP) : Prop :=
  Forall (fun c => expr_wf (nvars m) (expr c)) (constrs m).
Definition vars_wf (n : nat) (xs : list var) : Prop :=
  Forall (fun v => (v < n)%nat) xs.

(** Two assignments agree on the first [n] variables. *)
Definition agree (n : nat) (a a' : assignment) : Prop :=
  forall i, (i < n)%nat -> a' i = a i.

(** [override a n w]: the assignment [a] with the variables from [n] on set
    to the values [w]. *)
Definition override (a : assignment) (n : nat) (w : tensor) : assignment :=
  fun i => if (i <? n)%nat then a i else nth (i - n) w 0.

(** [encodes c m Pre Ret Post]: run on the model [m], the code [c] succeeds
    with a result [r] and a model [m'] that keeps the variables of [m],
    such that [Ret r m'] holds, every feasible point of [m'] is a feasible
    point of [m] that satisfies [Post r], and every feasible point of [m]
    that satisfies [Pre] extends, on the new variables only, to a feasible
    point of [m']. *)
Definition encodes {A} (c : M A) (m : GurobiTorchMIP)
           (Pre : assignment -> Prop) (Ret : A -> GurobiTorchMIP -> Prop)
           (Post : A -> assignment -> Prop) : Prop :=
  exists r m',
    c m = Ok r m' /\
    (nvars m <= nvars m')%nat /\
    (wf_mip m -> wf_mip m') /\
    Ret r m' /\
    (forall a, feasible m' a -> feasible m a /\ Post r a) /\
    (wf_mip m -> forall a, feasible m a -> Pre a ->
               exists a', agree (nvars m) a a' /\ feasible m' a').

(** ** What the absent collaborators are specified to do *)

(** [clip(v, lower, upper)], the 3-segment saturation map. *)
Definition clip (v lower upper : Q) : Q := Qmax (Qmin v upper) lower.

(** The saturation of one control dimension as [compute_u] evaluates it. *)
Definition saturate (lower upper : limit) (v : Q) : Q :=
  max_lower (min_upper v upper) lower.

(** A property of assignments that only looks at the first [n]
    variables. *)
Definition stable (n : nat) (P : assignment -> Prop) : Prop :=
  forall a a', agree n a a' -> P a -> P a'.

(** Modelled from the spec: [utils.add_saturation_as_mixed_integer_constraint]
    is not part of the sources.  The spec: the saturation is the
    "componentwise 3-segment piecewise-linear map (clip(u_pre_sat, u_lo,
    u_up)) encoded exactly".  Exactness is taken for inputs within the
    input bounds the caller passes, the only inputs a big-M encoding is
    built for. *)
Definition saturation_exact
           (sat : var -> var -> Q -> Q -> Q -> Q -> M (list var)) : Prop :=
  forall m input_var output_var lower upper in_lo in_up,
    (input_var < nvars m)%nat -> (output_var < nvars m)%nat ->
    lower <= upper -> in_lo <= in_up ->
    encodes (sat input_var output_var lower upper in_lo in_up) m
            (fun a => in_lo <= a input_var /\ a input_var <= in_up /\
                      a output_var == clip (a input_var) lower upper)
            (fun _ _ => True)
            (fun _ a => in_lo <= a input_var -> a input_var <= in_up ->
                        a output_var == clip (a input_var) lower upper).

(** In every dimension, [u[i]] is the saturation of [u_pre_sat[i]]. *)
Definition saturated (u_var u_pre_sat : list var)
           (lower upper : list limit) (a : assignment) (i : nat) : Prop :=
  a (nth i u_var O) ==
  saturate (nth i lower None) (nth i upper None) (a (nth i u_pre_sat O)).

(** The variable [vs[i]] lies within [[lo[i], up[i]]]. *)
Definition within (vs : list var) (lo up : tensor) (a : assignment) (i : nat)
  : Prop :=
  nth i lo 0 <= a (nth i vs O) /\ a (nth i vs O) <= nth i up 0.

(** "If a control has a lower limit, it has to also have an upper limit, and
    vice versa", and the lower limit is not above the upper one. *)
Definition limit_pair_ok (l u : limit) : Prop :=
  match l, u with
  | None, None => True
  | Some x, Some y => x <= y
  | _, _ => False
  end.
Definition limits_consistent (lower upper : list limit) : Prop :=
  Forall2 limit_pair_ok lower upper.

(** ** The big-M encoding of one (leaky) ReLU unit *)

Definition scale_expr (k : Q) (e : LinExpr) : LinExpr :=
  map (fun cv => (k * fst cv, snd cv)) e.

(** Modelled from the spec: [relu_to_optimization.py] and [utils.py] are not
    part of the sources.  Section 4.2 of the spec: for a unit with
    pre-activation [p = e + c] bounded by [[l, u]] and negative slope
    [alpha], "If l >= 0: unit is always active; slack = preact (affine, no
    binary).  If u <= 0: unit is always inactive; slack = alpha*preact
    (affine, no binary).  Else (spans zero): introduce binary beta and
    continuous slack, with the 4 linear inequalities
      slack >= preact, slack >= alpha*preact,
      slack <= preact - (1-beta)*(1-alpha)*l,
      slack <= alpha*preact + beta*(1-alpha)*u".
    Returns the slack variable and the binary variables created. *)
Definition add_relu_unit (alpha : Q) (e : LinExpr) (c : Q) (l u : Q)
  : M (var * list var) :=
  s <- addVars 1 None None CONTINUOUS ;;
  let sv := nth 0 s O in
  if Qle_bool 0 l then
    add_constrs [mkLConstr ((1, sv) :: scale_expr (-(1)) e) EQUAL c] ;;
    ret (sv, [])
  else if Qle_bool u 0 then
    add_constrs [mkLConstr ((1, sv) :: scale_expr (- alpha) e) EQUAL
                           (alpha * c)] ;;
    ret (sv, [])
  else
    b <- addVars 1 (Some 0) (Some 1) BINARY ;;
    let bv := nth 0 b O in
    add_constrs
      [mkLConstr ((1, sv) :: scale_expr (-(1)) e) GREATER_EQUAL c;
       mkLConstr ((1, sv) :: scale_expr (- alpha) e) GREATER_EQUAL (alpha * c);
       mkLConstr ((1, sv) :: (- ((1 - alpha) * l), bv) :: scale_expr (-(1)) e)
                 LESS_EQUAL (c - (1 - alpha) * l);
       mkLConstr ((1, sv) :: (- ((1 - alpha) * u), bv) :: scale_expr (- alpha) e)
                 LESS_EQUAL (alpha * c)] ;;
    ret (sv, [bv]).

(** A saturation block built from two ReLU units,
    [y = lower + relu(x - lower) - relu(x - upper)]: one binary for each
    side on which the input can saturate. *)
Definition saturation_by_relu_units (input_var output_var : var)
           (lower upper in_lo in_up : Q) : M (list var) :=
  '(r1, b1) <- add_relu_unit 0 [(1, input_var)] (- lower)
                             (in_lo - lower) (in_up - lower) ;;
  '(r2, b2) <- add_relu_unit 0 [(1, input_var)] (- upper)
                             (in_lo - upper) (in_up - upper) ;;
  add_constrs [mkLConstr [(1, output_var); (-(1), r1); (1, r2)] EQUAL lower] ;;
  ret (b1 ++ b2).

(** ** Well-formed shapes

    The shapes that the constructors of the Python classes assert or that
    torch enforces. *)
Definition linear_wf (l : Linear) : Prop :=
  Forall (fun row => length row = in_features l) (weight l) /\
  match bias l with
  | Some b => length b = out_features l
  | None => True
  end.

(** The value [u_pre_sat = phi_u(x) - phi_u(xhat) + u*] of [compute_u]. *)
Definition u_pre_sat_value (fb : FeedbackSystem) (x : tensor) : tensor :=
  let xhat := _get_xhat_val x (x_equilibrium fb) (xhat_indices fb) in
  vadd (vsub (controller_forward (controller_network fb) x)
             (controller_forward (controller_network fb) xhat))
       (u_equilibrium fb).

(** [sum_k coeffs[k] @ values[k]]. *)
Fixpoint dots (cs : list tensor) (vs : list tensor) : Q :=
  match cs, vs with
  | c :: cs', v :: vs' => dot c v + dots cs' vs'
  | _, _ => 0
  end.

(** What the row [i] of [addMConstrs(A, variables, sense, b)] says of the
    values of the variables. *)
Definition row_holds (a : assignment) (A : list matrix)
           (vs : list (list var)) (s : Sense) (b : tensor) (i : nat) : Prop :=
  match s with
  | LESS_EQUAL =>
      dots (map (fun Ak => nth i Ak []) A) (map (vals a) vs) <= nth i b 0
  | EQUAL =>
      dots (map (fun Ak => nth i Ak []) A) (map (vals a) vs) == nth i b 0
  | GREATER_EQUAL =>
      nth i b 0 <= dots (map (fun Ak => nth i Ak []) A) (map (vals a) vs)
  end.

Definition sequential_wf (net : Sequential) : Prop :=
  Forall linear_wf (hidden net) /\ linear_wf (output_layer net).

Definition controller_wf (c : Controller) : Prop :=
  match c with
  | LinearController l => linear_wf l
  | SequentialController net => sequential_wf net
  end.

(** A feedback system that [__init__] accepts (its assertions hold), whose
    box has the dimension of the state, and whose limits are paired as the
    docstring requires. *)
Record feedback_wf (fb : FeedbackSystem) : Prop := mk_feedback_wf {
  wf_init : init_ok fb = true;
  wf_x_lo : length (x_lo_all (forward_system fb)) = x_dim (forward_system fb);
  wf_x_up : length (x_up_all (forward_system fb)) = x_dim (forward_system fb);
  wf_box : vle (x_lo_all (forward_system fb)) (x_up_all (forward_system fb));
  wf_controller : controller_wf (controller_network fb);
  wf_limits : limits_consistent (u_lower_limit fb) (u_upper_limit fb)
}.

(** The relation between the state and the control variables that the
    controller part of the MIP is to impose. *)
Definition control_law (fb : FeedbackSystem) (x_var u_var : list var)
           (a : assignment) : Prop :=
  forall xv, veq (vals a x_var) xv ->
             in_box (x_lo_all (forward_system fb)) (x_up_all (forward_system fb)) xv ->
             veq (vals a u_var) (compute_u fb xv).

(** ** Contracts of the encoders that are not part of the sources *)

(** Modelled from the spec: the invariant of the constraint bundle, "for
    every feasible input in the box domain, there exists a ... feasible
    assignment of slacks/binaries reproducing the exact network (or
    dynamics) output", and on the domain every feasible assignment gives
    that output.  [D] is the domain, [F] the encoded function. *)
Definition bundle_point (bnd : MixedIntegerConstraintsReturn)
           (xin s b : tensor) : Prop :=
  length s = num_slack bnd /\ length b = num_binary bnd /\
  Forall is_binary b /\ bundle_rows_hold bnd xin s b.

Definition bundle_exact (bnd : MixedIntegerConstraintsReturn)
           (D : tensor -> Prop) (F : tensor -> tensor) : Prop :=
  (forall xin xv s b,
      veq xin xv -> D xv -> bundle_point bnd xin s b ->
      veq (bundle_output bnd xin s b) (F xv)) /\
  (forall xin xv,
      veq xin xv -> D xv -> exists s b, bundle_point bnd xin s b).

(** The next state of the forward system. *)
Definition forward_next (fs : ForwardSystem) (x u : tensor) : tensor :=
  match dynamics fs with
  | HybridLinearSystem step => fst (step x u)
  | ReLUSystem step => step x u
  end.

(** Modelled from the spec: the guarantee of the system encoder, "for any
    (x,u) within declared bounds, the unique system output ... x_next is
    reproduced" and "any feasible (x, x_next) pair in the encoding
    corresponds to x_next = closed_loop_step(x)".  [dom] is the set of
    state-control pairs within the declared bounds of the forward
    system. *)
Definition forward_system_exact (fs : ForwardSystem)
           (dom : tensor -> tensor -> Prop) : Prop :=
  forall m x_var x_next_var u_var,
    vars_wf (nvars m) x_var -> vars_wf (nvars m) x_next_var ->
    vars_wf (nvars m) u_var ->
    length x_var = x_dim fs -> length x_next_var = x_dim fs ->
    length u_var = u_dim fs ->
    encodes (add_dynamics_constraint fs x_var x_next_var u_var) m
            (fun a => exists xv uv,
                 veq (vals a x_var) xv /\ veq (vals a u_var) uv /\
                 dom xv uv /\
                 veq (vals a x_next_var) (forward_next fs xv uv))
            (fun _ _ => True)
            (fun _ a => forall xv uv,
                 veq (vals a x_var) xv -> veq (vals a u_var) uv ->
                 dom xv uv ->
                 veq (vals a x_next_var) (forward_next fs xv uv)).

(** Modelled from the spec: [ReLUFreePattern.output_constraint] returns an
    exact bundle of the network over the box and sound bounds of its
    output; the output of the bundle is affine in the slack alone
    ([feedback_system.py] asserts it). *)
Definition output_constraint_exact_at
           (output_constraint :
              Sequential -> tensor -> tensor ->
              MixedIntegerConstraintsReturn * tensor * tensor)
           (net : Sequential) (lo up : tensor) : Prop :=
  let bnd := fst (fst (output_constraint net lo up)) in
  let out_lo := snd (fst (output_constraint net lo up)) in
  let out_up := snd (output_constraint net lo up) in
  bundle_exact bnd (in_box lo up) (sequential_forward net) /\
  Aout_input bnd = None /\ Aout_binary bnd = None /\
  length (Cout bnd) = out_features (output_layer net) /\
  length out_lo = out_features (output_layer net) /\
  length out_up = out_features (output_layer net) /\
  vle out_lo out_up /\
  (forall xv, in_box lo up xv ->
              vle out_lo (sequential_forward net xv) /\
              vle (sequential_forward net xv) out_up).

Definition output_constraint_exact
           (output_constraint :
              Sequential -> tensor -> tensor ->
              MixedIntegerConstraintsReturn * tensor * tensor) : Prop :=
  forall net lo up,
    sequential_wf net -> vle lo up ->
    output_constraint_exact_at output_constraint net lo up.

(** Modelled from the spec: [compute_xhat._compute_network_at_xhat] encodes
    a second copy of the network, evaluated at xhat, and returns the affine
    map [(Aout, Cout)] from its slack to the value, with bounds of the
    value. *)
Definition compute_network_at_xhat_exact_at
           (compute_network_at_xhat :
              list var -> tensor -> Sequential -> list nat -> tensor -> tensor ->
              M (list var * list var * matrix * tensor * tensor * tensor))
           (x_eq : tensor) (net : Sequential) (idx : list nat)
           (lo up : tensor) : Prop :=
  forall m x_var,
    vars_wf (nvars m) x_var -> length x_var = length lo ->
    encodes (compute_network_at_xhat x_var x_eq net idx lo up) m
            (fun a => exists xv, veq (vals a x_var) xv /\ in_box lo up xv)
            (fun r m' =>
               let '(slack, binary, Aout, Cout, xhat_lo, xhat_up) := r in
               vars_wf (nvars m') slack /\
               length Cout = out_features (output_layer net) /\
               length xhat_lo = out_features (output_layer net) /\
               length xhat_up = out_features (output_layer net) /\
               vle xhat_lo xhat_up)
            (fun r a =>
               let '(slack, binary, Aout, Cout, xhat_lo, xhat_up) := r in
               forall xv, veq (vals a x_var) xv -> in_box lo up xv ->
                 let v := sequential_forward net
                            (_get_xhat_val xv x_eq (Some idx)) in
                 veq (vadd (matvec Aout (vals a slack)) Cout) v /\
                 vle xhat_lo v /\ vle v xhat_up).

Definition compute_network_at_xhat_exact
           (compute_network_at_xhat :
              list var -> tensor -> Sequential -> list nat -> tensor -> tensor ->
              M (list var * list var * matrix * tensor * tensor * tensor))
  : Prop :=
  forall x_eq net idx lo up,
    sequential_wf net -> vle lo up ->
    compute_network_at_xhat_exact_at compute_network_at_xhat x_eq net idx lo up.

(** ** A closed loop to run the encoders on *)

(** Modelled from the spec: the classes of the forward systems are not part
    of the sources.  Section 4.3: "For a LINEAR system (A,B): trivial affine
    bundle, no binaries".  The system [x[n+1] = A x[n] + B u[n]] with the
    encoding [A x + B u - x_next = 0]. *)
Definition affine_step (A B : matrix) (x u : tensor) : tensor :=
  vadd (matvec A x) (matvec B u).

Definition affine_forward_system (A B : matrix) (nu : nat) (lo up : tensor)
  : ForwardSystem :=
  mkForwardSystem (length A) nu lo up (ReLUSystem (affine_step A B))
    (fun x_var x_next_var u =>
       addMConstrs [A; B; mneg (eye (length A))] [x_var; u; x_next_var] EQUAL
                   (repeat 0 (length A)) ;;
       ret ([], [])).

(** The plant [x[n+1] = x[n]/2 + u[n]] on the box [[-1, 1]]. *)
Definition scalar_plant : ForwardSystem :=
  affine_forward_system [[1#2]] [[1]] 1 [-(1)] [1].

(** The controller network [phi_u(x) = -relu(x)/2]. *)
Definition scalar_controller : Sequential :=
  mkSequential [mkLinear 1 [[1]] None] 0 (mkLinear 1 [[-(1#2)]] None).

(** The loop of the two, [u = clip(phi_u(x) - phi_u(0), -1/4, 1/4)]. *)
Definition scalar_loop : FeedbackSystem :=
  mkFeedbackSystem scalar_plant (SequentialController scalar_controller)
                   [0] [0] [Some (-(1#4))] [Some (1#4)] None.

(** Modelled from the spec: the bundle of section 4.2 for
    [scalar_controller] on [[-1, 1]]: its one unit spans zero, so there is
    one slack [s], one binary [beta] and the four rows
    [x - s <= 0], [-s <= 0], [-x + s + beta <= 1], [s - beta <= 0]; the
    output is [-s/2]. *)
Definition scalar_controller_bundle : MixedIntegerConstraintsReturn :=
  mkBundle 1 1
           [[1]; [0]; [-(1)]; [0]]
           [[-(1)]; [-(1)]; [1]; [1]]
           [[0]; [0]; [1]; [-(1)]]
           [0; 0; 1; 0]
           [] [] [] []
           None (Some [[-(1#2)]]) None [0].

Definition scalar_output_constraint (net : Sequential) (lo up : tensor)
  : MixedIntegerConstraintsReturn * tensor * tensor :=
  (scalar_controller_bundle, [-(1#2)], [0]).

(** The loop has [xhat = x*]: the network is never evaluated at another
    xhat. *)
Definition no_network_at_xhat
           (x_var : list var) (x_eq : tensor) (net : Sequential)
           (idx : list nat) (lo up : tensor)
  : M (list var * list var * matrix * tensor * tensor * tensor) :=
  raise Exception.

(** ** [control_lyapunov.py] *)

(** [A @ B] for two 2-D tensors; [n] is the number of columns of [B]. *)
Definition matmul (n : nat) (A B : matrix) : matrix :=
  map (fun row => vecmat n row B) A.

(** [A.repeat((m, 1))]: [m] copies of [A] stacked on top of each other; for
    a 1-D tensor [A] the result has the [m] rows [A]. *)
Definition repeat_rows {T : Type} (m : nat) (A : list T) : list T :=
  concat (repeat A m).

(** [A.repeat((1, k))]: every row is [k] copies of itself side by side. *)
Definition repeat_cols (k : nat) (A : matrix) : matrix :=
  map (fun row => concat (repeat row k)) A.

(** [A.view((rows, cols))]: the entries of [A] in row-major order, cut into
    rows of [cols] entries; torch raises when the sizes do not match. *)
Fixpoint chunks (rows cols : nat) (l : tensor) : matrix :=
  match rows with
  | O => []
  | S r => firstn cols l :: chunks r cols (skipn cols l)
  end.

Definition view (rows cols : nat) (A : matrix) : option matrix :=
  if Nat.eqb (length (concat A)) (rows * cols)
  then Some (chunks rows cols (concat A))
  else None.

(** [lyapunov._get_R(R, x_dim, device)]: "Use the identity matrix if
    R=None" (docstring of [lyapunov_derivative]). *)
Definition _get_R (R : option matrix) (x_dim : nat) : matrix :=
  match R with
  | None => eye x_dim
  | Some R' => R'
  end.

(** [a - b] for two 1-D tensors.  torch broadcasts a tensor of one entry
    to the size of the other one; it raises a [RuntimeError] when the sizes
    differ and neither of them is 1 ([None]). *)
Definition broadcast_sub (a b : tensor) : option tensor :=
  if Nat.eqb (length a) (length b) then Some (vsub a b)
  else match a, b with
       | _, [y] => Some (map (fun ai => ai - y) a)
       | [x], _ => Some (map (fun bi => x - bi) b)
       | _, _ => None
       end.

(** [A @ x] for a 2-D and a 1-D tensor: torch raises a [RuntimeError]
    unless [A] has as many columns as [x] has entries ([None]). *)
Definition checked_matvec (A : matrix) (x : tensor) : option tensor :=
  if forallb (fun row => Nat.eqb (length row) (length x)) A
  then Some (matvec A x)
  else None.

Section ControlLyapunovCode.

(** The control-affine system [xdot = f(x) + G(x) u], [u_lo <= u <= u_up],
    and the functions of [utils.py] and [lyapunov.py] that
    [ControlLyapunov] calls; none of them is part of the sources.
    [relu_network_gradient x] is
    [utils.relu_network_gradient(self.lyapunov_relu, x).squeeze(1)], one
    row for each possible gradient of the network at [x];
    [l1_gradient z] has one row for each possible gradient of [|z|_1].
    The shapes of the arguments [x], [x_equilibrium] and [R] are checked
    as torch checks them; the attributes of the system and the tensors
    that these functions return have the documented shapes, which the
    properties below take as hypotheses. *)
Variable system_x_dim : nat.
Variable system_u_dim : nat.
Variables system_u_lo system_u_up : tensor.
Variable system_f : tensor -> tensor.
Variable system_G : tensor -> matrix.
Variable relu_network_gradient : tensor -> matrix.
Variable l1_gradient : tensor -> matrix.
Variable lyapunov_value : tensor -> tensor -> Q -> matrix -> Q.

(** [dl1_dx = V_lambda * utils.l1_gradient(R @ (x - x_equilibrium)) @ R];
    [None] when torch raises on the shapes of [x - x_equilibrium] or of
    [R @ (x - x_equilibrium)]. *)
Definition dl1_dx (x x_equilibrium : tensor) (V_lambda : Q) (R : matrix)
  : option matrix :=
  match broadcast_sub x x_equilibrium with
  | None => None
  | Some dx =>
      match checked_matvec R dx with
      | None => None
      | Some z =>
          Some (matmul (length dx) (map (vscale V_lambda) (l1_gradient z)) R)
      end
  end.

(** [Vdot] of [lyapunov_derivative], one entry for each row of [dVdx]. *)
Definition Vdot_of (dVdx : matrix) (x : tensor) : tensor :=
  let G := system_G x in
  vsub (vadd (matvec dVdx (system_f x))
             (matvec (matmul system_u_dim dVdx G)
                     (vscale (1#2) (vadd system_u_lo system_u_up))))
       (map norm1
            (zipWith vmul (matmul system_u_dim dVdx G)
                     (repeat_rows (length dVdx)
                        [vscale (1#2) (vsub system_u_up system_u_lo)]))).

(** [ControlLyapunov.lyapunov_derivative]: "Compute min_u Vdot + eps*V
    subject to u_lo <= u <= u_up". *)
Definition lyapunov_derivative (x x_equilibrium : tensor) (V_lambda epsilon : Q)
           (R : option matrix) : Error + Q :=
  if negb (Nat.eqb (length x) system_x_dim) then inl AssertionError else
  let R := _get_R R system_x_dim in
  let dphi_dx := relu_network_gradient x in
  match dl1_dx x x_equilibrium V_lambda R with
  | None => inl Exception
  | Some dl1 =>
      match view (length dphi_dx * length dl1) system_x_dim
                 (repeat_cols (length dphi_dx) dl1) with
      | None => inl Exception
      | Some tiled =>
          let dVdx := zipWith vadd (repeat_rows (length dl1) dphi_dx) tiled in
          let Vdot := Vdot_of dVdx x in
          let V := lyapunov_value x x_equilibrium V_lambda R in
          match Vdot with
          | [] => inl Exception
          | d :: rest => inr (tensor_min d rest + epsilon * V)
          end
      end
  end.

(** The closed form of [min_u Vdot] for one gradient [dVdx] of [V]:
    [dVdx*f(x) + dVdx*G(x)*(u_lo + u_up)/2
     - |dVdx*G(x) * diag((u_up - u_lo)/2)|_1] (class docstring). *)
Definition min_u_Vdot (dVdx x : tensor) : Q :=
  let dVdx_G := vecmat system_u_dim dVdx (system_G x) in
  dot dVdx (system_f x)
  + dot dVdx_G (vscale (1#2) (vadd system_u_lo system_u_up))
  - norm1 (vmul dVdx_G (vscale (1#2) (vsub system_u_up system_u_lo))).

End ControlLyapunovCode.

(** The gradient of [V] as the docstring of [lyapunov_derivative] gives it,
    "dV/dx = dphi/dx + lambda * sum_i sign(R[i, :](x - x_eq)) R[i, :]", for
    one gradient [dphi] of the network and one row [s] of signs of
    [R (x - x_eq)]; [n] is the number of columns of [R]. *)
Definition signed_rows_sum (n : nat) (s : tensor) (R : matrix) : tensor :=
  fold_right vadd (repeat 0 n) (zipWith vscale s R).

Definition dV_dx (n : nat) (dphi : tensor) (V_lambda : Q) (s : tensor)
           (R : matrix) : tensor :=
  vadd dphi (vscale V_lambda (signed_rows_sum n s R)).

(** Every sum of a row of [P] and a row of [L]. *)
Definition minkowski_sum (P L : matrix) : matrix :=
  flat_map (fun l => map (fun p => vadd p l) P) L.

(** Modelled from the spec: [utils.l1_gradient] is not part of the sources.
    The gradient of [|z|_1] is the sign of [z]; at a zero entry both signs
    are subgradients, and the function returns "every combination of sign
    choices at exactly-zero L1 ... arguments", one row for each. *)
Fixpoint l1_gradient (z : tensor) : matrix :=
  match z with
  | [] => [[]]
  | zi :: z' =>
      let rest := l1_gradient z' in
      if Qlt_le_dec 0 zi then map (cons 1) rest
      else if Qlt_le_dec zi 0 then map (cons (-(1))) rest
      else map (cons 1) rest ++ map (cons (-(1))) rest
  end.

(** The network [phi(x) = relu(x)] of one unit on a scalar state: its
    gradients ("per-unit left/right slope choices at exactly-zero
    pre-activations") and the Lyapunov function it defines,
    [V(x) = phi(x) - phi(x_eq) + lambda |R (x - x_eq)|_1]. *)
Definition relu_unit_gradient (x : tensor) : matrix :=
  match x with
  | [x0] => if Qlt_le_dec 0 x0 then [[1]]
            else if Qlt_le_dec x0 0 then [[0]]
            else [[0]; [1]]
  | _ => []
  end.

Definition relu_unit_value (x x_equilibrium : tensor) (V_lambda : Q)
           (R : matrix) : Q :=
  leaky_relu 0 (nth 0 x 0) - leaky_relu 0 (nth 0 x_equilibrium 0)
  + V_lambda * norm1 (matvec R (vsub x x_equilibrium)).

(** [l[i]]: an index out of range raises [IndexError]. *)
Definition getitem {A : Type} (l : list A) (i : nat) : M A :=
  fun m => match nth_error l i with
           | Some v => Ok v m
           | None => Raise Exception
           end.

(** A loop that extends its accumulator in each round
    ([slack.extend(slack_Gi)]). *)
Fixpoint for_fold {A S : Type} (l : list A) (s : S) (body : A -> S -> M S)
  : M S :=
  match l with
  | [] => ret s
  | i :: l' => s' <- body i s ;; for_fold l' s' body
  end.

(** [v.lb < q] and [v.ub > q] for a bound that may be infinite. *)
Definition lb_lt (l : limit) (q : Q) : bool :=
  match l with None => true | Some b => negb (Qle_bool q b) end.
Definition ub_gt (u : limit) (q : Q) : bool :=
  match u with None => true | Some b => negb (Qle_bool b q) end.

(** The return type of [add_system_constraint()]. *)
Record ControlAffineSystemConstraintReturn := mkSystemConstraintReturn {
  slack : list var;
  binary : list var;
  mip_cnstr_f : MixedIntegerConstraintsReturn;
  mip_cnstr_G : list MixedIntegerConstraintsReturn
}.

Section AddSystemConstraint.

(** What [add_system_constraint] reads of [self.system]:
    [mixed_integer_constraints()] returns the bundle of [f] and, for each
    control dimension [i], the bundle of the column [G[:, i]]. *)
Variables system_x_dim system_u_dim : nat.
Variables system_x_lo system_x_up : tensor.
Variable system_mixed_integer_constraints :
  MixedIntegerConstraintsReturn * list MixedIntegerConstraintsReturn.

(** The body of the loop "Set the bounds of x". *)
Definition set_bounds_of_x (x : list var) (i : nat) : M unit :=
  xi <- getitem x i ;;
  g <- get_var xi ;;
  (if lb_lt (lb g) (nth i system_x_lo 0)
   then set_lb xi (nth i system_x_lo 0) else ret tt) ;;
  g' <- get_var xi ;;
  (if ub_gt (ub g') (nth i system_x_up 0)
   then set_ub xi (nth i system_x_up 0) else ret tt).

(** The body of the loop over the columns of [G]. *)
Definition add_G_column (x : list var) (G : list (list var))
           (cnstr_G : list MixedIntegerConstraintsReturn)
           (binary_var_type : VType) (i : nat)
           (sb : list var * list var) : M (list var * list var) :=
  cnstr_Gi <- getitem cnstr_G i ;;
  Gi <- getitem G i ;;
  '(slack_Gi, binary_Gi) <-
    add_mixed_integer_linear_constraints cnstr_Gi x (Some Gi)
                                         binary_var_type ;;
  ret (fst sb ++ slack_Gi, snd sb ++ binary_Gi).

(** [ControlLyapunov.add_system_constraint]: "Add the (mixed-integer
    linear) constraints of f(x) and G(x).  G is a 2D list.
    len(G) = u_dim. len(G[i]) = x_dim". *)
Definition add_system_constraint (x f : list var) (G : list (list var))
           (binary_var_type : VType)
  : M ControlAffineSystemConstraintReturn :=
  assert_ (Nat.eqb (length f) system_x_dim) ;;
  assert_ (Nat.eqb (length G) system_u_dim) ;;
  addMConstrs [eye system_x_dim] [x] LESS_EQUAL system_x_up ;;
  addMConstrs [eye system_x_dim] [x] GREATER_EQUAL system_x_lo ;;
  for_each (seq 0 system_x_dim) (set_bounds_of_x x) ;;
  let '(cnstr_f, cnstr_G) := system_mixed_integer_constraints in
  sb <- add_mixed_integer_linear_constraints cnstr_f x (Some f)
                                             binary_var_type ;;
  sb' <- for_fold (seq 0 system_u_dim) sb
                  (add_G_column x G cnstr_G binary_var_type) ;;
  ret (mkSystemConstraintReturn (fst sb') (snd sb') cnstr_f cnstr_G).

(** [TestAddSystemConstraint.constraint_tester], up to the call of the
    solver: the state pinned to [x_val], [f] and the columns [Gt[i]] of
    [G] free. *)
Definition constraint_tester (x_val : tensor)
  : M (list var * list var * list (list var) *
       ControlAffineSystemConstraintReturn) :=
  x <- addVars_bounds x_val x_val ;;
  f <- addVars system_x_dim None None CONTINUOUS ;;
  Gt <- for_fold (seq 0 system_u_dim) []
                 (fun _ Gt =>
                    Gi <- addVars system_x_dim None None CONTINUOUS ;;
                    ret (Gt ++ [Gi])) ;;
  r <- add_system_constraint x f Gt BINARY ;;
  ret (x, f, Gt, r).

End AddSystemConstraint.

(** Column [i] of a 2-D tensor. *)
Definition column (i : nat) (A : matrix) : tensor :=
  map (fun row => nth i row 0) A.

(** The variables [Gt[0], ..., Gt[u-1]] that [constraint_tester] creates,
    [n] at a time, in a model that has [n0] variables. *)
Definition column_vars (n0 n u : nat) : list (list var) :=
  map (fun j => seq (n0 + j * n) n) (seq 0 u).

(** Modelled from the spec: [control_affine_system.py] is not part of the
    sources.  Section 4.3: "For a LINEAR system (A,B): trivial affine
    bundle, no binaries".  For [xdot = A x + B u] the bundle of [f] has the
    output [A @ x] and the bundle of the column [i] of [G] the constant
    output [B[:, i]]; neither has a slack, a binary or a row. *)
Definition affine_bundle (Aout : option matrix) (Cout : tensor)
  : MixedIntegerConstraintsReturn :=
  mkBundle 0 0 [] [] [] [] [] [] [] [] Aout None None Cout.

Definition LinearSystem_mixed_integer_constraints (A B : matrix) (u_dim : nat)
  : MixedIntegerConstraintsReturn * list MixedIntegerConstraintsReturn :=
  (affine_bundle (Some A) (repeat 0 (length A)),
   map (fun i => affine_bundle None (column i B)) (seq 0 u_dim)).

(** [LinearSystem.f(x) = A @ x] and [LinearSystem.G(x) = B], as
    [test_dynamics] reads them. *)
Definition LinearSystem_f (A : matrix) (x : tensor) : tensor := matvec A x.
Definition LinearSystem_G (B : matrix) (x : tensor) : matrix := B.

(** ** The Lyapunov condition engine *)

(** Modelled from the spec: [compute_xhat._get_xbar_indices(x_dim,
    xbar_indices)], which the tests call to read [x[xbar_indices]];
    [xbar_indices = None] selects the whole state. *)
Definition _get_xbar_indices (x_dim : nat) (xbar_indices : option (list nat))
  : list nat :=
  match xbar_indices with
  | None => seq 0 x_dim
  | Some idx => idx
  end.

(** [x[indices]]. *)
Definition select {A : Type} (d : A) (indices : list nat) (x : list A)
  : list A :=
  map (fun j => nth j x d) indices.

(** [lyapunov.ConvergenceEps]. *)
Inductive ConvergenceEps := ExpLower | ExpUpper | Asymp.

(** An affine expression [e + c] over the variables of a model. *)
Definition AffExpr := (LinExpr * Q)%type.
Definition aff_eval (a : assignment) (e : AffExpr) : Q := eval a (fst e) + snd e.
Definition aff_add (e1 e2 : AffExpr) : AffExpr :=
  (fst e1 ++ fst e2, snd e1 + snd e2).
Definition aff_scale (k : Q) (e : AffExpr) : AffExpr :=
  (scale_expr k (fst e), k * snd e).

(** An affine expression as the objective of the model. *)
Definition setObjective_affine (e : AffExpr) (s : ModelSense) : M unit :=
  setObjective [map fst (fst e)] [map snd (fst e)] (snd e) s.

(** The tests fix the state of a MILP with one constraint for each
    coordinate, [milp.addLConstr([torch.tensor([1.])], [[x[i]]],
    rhs=x_val[i], sense=gurobipy.GRB.EQUAL)]. *)
Definition fix_state (x : list var) (x_val : tensor) : M unit :=
  for_each (seq 0 (length x))
           (fun i => addLConstr [[1]] [[nth i x O]] EQUAL (nth i x_val 0)).

Section LyapunovEngine.

(** The encoders of the network, as [feedback_system.py] calls them. *)
Variable output_constraint :
  Sequential -> tensor -> tensor ->
  MixedIntegerConstraintsReturn * tensor * tensor.
Variable _compute_network_at_xhat :
  list var -> tensor -> Sequential -> list nat -> tensor -> tensor ->
  M (list var * list var * matrix * tensor * tensor * tensor).

(** The autonomous system [x[n+1] = step_forward(x[n])] on its box and the
    Lyapunov network.  Modelled from the spec: section 6, the "dynamics
    collaborator interface". *)
Variable system_x_dim : nat.
Variables system_x_lo system_x_up : tensor.
Variable system_step_forward : tensor -> tensor.
Variable system_add_dynamics_constraint :
  list var -> list var -> M (list var * list var).
Variable lyapunov_relu : Sequential.

(** The scalar output of the Lyapunov network. *)
Definition phi (x : tensor) : Q :=
  nth 0 (sequential_forward lyapunov_relu x) 0.

(** Modelled from the spec: [lyapunov.py] is not part of the sources.
    Section 4.5: "V(x) = phi(x) - phi(xhat) + lambda |R (xbar - xbar_eq)|_1". *)
Definition lyapunov_value (x x_equilibrium : tensor) (V_lambda : Q)
           (R : matrix) (xbar_indices xhat_indices : option (list nat)) : Q :=
  let xbar := _get_xbar_indices system_x_dim xbar_indices in
  phi x - phi (_get_xhat_val x x_equilibrium xhat_indices)
  + V_lambda * norm1 (matvec R (vsub (select 0 xbar x)
                                     (select 0 xbar x_equilibrium))).

(** Modelled from the spec: "the lyapunov-value affine-in-slack expression
    ... requiring its own ReLU-encoding copy".  [phi(x) - phi(xhat)] at the
    variables [x]: a copy of the bundle of the network gives [phi(x)] as
    [Aout_slack @ slack + Cout]; [phi(xhat)] is the constant at the
    equilibrium or a second copy evaluated at xhat, as in the controller
    of [feedback_system.py]. *)
Definition add_network_difference (x : list var) (x_equilibrium : tensor)
           (xhat_indices : option (list nat)) : M AffExpr :=
  let '(cnstr, _, _) :=
    output_constraint lyapunov_relu system_x_lo system_x_up in
  assert_ (is_None (Aout_input cnstr)) ;;
  assert_ (is_None (Aout_binary cnstr)) ;;
  '(slack_x, _) <- add_mixed_integer_linear_constraints cnstr x None BINARY ;;
  let phi_x : AffExpr :=
    (combine (nth 0 (block (Aout_slack cnstr)) []) slack_x,
     nth 0 (Cout cnstr) 0) in
  if xhat_is_equilibrium xhat_indices system_x_dim
  then ret (fst phi_x, snd phi_x - phi x_equilibrium)
  else
    '(slack_xhat, _, Aout, Cout_xhat, _, _) <-
      _compute_network_at_xhat x x_equilibrium lyapunov_relu
        (match xhat_indices with Some idx => idx | None => [] end)
        system_x_lo system_x_up ;;
    ret (aff_add phi_x
                 (aff_scale (-(1))
                            (combine (nth 0 Aout []) slack_xhat,
                             nth 0 Cout_xhat 0))).

(** Modelled from the spec: the 1-norm [|R (xbar - xbar_eq)|_1] as a sum of
    slack variables, one absolute value for each row of [R]; an absolute
    value is the unit of section 4.2 with slope [-1], on the interval that
    interval arithmetic gives for the row. *)
Fixpoint add_l1_norm (R : matrix) (xbar_var : list var)
         (xbar_eq lo up : tensor) : M LinExpr :=
  match R with
  | [] => ret []
  | row :: R' =>
      let c := - dot row xbar_eq in
      let l := dot (map pos_part row) lo + dot (map neg_part row) up + c in
      let u := dot (map pos_part row) up + dot (map neg_part row) lo + c in
      '(t, _) <- add_relu_unit (-(1)) (combine row xbar_var) c l u ;;
      rest <- add_l1_norm R' xbar_var xbar_eq lo up ;;
      ret ((1, t) :: rest)
  end.

(** The two terms of [V] at the variables [x]: [phi(x) - phi(xhat)] and
    [|R (xbar - xbar_eq)|_1]. *)
Definition add_lyapunov_value (x : list var) (x_equilibrium : tensor)
           (R : matrix) (xbar_indices xhat_indices : option (list nat))
  : M (AffExpr * LinExpr) :=
  let xbar := _get_xbar_indices system_x_dim xbar_indices in
  nd <- add_network_difference x x_equilibrium xhat_indices ;;
  l1 <- add_l1_norm R (select O xbar x) (select 0 xbar x_equilibrium)
                    (select 0 xbar system_x_lo) (select 0 xbar system_x_up) ;;
  ret (nd, l1).

(** Modelled from the spec: "Lyapunov positivity ... As MILP: maximize
    (eps - lambda) |R (xbar - xbar_eq)|_1 - phi(x) + phi(xhat) subject to x
    in box domain".  Returns the state variables. *)
Definition lyapunov_positivity_as_milp (x_equilibrium : tensor)
           (V_lambda V_epsilon : Q) (R : matrix)
           (xbar_indices xhat_indices : option (list nat)) : M (list var) :=
  x <- addVars_bounds system_x_lo system_x_up ;;
  '(nd, l1) <- add_lyapunov_value x x_equilibrium R xbar_indices
                                  xhat_indices ;;
  setObjective_affine
    (aff_add (aff_scale (V_epsilon - V_lambda) (l1, 0)) (aff_scale (-(1)) nd))
    MAXIMIZE ;;
  ret x.

(** [lyapunov_positivity_as_milp_tester]: the MILP with the state fixed to
    [x_val]. *)
Definition lyapunov_positivity_at (x_equilibrium : tensor)
           (V_lambda V_epsilon : Q) (R : matrix)
           (xbar_indices xhat_indices : option (list nat)) (x_val : tensor)
  : M (list var) :=
  x <- lyapunov_positivity_as_milp x_equilibrium V_lambda V_epsilon R
                                   xbar_indices xhat_indices ;;
  fix_state x x_val ;;
  ret x.

(** The objective of the Lyapunov derivative MILP in the three regimes of
    the spec, from [V(x)], [V(x_next)] and the 1-norm term at [x]. *)
Definition derivative_objective (eps_type : ConvergenceEps) (epsilon : Q)
           (V V_next l1 : AffExpr) : AffExpr :=
  let dV := aff_add V_next (aff_scale (-(1)) V) in
  match eps_type with
  | ExpLower => aff_add dV (aff_scale epsilon V)
  | ExpUpper => aff_scale (-(1)) (aff_add dV (aff_scale epsilon V))
  | Asymp => aff_add dV (aff_scale epsilon l1)
  end.

(** Modelled from the spec: "Lyapunov derivative (discrete-time) ... MILP
    couples x, x_next (via forward/feedback system encoding), and two
    independent evaluations of the lyapunov-value affine-in-slack expression
    (one at x, one at x_next), each requiring its own ReLU-encoding copy".
    Returns the variables of [x] and of [x_next]. *)
Definition lyapunov_derivative_as_milp (x_equilibrium : tensor)
           (V_lambda epsilon : Q) (eps_type : ConvergenceEps) (R : matrix)
           (xbar_indices xhat_indices : option (list nat))
  : M (list var * list var) :=
  x <- addVars_bounds system_x_lo system_x_up ;;
  x_next <- addVars system_x_dim None None CONTINUOUS ;;
  system_add_dynamics_constraint x x_next ;;
  '(nd, l1) <- add_lyapunov_value x x_equilibrium R xbar_indices
                                  xhat_indices ;;
  '(nd_next, l1_next) <- add_lyapunov_value x_next x_equilibrium R
                                            xbar_indices xhat_indices ;;
  let V := aff_add nd (aff_scale V_lambda (l1, 0)) in
  let V_next := aff_add nd_next (aff_scale V_lambda (l1_next, 0)) in
  setObjective_affine (derivative_objective eps_type epsilon V V_next (l1, 0))
                      MAXIMIZE ;;
  ret (x, x_next).

(** [lyapunov_derivative_as_milp_fixed_state]: the MILP with the state
    fixed to [x_val]. *)
Definition lyapunov_derivative_at (x_equilibrium : tensor)
           (V_lambda epsilon : Q) (eps_type : ConvergenceEps) (R : matrix)
           (xbar_indices xhat_indices : option (list nat)) (x_val : tensor)
  : M (list var * list var) :=
  xs <- lyapunov_derivative_as_milp x_equilibrium V_lambda epsilon eps_type R
                                    xbar_indices xhat_indices ;;
  fix_state (fst xs) x_val ;;
  ret xs.

(** What the tests compare the objective with. *)
Definition derivative_value (eps_type : ConvergenceEps) (epsilon : Q)
           (x_equilibrium : tensor) (V_lambda : Q) (R : matrix)
           (xbar_indices xhat_indices : option (list nat)) (x : tensor) : Q :=
  let V := lyapunov_value x x_equilibrium V_lambda R xbar_indices
                          xhat_indices in
  let V_next := lyapunov_value (system_step_forward x) x_equilibrium V_lambda
                               R xbar_indices xhat_indices in
  let xbar := _get_xbar_indices system_x_dim xbar_indices in
  match eps_type with
  | ExpLower => V_next - V + epsilon * V
  | ExpUpper => - (V_next - V + epsilon * V)
  | Asymp => V_next - V
             + epsilon * norm1 (matvec R (vsub (select 0 xbar x)
                                               (select 0 xbar x_equilibrium)))
  end.

End LyapunovEngine.

(** Modelled from the spec: the guarantee of the encoder of an autonomous
    system, section 4.3: on the box the next state is reproduced, and every
    feasible point gives it. *)
Definition autonomous_system_exact
           (step_forward : tensor -> tensor)
           (add_dynamics_constraint :
              list var -> list var -> M (list var * list var))
           (lo up : tensor) : Prop :=
  forall m x_var x_next_var,
    vars_wf (nvars m) x_var -> vars_wf (nvars m) x_next_var ->
    length x_var = length lo -> length x_next_var = length lo ->
    encodes (add_dynamics_constraint x_var x_next_var) m
            (fun a => exists xv,
                 veq (vals a x_var) xv /\ in_box lo up xv /\
                 veq (vals a x_next_var) (step_forward xv))
            (fun _ _ => True)
            (fun _ a => forall xv,
                 veq (vals a x_var) xv -> in_box lo up xv ->
                 veq (vals a x_next_var) (step_forward xv)).

(** Modelled from the spec: an autonomous linear system
    [x[n+1] = A x[n]] with the exact encoding [A x - x_next = 0] (section
    4.3, "trivial affine bundle, no binaries"). *)
Definition linear_step_forward (A : matrix) (x : tensor) : tensor :=
  matvec A x.

Definition linear_add_dynamics_constraint (A : matrix)
           (x_var x_next_var : list var) : M (list var * list var) :=
  addMConstrs [A; mneg (eye (length A))] [x_var; x_next_var] EQUAL
              (repeat 0 (length A)) ;;
  ret ([], []).

(** A gurobi variable after the two statements of the loop "Set the bounds
    of x" of [add_system_constraint],
    [if x[i].lb < x_lo[i]: x[i].lb = x_lo[i]] and
    [if x[i].ub > x_up[i]: x[i].ub = x_up[i]]. *)
Definition tightened (lo up : Q) (g : Var) : Var :=
  mkVar (if lb_lt (lb g) lo then Some lo else lb g)
        (if ub_gt (ub g) up then Some up else ub g)
        (vtype g).

(** ** [robust_value_approx/samples_buffer.py] *)

(** A 2-D tensor with its shape: the number of columns is part of the
    tensor also when it has no row ([torch.Tensor(0, samples_dim)]). *)
Record Tensor2d := mkTensor2d { ncols : nat; trows : list tensor }.

(** [t.shape[0]]. *)
Definition shape0 (t : Tensor2d) : nat := length (trows t).

(** [torch.cat((a, b), axis=0)]: the sizes must agree in every dimension
    but the first, or torch raises a [RuntimeError]. *)
Definition cat0 (a b : Tensor2d) : Error + Tensor2d :=
  if Nat.eqb (ncols a) (ncols b)
  then inr (mkTensor2d (ncols a) (trows a ++ trows b))
  else inl Exception.

(** [t[k:, :]]. *)
Definition rows_from (k : nat) (t : Tensor2d) : Tensor2d :=
  mkTensor2d (ncols t) (skipn k (trows t)).

(** [t[indices, :]] for an array of non-negative indices: an index that is
    out of range raises an [IndexError]. *)
Fixpoint index_rows (indices : list nat) (t : Tensor2d) : Error + list tensor :=
  match indices with
  | [] => inr []
  | i :: rest =>
      match nth_error (trows t) i, index_rows rest t with
      | Some row, inr rows => inr (row :: rows)
      | _, _ => inl Exception
      end
  end.

Definition take_rows (indices : list nat) (t : Tensor2d) : Error + Tensor2d :=
  match index_rows indices t with
  | inr rows => inr (mkTensor2d (ncols t) rows)
  | inl e => inl e
  end.

(** The attributes of a [SamplesBuffer]; [max_size=None] is [None]. *)
Record SamplesBuffer := mkSamplesBuffer {
  samples_dim : nat;
  max_size : option nat;
  x_samples : Tensor2d;
  v_labels : Tensor2d;
  current_sample : nat
}.

(** [SamplesBuffer.__init__(samples_dim, labels_dim, dtype, max_size)]. *)
Definition SamplesBuffer_init (samples_dim labels_dim : nat)
           (max_size : option nat) : SamplesBuffer :=
  mkSamplesBuffer samples_dim max_size
                  (mkTensor2d samples_dim []) (mkTensor2d labels_dim []) 0.

(** The property [num_samples]: "number of samples currently in the
    buffer". *)
Definition num_samples (self : SamplesBuffer) : nat := shape0 (x_samples self).

(** [SamplesBuffer.add_samples]: "Add samples to the buffer". *)
Definition add_samples (self : SamplesBuffer) (new_x_samples new_v_labels : Tensor2d)
  : Error + SamplesBuffer :=
  if negb (Nat.eqb (shape0 new_x_samples) (shape0 new_v_labels))
  then inl AssertionError else
  if match max_size self with
     | Some size => negb (Nat.leb (shape0 new_x_samples) size)
     | None => false
     end
  then inl AssertionError else
  let num_new_samples := shape0 new_x_samples in
  let '(xs, vs) :=
    match max_size self with
    | Some size =>
        if Nat.ltb size (num_samples self + num_new_samples)
        then let num_extra := (size - num_new_samples)%nat in
             (rows_from num_extra (x_samples self),
              rows_from num_extra (v_labels self))
        else (x_samples self, v_labels self)
    | None => (x_samples self, v_labels self)
    end in
  match cat0 xs new_x_samples with
  | inl e => inl e
  | inr xs' =>
      match cat0 vs new_v_labels with
      | inl e => inl e
      | inr vs' =>
          inr (mkSamplesBuffer (samples_dim self) (max_size self) xs' vs'
                               (current_sample self))
      end
  end.

(** [indices %= n] on a numpy array of non-negative integers; numpy gives 0
    for a remainder by zero (with a warning). *)
Definition np_mod (n i : nat) : nat :=
  if Nat.eqb n 0 then O else Nat.modulo i n.

(** [SamplesBuffer.get_next_sample_indices]: the indices
    [np.arange(current_sample, current_sample + num_indices) % num_samples]
    and the buffer with [current_sample = indices[-1] + 1]; [indices[-1]]
    of an empty array raises an [IndexError]. *)
Definition get_next_sample_indices (self : SamplesBuffer) (num_indices : nat)
  : Error + (list nat * SamplesBuffer) :=
  let indices :=
    map (np_mod (num_samples self))
        (seq (current_sample self) num_indices) in
  match rev indices with
  | [] => inl Exception
  | last_index :: _ =>
      inr (indices,
           mkSamplesBuffer (samples_dim self) (max_size self) (x_samples self)
                           (v_labels self) (S last_index))
  end.

(** [SamplesBuffer.get_samples_from_indices]: "tuple of tensor of the
    (samples, labels) corresponding to indices". *)
Definition get_samples_from_indices (self : SamplesBuffer) (indices : list nat)
  : Error + (Tensor2d * Tensor2d) :=
  match take_rows indices (x_samples self) with
  | inl e => inl e
  | inr xs =>
      match take_rows indices (v_labels self) with
      | inl e => inl e
      | inr vs => inr (xs, vs)
      end
  end.

(** [SamplesBuffer.get_next_samples]: "a tuple with (next samples, next
    labels)", and the buffer after the call. *)
Definition get_next_samples (self : SamplesBuffer) (num_next_samples : nat)
  : Error + (Tensor2d * Tensor2d * SamplesBuffer) :=
  match get_next_sample_indices self num_next_samples with
  | inl e => inl e
  | inr (indices, self') =>
      match get_samples_from_indices self' indices with
      | inl e => inl e
      | inr (xs, vs) => inr (xs, vs, self')
      end
  end.

(** [m'] has the variables and the constraints of [m], as they are, and
    possibly more of both. *)
Definition extends_model (m m' : GurobiTorchMIP) : Prop :=
  exists vs cs, vars m' = vars m ++ vs /\ constrs m' = constrs m ++ cs.

(* ================================================================== *)
(** * Part II.  Properties                                             *)
(* ================================================================== *)

(** ** Tensors *)

Lemma veq_refl (u : tensor) : veq u u.
Proof. induction u; constructor; auto. reflexivity. Qed.

Lemma veq_sym (u v : tensor) : veq u v -> veq v u.
Proof. induction 1; constructor; auto. symmetry; assumption. Qed.

Lemma veq_trans (u v w : tensor) : veq u v -> veq v w -> veq u w.
Proof.
  intros H; revert w. induction H; intros w Hw; inversion Hw; subst;
    constructor.
  - eapply Qeq_trans; eassumption.
  - apply IHForall2. assumption.
Qed.

Lemma veq_length (u v : tensor) : veq u v -> length u = length v.
Proof. induction 1; simpl; congruence. Qed.

Lemma vle_length (u v : tensor) : vle u v -> length u = length v.
Proof. induction 1; simpl; congruence. Qed.

Lemma veq_nth (u v : tensor) (i : nat) : veq u v -> nth i u 0 == nth i v 0.
Proof.
  intros H; revert i. induction H; intros [|i]; simpl; auto; reflexivity.
Qed.

Lemma vle_nth (u v : tensor) (i : nat) : vle u v -> nth i u 0 <= nth i v 0.
Proof.
  intros H; revert i. induction H; intros [|i]; simpl; auto; apply Qle_refl.
Qed.

Lemma veq_of_nth (u v : tensor) :
  length u = length v ->
  (forall i, (i < length u)%nat -> nth i u 0 == nth i v 0) -> veq u v.
Proof.
  revert v. induction u as [|x u IH]; intros [|y v] Hl H; simpl in *;
    try discriminate; constructor.
  - apply (H O). lia.
  - apply IH; [lia|]. intros i Hi. apply (H (S i)). lia.
Qed.

Lemma vle_of_nth (u v : tensor) :
  length u = length v ->
  (forall i, (i < length u)%nat -> nth i u 0 <= nth i v 0) -> vle u v.
Proof.
  revert v. induction u as [|x u IH]; intros [|y v] Hl H; simpl in *;
    try discriminate; constructor.
  - apply (H O). lia.
  - apply IH; [lia|]. intros i Hi. apply (H (S i)). lia.
Qed.

Lemma vle_veq_l (u u' v : tensor) : veq u u' -> vle u v -> vle u' v.
Proof.
  intros H; revert v. induction H; intros w Hw; inversion Hw; subst;
    constructor.
  - lra.
  - apply IHForall2. assumption.
Qed.

Lemma vle_veq_r (u v v' : tensor) : veq v v' -> vle u v -> vle u v'.
Proof.
  intros H; revert u. induction H; intros w Hw; inversion Hw; subst;
    constructor.
  - lra.
  - apply IHForall2. assumption.
Qed.

Lemma in_box_veq (lo up x x' : tensor) :
  veq x x' -> in_box lo up x -> in_box lo up x'.
Proof.
  intros H [H1 H2]. split; [eapply vle_veq_r | eapply vle_veq_l]; eauto.
Qed.

Lemma vleb_spec (u v : tensor) : vleb u v = true <-> vle u v.
Proof.
  unfold vleb. rewrite andb_true_iff, Nat.eqb_eq. split.
  - intros [Hl H]. revert v Hl H.
    induction u as [|x u IH]; intros [|y v] Hl H; simpl in *;
      try discriminate; constructor.
    + apply andb_true_iff in H. apply Qle_bool_iff. apply H.
    + apply andb_true_iff in H. apply IH; [lia | apply H].
  - induction 1; simpl; [auto|]. destruct IHForall2 as [Hl Hb].
    split; [lia|]. rewrite andb_true_iff. split; [|assumption].
    apply Qle_bool_iff. assumption.
Qed.

Lemma zipWith_length {A B C} (f : A -> B -> C) (u : list A) (v : list B) :
  length (zipWith f u v) = Nat.min (length u) (length v).
Proof. revert v. induction u; intros [|y v]; simpl; auto. Qed.

Lemma zipWith_nth {A B C} (f : A -> B -> C) (u : list A) (v : list B)
      (i : nat) (da : A) (db : B) (dc : C) :
  (i < length u)%nat -> (i < length v)%nat ->
  nth i (zipWith f u v) dc = f (nth i u da) (nth i v db).
Proof.
  revert v i. induction u as [|x u IH]; intros [|y v] [|i] Hu Hv; simpl in *;
    try lia; auto. apply IH; lia.
Qed.

Lemma vadd_nth (u v : tensor) (i : nat) :
  (i < length u)%nat -> (i < length v)%nat ->
  nth i (vadd u v) 0 = nth i u 0 + nth i v 0.
Proof. apply zipWith_nth. Qed.

Lemma vsub_nth (u v : tensor) (i : nat) :
  (i < length u)%nat -> (i < length v)%nat ->
  nth i (vsub u v) 0 = nth i u 0 - nth i v 0.
Proof. apply zipWith_nth. Qed.

Lemma vneg_nth (u : tensor) (i : nat) : nth i (vneg u) 0 == - nth i u 0.
Proof.
  revert i. induction u as [|x u IH]; intros [|i]; simpl; try reflexivity.
  apply IH.
Qed.

Lemma matvec_nth (A : matrix) (x : tensor) (i : nat) :
  nth i (matvec A x) 0 == dot (nth i A []) x.
Proof.
  revert i. induction A as [|r A IH]; intros [|i]; simpl; try reflexivity.
  apply IH.
Qed.

Lemma dot_nil_r (c : tensor) : dot c [] = 0.
Proof. destruct c; reflexivity. Qed.

Lemma dot_vneg (c v : tensor) : dot (vneg c) v == - dot c v.
Proof.
  revert v. induction c as [|x c IH]; intros [|y v]; simpl; try reflexivity.
  rewrite IH. ring.
Qed.

Lemma dot_veq (c u v : tensor) : veq u v -> dot c u == dot c v.
Proof.
  intros H; revert c. induction H; intros [|z c]; simpl; try reflexivity.
  rewrite H, (IHForall2 c). reflexivity.
Qed.

Lemma norm1_cons (x : Q) (u : tensor) : norm1 (x :: u) = Qabs x + norm1 u.
Proof. reflexivity. Qed.

Lemma norm1_veq (u v : tensor) : veq u v -> norm1 u == norm1 v.
Proof.
  induction 1 as [|x y u v Hxy Huv IH]; [reflexivity|].
  rewrite !norm1_cons, IH, Hxy. reflexivity.
Qed.

Lemma dot_indicator (i k n : nat) (v : tensor) :
  dot (map (fun j => if Nat.eqb i j then 1 else 0) (seq k n)) v ==
  if ((k <=? i) && (i <? k + n))%nat then nth (i - k) v 0 else 0.
Proof.
  revert k v. induction n as [|n IH]; intros k v; simpl.
  - replace ((k <=? i) && (i <? k + 0))%nat with false; [reflexivity|].
    symmetry. apply andb_false_iff.
    destruct (Nat.leb_spec k i); [right; apply Nat.ltb_ge; lia | now left].
  - destruct v as [|y v].
    + destruct ((k <=? i) && (i <? k + S n))%nat; [|reflexivity].
      destruct (i - k)%nat; reflexivity.
    + rewrite IH. destruct (Nat.eqb_spec i k) as [->|Hne].
      * rewrite Nat.leb_refl, Nat.sub_diag.
        replace (S k <=? k)%nat with false
          by (symmetry; apply Nat.leb_gt; lia).
        replace (k <? k + S n)%nat with true
          by (symmetry; apply Nat.ltb_lt; lia). simpl. ring.
      * destruct (Nat.leb_spec k i).
        -- replace (S k <=? i)%nat with true
             by (symmetry; apply Nat.leb_le; lia).
           replace (i <? S k + n)%nat with (i <? k + S n)%nat
             by (f_equal; lia).
           simpl. destruct (i <? k + S n)%nat; [|ring].
           replace (i - k)%nat with (S (i - S k)) by lia. simpl. ring.
        -- replace (S k <=? i)%nat with false
             by (symmetry; apply Nat.leb_gt; lia). simpl. ring.
Qed.

Lemma dot_eye_row (n i : nat) (v : tensor) :
  (i < n)%nat -> dot (eye_row n i) v == nth i v 0.
Proof.
  intros H. unfold eye_row. rewrite dot_indicator. simpl.
  replace (i <? n)%nat with true by (symmetry; apply Nat.ltb_lt; lia).
  rewrite Nat.sub_0_r. reflexivity.
Qed.

Lemma nth_eye (n i : nat) : (i < n)%nat -> nth i (eye n) [] = eye_row n i.
Proof.
  intros H. unfold eye.
  rewrite (nth_indep _ [] (eye_row n 0)) by (rewrite length_map, length_seq; lia).
  rewrite (map_nth (eye_row n)), seq_nth by lia. reflexivity.
Qed.

Lemma nth_mneg (A : matrix) (i : nat) : nth i (mneg A) [] = vneg (nth i A []).
Proof. unfold mneg. change [] with (vneg []) at 1. apply map_nth. Qed.

(** ** The MIP store *)

Lemma eval_app (a : assignment) (e1 e2 : LinExpr) :
  eval a (e1 ++ e2) == eval a e1 + eval a e2.
Proof.
  induction e1 as [|[c v] e1 IH]; simpl; [ring|]. rewrite IH. ring.
Qed.

Lemma eval_combine (a : assignment) (c : tensor) (v : list var) :
  eval a (combine c v) == dot c (vals a v).
Proof.
  revert v. induction c as [|x c IH]; intros [|y v]; simpl; try reflexivity.
  rewrite IH. reflexivity.
Qed.

Lemma eval_lin_cons (a : assignment) (c : tensor) (v : list var)
      (cs : list tensor) (vs : list (list var)) :
  eval a (lin (c :: cs) (v :: vs)) == dot c (vals a v) + eval a (lin cs vs).
Proof.
  unfold lin. simpl. rewrite eval_app, eval_combine. reflexivity.
Qed.

Lemma eval_lin_nil_l (a : assignment) (vs : list (list var)) :
  eval a (lin [] vs) == 0.
Proof. reflexivity. Qed.

Lemma eval_lin_nil_r (a : assignment) (cs : list tensor) :
  eval a (lin cs []) == 0.
Proof. destruct cs; reflexivity. Qed.

Lemma holdsb_spec (a : assignment) (c : LConstr) :
  holdsb a c = true <-> holds a c.
Proof.
  unfold holdsb, holds. destruct (sense c).
  - apply Qle_bool_iff.
  - apply Qeq_bool_iff.
  - apply Qle_bool_iff.
Qed.

Lemma var_okb_spec (v : Var) (q : Q) : var_okb v q = true <-> var_ok v q.
Proof.
  unfold var_okb, var_ok, lb_ok, ub_ok.
  rewrite !andb_true_iff.
  assert (Hl : match lb v with Some b => Qle_bool b q | None => true end = true
               <-> match lb v with Some b => b <= q | None => True end)
    by (destruct (lb v); [apply Qle_bool_iff | tauto]).
  assert (Hu : match ub v with Some b => Qle_bool q b | None => true end = true
               <-> match ub v with Some b => q <= b | None => True end)
    by (destruct (ub v); [apply Qle_bool_iff | tauto]).
  rewrite Hl, Hu. destruct (vtype v).
  - intuition discriminate.
  - rewrite orb_true_iff, !Qeq_bool_iff. intuition.
Qed.

Lemma feasibleb_spec (m : GurobiTorchMIP) (a : assignment) :
  feasibleb m a = true <-> feasible m a.
Proof.
  unfold feasibleb, feasible, nvars. rewrite andb_true_iff.
  rewrite !forallb_forall. rewrite Forall_forall.
  assert (Hc : (forall x, In x (constrs m) -> holdsb a x = true) <->
               (forall x, In x (constrs m) -> holds a x)).
  { split; intros H x Hx; apply holdsb_spec; auto. }
  rewrite Hc. clear Hc.
  assert (Hv : (forall x, In x (combine (seq 0 (length (vars m))) (vars m)) ->
                          var_okb (snd x) (a (fst x)) = true) <->
               (forall i v, nth_error (vars m) i = Some v -> var_ok v (a i))).
  { generalize (vars m). intros l.
    assert (G : forall k, (forall x, In x (combine (seq k (length l)) l) ->
                            var_okb (snd x) (a (fst x)) = true) <->
                   (forall i v, nth_error l i = Some v -> var_ok v (a (k + i)%nat))).
    { induction l as [|g l IH]; intros k; simpl.
      - split; [intros _ [|i] v Hv; discriminate | intros _ x []].
      - split.
        + intros H [|i] v Hv; simpl in Hv.
          * injection Hv as <-. rewrite Nat.add_0_r.
            apply var_okb_spec. apply (H (k, g)). now left.
          * replace (k + S i)%nat with (S k + i)%nat by lia.
            apply (proj1 (IH (S k))); [|assumption].
            intros x Hx. apply H. right. assumption.
        + intros H x [<-|Hx].
          * simpl. apply var_okb_spec. rewrite <- (Nat.add_0_r k).
            apply H. reflexivity.
          * apply (proj2 (IH (S k))); [|assumption].
            intros i v Hv. replace (S k + i)%nat with (k + S i)%nat by lia.
            apply H. assumption. }
    apply (G O). }
  rewrite Hv. reflexivity.
Qed.

Lemma expr_wf_mono (n n' : nat) (e : LinExpr) :
  (n <= n')%nat -> expr_wf n e -> expr_wf n' e.
Proof.
  intros Hn H. unfold expr_wf in *. rewrite Forall_forall in *.
  intros x Hx. specialize (H x Hx). simpl in *. lia.
Qed.

Lemma vars_wf_mono (n n' : nat) (xs : list var) :
  (n <= n')%nat -> vars_wf n xs -> vars_wf n' xs.
Proof.
  intros Hn H. unfold vars_wf in *. rewrite Forall_forall in *.
  intros x Hx. specialize (H x Hx). simpl in *. lia.
Qed.

Lemma vars_wf_seq (k n n' : nat) : (k + n <= n')%nat -> vars_wf n' (seq k n).
Proof.
  intros H. unfold vars_wf. rewrite Forall_forall. intros x Hx.
  apply in_seq in Hx. lia.
Qed.

Lemma vars_wf_nth (n : nat) (xs : list var) (i : nat) :
  vars_wf n xs -> (i < length xs)%nat -> (nth i xs O < n)%nat.
Proof.
  intros H Hi. unfold vars_wf in H. rewrite Forall_forall in H.
  apply H. apply nth_In. assumption.
Qed.

Lemma expr_wf_app (n : nat) (e1 e2 : LinExpr) :
  expr_wf n e1 -> expr_wf n e2 -> expr_wf n (e1 ++ e2).
Proof. intros. apply Forall_app. split; assumption. Qed.

Lemma expr_wf_combine (n : nat) (c : tensor) (v : list var) :
  vars_wf n v -> expr_wf n (combine c v).
Proof.
  intros H. unfold expr_wf, vars_wf in *. rewrite Forall_forall in *.
  intros [q x] Hx. apply in_combine_r in Hx. simpl. apply H. assumption.
Qed.

Lemma expr_wf_lin (n : nat) (cs : list tensor) (vs : list (list var)) :
  Forall (vars_wf n) vs -> expr_wf n (lin cs vs).
Proof.
  intros H. revert cs. induction H as [|v vs Hv Hvs IH]; intros [|c cs];
    unfold lin; simpl; try constructor.
  apply expr_wf_app; [apply expr_wf_combine; assumption | apply IH].
Qed.

Lemma agree_refl (n : nat) (a : assignment) : agree n a a.
Proof. intros i _. reflexivity. Qed.

Lemma agree_trans (n n' : nat) (a a' a'' : assignment) :
  (n <= n')%nat -> agree n a a' -> agree n' a' a'' -> agree n a a''.
Proof.
  intros Hn H1 H2 i Hi. rewrite H2 by lia. apply H1. assumption.
Qed.

Lemma agree_mono (n n' : nat) (a a' : assignment) :
  (n <= n')%nat -> agree n' a a' -> agree n a a'.
Proof. intros Hn H i Hi. apply H. lia. Qed.

Lemma eval_agree (n : nat) (a a' : assignment) (e : LinExpr) :
  expr_wf n e -> agree n a a' -> eval a' e = eval a e.
Proof.
  intros He Ha. induction e as [|[c v] e IH]; simpl; [reflexivity|].
  inversion He; subst. simpl in *. rewrite IH by assumption.
  rewrite Ha by assumption. reflexivity.
Qed.

Lemma vals_agree (n : nat) (a a' : assignment) (xs : list var) :
  vars_wf n xs -> agree n a a' -> vals a' xs = vals a xs.
Proof.
  intros Hx Ha. unfold vals. apply map_ext_in. intros x Hin.
  apply Ha. unfold vars_wf in Hx. rewrite Forall_forall in Hx. auto.
Qed.

Lemma holds_agree (n : nat) (a a' : assignment) (c : LConstr) :
  expr_wf n (expr c) -> agree n a a' -> holds a c -> holds a' c.
Proof.
  intros He Ha. unfold holds. rewrite (eval_agree n a a') by assumption.
  trivial.
Qed.

Lemma feasible_agree (m : GurobiTorchMIP) (a a' : assignment) :
  wf_mip m -> agree (nvars m) a a' -> feasible m a -> feasible m a'.
Proof.
  intros Hwf Ha [Hv Hc]. split.
  - intros i v Hi. rewrite Ha.
    + apply Hv. assumption.
    + apply nth_error_Some. unfold nvars. congruence.
  - unfold wf_mip in Hwf. rewrite Forall_forall in *.
    intros c Hin. eapply holds_agree; eauto.
Qed.

Lemma nvars_add_vars (m : GurobiTorchMIP) (vs : list Var) :
  nvars (mip_add_vars m vs) = (nvars m + length vs)%nat.
Proof. unfold nvars, mip_add_vars. simpl. apply length_app. Qed.

Lemma feasible_add_vars (m : GurobiTorchMIP) (vs : list Var) (a : assignment) :
  feasible (mip_add_vars m vs) a <->
  feasible m a /\
  (forall k v, nth_error vs k = Some v -> var_ok v (a (nvars m + k)%nat)).
Proof.
  unfold feasible, mip_add_vars, nvars. simpl. split.
  - intros [Hv Hc]. split; [split|]; [|assumption|].
    + intros i v Hi. apply Hv. rewrite nth_error_app1; [assumption|].
      apply nth_error_Some. congruence.
    + intros k v Hk. apply Hv. rewrite nth_error_app2 by lia.
      replace (length (vars m) + k - length (vars m))%nat with k by lia.
      assumption.
  - intros [[Hv Hc] Hn]. split; [|assumption].
    intros i v Hi. destruct (Nat.lt_ge_cases i (length (vars m))).
    + rewrite nth_error_app1 in Hi by assumption. auto.
    + rewrite nth_error_app2 in Hi by assumption.
      replace i with (length (vars m) + (i - length (vars m)))%nat by lia.
      auto.
Qed.

Lemma wf_add_vars (m : GurobiTorchMIP) (vs : list Var) :
  wf_mip m -> wf_mip (mip_add_vars m vs).
Proof.
  unfold wf_mip. rewrite nvars_add_vars. simpl. intros H.
  rewrite Forall_forall in *. intros c Hc.
  eapply expr_wf_mono; [|apply H; assumption]. lia.
Qed.

Lemma feasible_add_constrs (m : GurobiTorchMIP) (cs : list LConstr)
      (a : assignment) :
  feasible (mip_add_constrs m cs) a <-> feasible m a /\ Forall (holds a) cs.
Proof.
  unfold feasible, mip_add_constrs. simpl. rewrite Forall_app. tauto.
Qed.

Lemma wf_add_constrs (m : GurobiTorchMIP) (cs : list LConstr) :
  wf_mip m -> Forall (fun c => expr_wf (nvars m) (expr c)) cs ->
  wf_mip (mip_add_constrs m cs).
Proof.
  unfold wf_mip, mip_add_constrs, nvars. simpl. intros H1 H2.
  apply Forall_app. split; assumption.
Qed.

Lemma nvars_add_constrs (m : GurobiTorchMIP) (cs : list LConstr) :
  nvars (mip_add_constrs m cs) = nvars m.
Proof. reflexivity. Qed.

Lemma vars_wf_add_constrs (m : GurobiTorchMIP) (cs : list LConstr)
      (xs : list var) :
  vars_wf (nvars m) xs -> vars_wf (nvars (mip_add_constrs m cs)) xs.
Proof. intros H. exact H. Qed.

Ltac wf_vars :=
  repeat match goal with
         | |- vars_wf (nvars (mip_add_constrs _ _)) _ =>
             apply vars_wf_add_constrs
         end;
  first [ assumption
        | eapply vars_wf_mono; [|eassumption]; lia ].

(** The rows [addMConstrs] adds, one per entry of [b]. *)
Lemma Forall_mrows (P : LConstr -> Prop) (A : list matrix)
      (vs : list (list var)) (s : Sense) (b : tensor) :
  Forall P (map (mrow A vs s) (combine (seq 0 (length b)) b)) <->
  (forall i, (i < length b)%nat -> P (mrow A vs s (i, nth i b 0))).
Proof.
  rewrite Forall_forall. split.
  - intros H i Hi. apply H. apply in_map.
    replace (i, nth i b 0) with (nth i (combine (seq 0 (length b)) b) (O, 0)).
    + apply nth_In. rewrite length_combine, length_seq. lia.
    + rewrite combine_nth by (rewrite length_seq; reflexivity).
      rewrite seq_nth by assumption. reflexivity.
  - intros H c Hc. apply in_map_iff in Hc. destruct Hc as [[i q] [<- Hin]].
    destruct (In_nth _ _ (O, 0) Hin) as [k [Hk Hnth]].
    rewrite length_combine, length_seq, Nat.min_id in Hk.
    rewrite combine_nth in Hnth by (rewrite length_seq; reflexivity).
    rewrite seq_nth in Hnth by assumption. simpl in Hnth.
    injection Hnth as <- <-. apply H. assumption.
Qed.

(** ** Reasoning about MIP-building code *)

Lemma bind_Ok {A B} (c : M A) (k : A -> M B) (m m1 : GurobiTorchMIP) (r : A) :
  c m = Ok r m1 -> bind c k m = k r m1.
Proof. intros H. unfold bind. rewrite H. reflexivity. Qed.

Lemma bind_Raise {A B} (c : M A) (k : A -> M B) (m : GurobiTorchMIP)
      (e : Error) :
  c m = Raise e -> bind c k m = Raise e.
Proof. intros H. unfold bind. rewrite H. reflexivity. Qed.

Lemma encodes_intro {A} (c : M A) (m : GurobiTorchMIP) (r : A)
      (m' : GurobiTorchMIP) (Pre : assignment -> Prop)
      (Ret : A -> GurobiTorchMIP -> Prop) (Post : A -> assignment -> Prop) :
  c m = Ok r m' ->
  (nvars m <= nvars m')%nat ->
  (wf_mip m -> wf_mip m') ->
  Ret r m' ->
  (forall a, feasible m' a -> feasible m a /\ Post r a) ->
  (wf_mip m -> forall a, feasible m a -> Pre a ->
               exists a', agree (nvars m) a a' /\ feasible m' a') ->
  encodes c m Pre Ret Post.
Proof. intros. exists r, m'. tauto. Qed.

Lemma encodes_weaken {A} (c : M A) (m : GurobiTorchMIP)
      (Pre Pre' : assignment -> Prop) (Ret Ret' : A -> GurobiTorchMIP -> Prop)
      (Post Post' : A -> assignment -> Prop) :
  encodes c m Pre Ret Post ->
  (forall a, feasible m a -> Pre' a -> Pre a) ->
  (forall r m', c m = Ok r m' -> (nvars m <= nvars m')%nat ->
                Ret r m' -> Ret' r m') ->
  (forall r a, feasible m a -> Post r a -> Post' r a) ->
  encodes c m Pre' Ret' Post'.
Proof.
  intros (r & m' & Hrun & Hn & Hwf & Hret & Hs & Hc) HPre HRet HPost.
  apply (encodes_intro _ _ r m').
  - assumption.
  - assumption.
  - assumption.
  - apply HRet; assumption.
  - intros a Ha. destruct (Hs a Ha). auto.
  - intros Hw a Ha HP. apply Hc; auto.
Qed.

Lemma encodes_ret {A} (r : A) (m : GurobiTorchMIP) :
  encodes (ret r) m (fun _ => True) (fun r' m' => r' = r /\ m' = m)
          (fun r' _ => r' = r).
Proof.
  apply (encodes_intro _ _ r m); auto.
  intros _ a Ha _. exists a. split; [apply agree_refl | assumption].
Qed.

Lemma encodes_bind_sound {A B} (c : M A) (k : A -> M B) (m : GurobiTorchMIP)
      (Pre1 : assignment -> Prop) (Ret1 : A -> GurobiTorchMIP -> Prop)
      (Post1 : A -> assignment -> Prop)
      (Pre : assignment -> Prop) (Ret : B -> GurobiTorchMIP -> Prop)
      (Post : B -> assignment -> Prop) :
  encodes c m Pre1 Ret1 Post1 ->
  (forall a, feasible m a -> Pre a -> Pre1 a) ->
  (forall r1 m1, c m = Ok r1 m1 -> Ret1 r1 m1 -> (nvars m <= nvars m1)%nat ->
     (forall a, feasible m1 a -> feasible m a /\ Post1 r1 a) ->
     exists Pre2 Post2,
       encodes (k r1) m1 Pre2 Ret Post2 /\
       (forall a a1, feasible m a -> Pre a -> agree (nvars m) a a1 ->
                     feasible m1 a1 -> Post1 r1 a1 -> Pre2 a1) /\
       (forall r2 a, feasible m a -> Post1 r1 a -> Post2 r2 a -> Post r2 a)) ->
  encodes (bind c k) m Pre Ret Post.
Proof.
  intros (r1 & m1 & Hrun1 & Hn1 & Hwf1 & Hret1 & Hs1 & Hc1) HPre Hk.
  destruct (Hk r1 m1 Hrun1 Hret1 Hn1 Hs1)
    as (Pre2 & Post2 & (r2 & m2 & Hrun2 & Hn2 & Hwf2 & Hret2 & Hs2 & Hc2)
        & HPre2 & HPost).
  apply (encodes_intro _ _ r2 m2).
  - rewrite (bind_Ok _ _ _ _ _ Hrun1). assumption.
  - lia.
  - auto.
  - assumption.
  - intros a Ha. destruct (Hs2 a Ha) as [Ha1 HP2].
    destruct (Hs1 a Ha1) as [Ha0 HP1]. split; [assumption|].
    eapply HPost; eassumption.
  - intros Hwf a Ha HP.
    destruct (Hc1 Hwf a Ha (HPre a Ha HP)) as (a1 & Hag1 & Hf1).
    assert (HP2 : Pre2 a1).
    { apply (HPre2 a a1); auto. apply Hs1. assumption. }
    destruct (Hc2 (Hwf1 Hwf) a1 Hf1 HP2) as (a2 & Hag2 & Hf2).
    exists a2. split; [|assumption].
    eapply agree_trans; eauto.
Qed.

Lemma encodes_bind {A B} (c : M A) (k : A -> M B) (m : GurobiTorchMIP)
      (Pre1 : assignment -> Prop) (Ret1 : A -> GurobiTorchMIP -> Prop)
      (Post1 : A -> assignment -> Prop)
      (Pre : assignment -> Prop) (Ret : B -> GurobiTorchMIP -> Prop)
      (Post : B -> assignment -> Prop) :
  encodes c m Pre1 Ret1 Post1 ->
  (forall a, feasible m a -> Pre a -> Pre1 a) ->
  (forall r1 m1, c m = Ok r1 m1 -> Ret1 r1 m1 -> (nvars m <= nvars m1)%nat ->
     exists Pre2 Post2,
       encodes (k r1) m1 Pre2 Ret Post2 /\
       (forall a a1, feasible m a -> Pre a -> agree (nvars m) a a1 ->
                     feasible m1 a1 -> Post1 r1 a1 -> Pre2 a1) /\
       (forall r2 a, Post1 r1 a -> Post2 r2 a -> Post r2 a)) ->
  encodes (bind c k) m Pre Ret Post.
Proof.
  intros H HPre Hk. eapply encodes_bind_sound; [exact H | exact HPre |].
  intros r1 m1 Hrun Hret Hn _.
  destruct (Hk r1 m1 Hrun Hret Hn) as (Pre2 & Post2 & H1 & H2 & H3).
  exists Pre2, Post2. split; [assumption|]. split; [assumption|].
  intros r2 a _. apply H3.
Qed.

Lemma encodes_assert {B} (b : bool) (k : M B) (m : GurobiTorchMIP)
      (Pre : assignment -> Prop) (Ret : B -> GurobiTorchMIP -> Prop)
      (Post : B -> assignment -> Prop) :
  b = true -> encodes k m Pre Ret Post ->
  encodes (bind (assert_ b) (fun _ => k)) m Pre Ret Post.
Proof.
  intros -> H. exact H.
Qed.

Lemma encodes_ret_bind {A B} (r : A) (k : A -> M B) (m : GurobiTorchMIP)
      (Pre : assignment -> Prop) (Ret : B -> GurobiTorchMIP -> Prop)
      (Post : B -> assignment -> Prop) :
  encodes (k r) m Pre Ret Post -> encodes (bind (ret r) k) m Pre Ret Post.
Proof.
  intros H. exact H.
Qed.

Lemma encodes_add_constrs (cs : list LConstr) (m : GurobiTorchMIP) :
  Forall (fun c => expr_wf (nvars m) (expr c)) cs ->
  encodes (add_constrs cs) m (fun a => Forall (holds a) cs)
          (fun _ m' => m' = mip_add_constrs m cs)
          (fun _ a => Forall (holds a) cs).
Proof.
  intros Hcs. apply (encodes_intro _ _ tt (mip_add_constrs m cs)).
  - reflexivity.
  - rewrite nvars_add_constrs; lia.
  - intros; apply wf_add_constrs; assumption.
  - reflexivity.
  - intros a Ha. apply feasible_add_constrs in Ha. assumption.
  - intros _ a Ha HP. exists a. split; [apply agree_refl|].
    apply feasible_add_constrs. split; assumption.
Qed.

Lemma agree_override (a : assignment) (n : nat) (w : tensor) :
  agree n a (override a n w).
Proof.
  intros i Hi. unfold override.
  replace (i <? n)%nat with true by (symmetry; apply Nat.ltb_lt; lia).
  reflexivity.
Qed.

Lemma override_new (a : assignment) (n k : nat) (w : tensor) :
  override a n w (n + k)%nat = nth k w 0.
Proof.
  unfold override.
  replace (n + k <? n)%nat with false by (symmetry; apply Nat.ltb_ge; lia).
  replace (n + k - n)%nat with k by lia. reflexivity.
Qed.

Lemma vals_override_new (a : assignment) (n k : nat) (w : tensor) :
  length w = k -> vals (override a n w) (seq n k) = w.
Proof.
  intros <-. unfold vals. revert n a. induction w as [|x w IH]; intros n a;
    simpl; [reflexivity|].
  f_equal.
  - unfold override. rewrite Nat.ltb_irrefl, Nat.sub_diag. reflexivity.
  - etransitivity; [|apply (IH (S n) a)].
    apply map_ext_in. intros i Hi. apply in_seq in Hi.
    unfold override.
    replace (i <? n)%nat with false by (symmetry; apply Nat.ltb_ge; lia).
    replace (i <? S n)%nat with false by (symmetry; apply Nat.ltb_ge; lia).
    replace (i - n)%nat with (S (i - S n)) by lia. reflexivity.
Qed.

(** Allocating variables whose values later code determines: values [w]
    are chosen for them when a feasible point is extended. *)
Lemma encodes_addVars_bind_ex {B} (num : nat) (l u : limit) (t : VType)
      (k : list var -> M B) (m : GurobiTorchMIP)
      (Pre Pre2 : assignment -> Prop) (Ret : B -> GurobiTorchMIP -> Prop)
      (Post : B -> assignment -> Prop) :
  encodes (k (seq (nvars m) num))
          (mip_add_vars m (repeat (mkVar l u t) num)) Pre2 Ret Post ->
  (forall a, feasible m a -> Pre a ->
             exists w, length w = num /\
                       Forall (var_ok (mkVar l u t)) w /\
                       Pre2 (override a (nvars m) w)) ->
  encodes (bind (addVars num l u t) k) m Pre Ret Post.
Proof.
  intros (r & m' & Hrun & Hn & Hwf & Hret & Hs & Hc) HW.
  apply (encodes_intro _ _ r m').
  - exact Hrun.
  - rewrite nvars_add_vars in Hn. lia.
  - intros H. apply Hwf. apply wf_add_vars. assumption.
  - assumption.
  - intros a Ha. destruct (Hs a Ha) as [Ha1 HP]. split; [|assumption].
    apply feasible_add_vars in Ha1. apply Ha1.
  - intros Hwfm a Ha HP. destruct (HW a Ha HP) as (w & Hlen & Hok & HP2).
    set (a1 := override a (nvars m) w) in *.
    assert (Hf1 : feasible (mip_add_vars m (repeat (mkVar l u t) num)) a1).
    { apply feasible_add_vars. split.
      - eapply feasible_agree; eauto. apply agree_override.
      - intros j v Hj. unfold a1. rewrite override_new.
        assert (Hjn : (j < num)%nat).
        { rewrite <- (repeat_length (mkVar l u t) num).
          apply nth_error_Some. congruence. }
        apply nth_error_In in Hj. apply repeat_spec in Hj. subst v.
        rewrite Forall_forall in Hok. apply Hok. apply nth_In. lia. }
    destruct (Hc (wf_add_vars _ _ Hwfm) a1 Hf1 HP2) as (a2 & Hag & Hf2).
    exists a2. split; [|assumption].
    eapply agree_trans; [| apply agree_override | exact Hag].
    rewrite nvars_add_vars. lia.
Qed.

Lemma encodes_addVars_bind {B} (num : nat) (l u : limit) (t : VType)
      (k : list var -> M B) (m : GurobiTorchMIP) (W : assignment -> tensor)
      (Pre Pre2 : assignment -> Prop) (Ret : B -> GurobiTorchMIP -> Prop)
      (Post : B -> assignment -> Prop) :
  encodes (k (seq (nvars m) num))
          (mip_add_vars m (repeat (mkVar l u t) num)) Pre2 Ret Post ->
  (forall a, feasible m a -> Pre a ->
             length (W a) = num /\
             Forall (var_ok (mkVar l u t)) (W a) /\
             Pre2 (override a (nvars m) (W a))) ->
  encodes (bind (addVars num l u t) k) m Pre Ret Post.
Proof.
  intros H HW. eapply encodes_addVars_bind_ex; [exact H|].
  intros a Ha HP. exists (W a). apply HW; assumption.
Qed.

Lemma encodes_for_each {I} (body : I -> M unit) (n0 : nat)
      (Pre Post : I -> assignment -> Prop) (l : list I) :
  (forall i, In i l -> stable n0 (Pre i)) ->
  (forall i m, In i l -> (n0 <= nvars m)%nat ->
               encodes (body i) m (Pre i) (fun _ _ => True) (fun _ => Post i)) ->
  forall m, (n0 <= nvars m)%nat ->
    encodes (for_each l body) m
            (fun a => forall i, In i l -> Pre i a)
            (fun _ _ => True)
            (fun _ a => forall i, In i l -> Post i a).
Proof.
  induction l as [|i l IH]; intros Hst Hbody m Hm; simpl.
  - eapply encodes_weaken; [apply encodes_ret | | |]; simpl; auto.
    intros _ a _ _ j [].
  - eapply encodes_bind.
    + apply (Hbody i m); [now left | assumption].
    + intros a _ H. apply H. now left.
    + intros [] m1 Hrun _ Hn.
      exists (fun a => forall j, In j l -> Pre j a),
             (fun _ a => forall j, In j l -> Post j a).
      split; [|split].
      * apply IH; [| |lia].
        -- intros j Hj. apply Hst. now right.
        -- intros j m' Hj Hm'. apply Hbody; [now right | assumption].
      * intros a a1 _ HP Hag _ _ j Hj.
        apply (Hst j (or_intror Hj) a a1).
        -- eapply agree_mono; eauto.
        -- apply HP. now right.
      * intros _ a Hi Hl j [<-|Hj]; auto.
Qed.

(** A loop in which one iteration fails an assertion raises
    [AssertionError], provided the iterations before it either succeed,
    keeping the invariant [Inv], or fail an assertion themselves. *)
Lemma for_each_raises {I} (body : I -> M unit) (Inv : GurobiTorchMIP -> Prop)
      (l : list I) (bad : I) :
  In bad l ->
  (forall m, Inv m -> body bad m = Raise AssertionError) ->
  (forall i m, In i l -> Inv m ->
     body i m = Raise AssertionError \/
     exists m', body i m = Ok tt m' /\ Inv m') ->
  forall m, Inv m -> for_each l body m = Raise AssertionError.
Proof.
  induction l as [|i l IH]; intros Hin Hbad Hstep m Hm; [destruct Hin|].
  simpl. destruct (Hstep i m (or_introl eq_refl) Hm) as [Hr | (m' & Hok & Hm')].
  - apply bind_Raise. assumption.
  - rewrite (bind_Ok _ _ _ _ _ Hok). destruct Hin as [->|Hin].
    + rewrite Hbad in Hok by assumption. discriminate.
    + apply IH; auto. intros j m0 Hj. apply Hstep. now right.
Qed.

(** ** The saturation block *)

Lemma Qmin_case_le (x y : Q) : (x <= y /\ Qmin x y == x) \/ (y <= x /\ Qmin x y == y).
Proof.
  destruct (Q.min_spec x y) as [[H1 H2]|[H1 H2]]; [left | right]; split;
    auto; lra.
Qed.

Lemma Qmax_case_le (x y : Q) : (x <= y /\ Qmax x y == y) \/ (y <= x /\ Qmax x y == x).
Proof.
  destruct (Q.max_spec x y) as [[H1 H2]|[H1 H2]]; [left | right]; split;
    auto; lra.
Qed.

Ltac minmax_step :=
  match goal with
  | |- context [Qmin ?x ?y] =>
      let t := fresh "t" in
      pose proof (Qmin_case_le x y); set (t := Qmin x y) in *; clearbody t
  | |- context [Qmax ?x ?y] =>
      let t := fresh "t" in
      pose proof (Qmax_case_le x y); set (t := Qmax x y) in *; clearbody t
  | _ : context [Qmin ?x ?y] |- _ =>
      let t := fresh "t" in
      pose proof (Qmin_case_le x y); set (t := Qmin x y) in *; clearbody t
  | _ : context [Qmax ?x ?y] |- _ =>
      let t := fresh "t" in
      pose proof (Qmax_case_le x y); set (t := Qmax x y) in *; clearbody t
  end.

Ltac minmax :=
  repeat minmax_step;
  repeat match goal with
         | H : (_ /\ _) \/ (_ /\ _) |- _ => destruct H as [[? ?]|[? ?]]
         end.

Lemma clip_bounds (v lower upper : Q) :
  lower <= upper -> lower <= clip v lower upper /\ clip v lower upper <= upper.
Proof. intros H. unfold clip. split; minmax; lra. Qed.

Lemma saturate_monotone (lower upper : limit) (v w : Q) :
  limit_leb lower upper = true -> v <= w ->
  min_upper (max_lower v lower) upper <= max_lower (min_upper w upper) lower.
Proof.
  intros Hl Hvw. destruct lower as [l|], upper as [u|]; simpl in *.
  - apply Qle_bool_iff in Hl. minmax; lra.
  - minmax; lra.
  - minmax; lra.
  - assumption.
Qed.


Lemma limits_consistent_nth (lower upper : list limit) (i : nat) :
  limits_consistent lower upper ->
  limit_pair_ok (nth i lower None) (nth i upper None).
Proof.
  intros H; revert i. induction H; intros [|i]; simpl; auto.
Qed.

Lemma limits_consistent_leb (lower upper : list limit) :
  limits_consistent lower upper ->
  forallb (fun p => limit_leb (fst p) (snd p)) (combine lower upper) = true.
Proof.
  induction 1 as [|l u ls us H _ IH]; simpl; [reflexivity|].
  rewrite IH, andb_true_r. destruct l, u; simpl in *; auto.
  apply Qle_bool_iff. assumption.
Qed.

Lemma limit_pair_ok_leb (l u : limit) :
  limit_pair_ok l u -> limit_leb l u = true.
Proof.
  destruct l, u; simpl; auto. intros; apply Qle_bool_iff; assumption.
Qed.

Section SaturationBlock.

Variable sat : var -> var -> Q -> Q -> Q -> Q -> M (list var).
Hypothesis sat_exact : saturation_exact sat.

Variables (u_var u_pre_sat : list var) (lower upper : list limit)
          (pre_lo pre_up : tensor).
Variable n0 : nat.
Hypothesis Hlen_pre : length u_pre_sat = length u_var.
Hypothesis Hlen_lower : length lower = length u_var.
Hypothesis Hlen_upper : length upper = length u_var.
Hypothesis Hlen_lo : length pre_lo = length u_var.
Hypothesis Hlen_up : length pre_up = length u_var.
Hypothesis Hwf_u : vars_wf n0 u_var.
Hypothesis Hwf_pre : vars_wf n0 u_pre_sat.
Hypothesis Hpre : vle pre_lo pre_up.

Lemma saturation_of_dimension_encodes (i : nat) (m : GurobiTorchMIP) :
  limit_pair_ok (nth i lower None) (nth i upper None) ->
  (i < length u_var)%nat -> (n0 <= nvars m)%nat ->
  encodes (saturation_of_dimension sat u_var u_pre_sat lower upper
                                   pre_lo pre_up i) m
          (fun a => within u_pre_sat pre_lo pre_up a i /\
                    saturated u_var u_pre_sat lower upper a i)
          (fun _ _ => True)
          (fun _ a => within u_pre_sat pre_lo pre_up a i ->
                      saturated u_var u_pre_sat lower upper a i).
Proof.
  intros Hok Hi Hm. unfold saturation_of_dimension, saturated, within.
  assert (Hu : (nth i u_var O < nvars m)%nat).
  { eapply Nat.lt_le_trans; [apply (vars_wf_nth n0)|]; eauto. }
  assert (Hp : (nth i u_pre_sat O < nvars m)%nat).
  { eapply Nat.lt_le_trans; [apply (vars_wf_nth n0)|]; eauto. lia. }
  destruct (nth i lower None) as [l|], (nth i upper None) as [u|];
    simpl in *; try contradiction.
  - apply encodes_ret_bind. eapply encodes_bind.
    + apply (sat_exact m (nth i u_pre_sat O) (nth i u_var O) l u
                       (nth i pre_lo 0) (nth i pre_up 0)); auto.
      apply vle_nth. assumption.
    + intros a _ [[H1 H2] H3]. auto.
    + intros r1 m1 _ _ _. exists (fun _ => True), (fun _ _ => True).
      split; [|split].
      * eapply encodes_weaken; [apply encodes_ret| | |]; auto.
      * auto.
      * intros r2 a H Ht [H1 H2]. apply H; assumption.
  - unfold addLConstr.
    eapply encodes_weaken; [apply encodes_add_constrs| | |].
    + constructor; [|constructor]. simpl.
      constructor; [assumption|]. constructor; [assumption|constructor].
    + intros a _ [_ H]. constructor; [|constructor].
      unfold holds. simpl. lra.
    + auto.
    + intros r a Hf H Hw. apply Forall_inv in H.
      unfold holds in H. simpl in H. lra.
Qed.

Lemma saturation_of_dimension_stable (i : nat) :
  (i < length u_var)%nat ->
  stable n0 (fun a => within u_pre_sat pre_lo pre_up a i /\
                      saturated u_var u_pre_sat lower upper a i).
Proof.
  intros Hi a a' Hag. unfold within, saturated.
  rewrite !(Hag (nth i u_var O)), !(Hag (nth i u_pre_sat O)); auto.
  - apply vars_wf_nth; auto. lia.
  - apply vars_wf_nth; auto.
Qed.

Lemma saturation_bounds_ordered :
  limits_consistent lower upper ->
  vleb (zipWith min_upper (zipWith max_lower pre_lo lower) upper)
       (zipWith max_lower (zipWith min_upper pre_up upper) lower) = true.
Proof.
  intros Hlim. apply vleb_spec. apply vle_of_nth.
  - rewrite !zipWith_length. lia.
  - intros i Hi. rewrite !zipWith_length in Hi.
    rewrite (zipWith_nth min_upper _ _ i 0 None), (zipWith_nth max_lower _ _ i 0 None)
      by (rewrite ?zipWith_length; lia).
    rewrite (zipWith_nth max_lower _ _ i 0 None), (zipWith_nth min_upper _ _ i 0 None)
      by (rewrite ?zipWith_length; lia).
    apply saturate_monotone.
    + apply limit_pair_ok_leb. apply limits_consistent_nth. assumption.
    + apply vle_nth. assumption.
Qed.

(** The saturation block as a whole, when every dimension has both limits
    or none. *)
Lemma add_input_saturation_constraint_encodes (m : GurobiTorchMIP) :
  limits_consistent lower upper ->
  (n0 <= nvars m)%nat ->
  encodes (_add_input_saturation_constraint sat u_var u_pre_sat lower upper
                                            pre_lo pre_up) m
          (fun a => forall i, (i < length u_var)%nat ->
                      within u_pre_sat pre_lo pre_up a i /\
                      saturated u_var u_pre_sat lower upper a i)
          (fun _ _ => True)
          (fun _ a => forall i, (i < length u_var)%nat ->
                      within u_pre_sat pre_lo pre_up a i ->
                      saturated u_var u_pre_sat lower upper a i).
Proof.
  intros Hlim Hm. unfold _add_input_saturation_constraint.
  apply encodes_assert; [apply limits_consistent_leb; assumption|].
  apply encodes_assert; [apply vleb_spec; assumption|].
  eapply encodes_bind.
  - apply (encodes_for_each _ n0
             (fun i a => within u_pre_sat pre_lo pre_up a i /\
                         saturated u_var u_pre_sat lower upper a i)
             (fun i a => within u_pre_sat pre_lo pre_up a i ->
                         saturated u_var u_pre_sat lower upper a i));
      [| |assumption].
    + intros i Hi. apply in_seq in Hi.
      apply saturation_of_dimension_stable. lia.
    + intros i m' Hi Hm'. apply in_seq in Hi.
      apply saturation_of_dimension_encodes; auto; [|lia].
      apply limits_consistent_nth. assumption.
  - intros a _ H i Hi. apply in_seq in Hi. apply H. lia.
  - intros [] m1 _ _ _. exists (fun _ => True), (fun _ _ => True).
    split; [|split].
    + apply encodes_assert; [apply saturation_bounds_ordered; assumption|].
      eapply encodes_weaken; [apply encodes_ret| | |]; auto.
    + auto.
    + intros r2 a H Ht i Hi. apply H. apply in_seq. lia.
Qed.

End SaturationBlock.

Lemma limit_leb_nth (lower upper : list limit) (i : nat) :
  forallb (fun p => limit_leb (fst p) (snd p)) (combine lower upper) = true ->
  limit_leb (nth i lower None) (nth i upper None) = true.
Proof.
  revert upper i. induction lower as [|l lower IH]; intros upper i H.
  - destruct i; reflexivity.
  - destruct upper as [|u upper].
    + replace (nth i (@nil limit) None) with (@None Q) by (destruct i; reflexivity).
      destruct (nth i (l :: lower) None); reflexivity.
    + destruct i; simpl in *; apply andb_true_iff in H;
        [apply H | apply IH; apply H].
Qed.

Section SaturationBlockErrors.

Variable sat : var -> var -> Q -> Q -> Q -> Q -> M (list var).
Hypothesis sat_exact : saturation_exact sat.

Variables (u_var u_pre_sat : list var) (lower upper : list limit)
          (pre_lo pre_up : tensor).
Variable n0 : nat.
Hypothesis Hlen_pre : length u_pre_sat = length u_var.
Hypothesis Hwf_u : vars_wf n0 u_var.
Hypothesis Hwf_pre : vars_wf n0 u_pre_sat.

Lemma saturation_of_dimension_one_sided (i : nat) (m : GurobiTorchMIP) :
  isinf (nth i lower None) <> isinf (nth i upper None) ->
  saturation_of_dimension sat u_var u_pre_sat lower upper pre_lo pre_up i m
  = Raise AssertionError.
Proof.
  unfold saturation_of_dimension.
  destruct (nth i lower None), (nth i upper None); simpl; intros H;
    try reflexivity; exfalso; apply H; reflexivity.
Qed.

Lemma saturation_of_dimension_progress (i : nat) (m : GurobiTorchMIP) :
  forallb (fun p => limit_leb (fst p) (snd p)) (combine lower upper) = true ->
  vle pre_lo pre_up ->
  (i < length u_var)%nat -> (n0 <= nvars m)%nat ->
  saturation_of_dimension sat u_var u_pre_sat lower upper pre_lo pre_up i m
  = Raise AssertionError \/
  exists m',
    saturation_of_dimension sat u_var u_pre_sat lower upper pre_lo pre_up i m
    = Ok tt m' /\ (n0 <= nvars m')%nat.
Proof.
  intros Hlim Hpre Hi Hm. pose proof (limit_leb_nth lower upper i Hlim) as Hle.
  unfold saturation_of_dimension.
  destruct (nth i lower None) as [l|], (nth i upper None) as [u|]; simpl in *;
    auto.
  - right.
    assert (Hu : (nth i u_var O < nvars m)%nat).
    { eapply Nat.lt_le_trans; [apply (vars_wf_nth n0)|]; eauto. }
    assert (Hp : (nth i u_pre_sat O < nvars m)%nat).
    { eapply Nat.lt_le_trans; [apply (vars_wf_nth n0)|]; eauto. lia. }
    apply Qle_bool_iff in Hle.
    destruct (sat_exact m (nth i u_pre_sat O) (nth i u_var O) l u
                        (nth i pre_lo 0) (nth i pre_up 0) Hp Hu Hle
                        (vle_nth _ _ i Hpre))
      as (r & m' & Hrun & Hn & _).
    exists m'. split; [|lia].
    change (bind (sat (nth i u_pre_sat O) (nth i u_var O) l u
                      (nth i pre_lo 0) (nth i pre_up 0))
                 (fun _ => ret tt) m = Ok tt m').
    rewrite (bind_Ok _ _ _ _ _ Hrun). reflexivity.
  - right. eexists. split; [reflexivity|]. rewrite nvars_add_constrs. lia.
Qed.

(** A dimension with exactly one infinite limit makes the saturation block
    fail its assertion. *)
Lemma add_input_saturation_constraint_raises (i : nat) (m : GurobiTorchMIP) :
  (i < length u_var)%nat ->
  isinf (nth i lower None) <> isinf (nth i upper None) ->
  (n0 <= nvars m)%nat ->
  _add_input_saturation_constraint sat u_var u_pre_sat lower upper
                                   pre_lo pre_up m
  = Raise AssertionError.
Proof.
  intros Hi Hbad Hm. unfold _add_input_saturation_constraint.
  destruct (forallb (fun p => limit_leb (fst p) (snd p))
                    (combine lower upper)) eqn:Hlim; [|reflexivity].
  destruct (vleb pre_lo pre_up) eqn:Hpre; [|reflexivity].
  apply vleb_spec in Hpre.
  change (bind (for_each (seq 0 (length u_var))
                  (saturation_of_dimension sat u_var u_pre_sat lower upper
                                           pre_lo pre_up))
               (fun _ =>
                  assert_ (vleb (zipWith min_upper
                                   (zipWith max_lower pre_lo lower) upper)
                                (zipWith max_lower
                                   (zipWith min_upper pre_up upper) lower)) ;;
                  ret (zipWith min_upper (zipWith max_lower pre_lo lower) upper,
                       zipWith max_lower (zipWith min_upper pre_up upper) lower))
               m = Raise AssertionError).
  apply bind_Raise.
  apply (for_each_raises _ (fun m => (n0 <= nvars m)%nat) _ i).
  - apply in_seq. lia.
  - intros m0 _. apply saturation_of_dimension_one_sided. assumption.
  - intros j m0 Hj Hm0. apply in_seq in Hj.
    apply saturation_of_dimension_progress; auto. lia.
  - assumption.
Qed.

End SaturationBlockErrors.

(** ** The big-M encoding of a ReLU unit is exact *)

Lemma eval_scale_expr (a : assignment) (k : Q) (e : LinExpr) :
  eval a (scale_expr k e) == k * eval a e.
Proof.
  induction e as [|[c v] e IH]; simpl; [ring|]. rewrite IH. ring.
Qed.

Lemma expr_wf_scale (n : nat) (k : Q) (e : LinExpr) :
  expr_wf n e -> expr_wf n (scale_expr k e).
Proof.
  unfold expr_wf, scale_expr. rewrite !Forall_forall. intros H x Hx.
  apply in_map_iff in Hx. destruct Hx as [[c v] [<- Hin]]. simpl.
  apply (H (c, v)). assumption.
Qed.

Lemma leaky_relu_cases (alpha p : Q) :
  (0 <= p /\ leaky_relu alpha p = p) \/
  (p < 0 /\ leaky_relu alpha p = alpha * p).
Proof.
  unfold leaky_relu. destruct (Qle_bool 0 p) eqn:E.
  - left. split; [apply Qle_bool_iff; assumption | reflexivity].
  - right. split; [|reflexivity]. apply Qnot_le_lt. intros H.
    apply Qle_bool_iff in H. congruence.
Qed.

Lemma Qle_bool_false (x y : Q) : Qle_bool x y = false -> y < x.
Proof.
  intros E. apply Qnot_le_lt. intros H. apply Qle_bool_iff in H. congruence.
Qed.

Lemma add_relu_unit_encodes (alpha : Q) (e : LinExpr) (c l u : Q)
      (m : GurobiTorchMIP) :
  alpha < 1 -> expr_wf (nvars m) e ->
  encodes (add_relu_unit alpha e c l u) m
          (fun a => l <= eval a e + c /\ eval a e + c <= u)
          (fun r m' => fst r = nvars m /\ (fst r < nvars m')%nat /\
                       vars_wf (nvars m') (snd r))
          (fun r a => l <= eval a e + c -> eval a e + c <= u ->
                      a (fst r) == leaky_relu alpha (eval a e + c)).
Proof.
  intros Halpha He. unfold add_relu_unit.
  set (n := nvars m).
  set (m1 := mip_add_vars m (repeat (mkVar None None CONTINUOUS) 1)).
  assert (Hn1 : nvars m1 = S n) by (unfold m1; rewrite nvars_add_vars; simpl; lia).
  assert (He1 : expr_wf (nvars m1) e) by (eapply expr_wf_mono; [|eassumption]; lia).
  apply (encodes_addVars_bind 1 None None CONTINUOUS _ m
           (fun a => [leaky_relu alpha (eval a e + c)])
           _ (fun a => (l <= eval a e + c /\ eval a e + c <= u) /\
                       a n == leaky_relu alpha (eval a e + c))).
  2:{ intros a Ha [H1 H2]. split; [reflexivity|]. split.
      - constructor; [|constructor]. repeat split; simpl; auto. discriminate.
      - fold n. rewrite (eval_agree n a (override a n _) e He (agree_override _ _ _)).
        split; [auto|]. unfold override. rewrite Nat.ltb_irrefl, Nat.sub_diag.
        reflexivity. }
  fold n. fold m1. cbn [seq nth].
  destruct (Qle_bool 0 l) eqn:El; [|destruct (Qle_bool u 0) eqn:Eu].
  - apply Qle_bool_iff in El.
    eapply encodes_bind.
    + apply encodes_add_constrs. constructor; [|constructor]. simpl.
      constructor; [simpl; lia|]. apply expr_wf_scale. assumption.
    + intros a _ [[H1 H2] H3]. constructor; [|constructor].
      unfold holds. simpl. rewrite eval_scale_expr.
      destruct (leaky_relu_cases alpha (eval a e + c)) as [[Hp E]|[Hp E]];
        rewrite E in H3; lra.
    + intros [] m2 Hrun -> _.
      exists (fun _ => True), (fun r _ => r = (n, @nil var)).
      split; [|split].
      * eapply encodes_weaken; [apply encodes_ret| | |]; auto.
        intros r m' _ _ [-> ->]. simpl. rewrite nvars_add_constrs, Hn1.
        split; [reflexivity|]. split; [lia|constructor].
      * auto.
      * intros r2 a H -> H1 H2. apply Forall_inv in H. unfold holds in H.
        simpl in H |- *. rewrite eval_scale_expr in H.
        destruct (leaky_relu_cases alpha (eval a e + c)) as [[Hp E]|[Hp E]];
          rewrite E; lra.
  - apply Qle_bool_iff in Eu. apply Qle_bool_false in El.
    eapply encodes_bind.
    + apply encodes_add_constrs. constructor; [|constructor]. simpl.
      constructor; [simpl; lia|]. apply expr_wf_scale. assumption.
    + intros a _ [[H1 H2] H3]. constructor; [|constructor].
      unfold holds. simpl. rewrite eval_scale_expr.
      destruct (leaky_relu_cases alpha (eval a e + c)) as [[Hp E]|[Hp E]];
        rewrite E in H3; [|lra].
      assert (Hz : eval a e + c == 0) by lra. nra.
    + intros [] m2 Hrun -> _.
      exists (fun _ => True), (fun r _ => r = (n, @nil var)).
      split; [|split].
      * eapply encodes_weaken; [apply encodes_ret| | |]; auto.
        intros r m' _ _ [-> ->]. simpl. rewrite nvars_add_constrs, Hn1.
        split; [reflexivity|]. split; [lia|constructor].
      * auto.
      * intros r2 a H -> H1 H2. apply Forall_inv in H. unfold holds in H.
        simpl in H |- *. rewrite eval_scale_expr in H.
        destruct (leaky_relu_cases alpha (eval a e + c)) as [[Hp E]|[Hp E]];
          rewrite E; [|lra].
        assert (Hz : eval a e + c == 0) by lra. nra.
  - apply Qle_bool_false in El. apply Qle_bool_false in Eu.
    set (m2 := mip_add_vars m1 (repeat (mkVar (Some 0) (Some 1) BINARY) 1)).
    assert (Hn2 : nvars m2 = S (S n))
      by (unfold m2; rewrite nvars_add_vars, Hn1; simpl; lia).
    assert (He2 : expr_wf (nvars m2) e)
      by (eapply expr_wf_mono; [|exact He]; fold n; lia).
    apply (encodes_addVars_bind 1 (Some 0) (Some 1) BINARY _ m1
             (fun a => [if Qle_bool 0 (eval a e + c) then 1 else 0])
             _ (fun a => ((l <= eval a e + c /\ eval a e + c <= u) /\
                          a n == leaky_relu alpha (eval a e + c)) /\
                         a (S n) == (if Qle_bool 0 (eval a e + c) then 1 else 0))).
    2:{ intros a Ha [[H1 H2] H3]. split; [reflexivity|]. split.
        - constructor; [|constructor]. unfold var_ok. simpl.
          destruct (Qle_bool 0 (eval a e + c));
            (split; [lra | split; [lra | intros _]]);
            [right | left]; reflexivity.
        - rewrite Hn1.
          rewrite (eval_agree (S n) a (override a (S n) _) e
                     (expr_wf_mono n (S n) e (Nat.le_succ_diag_r n) He)
                     (agree_override _ _ _)).
          split; [split; [auto|]|].
          + rewrite (agree_override a (S n) _ n) by lia. assumption.
          + unfold override. rewrite Nat.ltb_irrefl, Nat.sub_diag. reflexivity. }
    rewrite Hn1. fold m2. cbn [seq nth].
    eapply encodes_bind.
    + apply encodes_add_constrs.
      repeat (constructor; [simpl; repeat (constructor; [simpl; lia|]);
                            apply expr_wf_scale; assumption|]).
      constructor.
    + intros a _ [[[H1 H2] H3] H4].
      destruct (leaky_relu_cases alpha (eval a e + c)) as [[Hp E]|[Hp E]];
        rewrite E in H3;
        (destruct (Qle_bool 0 (eval a e + c)) eqn:Eb;
         [apply Qle_bool_iff in Eb | apply Qle_bool_false in Eb]);
        try lra;
        repeat (constructor; [unfold holds; simpl; rewrite eval_scale_expr;
                              rewrite ?H3, ?H4; nra|]);
        constructor.
    + intros [] m3 Hrun -> _.
      exists (fun _ => True), (fun r a => r = (n, [S n]) /\ is_binary (a (S n))).
      split; [|split].
      * eapply encodes_weaken; [apply encodes_ret| | |]; auto.
        -- intros r m' _ _ [-> ->]. simpl. rewrite nvars_add_constrs, Hn2.
           split; [reflexivity|]. split; [lia|].
           constructor; [lia|constructor].
        -- intros r a Ha ->. split; [reflexivity|].
           apply feasible_add_constrs in Ha. destruct Ha as [Ha _].
           unfold m2 in Ha. apply feasible_add_vars in Ha.
           destruct Ha as [_ Ha]. specialize (Ha O _ eq_refl).
           rewrite Hn1, Nat.add_0_r in Ha. apply Ha. reflexivity.
      * auto.
      * intros r2 a H [-> Hb] H1 H2. simpl.
        inversion H as [|? ? C1 Hr1]; subst. inversion Hr1 as [|? ? C2 Hr2]; subst.
        inversion Hr2 as [|? ? C3 Hr3]; subst.
        inversion Hr3 as [|? ? C4 Hr4]; subst.
        unfold holds in C1, C2, C3, C4. simpl in C1, C2, C3, C4.
        rewrite eval_scale_expr in C1, C2, C3, C4.
        destruct Hb as [Hb|Hb];
          destruct (leaky_relu_cases alpha (eval a e + c)) as [[Hp E]|[Hp E]];
          rewrite E; rewrite Hb in C3, C4; nra.
Qed.

(** ** A saturation block from two ReLU units *)

Lemma clip_as_relu_units (x lower upper : Q) :
  lower <= upper ->
  clip x lower upper ==
  lower + leaky_relu 0 (x - lower) - leaky_relu 0 (x - upper).
Proof.
  intros H. unfold clip.
  destruct (leaky_relu_cases 0 (x - lower)) as [[H1 E1]|[H1 E1]]; rewrite E1;
    destruct (leaky_relu_cases 0 (x - upper)) as [[H2 E2]|[H2 E2]]; rewrite E2;
    minmax; lra.
Qed.

Ltac relu_cases :=
  repeat match goal with
         | |- context [leaky_relu ?al ?p] =>
             let H := fresh "Hp" in let E := fresh "E" in
             destruct (leaky_relu_cases al p) as [[H E]|[H E]];
             rewrite E in *; clear E
         | _ : context [leaky_relu ?al ?p] |- _ =>
             let H := fresh "Hp" in let E := fresh "E" in
             destruct (leaky_relu_cases al p) as [[H E]|[H E]];
             rewrite E in *; clear E
         end.

Lemma saturation_by_relu_units_exact : saturation_exact saturation_by_relu_units.
Proof.
  intros m x y lower upper in_lo in_up Hx Hy Hlu Hin.
  unfold saturation_by_relu_units.
  assert (Hex : forall n, (nvars m <= n)%nat -> expr_wf n [(1, x)]).
  { intros n Hn. constructor; [simpl; lia|constructor]. }
  eapply encodes_bind.
  - apply (add_relu_unit_encodes 0 [(1, x)] (- lower) (in_lo - lower)
                                 (in_up - lower) m); [lra | apply Hex; lia].
  - intros a _ (H1 & H2 & _). simpl. split; lra.
  - intros [r1 b1] m1 _ (Hr1 & Hr1' & _) Hn1. simpl in Hr1, Hr1'.
    exists (fun a => (in_lo <= a x /\ a x <= in_up /\
                      a y == clip (a x) lower upper) /\
                     a r1 == leaky_relu 0 (1 * a x + 0 + - lower)),
           (fun _ a => in_lo <= a x -> a x <= in_up ->
                       a y == lower + a r1 -
                              leaky_relu 0 (1 * a x + 0 + - upper)).
    split; [|split].
    + eapply encodes_bind.
      * apply (add_relu_unit_encodes 0 [(1, x)] (- upper) (in_lo - upper)
                                     (in_up - upper) m1); [lra | apply Hex; lia].
      * intros a _ [(H1 & H2 & _) _]. simpl. split; lra.
      * intros [r2 b2] m2 _ (Hr2 & Hr2' & _) Hn2. simpl in Hr2, Hr2'.
        exists (fun a => a y == lower + a r1 - a r2),
               (fun _ a => a y == lower + a r1 - a r2).
        split; [|split].
        -- eapply encodes_bind.
           ++ apply encodes_add_constrs. constructor; [|constructor]. simpl.
              repeat (constructor; [simpl; lia|]). constructor.
           ++ intros a _ H. constructor; [|constructor]. unfold holds. simpl.
              lra.
           ++ intros [] m3 _ _ _.
              exists (fun _ => True), (fun _ _ => True). split; [|split].
              ** eapply encodes_weaken; [apply encodes_ret| | |]; auto.
              ** auto.
              ** intros r a H _. apply Forall_inv in H. unfold holds in H.
                 simpl in H. lra.
        -- intros a a1 _ [(H1 & H2 & H3) H4] Hag _ HP. simpl in HP.
           rewrite (Hag x) in HP by lia. rewrite (Hag y), (Hag r1) by lia.
           assert (HP' := HP ltac:(lra) ltac:(lra)). clear HP.
           unfold clip in H3. relu_cases; minmax; lra.
        -- intros r2' a HP H H1 H2. simpl in HP.
           assert (HP' := HP ltac:(lra) ltac:(lra)). clear HP. lra.
    + intros a a1 _ (H1 & H2 & H3) Hag _ HP. simpl in HP.
      rewrite (Hag x) in HP |- * by lia. rewrite (Hag y) by lia.
      split; [auto|]. rewrite Hr1 in *. apply HP; lra.
    + intros r a HP H H1 H2. simpl in HP. rewrite Hr1 in *.
      assert (HP' := HP ltac:(lra) ltac:(lra)). clear HP.
      assert (H' := H H1 H2). clear H.
      unfold clip. relu_cases; minmax; lra.
Qed.

(** ** Matrix constraints *)

Lemma eval_lin (a : assignment) (cs : list tensor) (vs : list (list var)) :
  eval a (lin cs vs) == dots cs (map (vals a) vs).
Proof.
  revert vs. induction cs as [|c cs IH]; intros [|v vs]; try reflexivity.
  rewrite eval_lin_cons, IH. reflexivity.
Qed.

Lemma holds_mrow (a : assignment) (A : list matrix) (vs : list (list var))
      (s : Sense) (b : tensor) (i : nat) :
  holds a (mrow A vs s (i, nth i b 0)) <-> row_holds a A vs s b i.
Proof.
  unfold holds, mrow, row_holds. simpl.
  destruct s; rewrite eval_lin; reflexivity.
Qed.

Lemma encodes_addMConstrs (A : list matrix) (vs : list (list var)) (s : Sense)
      (b : tensor) (m : GurobiTorchMIP) :
  Forall (vars_wf (nvars m)) vs ->
  encodes (addMConstrs A vs s b) m
          (fun a => forall i, (i < length b)%nat -> row_holds a A vs s b i)
          (fun _ m' => m' = mip_add_constrs m
                              (map (mrow A vs s) (combine (seq 0 (length b)) b)))
          (fun _ a => forall i, (i < length b)%nat -> row_holds a A vs s b i).
Proof.
  intros Hvs. unfold addMConstrs.
  eapply encodes_weaken; [apply encodes_add_constrs| | |].
  - apply Forall_mrows. intros i Hi. simpl. apply expr_wf_lin. assumption.
  - intros a _ H. apply Forall_mrows. intros i Hi. apply holds_mrow. auto.
  - auto.
  - intros r a _ H i Hi. apply holds_mrow.
    apply (proj1 (Forall_mrows (holds a) A vs s b) H). assumption.
Qed.

(** ** Interval arithmetic is sound *)

Lemma ia_dot_bounds (row lo up x : tensor) :
  vle lo x -> vle x up ->
  dot (map pos_part row) lo + dot (map neg_part row) up <= dot row x /\
  dot row x <= dot (map pos_part row) up + dot (map neg_part row) lo.
Proof.
  intros Hlo. revert row up. induction Hlo as [|l y lo x Hl Hlo IH];
    intros row up Hup.
  - inversion Hup; subst. destruct row; simpl; rewrite ?dot_nil_r; lra.
  - inversion Hup as [|? u ? up' Hu Hup']; subst.
    destruct row as [|c row]; simpl; [lra|].
    destruct (IH row up' Hup') as [IH1 IH2]. unfold pos_part, neg_part in *.
    destruct (Q.max_spec c 0) as [[H1 H2]|[H1 H2]];
      destruct (Q.min_spec c 0) as [[H3 H4]|[H3 H4]]; rewrite H2, H4;
      split; nra.
Qed.

Lemma bias_or_zeros_length (l : Linear) :
  linear_wf l -> length (bias_or_zeros l) = out_features l.
Proof.
  intros [_ H]. unfold bias_or_zeros. destruct (bias l); [assumption|].
  apply repeat_length.
Qed.

Lemma matvec_length (A : matrix) (x : tensor) : length (matvec A x) = length A.
Proof. apply length_map. Qed.

Lemma linear_forward_length (l : Linear) (x : tensor) :
  linear_wf l -> length (linear_forward l x) = out_features l.
Proof.
  intros H. unfold linear_forward, vadd.
  rewrite zipWith_length, matvec_length, bias_or_zeros_length by assumption.
  unfold out_features. lia.
Qed.

Lemma linear_forward_nth (l : Linear) (x : tensor) (i : nat) :
  linear_wf l -> (i < out_features l)%nat ->
  nth i (linear_forward l x) 0 ==
  dot (nth i (weight l) []) x + nth i (bias_or_zeros l) 0.
Proof.
  intros H Hi. unfold linear_forward.
  rewrite vadd_nth
    by (rewrite ?matvec_length, ?bias_or_zeros_length; auto).
  rewrite matvec_nth. reflexivity.
Qed.

Lemma linear_forward_veq (l : Linear) (x x' : tensor) :
  veq x x' -> veq (linear_forward l x) (linear_forward l x').
Proof.
  intros H. unfold linear_forward, vadd, matvec.
  generalize (bias_or_zeros l). induction (weight l) as [|r W IH];
    intros [|b bs]; simpl; constructor.
  - rewrite (dot_veq r x x' H). reflexivity.
  - apply IH.
Qed.

Lemma propagate_bounds_sound (l : Linear) (lo up x : tensor) (i : nat) :
  linear_wf l -> in_box lo up x -> (i < out_features l)%nat ->
  nth i (fst (propagate_bounds l lo up)) 0 <= nth i (linear_forward l x) 0 /\
  nth i (linear_forward l x) 0 <= nth i (snd (propagate_bounds l lo up)) 0.
Proof.
  intros Hwf [Hlo Hup] Hi. unfold propagate_bounds, compute_range_by_IA. simpl.
  rewrite linear_forward_nth by assumption.
  rewrite !vadd_nth
    by (rewrite ?length_map, ?bias_or_zeros_length; auto).
  set (f1 := fun row => dot (map pos_part row) lo + dot (map neg_part row) up).
  set (f2 := fun row => dot (map pos_part row) up + dot (map neg_part row) lo).
  rewrite (nth_indep (map f1 _) 0 (f1 [])) by (rewrite length_map; exact Hi).
  rewrite (nth_indep (map f2 _) 0 (f2 [])) by (rewrite length_map; exact Hi).
  rewrite !map_nth. unfold f1, f2.
  destruct (ia_dot_bounds (nth i (weight l) []) lo up x Hlo Hup). split; lra.
Qed.

Lemma propagate_bounds_length (l : Linear) (lo up : tensor) :
  linear_wf l ->
  length (fst (propagate_bounds l lo up)) = out_features l /\
  length (snd (propagate_bounds l lo up)) = out_features l.
Proof.
  intros H. unfold propagate_bounds, compute_range_by_IA, vadd. simpl.
  rewrite !zipWith_length, !length_map, bias_or_zeros_length by assumption.
  unfold out_features. lia.
Qed.

(** ** [FeedbackSystem.compute_u] *)

Lemma vals_length (a : assignment) (xs : list var) :
  length (vals a xs) = length xs.
Proof. apply length_map. Qed.

Lemma vals_nth (a : assignment) (xs : list var) (i : nat) :
  (i < length xs)%nat -> nth i (vals a xs) 0 = a (nth i xs O).
Proof.
  intros H. unfold vals.
  rewrite (nth_indep _ 0 (a O)) by (rewrite length_map; assumption).
  apply map_nth.
Qed.

Lemma saturate_proper (lower upper : limit) (v w : Q) :
  v == w -> saturate lower upper v == saturate lower upper w.
Proof.
  intros H. unfold saturate, max_lower, min_upper.
  destruct lower, upper; minmax; lra.
Qed.

Lemma saturate_within (lower upper : limit) (v : Q) :
  limit_pair_ok lower upper ->
  lb_ok lower (saturate lower upper v) /\ ub_ok upper (saturate lower upper v).
Proof.
  unfold saturate, max_lower, min_upper, lb_ok, ub_ok, limit_pair_ok.
  destruct lower, upper; intros H; try contradiction; try tauto.
  split; minmax; lra.
Qed.

Lemma init_ok_lengths (fb : FeedbackSystem) :
  init_ok fb = true ->
  length (x_equilibrium fb) = x_dim (forward_system fb) /\
  length (u_equilibrium fb) = u_dim (forward_system fb) /\
  length (u_lower_limit fb) = u_dim (forward_system fb) /\
  length (u_upper_limit fb) = u_dim (forward_system fb).
Proof.
  unfold init_ok. rewrite !andb_true_iff, !Nat.eqb_eq. tauto.
Qed.

Lemma init_ok_linear (fb : FeedbackSystem) (l : Linear) :
  init_ok fb = true -> controller_network fb = LinearController l ->
  in_features l = x_dim (forward_system fb) /\
  out_features l = u_dim (forward_system fb).
Proof.
  unfold init_ok. intros H E. rewrite E in H.
  rewrite !andb_true_iff, !Nat.eqb_eq in H. tauto.
Qed.

Lemma get_xhat_val_equilibrium (x x_eq : tensor) (idx : option (list nat))
      (n : nat) :
  xhat_is_equilibrium idx n = true -> length x = n -> length x_eq = n ->
  _get_xhat_val x x_eq idx = x_eq.
Proof.
  unfold xhat_is_equilibrium, _get_xhat_val. destruct idx as [idx|]; [|reflexivity].
  destruct (list_eq_dec Nat.eq_dec idx (seq 0 n)) as [->|]; [|discriminate].
  intros _ Hx He.
  set (f := fun ix : nat * Q =>
              if existsb (Nat.eqb (fst ix)) (seq 0 n)
              then nth (fst ix) x_eq 0 else snd ix).
  apply nth_ext with (d := f (O, 0)) (d' := 0).
  - rewrite length_map, length_combine, length_seq. lia.
  - intros i Hi. rewrite length_map, length_combine, length_seq, Nat.min_id in Hi.
    rewrite (map_nth f), combine_nth by (rewrite length_seq; reflexivity).
    rewrite seq_nth by assumption. unfold f. simpl.
    replace (existsb (Nat.eqb i) (seq 0 n)) with true; [reflexivity|].
    symmetry. apply existsb_exists. exists i. split.
    + apply in_seq. lia.
    + apply Nat.eqb_refl.
Qed.

Section ComputeU.

Variable fb : FeedbackSystem.
Hypothesis Hwf : feedback_wf fb.

Let fs := forward_system fb.

Lemma controller_forward_length (x : tensor) :
  length (controller_forward (controller_network fb) x) = u_dim fs.
Proof.
  pose proof (wf_init fb Hwf) as Hi. pose proof (wf_controller fb Hwf) as Hc.
  unfold init_ok in Hi. unfold fs.
  destruct (controller_network fb) as [l|net]; simpl in *;
    rewrite !andb_true_iff, !Nat.eqb_eq in Hi.
  - rewrite linear_forward_length by assumption. tauto.
  - unfold sequential_forward. rewrite linear_forward_length by apply Hc.
    tauto.
Qed.

Lemma u_pre_sat_value_length (x : tensor) :
  length (u_pre_sat_value fb x) = u_dim fs.
Proof.
  unfold u_pre_sat_value, vadd, vsub.
  rewrite !zipWith_length, !controller_forward_length.
  destruct (init_ok_lengths fb (wf_init fb Hwf)) as (_ & -> & _). fold fs. lia.
Qed.

Lemma compute_u_length (x : tensor) : length (compute_u fb x) = u_dim fs.
Proof.
  change (compute_u fb x)
    with (zipWith max_lower (zipWith min_upper (u_pre_sat_value fb x)
                                     (u_upper_limit fb)) (u_lower_limit fb)).
  rewrite !zipWith_length, u_pre_sat_value_length.
  destruct (init_ok_lengths fb (wf_init fb Hwf)) as (_ & _ & -> & ->).
  fold fs. lia.
Qed.

Lemma compute_u_nth (x : tensor) (i : nat) :
  (i < u_dim fs)%nat ->
  nth i (compute_u fb x) 0 =
  saturate (nth i (u_lower_limit fb) None) (nth i (u_upper_limit fb) None)
           (nth i (u_pre_sat_value fb x) 0).
Proof.
  intros Hi.
  change (compute_u fb x)
    with (zipWith max_lower (zipWith min_upper (u_pre_sat_value fb x)
                                     (u_upper_limit fb)) (u_lower_limit fb)).
  destruct (init_ok_lengths fb (wf_init fb Hwf)) as (_ & _ & Hl & Hu).
  fold fs in Hl, Hu.
  rewrite (zipWith_nth max_lower _ _ i 0 None)
    by (rewrite ?zipWith_length, ?u_pre_sat_value_length; fold fs; lia).
  rewrite (zipWith_nth min_upper _ _ i 0 None)
    by (rewrite ?u_pre_sat_value_length; fold fs; lia).
  reflexivity.
Qed.

(** The control stays within its limits. *)
Lemma compute_u_within_limits (x : tensor) (i : nat) :
  (i < u_dim fs)%nat ->
  lb_ok (nth i (u_lower_limit fb) None) (nth i (compute_u fb x) 0) /\
  ub_ok (nth i (u_upper_limit fb) None) (nth i (compute_u fb x) 0).
Proof.
  intros Hi. rewrite compute_u_nth by assumption.
  apply saturate_within. apply limits_consistent_nth. apply (wf_limits fb Hwf).
Qed.

End ComputeU.

(** ** Evaluation respects equality of tensors *)

Lemma zipWith_veq (f : Q -> Q -> Q) (u u' v v' : tensor) :
  (forall x x' y y', x == x' -> y == y' -> f x y == f x' y') ->
  veq u u' -> veq v v' -> veq (zipWith f u v) (zipWith f u' v').
Proof.
  intros Hf Hu. revert v v'. induction Hu as [|x x' u u' Hx Hu IH];
    intros v v' Hv; simpl.
  - constructor.
  - inversion Hv; subst; constructor; auto. apply IH. assumption.
Qed.

Lemma vadd_veq (u u' v v' : tensor) :
  veq u u' -> veq v v' -> veq (vadd u v) (vadd u' v').
Proof. apply zipWith_veq. intros x x' y y' Hx Hy. rewrite Hx, Hy. reflexivity. Qed.

Lemma vsub_veq (u u' v v' : tensor) :
  veq u u' -> veq v v' -> veq (vsub u v) (vsub u' v').
Proof. apply zipWith_veq. intros x x' y y' Hx Hy. rewrite Hx, Hy. reflexivity. Qed.

Lemma leaky_relu_proper (alpha p q : Q) :
  p == q -> leaky_relu alpha p == leaky_relu alpha q.
Proof. intros H. relu_cases; nra. Qed.

Lemma map_veq (f : Q -> Q) (u v : tensor) :
  (forall x y, x == y -> f x == f y) -> veq u v -> veq (map f u) (map f v).
Proof. intros Hf H. induction H; simpl; constructor; auto. Qed.

Lemma hidden_forward_veq (alpha : Q) (ls : list Linear) (x x' : tensor) :
  veq x x' -> veq (hidden_forward alpha ls x) (hidden_forward alpha ls x').
Proof.
  revert x x'. induction ls as [|l ls IH]; intros x x' H; simpl; [assumption|].
  apply IH. apply map_veq; [apply leaky_relu_proper|].
  apply linear_forward_veq. assumption.
Qed.

Lemma controller_forward_veq (c : Controller) (x x' : tensor) :
  veq x x' -> veq (controller_forward c x) (controller_forward c x').
Proof.
  intros H. destruct c as [l|net]; simpl.
  - apply linear_forward_veq. assumption.
  - apply linear_forward_veq. apply hidden_forward_veq. assumption.
Qed.

Lemma get_xhat_val_veq (x x' x_eq : tensor) (idx : option (list nat)) :
  veq x x' -> veq (_get_xhat_val x x_eq idx) (_get_xhat_val x' x_eq idx).
Proof.
  intros H. unfold _get_xhat_val. destruct idx as [idx|]; [|apply veq_refl].
  rewrite <- (veq_length _ _ H). generalize O.
  induction H as [|y y' x x' Hy Hx IH]; intros k; simpl; constructor.
  - simpl. destruct (existsb (Nat.eqb k) idx); [reflexivity | assumption].
  - apply IH.
Qed.

Lemma u_pre_sat_value_veq (fb : FeedbackSystem) (x x' : tensor) :
  veq x x' -> veq (u_pre_sat_value fb x) (u_pre_sat_value fb x').
Proof.
  intros H. unfold u_pre_sat_value.
  apply vadd_veq; [|apply veq_refl]. apply vsub_veq.
  - apply controller_forward_veq. assumption.
  - apply controller_forward_veq. apply get_xhat_val_veq. assumption.
Qed.

(** ** The controller constraints *)

Lemma free_vars_ok (w : tensor) : Forall (var_ok (mkVar None None CONTINUOUS)) w.
Proof.
  apply Forall_forall. intros q _. unfold var_ok. simpl.
  split; [exact I|]. split; [exact I|]. discriminate.
Qed.

Section LinearController.

Variable sat : var -> var -> Q -> Q -> Q -> Q -> M (list var).
Hypothesis sat_exact : saturation_exact sat.
Variable fb : FeedbackSystem.
Hypothesis Hwf : feedback_wf fb.
Variable l : Linear.
Hypothesis Hl : controller_network fb = LinearController l.
Hypothesis Hxhat :
  xhat_is_equilibrium (xhat_indices fb) (x_dim (forward_system fb)) = true.
Variables x_var u_var : list var.
Hypothesis Hlen_x : length x_var = x_dim (forward_system fb).
Hypothesis Hlen_u : length u_var = u_dim (forward_system fb).

Let fs := forward_system fb.

Lemma linear_u_pre_sat_nth (x : tensor) (i : nat) :
  length x = x_dim fs -> (i < u_dim fs)%nat ->
  nth i (u_pre_sat_value fb x) 0 ==
  nth i (linear_forward l x) 0 - nth i (linear_forward l (x_equilibrium fb)) 0
  + nth i (u_equilibrium fb) 0.
Proof.
  intros Hx Hi. unfold u_pre_sat_value.
  destruct (init_ok_lengths fb (wf_init fb Hwf)) as (Hxe & Hue & _).
  rewrite (get_xhat_val_equilibrium x _ _ (x_dim fs)) by assumption.
  pose proof (wf_controller fb Hwf) as Hc. rewrite Hl in *. simpl in *.
  destruct (init_ok_linear fb l (wf_init fb Hwf) Hl) as [_ Ho].
  rewrite vadd_nth, vsub_nth
    by (unfold vsub; rewrite ?zipWith_length, ?linear_forward_length by assumption;
        fold fs in Ho, Hue; lia).
  reflexivity.
Qed.

Lemma add_linear_controller_encodes (m : GurobiTorchMIP) :
  vars_wf (nvars m) x_var -> vars_wf (nvars m) u_var ->
  encodes (_add_linear_controller_mip_constraint sat fb l x_var u_var) m
          (fun a => exists xv,
               veq (vals a x_var) xv /\
               in_box (x_lo_all fs) (x_up_all fs) xv /\
               veq (vals a u_var) (compute_u fb xv))
          (fun _ _ => True)
          (fun _ a => control_law fb x_var u_var a).
Proof.
  intros Hwx Hwu. unfold _add_linear_controller_mip_constraint. fold fs.
  destruct (init_ok_lengths fb (wf_init fb Hwf)) as (Hxe & Hue & Hll & Hlu).
  destruct (init_ok_linear fb l (wf_init fb Hwf) Hl) as [_ Ho].
  pose proof (wf_controller fb Hwf) as Hc. rewrite Hl in Hc. simpl in Hc.
  fold fs in Hxe, Hue, Hll, Hlu, Ho.
  set (n := nvars m). set (upre := seq n (u_dim fs)).
  set (m1 := mip_add_vars m (repeat (mkVar None None CONTINUOUS) (u_dim fs))).
  assert (Hn1 : nvars m1 = (n + u_dim fs)%nat)
    by (unfold m1; rewrite nvars_add_vars, repeat_length; reflexivity).
  assert (Hwx1 : vars_wf (nvars m1) x_var)
    by (eapply vars_wf_mono; [|exact Hwx]; fold n; lia).
  assert (Hwu1 : vars_wf (nvars m1) u_var)
    by (eapply vars_wf_mono; [|exact Hwu]; fold n; lia).
  assert (Hwp1 : vars_wf (nvars m1) upre)
    by (apply vars_wf_seq; lia).
  assert (Hlp : length upre = u_dim fs) by apply length_seq.
  apply (encodes_addVars_bind (u_dim fs) None None CONTINUOUS _ m
           (fun a => u_pre_sat_value fb (vals a x_var)) _
           (fun a => (exists xv,
                        veq (vals a x_var) xv /\
                        in_box (x_lo_all fs) (x_up_all fs) xv /\
                        veq (vals a u_var) (compute_u fb xv)) /\
                     vals a upre = u_pre_sat_value fb (vals a x_var))).
  2:{ intros a Ha (xv & H1 & H2 & H3).
      split; [apply u_pre_sat_value_length; assumption|].
      split; [apply free_vars_ok|]. fold n.
      rewrite !(vals_agree n a (override a n _) _ Hwx (agree_override _ _ _)).
      rewrite !(vals_agree n a (override a n _) _ Hwu (agree_override _ _ _)).
      split; [exists xv; auto|].
      apply vals_override_new. apply u_pre_sat_value_length. assumption. }
  fold n. fold upre. fold m1.
  apply encodes_assert; [exact Hxhat|].
  set (b := vsub (vadd (vneg (u_equilibrium fb))
                       (linear_forward l (x_equilibrium fb)))
                 (bias_or_zeros l)).
  assert (Hlb : length b = u_dim fs).
  { unfold b, vsub, vadd, vneg.
    rewrite !zipWith_length, length_map, linear_forward_length,
      bias_or_zeros_length by assumption. lia. }
  assert (Hb : forall i, (i < u_dim fs)%nat ->
               nth i b 0 == - nth i (u_equilibrium fb) 0 +
                            nth i (linear_forward l (x_equilibrium fb)) 0 -
                            nth i (bias_or_zeros l) 0).
  { intros i Hi. unfold b.
    rewrite vsub_nth, vadd_nth
      by (unfold vadd, vneg;
          rewrite ?zipWith_length, ?length_map, ?linear_forward_length,
            ?bias_or_zeros_length by assumption; lia).
    rewrite vneg_nth. reflexivity. }
  assert (Hrow : forall a i, (i < u_dim fs)%nat ->
            (row_holds a [mneg (eye (u_dim fs)); weight l] [upre; x_var]
                       EQUAL b i <->
             a (nth i upre O) ==
             nth i (linear_forward l (vals a x_var)) 0 -
             nth i (linear_forward l (x_equilibrium fb)) 0 +
             nth i (u_equilibrium fb) 0)).
  { intros a i Hi. unfold row_holds. simpl.
    rewrite nth_mneg, nth_eye, dot_vneg, dot_eye_row by assumption.
    rewrite vals_nth by (unfold upre; rewrite length_seq; exact Hi).
    rewrite Hb by assumption.
    rewrite (linear_forward_nth l (vals a x_var)) by (auto; lia).
    split; intros H; lra. }
  eapply encodes_bind.
  - apply encodes_addMConstrs. repeat (constructor; [assumption|]). constructor.
  - intros a _ [(xv & H1 & H2 & H3) H4] i Hi. rewrite Hlb in Hi.
    apply Hrow; [assumption|].
    rewrite <- vals_nth, H4 by lia.
    apply linear_u_pre_sat_nth; [|assumption].
    rewrite vals_length. assumption.
  - intros [] m2 _ -> _.
    destruct (propagate_bounds l (x_lo_all fs) (x_up_all fs))
      as [clo cup] eqn:Epb.
    pose proof (propagate_bounds_length l (x_lo_all fs) (x_up_all fs) Hc)
      as [Hlclo Hlcup]. rewrite Epb in Hlclo, Hlcup. simpl in Hlclo, Hlcup.
    set (pre_lo := vadd (vsub clo (linear_forward l (x_equilibrium fb)))
                        (u_equilibrium fb)).
    set (pre_up := vadd (vsub cup (linear_forward l (x_equilibrium fb)))
                        (u_equilibrium fb)).
    assert (Hlpl : length pre_lo = u_dim fs).
    { unfold pre_lo, vadd, vsub.
      rewrite !zipWith_length, linear_forward_length by assumption. lia. }
    assert (Hlpu : length pre_up = u_dim fs).
    { unfold pre_up, vadd, vsub.
      rewrite !zipWith_length, linear_forward_length by assumption. lia. }
    assert (Hnl : forall i, (i < u_dim fs)%nat ->
               nth i pre_lo 0 == nth i clo 0 -
                 nth i (linear_forward l (x_equilibrium fb)) 0 +
                 nth i (u_equilibrium fb) 0).
    { intros i Hi. unfold pre_lo.
      rewrite vadd_nth, vsub_nth
        by (unfold vsub; rewrite ?zipWith_length, ?linear_forward_length by assumption;
            lia).
      reflexivity. }
    assert (Hnu : forall i, (i < u_dim fs)%nat ->
               nth i pre_up 0 == nth i cup 0 -
                 nth i (linear_forward l (x_equilibrium fb)) 0 +
                 nth i (u_equilibrium fb) 0).
    { intros i Hi. unfold pre_up.
      rewrite vadd_nth, vsub_nth
        by (unfold vsub; rewrite ?zipWith_length, ?linear_forward_length by assumption;
            lia).
      reflexivity. }
    assert (Hupre : forall a,
               (forall i, (i < length b)%nat ->
                  row_holds a [mneg (eye (u_dim fs)); weight l] [upre; x_var]
                            EQUAL b i) ->
               forall i, (i < u_dim fs)%nat ->
                 a (nth i upre O) ==
                 nth i (u_pre_sat_value fb (vals a x_var)) 0).
    { intros a Hrows i Hi. rewrite linear_u_pre_sat_nth
        by (rewrite ?vals_length; assumption).
      apply Hrow; [assumption|]. apply Hrows. lia. }
    assert (Hwithin : forall a xv,
               veq (vals a x_var) xv ->
               in_box (x_lo_all fs) (x_up_all fs) xv ->
               (forall i, (i < length b)%nat ->
                  row_holds a [mneg (eye (u_dim fs)); weight l] [upre; x_var]
                            EQUAL b i) ->
               forall i, (i < u_dim fs)%nat -> within upre pre_lo pre_up a i).
    { intros a xv Hxv Hbox Hrows i Hi. unfold within.
      rewrite Hnl, Hnu by assumption.
      assert (Hr := proj1 (Hrow a i Hi) (Hrows i ltac:(lia))).
      assert (Hbox' : in_box (x_lo_all fs) (x_up_all fs) (vals a x_var))
        by (eapply in_box_veq; [apply veq_sym|]; eassumption).
      pose proof (propagate_bounds_sound l _ _ _ i Hc Hbox' ltac:(lia)) as Hs.
      rewrite Epb in Hs. simpl in Hs. split; lra. }
    exists (fun a => forall i, (i < length u_var)%nat ->
              within upre pre_lo pre_up a i /\
              saturated u_var upre (u_lower_limit fb) (u_upper_limit fb) a i),
           (fun _ a => forall i, (i < length u_var)%nat ->
              within upre pre_lo pre_up a i ->
              saturated u_var upre (u_lower_limit fb) (u_upper_limit fb) a i).
    split; [|split].
    + eapply encodes_bind.
      * apply (add_input_saturation_constraint_encodes sat sat_exact u_var upre
                 (u_lower_limit fb) (u_upper_limit fb) pre_lo pre_up
                 (nvars m1));
          match goal with
          | |- length _ = _ => unfold fs in *; lia
          | |- vars_wf _ _ => assumption
          | |- limits_consistent _ _ => apply (wf_limits fb Hwf)
          | |- (_ <= _)%nat => rewrite nvars_add_constrs; lia
          | |- vle _ _ => idtac
          end.
        apply vle_of_nth; [lia|]. intros i Hi. rewrite Hlpl in Hi.
        rewrite Hnl, Hnu by assumption.
        assert (Hbox0 : in_box (x_lo_all fs) (x_up_all fs) (x_lo_all fs)).
        { split; [|apply (wf_box fb Hwf)].
          apply vle_of_nth; [reflexivity|]. intros; apply Qle_refl. }
        pose proof (propagate_bounds_sound l _ _ _ i Hc Hbox0 ltac:(lia)) as Hs.
        rewrite Epb in Hs. simpl in Hs. lra.
      * auto.
      * intros [lb0 ub0] m3 _ _ _.
        exists (fun _ => True), (fun _ _ => True). split; [|split].
        -- eapply encodes_weaken; [apply encodes_ret| | |]; auto.
        -- auto.
        -- auto.
    + intros a a1 _ [(xv & H1 & H2 & H3) H4] Hag _ HP1 i Hi.
      rewrite Hlen_u in Hi.
      assert (Hx1 : vals a1 x_var = vals a x_var)
        by (apply (vals_agree (nvars m1)); assumption).
      assert (Hu1 : vals a1 u_var = vals a u_var)
        by (apply (vals_agree (nvars m1)); assumption).
      split.
      * apply (Hwithin a1 xv); auto. rewrite Hx1. assumption.
      * unfold saturated.
        rewrite (saturate_proper _ _ _ _ (Hupre a1 HP1 i Hi)).
        rewrite <- (vals_nth a1 u_var) by (unfold fs in *; lia). rewrite Hu1.
        rewrite (veq_nth _ _ i H3), (compute_u_nth fb Hwf) by assumption.
        apply saturate_proper. apply veq_nth. apply u_pre_sat_value_veq.
        rewrite Hx1. apply veq_sym. assumption.
    + intros r2 a HP1 HP2 xv Hxv Hbox. apply veq_of_nth.
      * rewrite vals_length, (compute_u_length fb Hwf). assumption.
      * intros i Hi. rewrite vals_length in Hi.
        assert (Hi' : (i < u_dim fs)%nat) by (unfold fs in *; lia).
        rewrite vals_nth by assumption.
        pose proof (HP2 i Hi (Hwithin a xv Hxv Hbox HP1 i Hi')) as Hs.
        unfold saturated in Hs. rewrite Hs.
        rewrite (saturate_proper _ _ _ _ (Hupre a HP1 i Hi')).
        rewrite (compute_u_nth fb Hwf) by assumption.
        apply saturate_proper. apply veq_nth. apply u_pre_sat_value_veq.
        assumption.
Qed.

End LinearController.

(** ** Constraint bundles *)

Lemma bundle_output_length (bnd : MixedIntegerConstraintsReturn)
      (xin s b : tensor) :
  length (bundle_output bnd xin s b) = length (Cout bnd).
Proof.
  unfold bundle_output. rewrite length_map, length_combine, length_seq.
  apply Nat.min_id.
Qed.

Lemma bundle_output_nth (bnd : MixedIntegerConstraintsReturn)
      (xin s b : tensor) (i : nat) :
  (i < length (Cout bnd))%nat ->
  nth i (bundle_output bnd xin s b) 0 =
  row_val (block (Aout_input bnd)) i xin + row_val (block (Aout_slack bnd)) i s +
  row_val (block (Aout_binary bnd)) i b + nth i (Cout bnd) 0.
Proof.
  intros Hi. unfold bundle_output.
  set (f := fun ic : nat * Q =>
              row_val (block (Aout_input bnd)) (fst ic) xin +
              row_val (block (Aout_slack bnd)) (fst ic) s +
              row_val (block (Aout_binary bnd)) (fst ic) b + snd ic).
  rewrite (nth_indep _ 0 (f (O, 0)))
    by (rewrite length_map, length_combine, length_seq; lia).
  rewrite (map_nth f), combine_nth by (rewrite length_seq; reflexivity).
  rewrite seq_nth by assumption. reflexivity.
Qed.

Lemma bundle_output_rows (a : assignment) (bnd : MixedIntegerConstraintsReturn)
      (input slack binary o : list var) :
  length o = length (Cout bnd) ->
  (forall i, (i < length (Cout bnd))%nat ->
     row_holds a [eye (length (Cout bnd)); mneg (block (Aout_input bnd));
                  mneg (block (Aout_slack bnd)); mneg (block (Aout_binary bnd))]
               [o; input; slack; binary] EQUAL (Cout bnd) i) <->
  veq (vals a o)
      (bundle_output bnd (vals a input) (vals a slack) (vals a binary)).
Proof.
  intros Hlo.
  assert (Hrow : forall i, (i < length (Cout bnd))%nat ->
            (row_holds a [eye (length (Cout bnd)); mneg (block (Aout_input bnd));
                          mneg (block (Aout_slack bnd));
                          mneg (block (Aout_binary bnd))]
                       [o; input; slack; binary] EQUAL (Cout bnd) i <->
             nth i (vals a o) 0 ==
             nth i (bundle_output bnd (vals a input) (vals a slack)
                                  (vals a binary)) 0)).
  { intros i Hi. unfold row_holds. simpl.
    rewrite nth_eye, dot_eye_row, !nth_mneg, !dot_vneg by assumption.
    rewrite bundle_output_nth by assumption. unfold row_val.
    split; intros H; lra. }
  split.
  - intros H. apply veq_of_nth.
    + rewrite vals_length, bundle_output_length. assumption.
    + intros i Hi. rewrite vals_length, Hlo in Hi. apply Hrow; auto.
  - intros H i Hi. apply Hrow; [assumption|]. apply veq_nth. assumption.
Qed.

Lemma binary_vars_ok (w : tensor) :
  Forall is_binary w -> Forall (var_ok (mkVar (Some 0) (Some 1) BINARY)) w.
Proof.
  intros H. eapply Forall_impl; [|exact H]. intros q [Hq|Hq]; unfold var_ok;
    simpl; (split; [lra|split; [lra|intros _]]); [left|right]; assumption.
Qed.

Lemma feasible_new_binary (m : GurobiTorchMIP) (num : nat) (a : assignment) :
  feasible (mip_add_vars m (repeat (mkVar (Some 0) (Some 1) BINARY) num)) a ->
  Forall is_binary (vals a (seq (nvars m) num)).
Proof.
  intros H. apply feasible_add_vars in H. destruct H as [_ H].
  apply Forall_forall. intros q Hq. unfold vals in Hq.
  apply in_map_iff in Hq. destruct Hq as (v & <- & Hv). apply in_seq in Hv.
  replace v with (nvars m + (v - nvars m))%nat by lia.
  apply (H (v - nvars m)%nat (mkVar (Some 0) (Some 1) BINARY)); [|reflexivity].
  apply nth_error_repeat. lia.
Qed.

Lemma add_mixed_integer_linear_constraints_encodes
      (bnd : MixedIntegerConstraintsReturn) (input : list var)
      (out : option (list var)) (m : GurobiTorchMIP) :
  vars_wf (nvars m) input ->
  (forall o, out = Some o ->
             vars_wf (nvars m) o /\ length o = length (Cout bnd)) ->
  encodes (add_mixed_integer_linear_constraints bnd input out BINARY) m
          (fun a => exists s b,
               bundle_point bnd (vals a input) s b /\
               forall o, out = Some o ->
                 veq (vals a o) (bundle_output bnd (vals a input) s b))
          (fun r m' =>
             r = (seq (nvars m) (num_slack bnd),
                  seq (nvars m + num_slack bnd) (num_binary bnd)) /\
             nvars m' = (nvars m + num_slack bnd + num_binary bnd)%nat)
          (fun r a =>
             bundle_point bnd (vals a input) (vals a (fst r)) (vals a (snd r)) /\
             forall o, out = Some o ->
               veq (vals a o)
                   (bundle_output bnd (vals a input) (vals a (fst r))
                                  (vals a (snd r)))).
Proof.
  intros Hin Hout. unfold add_mixed_integer_linear_constraints.
  set (n := nvars m).
  set (slack := seq n (num_slack bnd)).
  set (m1 := mip_add_vars m (repeat (mkVar None None CONTINUOUS) (num_slack bnd))).
  assert (Hn1 : nvars m1 = (n + num_slack bnd)%nat)
    by (unfold m1; rewrite nvars_add_vars, repeat_length; reflexivity).
  set (binary := seq (n + num_slack bnd) (num_binary bnd)).
  set (m2 := mip_add_vars m1 (repeat (mkVar (Some 0) (Some 1) BINARY)
                                     (num_binary bnd))).
  assert (Hn2 : nvars m2 = (n + num_slack bnd + num_binary bnd)%nat)
    by (unfold m2; rewrite nvars_add_vars, repeat_length, Hn1; reflexivity).
  assert (Hws : vars_wf (nvars m2) slack) by (apply vars_wf_seq; lia).
  assert (Hwb : vars_wf (nvars m2) binary) by (apply vars_wf_seq; lia).
  assert (Hwi : vars_wf (nvars m2) input)
    by (eapply vars_wf_mono; [|exact Hin]; fold n; lia).
  apply (encodes_addVars_bind_ex _ _ _ _ _ m _
           (fun a => exists b,
                bundle_point bnd (vals a input) (vals a slack) b /\
                forall o, out = Some o ->
                  veq (vals a o) (bundle_output bnd (vals a input)
                                                (vals a slack) b))).
  2:{ intros a Ha (s & b & Hp & Ho). exists s.
      split; [apply Hp|]. split; [apply free_vars_ok|]. fold n.
      rewrite (vals_agree n a (override a n s) input Hin (agree_override _ _ _)).
      unfold slack. rewrite vals_override_new by apply Hp.
      exists b. split; [assumption|]. intros o Eo.
      destruct (Hout o Eo) as [Hwo _].
      rewrite (vals_agree n a (override a n s) o Hwo (agree_override _ _ _)).
      auto. }
  fold n. fold slack. fold m1.
  apply (encodes_addVars_bind_ex _ _ _ _ _ m1 _
           (fun a =>
              bundle_point bnd (vals a input) (vals a slack) (vals a binary) /\
              forall o, out = Some o ->
                veq (vals a o) (bundle_output bnd (vals a input)
                                              (vals a slack) (vals a binary)))).
  2:{ intros a Ha (b & Hp & Ho). exists b.
      destruct Hp as (Hp1 & Hp2 & Hp3 & Hp4).
      split; [assumption|]. split; [apply binary_vars_ok; assumption|].
      rewrite Hn1.
      assert (Hag := agree_override a (n + num_slack bnd) b).
      rewrite (vals_agree _ a _ input
                 (vars_wf_mono n _ _ (Nat.le_add_r _ _) Hin) Hag).
      rewrite (vals_agree _ a _ slack (vars_wf_seq _ _ _ (Nat.le_refl _)) Hag).
      unfold binary. rewrite vals_override_new by assumption.
      split; [exact (conj Hp1 (conj Hp2 (conj Hp3 Hp4)))|]. intros o Eo.
      destruct (Hout o Eo) as [Hwo _].
      rewrite (vals_agree _ a _ o (vars_wf_mono n _ _ (Nat.le_add_r _ _) Hwo) Hag).
      auto. }
  rewrite Hn1. fold binary. fold m2.
  eapply encodes_weaken with
    (Post := fun r a =>
       r = (slack, binary) /\
       bundle_rows_hold bnd (vals a input) (vals a slack) (vals a binary) /\
       forall o, out = Some o ->
         veq (vals a o) (bundle_output bnd (vals a input) (vals a slack)
                                       (vals a binary))).
  2:{ intros a _ H. exact H. }
  2:{ intros r m' _ _ H. exact H. }
  2:{ intros r a Ha (-> & Hrows & Ho). simpl. split; [|assumption].
      split; [unfold slack; rewrite vals_length; apply length_seq|].
      split; [unfold binary; rewrite vals_length; apply length_seq|].
      split; [|assumption]. unfold binary. rewrite <- Hn1.
      apply feasible_new_binary. exact Ha. }
  eapply encodes_bind.
  - apply encodes_addMConstrs. repeat (constructor; [assumption|]). constructor.
  - intros a _ [(_ & _ & _ & Hr & _) _] i Hi. apply Hr. assumption.
  - intros [] m3 _ -> _.
    exists (fun a =>
              (forall i, (i < length (rhs_eq bnd))%nat ->
                 row_holds a [Aeq_input bnd; Aeq_slack bnd; Aeq_binary bnd]
                           [input; slack; binary] EQUAL (rhs_eq bnd) i) /\
              forall o, out = Some o ->
                veq (vals a o) (bundle_output bnd (vals a input) (vals a slack)
                                              (vals a binary))),
           (fun r a =>
              r = (slack, binary) /\
              (forall i, (i < length (rhs_eq bnd))%nat ->
                 row_holds a [Aeq_input bnd; Aeq_slack bnd; Aeq_binary bnd]
                           [input; slack; binary] EQUAL (rhs_eq bnd) i) /\
              forall o, out = Some o ->
                veq (vals a o) (bundle_output bnd (vals a input) (vals a slack)
                                              (vals a binary))).
    split; [|split].
    + eapply encodes_bind.
      * apply encodes_addMConstrs.
        repeat (constructor; [wf_vars|]). constructor.
      * intros a _ [H _]. exact H.
      * intros [] m4 _ -> _.
        exists (fun a =>
                  forall o, out = Some o ->
                    veq (vals a o) (bundle_output bnd (vals a input)
                                                  (vals a slack) (vals a binary))),
               (fun r a =>
                  r = (slack, binary) /\
                  forall o, out = Some o ->
                    veq (vals a o) (bundle_output bnd (vals a input)
                                                  (vals a slack) (vals a binary))).
        split; [|split].
        -- destruct out as [o|].
           ++ destruct (Hout o eq_refl) as [Hwo Hlo].
              eapply encodes_bind.
              ** apply encodes_addMConstrs.
                 assert (Hwo2 : vars_wf (nvars m2) o)
                   by (eapply vars_wf_mono; [|exact Hwo]; fold n; lia).
                 repeat (constructor; [wf_vars|]). constructor.
              ** intros a _ H. cbv beta.
                 refine (proj2 (bundle_output_rows a bnd input slack binary o Hlo) _).
                 apply H. reflexivity.
              ** intros [] m5 _ -> _.
                 exists (fun _ => True), (fun r _ => r = (slack, binary)).
                 split; [|split].
                 --- eapply encodes_weaken; [apply encodes_ret| | |]; auto.
                     intros r m' _ _ [-> ->]. split; [reflexivity|exact Hn2].
                 --- auto.
                 --- intros r a H ->. split; [reflexivity|].
                     intros o' Eo. injection Eo as <-.
                     refine (proj1 (bundle_output_rows a bnd input slack binary
                                                       o Hlo) _).
                     exact H.
           ++ apply encodes_ret_bind.
              eapply encodes_weaken; [apply encodes_ret|intros; exact I| |].
              ** intros r m' _ _ [-> ->]. split; [reflexivity|exact Hn2].
              ** intros r a _ ->. split; [reflexivity|]. discriminate.
        -- intros a a1 _ [_ H] Hag _ _ o Eo. destruct (Hout o Eo) as [Hwo _].
           assert (Hwo2 : vars_wf (nvars m2) o)
             by (eapply vars_wf_mono; [|exact Hwo]; fold n; lia).
           rewrite !(vals_agree (nvars m2) a a1) by assumption. auto.
        -- intros r a H [-> Ho]. auto.
    + intros a a1 _ [(_ & _ & _ & _ & Hr) Ho] Hag _ _.
      split.
      * intros i Hi. unfold row_holds. simpl.
        rewrite !(vals_agree (nvars m2) a a1) by assumption.
        apply Hr. assumption.
      * intros o Eo. destruct (Hout o Eo) as [Hwo _].
        assert (Hwo2 : vars_wf (nvars m2) o)
          by (eapply vars_wf_mono; [|exact Hwo]; fold n; lia).
        rewrite !(vals_agree (nvars m2) a a1) by assumption. auto.
    + intros r a H (-> & He & Ho). split; [reflexivity|]. split; [|assumption].
      split; assumption.
Qed.

Lemma encodes_pure {A} (c : M A) (m : GurobiTorchMIP) :
  (exists r, c m = Ok r m) ->
  encodes c m (fun _ => True) (fun _ _ => True) (fun _ _ => True).
Proof.
  intros [r Hr]. apply (encodes_intro _ _ r m); auto.
  intros _ a Ha _. exists a. split; [apply agree_refl|assumption].
Qed.

Section SaturationTail.

Variable sat : var -> var -> Q -> Q -> Q -> Q -> M (list var).
Hypothesis sat_exact : saturation_exact sat.
Variable fb : FeedbackSystem.
Hypothesis Hwf : feedback_wf fb.
Variables x_var u_var upre : list var.
Variables pre_lo pre_up : tensor.
Variable m : GurobiTorchMIP.
Hypothesis Hlen_u : length u_var = u_dim (forward_system fb).
Hypothesis Hlen_p : length upre = u_dim (forward_system fb).
Hypothesis Hlen_lo : length pre_lo = u_dim (forward_system fb).
Hypothesis Hlen_up : length pre_up = u_dim (forward_system fb).
Hypothesis Hwx : vars_wf (nvars m) x_var.
Hypothesis Hwu : vars_wf (nvars m) u_var.
Hypothesis Hwp : vars_wf (nvars m) upre.
Hypothesis Hpre_le : vle pre_lo pre_up.
Hypothesis Hknown :
  forall a, feasible m a ->
  forall xv, veq (vals a x_var) xv ->
             in_box (x_lo_all (forward_system fb))
                    (x_up_all (forward_system fb)) xv ->
  forall i, (i < u_dim (forward_system fb))%nat ->
            a (nth i upre O) == nth i (u_pre_sat_value fb xv) 0 /\
            within upre pre_lo pre_up a i.

(** Once the pre-saturation variables are tied to
    [phi_u(x) - phi_u(xhat) + u*], the saturation block makes the control
    variables follow [compute_u]. *)
Lemma saturation_block_control_law {R} (k : tensor * tensor -> M R) :
  (forall p m0, exists r, k p m0 = Ok r m0) ->
  encodes (bind (_add_input_saturation_constraint sat u_var upre
                   (u_lower_limit fb) (u_upper_limit fb) pre_lo pre_up) k) m
          (fun a => exists xv,
               veq (vals a x_var) xv /\
               in_box (x_lo_all (forward_system fb))
                      (x_up_all (forward_system fb)) xv /\
               veq (vals a u_var) (compute_u fb xv))
          (fun _ _ => True)
          (fun _ a => control_law fb x_var u_var a).
Proof.
  intros Hk.
  destruct (init_ok_lengths fb (wf_init fb Hwf)) as (Hxe & Hue & Hll & Hlu).
  eapply encodes_bind_sound.
  - apply (add_input_saturation_constraint_encodes sat sat_exact u_var upre
             (u_lower_limit fb) (u_upper_limit fb) pre_lo pre_up (nvars m));
      match goal with
      | |- length _ = _ => lia
      | |- vars_wf _ _ => assumption
      | |- limits_consistent _ _ => apply (wf_limits fb Hwf)
      | |- (_ <= _)%nat => lia
      | |- vle _ _ => assumption
      end.
  - intros a Ha (xv & H1 & H2 & H3) i Hi. rewrite Hlen_u in Hi.
    destruct (Hknown a Ha xv H1 H2 i Hi) as [Hv Hw]. split; [assumption|].
    unfold saturated. rewrite (saturate_proper _ _ _ _ Hv).
    rewrite <- (vals_nth a u_var) by lia.
    rewrite (veq_nth _ _ i H3), (compute_u_nth fb Hwf) by assumption.
    reflexivity.
  - intros p m1 _ _ _ Hs1.
    exists (fun _ => True), (fun _ _ => True). split; [|split].
    + apply encodes_pure. apply Hk.
    + auto.
    + intros r2 a Ha HP1 _ xv Hxv Hbox. apply veq_of_nth.
      * rewrite vals_length, (compute_u_length fb Hwf). assumption.
      * intros i Hi. rewrite vals_length in Hi.
        assert (Hi' : (i < u_dim (forward_system fb))%nat) by lia.
        rewrite vals_nth by assumption.
        destruct (Hknown a Ha xv Hxv Hbox i Hi') as [Hv Hw].
        pose proof (HP1 i Hi Hw) as Hs. unfold saturated in Hs. rewrite Hs.
        rewrite (saturate_proper _ _ _ _ Hv).
        rewrite (compute_u_nth fb Hwf) by assumption. reflexivity.
Qed.

End SaturationTail.

Lemma u_pre_sat_value_nth (fb : FeedbackSystem) (x : tensor) (i : nat) :
  feedback_wf fb -> (i < u_dim (forward_system fb))%nat ->
  nth i (u_pre_sat_value fb x) 0 =
  nth i (controller_forward (controller_network fb) x) 0 -
  nth i (controller_forward (controller_network fb)
           (_get_xhat_val x (x_equilibrium fb) (xhat_indices fb))) 0 +
  nth i (u_equilibrium fb) 0.
Proof.
  intros Hwf Hi. unfold u_pre_sat_value.
  destruct (init_ok_lengths fb (wf_init fb Hwf)) as (_ & Hue & _).
  rewrite vadd_nth, vsub_nth
    by (unfold vsub; rewrite ?zipWith_length, ?(controller_forward_length fb Hwf);
        lia).
  reflexivity.
Qed.

Lemma row_val_nil (i : nat) (v : tensor) : row_val [] i v = 0.
Proof. unfold row_val. destruct i; reflexivity. Qed.

Lemma init_ok_sequential (fb : FeedbackSystem) (net : Sequential) :
  init_ok fb = true -> controller_network fb = SequentialController net ->
  out_features (output_layer net) = u_dim (forward_system fb).
Proof.
  unfold init_ok. intros H E. rewrite E in H.
  rewrite !andb_true_iff, !Nat.eqb_eq in H. tauto.
Qed.

Lemma encodes_bind_assoc {A B C} (c : M A) (k1 : A -> M B) (k2 : B -> M C)
      (m : GurobiTorchMIP) (Pre : assignment -> Prop)
      (Ret : C -> GurobiTorchMIP -> Prop) (Post : C -> assignment -> Prop) :
  encodes (bind c (fun r => bind (k1 r) k2)) m Pre Ret Post ->
  encodes (bind (bind c k1) k2) m Pre Ret Post.
Proof.
  assert (E : bind (bind c k1) k2 m = bind c (fun r => bind (k1 r) k2) m)
    by (unfold bind; destruct (c m); reflexivity).
  unfold encodes. rewrite E. auto.
Qed.

Section SequentialController.

Variable sat : var -> var -> Q -> Q -> Q -> Q -> M (list var).
Hypothesis sat_exact : saturation_exact sat.
Variable output_constraint :
  Sequential -> tensor -> tensor ->
  MixedIntegerConstraintsReturn * tensor * tensor.
Variable compute_network_at_xhat :
  list var -> tensor -> Sequential -> list nat -> tensor -> tensor ->
  M (list var * list var * matrix * tensor * tensor * tensor).
Variable fb : FeedbackSystem.
Hypothesis Hwf : feedback_wf fb.
Variable net : Sequential.
Hypothesis Hnet : controller_network fb = SequentialController net.
Hypothesis oc_exact :
  output_constraint_exact_at output_constraint net
    (x_lo_all (forward_system fb)) (x_up_all (forward_system fb)).
Hypothesis cx_exact :
  forall idx, xhat_indices fb = Some idx ->
    compute_network_at_xhat_exact_at compute_network_at_xhat
      (x_equilibrium fb) net idx
      (x_lo_all (forward_system fb)) (x_up_all (forward_system fb)).
Variables x_var u_var : list var.
Hypothesis Hlen_x : length x_var = x_dim (forward_system fb).
Hypothesis Hlen_u : length u_var = u_dim (forward_system fb).

Let fs := forward_system fb.

(** The part of [_add_network_controller_mip_constraint] after the value of
    the network at xhat is available as [xconst - xc @ xvars]. *)
Lemma network_controller_tail (cnstr : MixedIntegerConstraintsReturn)
      (olo oup : tensor) (cs cb upre : list var)
      (xc : list matrix) (xvars : list (list var)) (xconst xlo xup : tensor)
      (m2 : GurobiTorchMIP) :
  length upre = u_dim fs -> length olo = u_dim fs -> length oup = u_dim fs ->
  length xconst = u_dim fs -> length xlo = u_dim fs -> length xup = u_dim fs ->
  length (Cout cnstr) = u_dim fs ->
  vars_wf (nvars m2) x_var -> vars_wf (nvars m2) u_var ->
  vars_wf (nvars m2) cs -> vars_wf (nvars m2) upre ->
  Forall (vars_wf (nvars m2)) xvars ->
  vle olo oup -> vle xlo xup ->
  (forall xv, in_box (x_lo_all fs) (x_up_all fs) xv ->
              vle olo (sequential_forward net xv) /\
              vle (sequential_forward net xv) oup) ->
  (forall a, feasible m2 a ->
     forall xv, veq (vals a x_var) xv ->
                in_box (x_lo_all fs) (x_up_all fs) xv ->
     forall i, (i < u_dim fs)%nat ->
       row_val (block (Aout_slack cnstr)) i (vals a cs) +
       nth i (Cout cnstr) 0 ==
       nth i (sequential_forward net xv) 0) ->
  (forall a, feasible m2 a ->
     forall xv, veq (vals a x_var) xv ->
                in_box (x_lo_all fs) (x_up_all fs) xv ->
     forall i, (i < u_dim fs)%nat ->
       let v := nth i xconst 0 -
                dots (map (fun Ak => nth i Ak []) (map mneg xc))
                     (map (vals a) xvars) in
       v == nth i (sequential_forward net
                     (_get_xhat_val xv (x_equilibrium fb) (xhat_indices fb))) 0
       /\ nth i xlo 0 <= v /\ v <= nth i xup 0) ->
  encodes
    (addMConstrs ([block (Aout_slack cnstr); mneg (eye (u_dim fs))] ++
                  map mneg xc)
                 ([cs; upre] ++ xvars) EQUAL
                 (vsub (vsub xconst (u_equilibrium fb)) (Cout cnstr)) ;;
     '(u_lower_bound, u_upper_bound) <-
       _add_input_saturation_constraint sat u_var upre
         (u_lower_limit fb) (u_upper_limit fb)
         (vadd (vsub olo xup) (u_equilibrium fb))
         (vadd (vsub oup xlo) (u_equilibrium fb)) ;;
     ret (cs, cb, u_lower_bound, u_upper_bound)) m2
    (fun a => (exists xv,
                 veq (vals a x_var) xv /\
                 in_box (x_lo_all fs) (x_up_all fs) xv /\
                 veq (vals a u_var) (compute_u fb xv)) /\
              vals a upre = u_pre_sat_value fb (vals a x_var))
    (fun _ _ => True)
    (fun _ a => control_law fb x_var u_var a).
Proof.
  intros Hlp Hlolo Hloup Hlxc Hlxlo Hlxup HlC Hwx Hwu Hwc Hwp Hwxv
         Hole Hxle Hobd Hphi Hxh.
  destruct (init_ok_lengths fb (wf_init fb Hwf)) as (Hxe & Hue & Hll & Hlu).
  fold fs in Hxe, Hue, Hll, Hlu.
  set (b := vsub (vsub xconst (u_equilibrium fb)) (Cout cnstr)).
  assert (Hlb : length b = u_dim fs)
    by (unfold b, vsub; rewrite !zipWith_length; lia).
  assert (Hb : forall i, (i < u_dim fs)%nat ->
               nth i b 0 == nth i xconst 0 - nth i (u_equilibrium fb) 0 -
                            nth i (Cout cnstr) 0).
  { intros i Hi. unfold b.
    rewrite !vsub_nth by (unfold vsub; rewrite ?zipWith_length; lia).
    reflexivity. }
  set (A := [block (Aout_slack cnstr); mneg (eye (u_dim fs))] ++ map mneg xc).
  set (vs := [cs; upre] ++ xvars).
  assert (Hrow : forall a i, (i < u_dim fs)%nat ->
            (row_holds a A vs EQUAL b i <->
             a (nth i upre O) ==
             row_val (block (Aout_slack cnstr)) i (vals a cs) +
             nth i (Cout cnstr) 0 -
             (nth i xconst 0 -
              dots (map (fun Ak => nth i Ak []) (map mneg xc))
                   (map (vals a) xvars)) +
             nth i (u_equilibrium fb) 0)).
  { intros a i Hi. unfold row_holds, A, vs. cbn [app map dots].
    rewrite nth_mneg, nth_eye, dot_vneg, dot_eye_row by assumption.
    rewrite vals_nth by (rewrite Hlp; exact Hi).
    rewrite Hb by assumption. unfold row_val.
    split; intros H; lra. }
  assert (Hupre_nth : forall xv i, (i < u_dim fs)%nat ->
            nth i (u_pre_sat_value fb xv) 0 =
            nth i (sequential_forward net xv) 0 -
            nth i (sequential_forward net
                     (_get_xhat_val xv (x_equilibrium fb) (xhat_indices fb))) 0 +
            nth i (u_equilibrium fb) 0).
  { intros xv i Hi. rewrite (u_pre_sat_value_nth fb xv i Hwf Hi).
    rewrite Hnet. reflexivity. }
  eapply encodes_bind_sound.
  - apply encodes_addMConstrs. unfold vs.
    repeat (constructor; [assumption|]). assumption.
  - intros a Ha [(xv & H1 & H2 & H3) H4] i Hi. fold b in Hi. rewrite Hlb in Hi.
    apply Hrow; [assumption|].
    assert (Hbox : in_box (x_lo_all fs) (x_up_all fs) (vals a x_var))
      by (eapply in_box_veq; [apply veq_sym|]; eassumption).
    pose proof (Hphi a Ha _ (veq_refl _) Hbox i Hi) as Hp.
    destruct (Hxh a Ha _ (veq_refl _) Hbox i Hi) as [Hv _]. cbv zeta in Hv.
    rewrite <- vals_nth, H4, Hupre_nth by lia. lra.
  - intros [] m3 _ -> Hle3 Hs3. fold b in Hs3. fold A in Hs3. fold vs in Hs3.
    set (m3 := mip_add_constrs m2 _) in *.
    assert (Hn3 : nvars m3 = nvars m2) by apply nvars_add_constrs.
    exists (fun a => exists xv,
               veq (vals a x_var) xv /\
               in_box (x_lo_all fs) (x_up_all fs) xv /\
               veq (vals a u_var) (compute_u fb xv)),
           (fun _ a => control_law fb x_var u_var a).
    split; [|split].
    + apply (saturation_block_control_law sat sat_exact fb Hwf x_var u_var upre);
        match goal with
        | |- length _ = _ =>
            unfold vadd, vsub; rewrite ?zipWith_length; unfold fs in *; lia
        | |- vars_wf _ _ => rewrite Hn3; assumption
        | |- vle _ _ => idtac
        | |- forall a, feasible _ a -> _ => idtac
        | |- forall p m0, exists r, _ => intros [lb0 ub0] m0; eexists; reflexivity
        end.
      * apply vle_of_nth;
          [unfold vadd, vsub; rewrite ?zipWith_length; lia|].
        intros i Hi.
        assert (Hi' : (i < u_dim fs)%nat)
          by (revert Hi; unfold vadd, vsub; rewrite ?zipWith_length; lia).
        rewrite !vadd_nth, !vsub_nth
          by (unfold vsub; rewrite ?zipWith_length; lia).
        pose proof (vle_nth _ _ i Hole). pose proof (vle_nth _ _ i Hxle). lra.
      * intros a Ha xv Hxv Hbox i Hi. fold fs in Hi.
        destruct (Hs3 a Ha) as [Ha2 Hrows].
        pose proof (proj1 (Hrow a i Hi) (Hrows i ltac:(lia))) as Hr.
        pose proof (Hphi a Ha2 xv Hxv Hbox i Hi) as Hp.
        destruct (Hxh a Ha2 xv Hxv Hbox i Hi) as (Hv & Hv1 & Hv2).
        cbv zeta in Hv, Hv1, Hv2.
        destruct (Hobd xv Hbox) as [Ho1 Ho2].
        pose proof (vle_nth _ _ i Ho1). pose proof (vle_nth _ _ i Ho2).
        split.
        -- rewrite Hupre_nth by assumption. lra.
        -- unfold within.
           rewrite !vadd_nth, !vsub_nth
             by (unfold vsub; rewrite ?zipWith_length; lia).
           split; lra.
    + intros a a1 _ [(xv & H1 & H2 & H3) H4] Hag _ _. exists xv.
      rewrite !(vals_agree (nvars m2) a a1) by assumption. auto.
    + auto.
Qed.

Lemma add_network_controller_encodes (m : GurobiTorchMIP) :
  vars_wf (nvars m) x_var -> vars_wf (nvars m) u_var ->
  encodes (_add_network_controller_mip_constraint
             sat output_constraint compute_network_at_xhat fb net x_var u_var)
          m
          (fun a => exists xv,
               veq (vals a x_var) xv /\
               in_box (x_lo_all fs) (x_up_all fs) xv /\
               veq (vals a u_var) (compute_u fb xv))
          (fun _ _ => True)
          (fun _ a => control_law fb x_var u_var a).
Proof.
  intros Hwx Hwu. unfold _add_network_controller_mip_constraint. fold fs.
  destruct (init_ok_lengths fb (wf_init fb Hwf)) as (Hxe & Hue & Hll & Hlu).
  pose proof (init_ok_sequential fb net (wf_init fb Hwf) Hnet) as Ho.
  pose proof (wf_controller fb Hwf) as Hc. rewrite Hnet in Hc. simpl in Hc.
  fold fs in Hxe, Hue, Hll, Hlu, Ho.
  destruct (output_constraint net (x_lo_all fs) (x_up_all fs))
    as [[cnstr olo] oup] eqn:Eoc.
  pose proof oc_exact as Hoc. unfold output_constraint_exact_at in Hoc.
  fold fs in Hoc. rewrite Eoc in Hoc. simpl in Hoc.
  destruct Hoc as (Hex & HAi & HAb & HlC & Hlolo & Hloup & Hole & Hobd).
  apply encodes_assert; [rewrite HAi; reflexivity|].
  apply encodes_assert; [rewrite HAb; reflexivity|].
  eapply encodes_bind_sound.
  - apply (add_mixed_integer_linear_constraints_encodes cnstr x_var None m);
      [assumption|]. intros o Eo; discriminate.
  - intros a Ha (xv & H1 & H2 & H3).
    destruct (proj2 Hex (vals a x_var) xv H1 H2) as (s & b & Hp).
    exists s, b. split; [assumption|]. intros o Eo; discriminate.
  - intros [cs cb] m1 _ [Er Hn1] Hle1 Hs1. injection Er as -> ->.
    set (cs := seq (nvars m) (num_slack cnstr)) in *.
    set (cb := seq (nvars m + num_slack cnstr) (num_binary cnstr)) in *.
    assert (Hphi : forall a, feasible m1 a ->
              forall xv, veq (vals a x_var) xv ->
                         in_box (x_lo_all fs) (x_up_all fs) xv ->
              forall i, (i < u_dim fs)%nat ->
                row_val (block (Aout_slack cnstr)) i (vals a cs) +
                nth i (Cout cnstr) 0 ==
                nth i (sequential_forward net xv) 0).
    { intros a Ha xv Hxv Hbox i Hi. destruct (Hs1 a Ha) as [_ [Hp _]].
      simpl in Hp.
      pose proof (proj1 Hex _ _ _ _ Hxv Hbox Hp) as Hv.
      apply (veq_nth _ _ i) in Hv.
      rewrite bundle_output_nth in Hv by lia. rewrite HAi, HAb in Hv.
      simpl in Hv. rewrite !row_val_nil in Hv. lra. }
    exists (fun a => exists xv,
               veq (vals a x_var) xv /\
               in_box (x_lo_all fs) (x_up_all fs) xv /\
               veq (vals a u_var) (compute_u fb xv)),
           (fun _ a => control_law fb x_var u_var a).
    split; [|split].
    + set (n1 := nvars m1). set (upre := seq n1 (u_dim fs)).
      set (m2 := mip_add_vars m1 (repeat (mkVar None None CONTINUOUS)
                                         (u_dim fs))).
      assert (Hn2 : nvars m2 = (n1 + u_dim fs)%nat)
        by (unfold m2; rewrite nvars_add_vars, repeat_length; reflexivity).
      assert (Hwx1 : vars_wf n1 x_var)
        by (eapply vars_wf_mono; [|exact Hwx]; assumption).
      assert (Hwu1 : vars_wf n1 u_var)
        by (eapply vars_wf_mono; [|exact Hwu]; assumption).
      assert (Hwc1 : vars_wf n1 cs)
        by (apply vars_wf_seq; unfold n1; lia).
      assert (Hwx2 : vars_wf (nvars m2) x_var)
        by (eapply vars_wf_mono; [|exact Hwx1]; lia).
      assert (Hwu2 : vars_wf (nvars m2) u_var)
        by (eapply vars_wf_mono; [|exact Hwu1]; lia).
      assert (Hwc2 : vars_wf (nvars m2) cs)
        by (eapply vars_wf_mono; [|exact Hwc1]; lia).
      assert (Hwp2 : vars_wf (nvars m2) upre)
        by (apply vars_wf_seq; lia).
      assert (Hlp : length upre = u_dim fs) by apply length_seq.
      apply (encodes_addVars_bind (u_dim fs) None None CONTINUOUS _ m1
               (fun a => u_pre_sat_value fb (vals a x_var)) _
               (fun a => (exists xv,
                            veq (vals a x_var) xv /\
                            in_box (x_lo_all fs) (x_up_all fs) xv /\
                            veq (vals a u_var) (compute_u fb xv)) /\
                         vals a upre = u_pre_sat_value fb (vals a x_var))).
      2:{ intros a Ha (xv & H1 & H2 & H3).
          split; [apply u_pre_sat_value_length; assumption|].
          split; [apply free_vars_ok|]. fold n1.
          rewrite !(vals_agree n1 a (override a n1 _) _ Hwx1 (agree_override _ _ _)).
          rewrite !(vals_agree n1 a (override a n1 _) _ Hwu1 (agree_override _ _ _)).
          split; [exists xv; auto|].
          apply vals_override_new. apply u_pre_sat_value_length. assumption. }
      fold n1. fold upre. fold m2.
      assert (Hs2 : forall a, feasible m2 a -> feasible m1 a)
        by (intros a Ha; apply feasible_add_vars in Ha; apply Ha).
      assert (Hlat : forall x, length (sequential_forward net x) = u_dim fs)
        by (intros x; unfold sequential_forward;
            rewrite linear_forward_length by apply Hc; assumption).
      destruct (xhat_is_equilibrium (xhat_indices fb) (x_dim fs)) eqn:Exh.
      * apply encodes_ret_bind.
        apply (network_controller_tail cnstr olo oup cs cb upre [] []
                 (sequential_forward net (x_equilibrium fb))
                 (sequential_forward net (x_equilibrium fb))
                 (sequential_forward net (x_equilibrium fb)) m2);
          try assumption; try lia; try apply Hlat.
        -- constructor.
        -- apply vle_of_nth; [reflexivity|]. intros; apply Qle_refl.
        -- intros a Ha. apply Hphi. apply Hs2. assumption.
        -- intros a Ha xv Hxv Hbox i Hi. cbn [map dots].
           rewrite (get_xhat_val_equilibrium xv _ _ (x_dim fs))
             by (try assumption;
                 rewrite <- (veq_length _ _ Hxv), vals_length; assumption).
           split; [|split]; lra.
      * apply encodes_bind_assoc.
        destruct (xhat_indices fb) as [idx|] eqn:Eidx; [|discriminate Exh].
        eapply encodes_bind_sound.
        -- apply (cx_exact idx eq_refl m2 x_var);
             [assumption | unfold fs; rewrite (wf_x_lo fb Hwf); assumption].
        -- intros a Ha [(xv & H1 & H2 & _) _]. exists xv. auto.
        -- intros [[[[[xs xb] xA] xC] xlo] xup] m3 _
                  (Hwxs & HlxC & Hlxlo & Hlxup & Hxle) Hle3 Hs3.
           exists (fun a => (exists xv,
                               veq (vals a x_var) xv /\
                               in_box (x_lo_all fs) (x_up_all fs) xv /\
                               veq (vals a u_var) (compute_u fb xv)) /\
                            vals a upre = u_pre_sat_value fb (vals a x_var)),
                  (fun _ a => control_law fb x_var u_var a).
           split; [|split].
           ++ apply encodes_ret_bind.
              apply (network_controller_tail cnstr olo oup cs cb upre
                       [xA] [xs] xC xlo xup m3);
                try assumption; try lia;
                try (eapply vars_wf_mono; [|eassumption]; assumption).
              ** constructor; [assumption|constructor].
              ** intros a Ha. apply Hphi. apply Hs2. apply Hs3. assumption.
              ** intros a Ha xv Hxv Hbox i Hi. destruct (Hs3 a Ha) as [_ HP].
                 destruct (HP xv Hxv Hbox) as (Hv & Hl & Hu).
                 cbn [map dots]. rewrite nth_mneg, dot_vneg. rewrite Eidx.
                 pose proof (veq_length _ _ Hv) as Hlv.
                 rewrite Hlat in Hlv. unfold vadd in Hlv.
                 rewrite zipWith_length, matvec_length in Hlv.
                 pose proof (veq_nth _ _ i Hv) as Hvi.
                 rewrite vadd_nth, matvec_nth in Hvi
                   by (rewrite ?matvec_length; lia).
                 pose proof (vle_nth _ _ i Hl). pose proof (vle_nth _ _ i Hu).
                 split; [|split]; lra.
           ++ intros a a1 _ [(xv & H1 & H2 & H3) H4] Hag _ _.
              rewrite !(vals_agree (nvars m2) a a1) by assumption.
              split; [exists xv; auto | assumption].
           ++ auto.
    + intros a a1 _ (xv & H1 & H2 & H3) Hag _ _. exists xv.
      rewrite !(vals_agree (nvars m) a a1) by assumption. auto.
    + auto.
Qed.

End SequentialController.

(** ** The closed loop *)

Section ClosedLoop.

Variable sat : var -> var -> Q -> Q -> Q -> Q -> M (list var).
Hypothesis sat_exact : saturation_exact sat.
Variable output_constraint :
  Sequential -> tensor -> tensor ->
  MixedIntegerConstraintsReturn * tensor * tensor.
Variable compute_network_at_xhat :
  list var -> tensor -> Sequential -> list nat -> tensor -> tensor ->
  M (list var * list var * matrix * tensor * tensor * tensor).
Variable fb : FeedbackSystem.
Hypothesis Hwf : feedback_wf fb.
Hypothesis oc_exact :
  forall net, controller_network fb = SequentialController net ->
    output_constraint_exact_at output_constraint net
      (x_lo_all (forward_system fb)) (x_up_all (forward_system fb)).
Hypothesis cx_exact :
  forall net idx,
    controller_network fb = SequentialController net ->
    xhat_indices fb = Some idx ->
    compute_network_at_xhat_exact_at compute_network_at_xhat
      (x_equilibrium fb) net idx
      (x_lo_all (forward_system fb)) (x_up_all (forward_system fb)).
Hypothesis Hlin :
  forall l, controller_network fb = LinearController l ->
    xhat_is_equilibrium (xhat_indices fb) (x_dim (forward_system fb)) = true.
Variable dom : tensor -> tensor -> Prop.
Hypothesis Hfs : forward_system_exact (forward_system fb) dom.
Hypothesis Hdom :
  forall xv, in_box (x_lo_all (forward_system fb))
                    (x_up_all (forward_system fb)) xv ->
             dom xv (compute_u fb xv).
Variables x_var x_next_var : list var.
Hypothesis Hlen_x : length x_var = x_dim (forward_system fb).
Hypothesis Hlen_n : length x_next_var = x_dim (forward_system fb).

Let fs := forward_system fb.

Lemma add_controller_encodes (u_var : list var) (m : GurobiTorchMIP) :
  length u_var = u_dim fs ->
  vars_wf (nvars m) x_var -> vars_wf (nvars m) u_var ->
  encodes (_add_controller_mip_constraint
             sat output_constraint compute_network_at_xhat fb x_var u_var) m
          (fun a => exists xv,
               veq (vals a x_var) xv /\
               in_box (x_lo_all fs) (x_up_all fs) xv /\
               veq (vals a u_var) (compute_u fb xv))
          (fun _ _ => True)
          (fun _ a => control_law fb x_var u_var a).
Proof.
  intros Hlu Hwx Hwu. unfold _add_controller_mip_constraint.
  case_eq (controller_network fb); [intros l E | intros net E].
  - apply (add_linear_controller_encodes sat sat_exact fb Hwf l E (Hlin l E));
      assumption.
  - apply (add_network_controller_encodes sat sat_exact output_constraint
             compute_network_at_xhat fb Hwf net E (oc_exact net E)
             (fun idx Ei => cx_exact net idx E Ei));
      assumption.
Qed.

(** [add_dynamics_mip_constraint] relates the state, the control and the
    next state as [compute_u] and [step_forward] do. *)
Lemma add_dynamics_mip_constraint_encodes (m : GurobiTorchMIP) :
  vars_wf (nvars m) x_var -> vars_wf (nvars m) x_next_var ->
  encodes (add_dynamics_mip_constraint
             sat output_constraint compute_network_at_xhat fb
             x_var x_next_var) m
          (fun a => exists xv,
               veq (vals a x_var) xv /\
               in_box (x_lo_all fs) (x_up_all fs) xv /\
               veq (vals a x_next_var) (step_forward fb xv))
          (fun r _ => fst (fst (fst (fst r))) = seq (nvars m) (u_dim fs))
          (fun r a => forall xv,
               veq (vals a x_var) xv ->
               in_box (x_lo_all fs) (x_up_all fs) xv ->
               veq (vals a (fst (fst (fst (fst r))))) (compute_u fb xv) /\
               veq (vals a x_next_var) (step_forward fb xv)).
Proof.
  intros Hwx Hwn. unfold add_dynamics_mip_constraint. fold fs.
  set (n := nvars m). set (u := seq n (u_dim fs)).
  set (m1 := mip_add_vars m (repeat (mkVar None None CONTINUOUS) (u_dim fs))).
  assert (Hn1 : nvars m1 = (n + u_dim fs)%nat)
    by (unfold m1; rewrite nvars_add_vars, repeat_length; reflexivity).
  assert (Hwx1 : vars_wf (nvars m1) x_var)
    by (eapply vars_wf_mono; [|exact Hwx]; fold n; lia).
  assert (Hwn1 : vars_wf (nvars m1) x_next_var)
    by (eapply vars_wf_mono; [|exact Hwn]; fold n; lia).
  assert (Hwu1 : vars_wf (nvars m1) u) by (apply vars_wf_seq; lia).
  assert (Hlu : length u = u_dim fs) by apply length_seq.
  apply (encodes_addVars_bind_ex (u_dim fs) None None CONTINUOUS _ m _
           (fun a => exists xv,
                veq (vals a x_var) xv /\
                in_box (x_lo_all fs) (x_up_all fs) xv /\
                veq (vals a x_next_var) (step_forward fb xv) /\
                veq (vals a u) (compute_u fb xv))).
  2:{ intros a Ha (xv & H1 & H2 & H3). exists (compute_u fb xv).
      split; [apply (compute_u_length fb Hwf)|].
      split; [apply free_vars_ok|]. fold n.
      exists xv.
      rewrite !(vals_agree n a (override a n _) _ Hwx (agree_override _ _ _)).
      rewrite !(vals_agree n a (override a n _) _ Hwn (agree_override _ _ _)).
      unfold u. rewrite vals_override_new by apply (compute_u_length fb Hwf).
      repeat (split; [assumption|]). apply veq_refl. }
  fold n. fold u. fold m1.
  eapply encodes_bind_sound.
  - apply (Hfs m1 x_var x_next_var u); assumption.
  - intros a Ha (xv & H1 & H2 & H3 & H4). exists xv, (compute_u fb xv).
    repeat (split; [auto|]). exact H3.
  - intros [fslack fbin] m2 _ _ Hle2 Hs2.
    exists (fun a => exists xv,
               veq (vals a x_var) xv /\
               in_box (x_lo_all fs) (x_up_all fs) xv /\
               veq (vals a u) (compute_u fb xv)),
           (fun r a => fst (fst (fst (fst r))) = u /\
                       control_law fb x_var u a).
    split; [|split].
    + eapply encodes_bind_sound.
      * apply (add_controller_encodes u m2);
          [assumption | |]; (eapply vars_wf_mono; [|eassumption]; assumption).
      * intros a Ha H. exact H.
      * intros [[[cs cb] lb] ub] m3 _ _ _ _.
        exists (fun _ => True),
               (fun r _ => r = (u, fslack, cs, fbin, cb)).
        split; [|split].
        -- eapply encodes_weaken; [apply encodes_ret| | |].
           ++ intros; exact I.
           ++ intros r m' _ _ [-> _]. reflexivity.
           ++ intros r a _ H. exact H.
        -- intros; exact I.
        -- intros r a _ Hc ->. split; [reflexivity | exact Hc].
    + intros a a1 _ (xv & H1 & H2 & H3 & H4) Hag _ _. exists xv.
      rewrite !(vals_agree (nvars m1) a a1) by assumption. auto.
    + intros r a Ha HP1 [Er Hc] xv Hxv Hbox. rewrite Er.
      pose proof (Hc xv Hxv Hbox) as Hu. split; [assumption|].
      apply (HP1 xv (compute_u fb xv)); auto.
Qed.

End ClosedLoop.

(** ** Pinned variables *)

Lemma combine_same_length (xs : tensor) : length (combine xs xs) = length xs.
Proof. rewrite length_combine. lia. Qed.

Lemma nth_error_pinned (xs : tensor) (k : nat) (v : Var) :
  nth_error (map (fun p => mkVar (Some (fst p)) (Some (snd p)) CONTINUOUS)
                 (combine xs xs)) k = Some v ->
  v = mkVar (Some (nth k xs 0)) (Some (nth k xs 0)) CONTINUOUS /\
  (k < length xs)%nat.
Proof.
  revert k. induction xs as [|x xs IH]; intros [|k] H; simpl in *;
    try discriminate.
  - injection H as <-. split; [reflexivity | lia].
  - destruct (IH k H). split; [assumption | lia].
Qed.

Lemma nth_error_pinned_Some (xs : tensor) (k : nat) :
  (k < length xs)%nat ->
  nth_error (map (fun p => mkVar (Some (fst p)) (Some (snd p)) CONTINUOUS)
                 (combine xs xs)) k =
  Some (mkVar (Some (nth k xs 0)) (Some (nth k xs 0)) CONTINUOUS).
Proof.
  revert k. induction xs as [|x xs IH]; intros [|k] H; simpl in *;
    try lia; [reflexivity|]. apply IH. lia.
Qed.

(** A variable created with [lb = ub = x] takes the value [x]. *)
Lemma feasible_pinned (m : GurobiTorchMIP) (xs : tensor) (a : assignment) :
  feasible (mip_add_vars m
              (map (fun p => mkVar (Some (fst p)) (Some (snd p)) CONTINUOUS)
                   (combine xs xs))) a <->
  feasible m a /\ veq (vals a (seq (nvars m) (length xs))) xs.
Proof.
  rewrite feasible_add_vars. split; intros [Hf H]; (split; [assumption|]).
  - apply veq_of_nth; [rewrite vals_length, length_seq; reflexivity|].
    intros i Hi. rewrite vals_length, length_seq in Hi.
    rewrite vals_nth, seq_nth by (rewrite ?length_seq; assumption).
    destruct (H i _ (nth_error_pinned_Some xs i Hi)) as (H1 & H2 & _).
    simpl in H1, H2. lra.
  - intros k v Hk. apply nth_error_pinned in Hk. destruct Hk as [-> Hk].
    pose proof (veq_nth _ _ k H) as Hv.
    rewrite vals_nth, seq_nth in Hv by (rewrite ?length_seq; assumption).
    unfold var_ok. simpl. split; [lra|]. split; [lra|]. discriminate.
Qed.

Lemma lb_ok_Qeq (l : limit) (p q : Q) : p == q -> lb_ok l p -> lb_ok l q.
Proof. intros E. destruct l; simpl; [lra | auto]. Qed.

Lemma ub_ok_Qeq (u : limit) (p q : Q) : p == q -> ub_ok u p -> ub_ok u q.
Proof. intros E. destruct u; simpl; [lra | auto]. Qed.

Lemma feasible_empty (a : assignment) : feasible empty_mip a.
Proof.
  split; [|constructor]. intros [|i] v H; discriminate.
Qed.


(** ** The scalar closed loop *)

Lemma nth_repeat_0 (n i : nat) : nth i (repeat 0 n) 0 = 0.
Proof. revert i. induction n; intros [|i]; simpl; auto. Qed.

Lemma affine_forward_system_exact (A B : matrix) (nu : nat) (lo up : tensor) :
  length B = length A ->
  forward_system_exact (affine_forward_system A B nu lo up) (fun _ _ => True).
Proof.
  intros HB m x_var x_next_var u_var Hwx Hwn Hwu Hlx Hln Hlu. simpl in *.
  set (n := length A) in *.
  assert (Hrow : forall a i, (i < n)%nat ->
            (row_holds a [A; B; mneg (eye n)] [x_var; u_var; x_next_var]
                       EQUAL (repeat 0 n) i <->
             a (nth i x_next_var O) ==
             dot (nth i A []) (vals a x_var) + dot (nth i B []) (vals a u_var))).
  { intros a i Hi. unfold row_holds. cbn [map dots].
    rewrite nth_mneg, nth_eye, dot_vneg, dot_eye_row by assumption.
    rewrite vals_nth by lia. rewrite nth_repeat_0. split; intros H; lra. }
  assert (Hstep : forall xv uv i, (i < n)%nat ->
            nth i (affine_step A B xv uv) 0 ==
            dot (nth i A []) xv + dot (nth i B []) uv).
  { intros xv uv i Hi. unfold affine_step.
    rewrite vadd_nth by (rewrite matvec_length; lia).
    rewrite !matvec_nth. reflexivity. }
  assert (Hls : forall xv uv, length (affine_step A B xv uv) = n).
  { intros xv uv. unfold affine_step, vadd.
    rewrite zipWith_length, !matvec_length. lia. }
  eapply encodes_bind.
  - apply encodes_addMConstrs. repeat (constructor; [assumption|]). constructor.
  - intros a _ (xv & uv & H1 & H2 & _ & H3) i Hi. rewrite repeat_length in Hi.
    apply Hrow; [assumption|].
    pose proof (veq_nth _ _ i H3) as Hn. rewrite vals_nth in Hn by lia.
    unfold forward_next in Hn. simpl in Hn. rewrite Hn, Hstep by assumption.
    rewrite (dot_veq _ _ _ H1), (dot_veq _ _ _ H2). reflexivity.
  - intros [] m1 _ _ _.
    exists (fun _ => True), (fun _ _ => True). split; [|split].
    + eapply encodes_weaken; [apply encodes_ret| | |]; intros; exact I.
    + intros; exact I.
    + intros r a Hrows _ xv uv H1 H2 _. unfold forward_next. simpl.
      apply veq_of_nth; [rewrite vals_length, Hls; assumption|].
      intros i Hi. rewrite vals_length in Hi.
      rewrite vals_nth, Hstep by lia.
      rewrite <- (dot_veq _ _ _ H1), <- (dot_veq _ _ _ H2).
      apply Hrow; [lia|]. apply Hrows. rewrite repeat_length. lia.
Qed.

Lemma in_box_singleton (l u : Q) (xv : tensor) :
  in_box [l] [u] xv -> exists x, xv = [x] /\ l <= x /\ x <= u.
Proof.
  intros [H1 H2]. inversion H1 as [|? x ? xs Hl Hn]; subst.
  inversion Hn; subst. inversion H2 as [|? ? ? ? Hu ?]; subst.
  exists x. auto.
Qed.

Lemma veq_singleton_r (xin : tensor) (x : Q) :
  veq xin [x] -> exists y, xin = [y] /\ y == x.
Proof.
  intros H. inversion H as [|y ? ys ? Hy Hn]; subst. inversion Hn; subst.
  exists y. auto.
Qed.

Lemma scalar_output_constraint_exact :
  output_constraint_exact_at scalar_output_constraint scalar_controller
                             [-(1)] [1].
Proof.
  unfold output_constraint_exact_at, scalar_output_constraint.
  cbn [fst snd].
  split; [|do 5 (split; [reflexivity|]); split].
  - split.
    + intros xin xv s b Hx Hbox (Hls & Hlb & Hbin & Hin & _).
      destruct (in_box_singleton _ _ _ Hbox) as (x & -> & Hl & Hu).
      destruct (veq_singleton_r _ _ Hx) as (y & -> & Hy).
      destruct s as [|s [|]]; try discriminate.
      destruct b as [|b [|]]; try discriminate.
      inversion Hbin as [|? ? Hb _]; subst.
      pose proof (Hin 0%nat ltac:(simpl; lia)) as R0.
      pose proof (Hin 1%nat ltac:(simpl; lia)) as R1.
      pose proof (Hin 2%nat ltac:(simpl; lia)) as R2.
      pose proof (Hin 3%nat ltac:(simpl; lia)) as R3.
      unfold row_val in R0, R1, R2, R3. simpl in R0, R1, R2, R3.
      constructor; [|constructor].
      unfold row_val. simpl.
      destruct (leaky_relu_cases 0 (1 * x + 0 + 0)) as [[Hp ->]|[Hp ->]];
        destruct Hb as [Hb|Hb]; rewrite Hb in *; lra.
    + intros xin xv Hx Hbox.
      destruct (in_box_singleton _ _ _ Hbox) as (x & -> & Hl & Hu).
      destruct (veq_singleton_r _ _ Hx) as (y & -> & Hy).
      exists [leaky_relu 0 y], [if Qle_bool 0 y then 1 else 0].
      split; [reflexivity|]. split; [reflexivity|]. split.
      * constructor; [|constructor]. unfold is_binary.
        destruct (Qle_bool 0 y); [right | left]; reflexivity.
      * split; [|intros i Hi; simpl in Hi; lia].
        intros i Hi. simpl in Hi. unfold leaky_relu.
        destruct (Qle_bool 0 y) eqn:E;
          [apply Qle_bool_iff in E | apply Qle_bool_false in E];
          destruct i as [|[|[|[|i]]]]; try lia; unfold row_val; simpl; lra.
  - constructor; [|constructor]. lra.
  - intros xv Hbox.
    destruct (in_box_singleton _ _ _ Hbox) as (x & -> & Hl & Hu).
    split; (constructor; [|constructor]); simpl;
      destruct (leaky_relu_cases 0 (1 * x + 0 + 0)) as [[Hp ->]|[Hp ->]]; lra.
Qed.

Lemma scalar_loop_wf : feedback_wf scalar_loop.
Proof.
  constructor; try reflexivity.
  - constructor; [|constructor]. simpl. lra.
  - simpl. split; [constructor; [|constructor]|];
      (split; [constructor; [reflexivity|constructor] | exact I]).
  - constructor; [|constructor]. simpl. lra.
Qed.


(** ** The saturation block and its limits *)

Lemma saturate_finite (lo up v : Q) :
  saturate (Some lo) (Some up) v = clip v lo up.
Proof. reflexivity. Qed.

(** C9 (amended): in the saturation block of the feedback composition
    ([_add_input_saturation_constraint]), when every control dimension has
    both limits finite or both infinite, the block is built and at each of
    its feasible points a dimension with finite limits satisfies
    [u = clip(u_pre_sat, lower, upper)] and a dimension with infinite limits
    satisfies [u = u_pre_sat]; a dimension with both limits infinite adds the
    single equality [u - u_pre_sat = 0] and no variable; a dimension with
    exactly one infinite limit is rejected: the block fails its assertion
    instead of encoding the finite half. *)
Theorem saturation_block_limits
        (sat : var -> var -> Q -> Q -> Q -> Q -> M (list var))
        (u_var u_pre_sat : list var) (lower upper : list limit)
        (pre_lo pre_up : tensor) (m : GurobiTorchMIP) :
  saturation_exact sat ->
  length u_pre_sat = length u_var ->
  length lower = length u_var -> length upper = length u_var ->
  length pre_lo = length u_var -> length pre_up = length u_var ->
  vars_wf (nvars m) u_var -> vars_wf (nvars m) u_pre_sat ->
  vle pre_lo pre_up ->
  (limits_consistent lower upper ->
   encodes (_add_input_saturation_constraint sat u_var u_pre_sat lower upper
                                             pre_lo pre_up) m
           (fun a => forall i, (i < length u_var)%nat ->
              within u_pre_sat pre_lo pre_up a i /\
              saturated u_var u_pre_sat lower upper a i)
           (fun _ _ => True)
           (fun _ a => forall i, (i < length u_var)%nat ->
              within u_pre_sat pre_lo pre_up a i ->
              a (nth i u_var O) ==
              match nth i lower None, nth i upper None with
              | Some lo, Some up => clip (a (nth i u_pre_sat O)) lo up
              | _, _ => a (nth i u_pre_sat O)
              end)) /\
  (forall i, nth i lower None = None -> nth i upper None = None ->
     saturation_of_dimension sat u_var u_pre_sat lower upper pre_lo pre_up i m
     = Ok tt (mip_add_constrs m
                [mkLConstr [(1, nth i u_var O); (-(1), nth i u_pre_sat O)]
                           EQUAL 0])) /\
  (forall i, (i < length u_var)%nat ->
     isinf (nth i lower None) <> isinf (nth i upper None) ->
     _add_input_saturation_constraint sat u_var u_pre_sat lower upper
                                      pre_lo pre_up m
     = Raise AssertionError).
Proof.
  intros Hsat Hlp Hll Hlu Hllo Hlup Hwu Hwp Hle. split; [|split].
  - intros Hcons. eapply encodes_weaken.
    + apply (add_input_saturation_constraint_encodes sat Hsat u_var u_pre_sat
               lower upper pre_lo pre_up (nvars m));
        solve [assumption | lia].
    + intros a _ H. exact H.
    + intros; exact I.
    + intros r a _ H i Hi Hw. specialize (H i Hi Hw). unfold saturated in H.
      pose proof (limits_consistent_nth _ _ i Hcons) as Hok.
      destruct (nth i lower None) as [lo|], (nth i upper None) as [up|];
        simpl in Hok; try contradiction; exact H.
  - intros i El Eu. unfold saturation_of_dimension. rewrite El, Eu.
    reflexivity.
  - intros i Hi Hne.
    apply add_input_saturation_constraint_raises with (n0 := nvars m) (i := i);
      solve [assumption | lia].
Qed.

(** The block of the spec's scenario, [u_lo = [-1]], [u_up = [1]]. *)
Lemma saturation_block_limits_witness :
  let m := mip_add_vars empty_mip (repeat (mkVar None None CONTINUOUS) 2) in
  (limits_consistent [Some (-(1))] [Some 1] ->
   encodes (_add_input_saturation_constraint saturation_by_relu_units
              [O] [1%nat] [Some (-(1))] [Some 1] [-(5)] [5]) m
           (fun a => forall i, (i < 1)%nat ->
              within [1%nat] [-(5)] [5] a i /\
              saturated [O] [1%nat] [Some (-(1))] [Some 1] a i)
           (fun _ _ => True)
           (fun _ a => forall i, (i < 1)%nat ->
              within [1%nat] [-(5)] [5] a i ->
              a (nth i [O] O) ==
              match nth i [Some (-(1))] None, nth i [Some 1] None with
              | Some lo, Some up => clip (a (nth i [1%nat] O)) lo up
              | _, _ => a (nth i [1%nat] O)
              end)) /\
  (forall i, nth i [Some (-(1))] None = None -> nth i [Some 1] None = None ->
     saturation_of_dimension saturation_by_relu_units [O] [1%nat]
       [Some (-(1))] [Some 1] [-(5)] [5] i m
     = Ok tt (mip_add_constrs m
                [mkLConstr [(1, nth i [O] O); (-(1), nth i [1%nat] O)]
                           EQUAL 0])) /\
  (forall i, (i < 1)%nat ->
     isinf (nth i [Some (-(1))] None) <> isinf (nth i [Some 1] None) ->
     _add_input_saturation_constraint saturation_by_relu_units [O] [1%nat]
       [Some (-(1))] [Some 1] [-(5)] [5] m
     = Raise AssertionError).
Proof.
  intros m.
  apply (saturation_block_limits saturation_by_relu_units [O] [1%nat]
           [Some (-(1))] [Some 1] [-(5)] [5] m).
  - exact saturation_by_relu_units_exact.
  - reflexivity.
  - reflexivity.
  - reflexivity.
  - reflexivity.
  - reflexivity.
  - apply (vars_wf_seq 0 1 2). simpl. lia.
  - apply (vars_wf_seq 1 1 2). simpl. lia.
  - constructor; [|constructor]. lra.
Defined.

(** With the upper limit 1 and no lower limit, the block does not encode
    [u = min(u_pre_sat, 1)]: it fails its assertion, although [compute_u]
    evaluates that one-sided saturation. *)
Lemma saturation_block_one_sided_limit_rejected :
  _add_input_saturation_constraint saturation_by_relu_units
    [O] [1%nat] [None] [Some 1] [-(5)] [5]
    (mip_add_vars empty_mip (repeat (mkVar None None CONTINUOUS) 2))
  = Raise AssertionError /\
  saturate None (Some 1) 5 == 1.
Proof. split; reflexivity. Qed.

(** ** The control-Lyapunov derivative *)

Lemma tensor_min_le (d : Q) (u : tensor) (x : Q) :
  In x (d :: u) -> tensor_min d u <= x.
Proof.
  revert d. induction u as [|y u IH]; intros d [->|H]; simpl.
  - apply Qle_refl.
  - destruct H.
  - apply Q.le_min_l.
  - eapply Qle_trans; [apply Q.le_min_r|]. apply IH. exact H.
Qed.

Lemma tensor_min_In (d : Q) (u : tensor) :
  exists x, In x (d :: u) /\ tensor_min d u == x.
Proof.
  revert d. induction u as [|y u IH]; intros d; simpl.
  - exists d. split; [left; reflexivity | reflexivity].
  - destruct (IH y) as (x & Hx & Ex).
    destruct (Q.min_spec d (tensor_min y u)) as [[_ E]|[_ E]].
    + exists d. split; [left; reflexivity | exact E].
    + exists x. split; [right; exact Hx | rewrite E; exact Ex].
Qed.

Lemma zipWith_map_map {A B C D : Type} (f : B -> C -> D) (g : A -> B)
      (h : A -> C) (l : list A) :
  zipWith f (map g l) (map h l) = map (fun a => f (g a) (h a)) l.
Proof. induction l as [|a l IH]; simpl; [reflexivity | rewrite IH; reflexivity]. Qed.

Lemma zipWith_map_repeat {A B C D : Type} (f : B -> C -> D) (g : A -> B)
      (c : C) (l : list A) :
  zipWith f (map g l) (repeat c (length l)) = map (fun a => f (g a) c) l.
Proof. induction l as [|a l IH]; simpl; [reflexivity | rewrite IH; reflexivity]. Qed.

Lemma zipWith_repeat_r {A B C : Type} (f : A -> B -> C) (c : B) (l : list A) :
  zipWith f l (repeat c (length l)) = map (fun a => f a c) l.
Proof. induction l as [|a l IH]; simpl; [reflexivity | rewrite IH; reflexivity]. Qed.

Lemma zipWith_app {A B C : Type} (f : A -> B -> C) (u u' : list A)
      (v v' : list B) :
  length u = length v ->
  zipWith f (u ++ u') (v ++ v') = zipWith f u v ++ zipWith f u' v'.
Proof.
  revert v. induction u as [|x u IH]; intros [|y v] H; simpl in *;
    try discriminate; [reflexivity|]. rewrite IH by lia. reflexivity.
Qed.

Lemma repeat_rows_singleton {T : Type} (n : nat) (r : T) :
  repeat_rows n [r] = repeat r n.
Proof.
  unfold repeat_rows. induction n as [|n IH]; simpl;
    [reflexivity | rewrite IH; reflexivity].
Qed.

Lemma repeat_rows_S {T : Type} (n : nat) (A : list T) :
  repeat_rows (S n) A = A ++ repeat_rows n A.
Proof. reflexivity. Qed.

Lemma chunks_repeat (k r n : nat) (l rest : tensor) :
  length l = n ->
  chunks (k + r) n (concat (repeat l k) ++ rest) = repeat l k ++ chunks r n rest.
Proof.
  intros Hl. induction k as [|k IH]; simpl; [reflexivity|].
  rewrite <- app_assoc.
  rewrite firstn_app, skipn_app, Hl, Nat.sub_diag.
  rewrite firstn_all2, skipn_all2 by lia. simpl.
  rewrite app_nil_r, IH. reflexivity.
Qed.

Lemma length_concat_repeat (l : tensor) (k : nat) :
  length (concat (repeat l k)) = (k * length l)%nat.
Proof.
  induction k as [|k IH]; simpl; [reflexivity|]. rewrite length_app, IH.
  reflexivity.
Qed.

Lemma length_concat_repeat_cols (k n : nat) (L : matrix) :
  Forall (fun l => length l = n) L ->
  length (concat (repeat_cols k L)) = (k * length L * n)%nat.
Proof.
  induction 1 as [|l L Hl HL IH]; simpl; [lia|].
  rewrite length_app, length_concat_repeat, IH, Hl. lia.
Qed.

(** The rows that [lyapunov_derivative] builds with [repeat] and [view] are
    the sums of every row of [dphi_dx] with every row of [dl1_dx]. *)
Lemma tiled_sum_is_minkowski_sum (n : nat) (P L : matrix) :
  Forall (fun l => length l = n) L ->
  exists tiled,
    view (length P * length L) n (repeat_cols (length P) L) = Some tiled /\
    zipWith vadd (repeat_rows (length L) P) tiled = minkowski_sum P L.
Proof.
  intros HL. unfold view.
  rewrite (length_concat_repeat_cols _ n) by assumption.
  rewrite Nat.eqb_refl. eexists. split; [reflexivity|].
  induction HL as [|l L Hl HL IH].
  - rewrite Nat.mul_0_r. reflexivity.
  - cbn [length repeat_cols map concat minkowski_sum flat_map].
    rewrite Nat.mul_succ_r, (Nat.add_comm _ (length P)).
    rewrite (chunks_repeat _ _ n) by assumption.
    rewrite repeat_rows_S, zipWith_app by (rewrite repeat_length; reflexivity).
    rewrite zipWith_repeat_r. f_equal. exact IH.
Qed.

Section ControlLyapunovFacts.

Variable system_x_dim : nat.
Variable system_u_dim : nat.
Variables system_u_lo system_u_up : tensor.
Variable system_f : tensor -> tensor.
Variable system_G : tensor -> matrix.

Lemma Vdot_of_rows (dVdx : matrix) (x : tensor) :
  Vdot_of system_u_dim system_u_lo system_u_up system_f system_G dVdx x =
  map (fun d => min_u_Vdot system_u_dim system_u_lo system_u_up
                           system_f system_G d x) dVdx.
Proof.
  unfold Vdot_of, min_u_Vdot, vsub, vadd at 1, matvec, matmul.
  rewrite repeat_rows_singleton, !map_map, zipWith_map_repeat, !map_map.
  rewrite !zipWith_map_map. reflexivity.
Qed.

End ControlLyapunovFacts.

Lemma vecmat_length (n : nat) (x : tensor) (A : matrix) :
  Forall (fun row => length row = n) A -> length (vecmat n x A) = n.
Proof.
  intros HA. revert x. induction HA as [|row A Hr HA IH]; intros [|c x]; simpl;
    try apply repeat_length.
  unfold vadd, vscale. rewrite zipWith_length, length_map, IH, Hr. lia.
Qed.

Lemma in_minkowski_sum (P L : matrix) (d : tensor) :
  In d (minkowski_sum P L) <->
  exists p l, In p P /\ In l L /\ d = vadd p l.
Proof.
  unfold minkowski_sum. rewrite in_flat_map. split.
  - intros (l & Hl & Hd). apply in_map_iff in Hd. destruct Hd as (p & <- & Hp).
    exists p, l. auto.
  - intros (p & l & Hp & Hl & ->). exists l. split; [assumption|].
    apply (in_map (fun p0 => vadd p0 l)). assumption.
Qed.

(** *** The shapes on which [lyapunov_derivative] does not raise *)

Lemma broadcast_sub_same (a b : tensor) :
  length a = length b -> broadcast_sub a b = Some (vsub a b).
Proof.
  intros H. unfold broadcast_sub. rewrite H, Nat.eqb_refl. reflexivity.
Qed.

Lemma checked_matvec_shaped (A : matrix) (x : tensor) :
  Forall (fun row => length row = length x) A ->
  checked_matvec A x = Some (matvec A x).
Proof.
  intros H. unfold checked_matvec.
  replace (forallb _ A) with true; [reflexivity|].
  symmetry. apply forallb_forall. intros row Hr. rewrite Forall_forall in H.
  apply Nat.eqb_eq. apply H. exact Hr.
Qed.

Lemma dl1_dx_shaped (l1_gradient : tensor -> matrix) (n : nat)
      (x x_equilibrium : tensor) (V_lambda : Q) (R : matrix) :
  length x = n -> length x_equilibrium = n ->
  Forall (fun row => length row = n) R ->
  dl1_dx l1_gradient x x_equilibrium V_lambda R =
  Some (matmul n (map (vscale V_lambda)
                      (l1_gradient (matvec R (vsub x x_equilibrium)))) R).
Proof.
  intros Hx Hxe HR. unfold dl1_dx.
  rewrite broadcast_sub_same by congruence.
  assert (Hd : length (vsub x x_equilibrium) = n).
  { unfold vsub. rewrite zipWith_length. lia. }
  rewrite checked_matvec_shaped by (rewrite Hd; exact HR).
  rewrite Hd. reflexivity.
Qed.

(** *** The rows of [dVdx] are the gradients of the docstring *)

Lemma signed_rows_sum_vecmat (n : nat) (s : tensor) (R : matrix) :
  signed_rows_sum n s R = vecmat n s R.
Proof.
  unfold signed_rows_sum. revert R.
  induction s as [|c s IH]; intros [|row R]; simpl; rewrite ?IH; reflexivity.
Qed.

Lemma vscale_veq (c c' : Q) (u v : tensor) :
  c == c' -> veq u v -> veq (vscale c u) (vscale c' v).
Proof.
  intros Hc H. induction H as [|a b u v Hab H IH]; simpl; constructor;
    [rewrite Hc, Hab; reflexivity | exact IH].
Qed.

Lemma vscale_vadd (c : Q) (a b : tensor) :
  veq (vscale c (vadd a b)) (vadd (vscale c a) (vscale c b)).
Proof.
  revert b. induction a as [|x a IH]; intros [|y b]; simpl; constructor;
    [ring | apply IH].
Qed.

Lemma vscale_mult (c d : Q) (u : tensor) :
  veq (vscale (c * d) u) (vscale c (vscale d u)).
Proof. induction u as [|x u IH]; simpl; constructor; [ring | exact IH]. Qed.

Lemma vscale_zeros (c : Q) (n : nat) : veq (vscale c (repeat 0 n)) (repeat 0 n).
Proof. induction n as [|n IH]; simpl; constructor; [ring | exact IH]. Qed.

(** [(c * s) @ R = c * (s @ R)]. *)
Lemma vecmat_vscale (n : nat) (c : Q) (s : tensor) (R : matrix) :
  veq (vecmat n (vscale c s) R) (vscale c (vecmat n s R)).
Proof.
  revert R. induction s as [|si s IH]; intros [|row R]; simpl;
    try (apply veq_sym, vscale_zeros).
  eapply veq_trans; [|apply veq_sym, vscale_vadd].
  apply vadd_veq; [apply vscale_mult | apply IH].
Qed.

Lemma dot_veq_l (d d' u : tensor) : veq d d' -> dot d u == dot d' u.
Proof.
  intros H. revert u. induction H as [|a b d d' Hab H IH]; intros [|z u]; simpl;
    try reflexivity.
  rewrite Hab, (IH u). reflexivity.
Qed.

Lemma vecmat_veq (n : nat) (d d' : tensor) (G : matrix) :
  veq d d' -> veq (vecmat n d G) (vecmat n d' G).
Proof.
  intros H. revert G. induction H as [|a b d d' Hab H IH]; intros [|row G];
    simpl; try apply veq_refl.
  apply vadd_veq; [apply vscale_veq; [exact Hab | apply veq_refl] | apply IH].
Qed.

Lemma min_u_Vdot_veq (system_u_dim : nat) (system_u_lo system_u_up : tensor)
      (system_f : tensor -> tensor) (system_G : tensor -> matrix)
      (d d' x : tensor) :
  veq d d' ->
  min_u_Vdot system_u_dim system_u_lo system_u_up system_f system_G d x ==
  min_u_Vdot system_u_dim system_u_lo system_u_up system_f system_G d' x.
Proof.
  intros H. unfold min_u_Vdot.
  pose proof (vecmat_veq system_u_dim d d' (system_G x) H) as HG.
  rewrite (dot_veq_l d d' _ H), (dot_veq_l _ _ _ HG).
  rewrite (norm1_veq
             (vmul (vecmat system_u_dim d (system_G x))
                   (vscale (1#2) (vsub system_u_up system_u_lo)))
             (vmul (vecmat system_u_dim d' (system_G x))
                   (vscale (1#2) (vsub system_u_up system_u_lo)))).
  - reflexivity.
  - apply zipWith_veq; [|exact HG | apply veq_refl].
    intros a a' b b' Ha Hb. rewrite Ha, Hb. reflexivity.
Qed.

(** A row of [dl1_dx] is [lambda * sum_i s_i R[i, :]] for a row [s] of
    [utils.l1_gradient], and every such row gives one. *)
Lemma dl1_dx_rows (n : nat) (V_lambda : Q) (S : matrix) (R : matrix)
      (l : tensor) :
  In l (matmul n (map (vscale V_lambda) S) R) <->
  exists s, In s S /\ l = vecmat n (vscale V_lambda s) R.
Proof.
  unfold matmul. rewrite map_map. split.
  - intros H. apply in_map_iff in H. destruct H as (s & <- & Hs).
    exists s. auto.
  - intros (s & Hs & ->).
    apply (in_map (fun s0 => vecmat n (vscale V_lambda s0) R)). exact Hs.
Qed.

Lemma dV_dx_row (n : nat) (p : tensor) (V_lambda : Q) (s : tensor) (R : matrix) :
  veq (vadd p (vecmat n (vscale V_lambda s) R)) (dV_dx n p V_lambda s R).
Proof.
  unfold dV_dx. rewrite signed_rows_sum_vecmat.
  apply vadd_veq; [apply veq_refl | apply vecmat_vscale].
Qed.

(** The least entry of [g] over the rows of [dVdx] is the least value of
    [g] over the gradients [dV_dx] of the docstring. *)
Lemma tensor_min_over_gradient_sums (g : tensor -> Q) (n : nat)
      (P S : matrix) (V_lambda : Q) (R : matrix) :
  (forall d d', veq d d' -> g d == g d') ->
  P <> [] -> S <> [] ->
  exists d rest,
    map g (minkowski_sum P (matmul n (map (vscale V_lambda) S) R)) = d :: rest /\
    (forall p s, In p P -> In s S ->
                 tensor_min d rest <= g (dV_dx n p V_lambda s R)) /\
    (exists p s, In p P /\ In s S /\
                 tensor_min d rest == g (dV_dx n p V_lambda s R)).
Proof.
  intros Hg HP HS.
  set (L := matmul n (map (vscale V_lambda) S) R).
  destruct (map g (minkowski_sum P L)) as [|d rest] eqn:E.
  - exfalso. apply map_eq_nil in E.
    destruct P as [|p P']; [contradiction|].
    destruct S as [|s S']; [contradiction|]. discriminate E.
  - exists d, rest. split; [reflexivity|]. split.
    + intros p s Hp Hs.
      assert (Hin : In (g (vadd p (vecmat n (vscale V_lambda s) R)))
                       (d :: rest)).
      { rewrite <- E. apply in_map. apply in_minkowski_sum.
        exists p, (vecmat n (vscale V_lambda s) R).
        split; [exact Hp|]. split; [|reflexivity].
        apply dl1_dx_rows. exists s. auto. }
      pose proof (tensor_min_le d rest _ Hin) as H1.
      rewrite (Hg _ _ (dV_dx_row n p V_lambda s R)) in H1. exact H1.
    + destruct (tensor_min_In d rest) as (q & Hq & Eq).
      rewrite <- E in Hq. apply in_map_iff in Hq.
      destruct Hq as (dd & <- & Hdd). apply in_minkowski_sum in Hdd.
      destruct Hdd as (p & l & Hp & Hl & ->).
      apply dl1_dx_rows in Hl. destruct Hl as (s & Hs & ->).
      exists p, s. split; [exact Hp|]. split; [exact Hs|].
      rewrite Eq. apply Hg. apply dV_dx_row.
Qed.

(** On tensors of the documented shapes [lyapunov_derivative] raises
    nothing before [torch.min], and [Vdot] has one entry for each sum of a
    row of [dphi_dx] and a row of [dl1_dx]. *)
Lemma lyapunov_derivative_runs
      (system_x_dim system_u_dim : nat) (system_u_lo system_u_up : tensor)
      (system_f : tensor -> tensor) (system_G : tensor -> matrix)
      (relu_network_gradient l1_gradient : tensor -> matrix)
      (lyapunov_value : tensor -> tensor -> Q -> matrix -> Q)
      (x x_equilibrium : tensor) (V_lambda epsilon : Q) (R : option matrix) :
  length x = system_x_dim -> length x_equilibrium = system_x_dim ->
  Forall (fun row => length row = system_x_dim) (_get_R R system_x_dim) ->
  lyapunov_derivative system_x_dim system_u_dim system_u_lo system_u_up
                      system_f system_G relu_network_gradient l1_gradient
                      lyapunov_value x x_equilibrium V_lambda epsilon R =
  match map (fun d => min_u_Vdot system_u_dim system_u_lo system_u_up
                                 system_f system_G d x)
            (minkowski_sum
               (relu_network_gradient x)
               (matmul system_x_dim
                       (map (vscale V_lambda)
                            (l1_gradient (matvec (_get_R R system_x_dim)
                                                 (vsub x x_equilibrium))))
                       (_get_R R system_x_dim))) with
  | [] => inl Exception
  | d :: rest =>
      inr (tensor_min d rest
           + epsilon * lyapunov_value x x_equilibrium V_lambda
                                      (_get_R R system_x_dim))
  end.
Proof.
  intros Hx Hxe HR.
  set (R' := _get_R R system_x_dim) in *.
  set (L := matmul system_x_dim
              (map (vscale V_lambda)
                   (l1_gradient (matvec R' (vsub x x_equilibrium)))) R').
  assert (HLn : Forall (fun l => length l = system_x_dim) L).
  { unfold L, matmul. apply Forall_forall. intros l Hl.
    apply in_map_iff in Hl. destruct Hl as (s & <- & _).
    apply vecmat_length. assumption. }
  destruct (tiled_sum_is_minkowski_sum system_x_dim (relu_network_gradient x)
              L HLn) as (tiled & Hview & Hsum).
  unfold lyapunov_derivative. rewrite Hx, Nat.eqb_refl. cbn [negb].
  fold R'. rewrite (dl1_dx_shaped l1_gradient system_x_dim) by assumption.
  fold L. rewrite Hview, Hsum, Vdot_of_rows. reflexivity.
Qed.

(** C7: for tensors of the documented shapes
    [ControlLyapunov.lyapunov_derivative] returns a value; it is, plus
    [epsilon * V(x)], the least of the closed-form worst-case derivatives
    [dVdx*f(x) + dVdx*G(x)*(u_lo+u_up)/2 - |dVdx*G(x)*diag((u_up-u_lo)/2)|_1]
    over the gradients
    [dVdx = p + lambda * sum_i s_i R[i, :]], [p] ranging over every
    gradient of the network at [x] and [s] over every row of signs that
    [utils.l1_gradient] returns for [R (x - x_equilibrium)]: it is below the
    value at every combination and equal to the value at one of them. *)
Theorem lyapunov_derivative_min_over_gradient_sums
        (system_x_dim system_u_dim : nat) (system_u_lo system_u_up : tensor)
        (system_f : tensor -> tensor) (system_G : tensor -> matrix)
        (relu_network_gradient l1_gradient : tensor -> matrix)
        (lyapunov_value : tensor -> tensor -> Q -> matrix -> Q)
        (x x_equilibrium : tensor) (V_lambda epsilon : Q) (R : option matrix) :
  let R' := _get_R R system_x_dim in
  let P := relu_network_gradient x in
  let S := l1_gradient (matvec R' (vsub x x_equilibrium)) in
  let V := lyapunov_value x x_equilibrium V_lambda R' in
  let closed_form d :=
    min_u_Vdot system_u_dim system_u_lo system_u_up system_f system_G d x in
  length x = system_x_dim ->
  length x_equilibrium = system_x_dim ->
  Forall (fun row => length row = system_x_dim) R' ->
  P <> [] -> Forall (fun p => length p = system_x_dim) P ->
  S <> [] -> Forall (fun s => length s = length R') S ->
  length (system_f x) = system_x_dim ->
  length (system_G x) = system_x_dim ->
  Forall (fun row => length row = system_u_dim) (system_G x) ->
  length system_u_lo = system_u_dim ->
  length system_u_up = system_u_dim ->
  exists v,
    lyapunov_derivative system_x_dim system_u_dim system_u_lo system_u_up
                        system_f system_G relu_network_gradient l1_gradient
                        lyapunov_value x x_equilibrium V_lambda epsilon R
    = inr v /\
    (forall p s, In p P -> In s S ->
       v <= closed_form (dV_dx system_x_dim p V_lambda s R') + epsilon * V) /\
    (exists p s, In p P /\ In s S /\
       v == closed_form (dV_dx system_x_dim p V_lambda s R') + epsilon * V).
Proof.
  intros R' P S V closed_form Hx Hxe HR HP _ HS _ _ _ _ _ _.
  rewrite lyapunov_derivative_runs by assumption.
  fold R'. fold P. fold S. fold closed_form. fold V.
  destruct (tensor_min_over_gradient_sums closed_form system_x_dim P S
              V_lambda R') as (d & rest & -> & Hle & p & s & Hp & Hs & E);
    try assumption.
  { intros d d' Hd. apply min_u_Vdot_veq. exact Hd. }
  exists (tensor_min d rest + epsilon * V). split; [reflexivity|]. split.
  - intros p' s' Hp' Hs'. pose proof (Hle p' s' Hp' Hs'). lra.
  - exists p, s. split; [exact Hp|]. split; [exact Hs|]. rewrite E. reflexivity.
Qed.

(** The scalar system [xdot = -x + u], [-1 <= u <= 1], with
    [V(x) = relu(x) + |x|], at the kink [x = 0]. *)
Lemma lyapunov_derivative_min_over_gradient_sums_witness :
  let f := fun x : tensor => vneg x in
  let G := fun _ : tensor => [[1]] in
  let P := relu_unit_gradient [0] in
  let S := l1_gradient (matvec (_get_R None 1) (vsub [0] [0])) in
  let V := relu_unit_value [0] [0] 1 (_get_R None 1) in
  exists v,
    lyapunov_derivative 1 1 [-(1)] [1] f G relu_unit_gradient l1_gradient
                        relu_unit_value [0] [0] 1 (1#2) None = inr v /\
    (forall p s, In p P -> In s S ->
       v <= min_u_Vdot 1 [-(1)] [1] f G (dV_dx 1 p 1 s (_get_R None 1)) [0]
            + (1#2) * V) /\
    (exists p s, In p P /\ In s S /\
       v == min_u_Vdot 1 [-(1)] [1] f G (dV_dx 1 p 1 s (_get_R None 1)) [0]
            + (1#2) * V).
Proof.
  intros f G P S V.
  apply (lyapunov_derivative_min_over_gradient_sums
           1 1 [-(1)] [1] f G relu_unit_gradient l1_gradient relu_unit_value
           [0] [0] 1 (1#2) None).
  - reflexivity.
  - reflexivity.
  - repeat constructor.
  - discriminate.
  - vm_compute. repeat constructor.
  - discriminate.
  - vm_compute. repeat constructor.
  - reflexivity.
  - reflexivity.
  - repeat constructor.
  - reflexivity.
  - reflexivity.
Defined.

(** ** The constraints of a control-affine system *)

Lemma encodes_for_fold {I S} (body : I -> S -> M S) (n0 : nat)
      (Pre Post : I -> assignment -> Prop) (l : list I) :
  (forall i, In i l -> stable n0 (Pre i)) ->
  (forall i s m, In i l -> (n0 <= nvars m)%nat ->
     encodes (body i s) m (Pre i) (fun _ _ => True) (fun _ => Post i)) ->
  forall s m, (n0 <= nvars m)%nat ->
    encodes (for_fold l s body) m
            (fun a => forall i, In i l -> Pre i a)
            (fun _ _ => True)
            (fun _ a => forall i, In i l -> Post i a).
Proof.
  induction l as [|i l IH]; intros Hst Hbody s m Hm; simpl.
  - eapply encodes_weaken; [apply encodes_ret | | |]; simpl; auto.
    intros _ a _ _ j [].
  - eapply encodes_bind.
    + apply (Hbody i s m); [now left | assumption].
    + intros a _ H. apply H. now left.
    + intros s1 m1 Hrun _ Hn.
      exists (fun a => forall j, In j l -> Pre j a),
             (fun _ a => forall j, In j l -> Post j a).
      split; [|split].
      * apply IH; [| |lia].
        -- intros j Hj. apply Hst. now right.
        -- intros j s' m' Hj Hm'. apply Hbody; [now right | assumption].
      * intros a a1 _ HP Hag _ _ j Hj.
        apply (Hst j (or_intror Hj) a a1).
        -- eapply agree_mono; eauto.
        -- apply HP. now right.
      * intros _ a Hi Hl j [<-|Hj]; auto.
Qed.

Lemma nth_error_update_nth {A} (f : A -> A) (l : list A) (i j : nat) :
  nth_error (update_nth i f l) j =
  if Nat.eqb j i then option_map f (nth_error l j) else nth_error l j.
Proof.
  revert i j. induction l as [|x l IH]; intros [|i] [|j]; simpl; try reflexivity.
  - destruct (Nat.eqb _ _); reflexivity.
  - apply IH.
Qed.

Lemma length_update_nth {A} (f : A -> A) (l : list A) (i : nat) :
  length (update_nth i f l) = length l.
Proof.
  revert i. induction l as [|x l IH]; intros [|i]; simpl; auto.
Qed.


Lemma lb_lt_spec (l : limit) (lo q : Q) :
  (if lb_lt l lo then lo <= q else lb_ok l q) <-> lb_ok l q /\ lo <= q.
Proof.
  unfold lb_lt, lb_ok. destruct l as [b|]; simpl; [|tauto].
  destruct (Qle_bool lo b) eqn:E; simpl.
  - apply Qle_bool_iff in E. split; [intros H; split; [assumption|lra] | tauto].
  - apply Qle_bool_false in E. split; [intros H; split; [lra|assumption] | tauto].
Qed.

Lemma ub_gt_spec (u : limit) (up q : Q) :
  (if ub_gt u up then q <= up else ub_ok u q) <-> ub_ok u q /\ q <= up.
Proof.
  unfold ub_gt, ub_ok. destruct u as [b|]; simpl; [|tauto].
  destruct (Qle_bool b up) eqn:E; simpl.
  - apply Qle_bool_iff in E. split; [intros H; split; [assumption|lra] | tauto].
  - apply Qle_bool_false in E. split; [intros H; split; [lra|assumption] | tauto].
Qed.

Lemma feasible_update_var (m : GurobiTorchMIP) (xi : var) (h : Var -> Var)
      (g : Var) (P : Prop) (a : assignment) :
  nth_error (vars m) xi = Some g ->
  (var_ok (h g) (a xi) <-> var_ok g (a xi) /\ P) ->
  feasible (mkMIP (update_nth xi h (vars m)) (constrs m) (obj m)
                  (obj_constant m) (obj_sense m)) a <->
  feasible m a /\ P.
Proof.
  intros Hg Hh. unfold feasible. simpl. split.
  - intros [Hv Hc].
    assert (Hx : var_ok (h g) (a xi)).
    { apply Hv. rewrite nth_error_update_nth, Nat.eqb_refl, Hg. reflexivity. }
    apply Hh in Hx. destruct Hx as [Hx HP].
    split; [split|]; [|assumption|assumption].
    intros j v Hj. destruct (Nat.eq_dec j xi) as [->|Hne].
    + rewrite Hg in Hj. injection Hj as <-. assumption.
    + apply Hv. rewrite nth_error_update_nth.
      replace (Nat.eqb j xi) with false by (symmetry; apply Nat.eqb_neq; assumption).
      assumption.
  - intros [[Hv Hc] HP]. split; [|assumption].
    intros j v Hj. rewrite nth_error_update_nth in Hj.
    destruct (Nat.eqb j xi) eqn:E.
    + apply Nat.eqb_eq in E. subst j. rewrite Hg in Hj. simpl in Hj.
      injection Hj as <-. apply Hh. split; [|assumption]. apply Hv. assumption.
    + apply Hv. assumption.
Qed.

Lemma tighten_lb_step (xi : var) (lo : Q) (m : GurobiTorchMIP) (g : Var) :
  nth_error (vars m) xi = Some g ->
  exists m',
    (if lb_lt (lb g) lo then set_lb xi lo else ret tt) m = Ok tt m' /\
    nvars m' = nvars m /\ constrs m' = constrs m /\
    (exists g', nth_error (vars m') xi = Some g') /\
    (forall a, feasible m' a <-> feasible m a /\ lo <= a xi).
Proof.
  intros Hg. pose proof (fun q => lb_lt_spec (lb g) lo q) as Hs.
  destruct (lb_lt (lb g) lo).
  - eexists. split; [reflexivity|]. unfold nvars. simpl.
    rewrite length_update_nth. split; [reflexivity|]. split; [reflexivity|].
    split.
    + rewrite nth_error_update_nth, Nat.eqb_refl, Hg. simpl. eauto.
    + intros a. apply (feasible_update_var m xi _ g); [assumption|].
      unfold var_ok. simpl. specialize (Hs (a xi)). tauto.
  - exists m. split; [reflexivity|]. split; [reflexivity|].
    split; [reflexivity|]. split; [eauto|].
    intros a. split; [|tauto]. intros Ha. split; [assumption|].
    apply (Hs (a xi)). apply (proj1 Ha xi g Hg).
Qed.

Lemma tighten_ub_step (xi : var) (up : Q) (m : GurobiTorchMIP) (g : Var) :
  nth_error (vars m) xi = Some g ->
  exists m',
    (if ub_gt (ub g) up then set_ub xi up else ret tt) m = Ok tt m' /\
    nvars m' = nvars m /\ constrs m' = constrs m /\
    (forall a, feasible m' a <-> feasible m a /\ a xi <= up).
Proof.
  intros Hg. pose proof (fun q => ub_gt_spec (ub g) up q) as Hs.
  destruct (ub_gt (ub g) up).
  - eexists. split; [reflexivity|]. unfold nvars. simpl.
    rewrite length_update_nth. split; [reflexivity|]. split; [reflexivity|].
    intros a. apply (feasible_update_var m xi _ g); [assumption|].
    unfold var_ok. simpl. specialize (Hs (a xi)). tauto.
  - exists m. split; [reflexivity|]. split; [reflexivity|].
    split; [reflexivity|].
    intros a. split; [|tauto]. intros Ha. split; [assumption|].
    apply (Hs (a xi)). apply (proj1 Ha xi g Hg).
Qed.

Lemma set_bounds_of_x_spec (lo up : tensor) (x : list var) (i : nat)
      (m : GurobiTorchMIP) :
  (i < length x)%nat -> vars_wf (nvars m) x ->
  exists m',
    set_bounds_of_x lo up x i m = Ok tt m' /\
    nvars m' = nvars m /\ constrs m' = constrs m /\
    (forall a, feasible m' a <->
               feasible m a /\ nth i lo 0 <= a (nth i x O) /\
               a (nth i x O) <= nth i up 0).
Proof.
  intros Hi Hwx. unfold set_bounds_of_x.
  assert (Hxi : nth_error x i = Some (nth i x O))
    by (apply nth_error_nth'; assumption).
  pose proof (vars_wf_nth _ _ i Hwx Hi) as Hlt.
  destruct (nth_error (vars m) (nth i x O)) as [g|] eqn:Eg;
    [|apply nth_error_None in Eg; unfold nvars in Hlt; lia].
  destruct (tighten_lb_step (nth i x O) (nth i lo 0) m g Eg)
    as (m1 & R1 & N1 & C1 & (g1 & Eg1) & F1).
  destruct (tighten_ub_step (nth i x O) (nth i up 0) m1 g1 Eg1)
    as (m2 & R2 & N2 & C2 & F2).
  exists m2. split; [|split; [congruence|split; [congruence|]]].
  - unfold bind at 1, getitem. rewrite Hxi.
    unfold bind at 1, get_var. rewrite Eg.
    unfold bind at 1. rewrite R1.
    unfold bind at 1. rewrite Eg1. exact R2.
  - intros a. rewrite F2, F1. tauto.
Qed.

Lemma set_bounds_of_x_encodes (lo up : tensor) (x : list var) (i : nat)
      (m : GurobiTorchMIP) :
  (i < length x)%nat -> vars_wf (nvars m) x ->
  encodes (set_bounds_of_x lo up x i) m
          (fun a => within x lo up a i) (fun _ _ => True)
          (fun _ a => within x lo up a i).
Proof.
  intros Hi Hwx.
  destruct (set_bounds_of_x_spec lo up x i m Hi Hwx) as (m' & R & N & C & F).
  apply (encodes_intro _ _ tt m').
  - exact R.
  - lia.
  - unfold wf_mip. rewrite N, C. auto.
  - exact I.
  - intros a Ha. apply F in Ha. unfold within. tauto.
  - intros _ a Ha Hw. exists a. split; [apply agree_refl|].
    apply F. unfold within in Hw. tauto.
Qed.

Lemma within_stable (n0 : nat) (x : list var) (lo up : tensor) (i : nat) :
  vars_wf n0 x -> (i < length x)%nat ->
  stable n0 (fun a => within x lo up a i).
Proof.
  intros Hwx Hi a a' Hag. unfold within.
  rewrite (Hag (nth i x O)) by (apply (vars_wf_nth n0); assumption). auto.
Qed.

Lemma box_rows_le (a : assignment) (n : nat) (x : list var) (up : tensor)
      (i : nat) :
  (i < n)%nat -> length x = n ->
  (row_holds a [eye n] [x] LESS_EQUAL up i <-> a (nth i x O) <= nth i up 0).
Proof.
  intros Hi Hx. unfold row_holds. cbn [map dots].
  rewrite nth_eye, dot_eye_row, vals_nth by lia. split; intros H; lra.
Qed.

Lemma box_rows_ge (a : assignment) (n : nat) (x : list var) (lo : tensor)
      (i : nat) :
  (i < n)%nat -> length x = n ->
  (row_holds a [eye n] [x] GREATER_EQUAL lo i <-> nth i lo 0 <= a (nth i x O)).
Proof.
  intros Hi Hx. unfold row_holds. cbn [map dots].
  rewrite nth_eye, dot_eye_row, vals_nth by lia. split; intros H; lra.
Qed.

Lemma in_box_within (a : assignment) (x : list var) (lo up : tensor) :
  length lo = length x -> length up = length x ->
  (in_box lo up (vals a x) <->
   forall i, (i < length x)%nat -> within x lo up a i).
Proof.
  intros Hlo Hup. unfold in_box, within. split.
  - intros [H1 H2] i Hi.
    pose proof (vle_nth _ _ i H1) as L. pose proof (vle_nth _ _ i H2) as U.
    rewrite vals_nth in L, U by assumption. auto.
  - intros H. split; (apply vle_of_nth; [rewrite vals_length; lia|]);
      intros i Hi; rewrite ?vals_length in Hi; rewrite vals_nth by lia;
      apply H; lia.
Qed.

Section AddSystemConstraintFacts.

Variables x_dim u_dim : nat.
Variables x_lo x_up : tensor.
Variable cnstr_f : MixedIntegerConstraintsReturn.
Variable cnstr_G : list MixedIntegerConstraintsReturn.
Variable sys_f : tensor -> tensor.
Variable sys_G : tensor -> matrix.
Hypothesis Hlo : length x_lo = x_dim.
Hypothesis Hup : length x_up = x_dim.
Hypothesis Hf_exact : bundle_exact cnstr_f (in_box x_lo x_up) sys_f.
Hypothesis Hf_out : length (Cout cnstr_f) = x_dim.
Hypothesis HG_len : length cnstr_G = u_dim.
Hypothesis HG_exact :
  forall i c, nth_error cnstr_G i = Some c ->
    bundle_exact c (in_box x_lo x_up) (fun x => column i (sys_G x)) /\
    length (Cout c) = x_dim.

Variables (x f : list var) (G : list (list var)).
Hypothesis Hlx : length x = x_dim.
Hypothesis Hlf : length f = x_dim.
Hypothesis HlG : length G = u_dim.
Hypothesis HlGi : Forall (fun Gi => length Gi = x_dim) G.

(** What the constraints are to impose: [f] and the columns of [G] take
    the values of the system at the state. *)
Let values_at (a : assignment) (xv : tensor) : Prop :=
  veq (vals a f) (sys_f xv) /\
  forall i, (i < u_dim)%nat -> veq (vals a (nth i G [])) (column i (sys_G xv)).

Lemma add_G_column_encodes (i : nat) (sb : list var * list var)
      (n0 : nat) (m : GurobiTorchMIP) :
  vars_wf n0 x -> Forall (vars_wf n0) G ->
  (i < u_dim)%nat -> (n0 <= nvars m)%nat ->
  encodes (add_G_column x G cnstr_G BINARY i sb) m
          (fun a => exists xv, veq (vals a x) xv /\ in_box x_lo x_up xv /\
                               veq (vals a (nth i G [])) (column i (sys_G xv)))
          (fun _ _ => True)
          (fun _ a => forall xv, veq (vals a x) xv -> in_box x_lo x_up xv ->
                                 veq (vals a (nth i G [])) (column i (sys_G xv))).
Proof.
  intros Hwx HwG Hi Hm. unfold add_G_column.
  destruct (nth_error cnstr_G i) as [c|] eqn:Ec;
    [|apply nth_error_None in Ec; lia].
  assert (EG : nth_error G i = Some (nth i G [])) by (apply nth_error_nth'; lia).
  destruct (HG_exact i c Ec) as [Hex Hout].
  assert (HwGi : vars_wf (nvars m) (nth i G [])).
  { apply (vars_wf_mono n0); [assumption|].
    rewrite Forall_forall in HwG. apply HwG. apply nth_In. lia. }
  assert (HlGi' : length (nth i G []) = x_dim).
  { rewrite Forall_forall in HlGi. apply HlGi. apply nth_In. lia. }
  unfold bind at 1, getitem at 1. rewrite Ec.
  unfold bind at 1, getitem at 1. rewrite EG.
  eapply encodes_bind_sound.
  - apply (add_mixed_integer_linear_constraints_encodes c x (Some (nth i G [])) m).
    + apply (vars_wf_mono n0); assumption.
    + intros o Eo. injection Eo as <-. split; [assumption | lia].
  - intros a Ha (xv & H1 & H2 & H3).
    destruct (proj2 Hex (vals a x) xv H1 H2) as (s & b & Hp).
    exists s, b. split; [assumption|]. intros o Eo. injection Eo as <-.
    eapply veq_trans; [exact H3|]. apply veq_sym.
    apply (proj1 Hex _ _ _ _ H1 H2 Hp).
  - intros [s1 b1] m1 _ _ _ _.
    exists (fun _ => True), (fun _ _ => True). split; [|split].
    + eapply encodes_weaken; [apply encodes_ret| | |]; intros; exact I.
    + intros; exact I.
    + intros r a _ [Hp Ho] _ xv Hxv Hbox.
      eapply veq_trans; [apply (Ho _ eq_refl)|].
      apply (proj1 Hex _ _ _ _ Hxv Hbox Hp).
Qed.

Lemma values_at_stable (n0 : nat) :
  vars_wf n0 x -> vars_wf n0 f -> Forall (vars_wf n0) G ->
  stable n0 (fun a => exists xv, veq (vals a x) xv /\ in_box x_lo x_up xv /\
                                 values_at a xv).
Proof.
  intros Hwx Hwf HwG a a' Hag (xv & H1 & H2 & H3 & H4). exists xv.
  unfold values_at.
  rewrite (vals_agree n0 a a' x), (vals_agree n0 a a' f) by assumption.
  repeat (split; [assumption|]). intros i Hi.
  rewrite (vals_agree n0 a a') by
    (try assumption; rewrite Forall_forall in HwG; apply HwG; apply nth_In; lia).
  apply H4. assumption.
Qed.

Lemma add_system_constraint_encodes (m : GurobiTorchMIP) :
  vars_wf (nvars m) x -> vars_wf (nvars m) f ->
  Forall (vars_wf (nvars m)) G ->
  encodes (add_system_constraint x_dim u_dim x_lo x_up (cnstr_f, cnstr_G)
                                 x f G BINARY) m
          (fun a => exists xv, veq (vals a x) xv /\ in_box x_lo x_up xv /\
                               values_at a xv)
          (fun r _ => mip_cnstr_f r = cnstr_f /\ mip_cnstr_G r = cnstr_G)
          (fun _ a => in_box x_lo x_up (vals a x) /\
                      forall xv, veq (vals a x) xv -> values_at a xv).
Proof.
  intros Hwx Hwf HwG. unfold add_system_constraint.
  pose proof (values_at_stable (nvars m) Hwx Hwf HwG) as Hst.
  set (P0 := fun a => exists xv, veq (vals a x) xv /\ in_box x_lo x_up xv /\
                                 values_at a xv) in *.
  assert (Hbox0 : forall a, P0 a -> forall i, (i < length x)%nat ->
                                     within x x_lo x_up a i).
  { intros a (xv & H1 & H2 & _).
    apply in_box_within; [lia | lia |].
    eapply in_box_veq; [apply veq_sym|]; eassumption. }
  apply encodes_assert; [apply Nat.eqb_eq; assumption|].
  apply encodes_assert; [apply Nat.eqb_eq; assumption|].
  eapply encodes_bind.
  { apply encodes_addMConstrs. constructor; [assumption|constructor]. }
  { intros a _ HP i Hi. apply box_rows_le; [lia | assumption |].
    apply (Hbox0 a HP). lia. }
  intros [] m1 _ -> _.
  exists P0, (fun _ a => in_box x_lo x_up (vals a x) /\
                         forall xv, veq (vals a x) xv -> values_at a xv).
  split; [|split]; [| intros a a1 _ HP Hag _ _; apply (Hst a a1); assumption
                    | intros r a _ H; exact H].
  set (m1 := mip_add_constrs m _).
  assert (Hn1 : nvars m1 = nvars m) by apply nvars_add_constrs.
  eapply encodes_bind.
  { apply encodes_addMConstrs. constructor; [|constructor].
    rewrite Hn1. assumption. }
  { intros a _ HP i Hi. apply box_rows_ge; [lia | assumption |].
    apply (Hbox0 a HP). lia. }
  intros [] m2 _ -> _.
  exists P0, (fun _ a => in_box x_lo x_up (vals a x) /\
                         forall xv, veq (vals a x) xv -> values_at a xv).
  split; [|split]; [| intros a a1 _ HP Hag _ _; apply (Hst a a1);
                      [rewrite <- Hn1|]; assumption
                    | intros r a _ H; exact H].
  set (m2 := mip_add_constrs m1 _).
  assert (Hn2 : nvars m2 = nvars m)
    by (unfold m2; rewrite nvars_add_constrs; assumption).
  eapply encodes_bind.
  { apply (encodes_for_each (set_bounds_of_x x_lo x_up x) (nvars m)
             (fun i a => within x x_lo x_up a i)
             (fun i a => within x x_lo x_up a i)).
    - intros i Hi. apply in_seq in Hi. apply within_stable; [assumption|lia].
    - intros i m' Hi Hm'. apply in_seq in Hi.
      apply set_bounds_of_x_encodes; [lia|].
      eapply vars_wf_mono; eassumption.
    - lia. }
  { intros a _ HP i Hi. apply in_seq in Hi. apply (Hbox0 a HP). lia. }
  intros [] m3 _ _ Hn3.
  exists P0, (fun _ a => forall xv, veq (vals a x) xv -> in_box x_lo x_up xv ->
                                    values_at a xv).
  split; [|split];
    [| intros a a1 _ HP Hag _ _; apply (Hst a a1); [rewrite <- Hn2|]; assumption
     | ].
  2:{ intros r a Hw Hv.
      assert (Hb : in_box x_lo x_up (vals a x)).
      { apply in_box_within; [lia | lia |]. intros i Hi. apply Hw.
        apply in_seq. lia. }
      split; [assumption|]. intros xv Hxv. apply Hv; [assumption|].
      eapply in_box_veq; eassumption. }
  assert (Hm3 : (nvars m <= nvars m3)%nat) by lia.
  eapply encodes_bind_sound.
  { apply (add_mixed_integer_linear_constraints_encodes cnstr_f x (Some f) m3).
    - eapply vars_wf_mono; eassumption.
    - intros o Eo. injection Eo as <-.
      split; [eapply vars_wf_mono; eassumption | lia]. }
  { intros a Ha (xv & H1 & H2 & H3 & _).
    destruct (proj2 Hf_exact (vals a x) xv H1 H2) as (s & b & Hp).
    exists s, b. split; [assumption|]. intros o Eo. injection Eo as <-.
    eapply veq_trans; [exact H3|]. apply veq_sym.
    apply (proj1 Hf_exact _ _ _ _ H1 H2 Hp). }
  intros sb m4 _ _ Hn4 _.
  exists P0, (fun _ a => forall i, (i < u_dim)%nat ->
                forall xv, veq (vals a x) xv -> in_box x_lo x_up xv ->
                  veq (vals a (nth i G [])) (column i (sys_G xv))).
  split; [|split];
    [| intros a a1 _ HP Hag _ _; apply (Hst a a1);
       [eapply agree_mono; [|exact Hag]; lia | assumption]
     | ].
  2:{ intros r a _ [Hp Ho] HG xv Hxv Hbox. split.
      - eapply veq_trans; [apply (Ho _ eq_refl)|].
        apply (proj1 Hf_exact _ _ _ _ Hxv Hbox Hp).
      - intros i Hi. apply HG; assumption. }
  eapply encodes_bind.
  { apply (encodes_for_fold (add_G_column x G cnstr_G BINARY) (nvars m)
             (fun i a => exists xv, veq (vals a x) xv /\ in_box x_lo x_up xv /\
                           veq (vals a (nth i G [])) (column i (sys_G xv)))
             (fun i a => forall xv, veq (vals a x) xv -> in_box x_lo x_up xv ->
                           veq (vals a (nth i G [])) (column i (sys_G xv)))).
    - intros i Hi a a' Hag (xv & H1 & H2 & H3). apply in_seq in Hi. exists xv.
      rewrite (vals_agree (nvars m) a a' x) by assumption.
      rewrite (vals_agree (nvars m) a a') by
        (try assumption; rewrite Forall_forall in HwG; apply HwG;
         apply nth_In; lia).
      auto.
    - intros i s0 m' Hi Hm'. apply in_seq in Hi.
      apply (add_G_column_encodes i s0 (nvars m)); (assumption || lia).
    - lia. }
  { intros a _ (xv & H1 & H2 & _ & H4) i Hi. apply in_seq in Hi.
    exists xv. repeat (split; [assumption|]). apply H4. lia. }
  intros sb' m5 _ _ _.
  exists (fun _ => True), (fun _ _ => True). split; [|split].
  - eapply encodes_weaken; [apply encodes_ret| | |].
    + intros; exact I.
    + intros r m' _ _ [-> _]. split; reflexivity.
    + intros; exact I.
  - intros; exact I.
  - intros r a HP _ i Hi. apply HP. apply in_seq. lia.
Qed.

End AddSystemConstraintFacts.

(** *** The model that [constraint_tester] builds *)

Lemma bind_Ok_inv {A B} (c : M A) (k : A -> M B) (m m' : GurobiTorchMIP)
      (r : B) :
  bind c k m = Ok r m' -> exists r1 m1, c m = Ok r1 m1 /\ k r1 m1 = Ok r m'.
Proof.
  unfold bind. destruct (c m) as [r1 m1|e]; [|discriminate]. eauto.
Qed.

Lemma add_mixed_integer_linear_constraints_counts
      (bnd : MixedIntegerConstraintsReturn) (input : list var)
      (out : option (list var)) (t : VType) (m m' : GurobiTorchMIP)
      (r : list var * list var) :
  add_mixed_integer_linear_constraints bnd input out t m = Ok r m' ->
  length (fst r) = num_slack bnd /\ length (snd r) = num_binary bnd.
Proof.
  unfold add_mixed_integer_linear_constraints, bind, addVars, addMConstrs,
    add_constrs, ret.
  destruct out; intros H; injection H as <- _; simpl;
    rewrite !length_seq; auto.
Qed.

Lemma for_fold_G_counts (x : list var) (G : list (list var))
      (cnstr_G : list MixedIntegerConstraintsReturn) (t : VType)
      (l : list nat) (sb r : list var * list var) (m m' : GurobiTorchMIP) :
  for_fold l sb (add_G_column x G cnstr_G t) m = Ok r m' ->
  length (fst r) =
    (length (fst sb) +
     list_sum (map (fun i => match nth_error cnstr_G i with
                             | Some c => num_slack c | None => O end) l))%nat /\
  length (snd r) =
    (length (snd sb) +
     list_sum (map (fun i => match nth_error cnstr_G i with
                             | Some c => num_binary c | None => O end) l))%nat.
Proof.
  revert sb m. induction l as [|i l IH]; intros sb m H; simpl in *.
  - injection H as <- _. lia.
  - apply bind_Ok_inv in H. destruct H as (sb1 & m1 & H1 & H2).
    destruct (IH _ _ H2) as [E1 E2]. rewrite E1, E2. clear IH H2 E1 E2.
    unfold add_G_column in H1.
    apply bind_Ok_inv in H1. destruct H1 as (c & m2 & Hc & H1).
    unfold getitem in Hc. destruct (nth_error cnstr_G i); [|discriminate].
    injection Hc as -> ->.
    apply bind_Ok_inv in H1. destruct H1 as (Gi & m3 & HG & H1).
    unfold getitem in HG. destruct (nth_error G i); [|discriminate].
    injection HG as -> ->.
    apply bind_Ok_inv in H1. destruct H1 as ([s b] & m4 & Hadd & H1).
    apply add_mixed_integer_linear_constraints_counts in Hadd.
    simpl in Hadd. destruct Hadd as [Ls Lb].
    injection H1 as <- _. simpl. rewrite !length_app. lia.
Qed.

Lemma list_sum_nth_error {A} (g : A -> nat) (l : list A) :
  list_sum (map (fun i => match nth_error l i with
                          | Some c => g c | None => O end)
                (seq 0 (length l))) =
  list_sum (map g l).
Proof.
  induction l as [|c l IH]; [reflexivity|].
  cbn [length seq map list_sum nth_error]. rewrite <- seq_shift, map_map.
  cbn [nth_error]. unfold list_sum in *. cbn [fold_right]. rewrite IH.
  reflexivity.
Qed.

Lemma add_system_constraint_counts (x_dim u_dim : nat) (x_lo x_up : tensor)
      (cnstr_f : MixedIntegerConstraintsReturn)
      (cnstr_G : list MixedIntegerConstraintsReturn)
      (x f : list var) (G : list (list var)) (t : VType)
      (r : ControlAffineSystemConstraintReturn) (m m' : GurobiTorchMIP) :
  u_dim = length cnstr_G ->
  add_system_constraint x_dim u_dim x_lo x_up (cnstr_f, cnstr_G) x f G t m
  = Ok r m' ->
  length (slack r) = (num_slack cnstr_f + list_sum (map num_slack cnstr_G))%nat /\
  length (binary r) = (num_binary cnstr_f + list_sum (map num_binary cnstr_G))%nat.
Proof.
  intros -> H. unfold add_system_constraint in H.
  do 5 (apply bind_Ok_inv in H; destruct H as (? & ? & _ & H)).
  apply bind_Ok_inv in H. destruct H as (sb & m1 & Hf & H).
  apply bind_Ok_inv in H. destruct H as (sb' & m2 & HG & H).
  injection H as <- _. simpl.
  apply add_mixed_integer_linear_constraints_counts in Hf.
  apply for_fold_G_counts in HG.
  rewrite !list_sum_nth_error in HG. lia.
Qed.

Lemma column_vars_S (n0 n u : nat) :
  column_vars n0 n (S u) = seq n0 n :: column_vars (n0 + n) n u.
Proof.
  unfold column_vars. cbn [seq map]. rewrite <- seq_shift, map_map.
  rewrite Nat.mul_0_l, Nat.add_0_r. f_equal. apply map_ext. intros j.
  f_equal. lia.
Qed.

Lemma feasible_free_vars (m : GurobiTorchMIP) (n : nat) (a : assignment) :
  feasible (mip_add_vars m (repeat (mkVar None None CONTINUOUS) n)) a <->
  feasible m a.
Proof.
  rewrite feasible_add_vars. split; [tauto|]. intros H. split; [assumption|].
  intros k v Hk. apply nth_error_In, repeat_spec in Hk. subst v.
  unfold var_ok. simpl. split; [exact I|]. split; [exact I|]. discriminate.
Qed.

Lemma alloc_columns_spec (n : nat) (l : list nat) (Gt0 : list (list var))
      (m : GurobiTorchMIP) :
  exists m',
    for_fold l Gt0
             (fun _ Gt => Gi <- addVars n None None CONTINUOUS ;; ret (Gt ++ [Gi]))
             m
    = Ok (Gt0 ++ column_vars (nvars m) n (length l)) m' /\
    nvars m' = (nvars m + length l * n)%nat /\
    constrs m' = constrs m /\
    (forall a, feasible m' a <-> feasible m a).
Proof.
  revert Gt0 m. induction l as [|i l IH]; intros Gt0 m.
  - exists m. simpl. rewrite app_nil_r.
    split; [reflexivity|]. split; [lia|]. split; [reflexivity|]. tauto.
  - cbn [for_fold length].
    set (m1 := mip_add_vars m (repeat (mkVar None None CONTINUOUS) n)).
    destruct (IH (Gt0 ++ [seq (nvars m) n]) m1) as (m' & R & N & C & F).
    exists m'. split; [|split; [|split]].
    + unfold bind at 1. unfold bind at 1. unfold addVars at 1.
      fold m1. unfold ret at 1. rewrite R, column_vars_S, <- app_assoc.
      unfold m1 at 1. rewrite nvars_add_vars, repeat_length. reflexivity.
    + rewrite N. unfold m1. rewrite nvars_add_vars, repeat_length. lia.
    + rewrite C. reflexivity.
    + intros a. rewrite F. apply feasible_free_vars.
Qed.

Lemma nth_column_vars (n0 n u i : nat) :
  (i < u)%nat -> nth i (column_vars n0 n u) [] = seq (n0 + i * n) n.
Proof.
  intros Hi. unfold column_vars.
  rewrite (nth_indep _ [] ((fun j => seq (n0 + j * n) n) O))
    by (rewrite length_map, length_seq; assumption).
  rewrite (map_nth (fun j => seq (n0 + j * n) n)), seq_nth by assumption.
  reflexivity.
Qed.

Lemma length_column_vars (n0 n u : nat) : length (column_vars n0 n u) = u.
Proof. unfold column_vars. rewrite length_map, length_seq. reflexivity. Qed.

Lemma column_vars_shape (n0 n u : nat) :
  Forall (fun Gi => length Gi = n) (column_vars n0 n u).
Proof.
  apply Forall_forall. intros Gi H. apply in_map_iff in H.
  destruct H as (j & <- & _). apply length_seq.
Qed.

Lemma column_vars_wf (n0 n u : nat) :
  Forall (vars_wf (n0 + u * n)) (column_vars n0 n u).
Proof.
  apply Forall_forall. intros Gi H. apply in_map_iff in H.
  destruct H as (j & <- & Hj). apply in_seq in Hj. apply vars_wf_seq.
  assert ((j + 1) * n <= u * n)%nat by (apply Nat.mul_le_mono_r; lia). lia.
Qed.

Lemma vals_seq_nth (a : assignment) (k n i : nat) :
  (i < n)%nat -> nth i (vals a (seq k n)) 0 = a (k + i)%nat.
Proof.
  intros Hi. rewrite vals_nth by (rewrite length_seq; assumption).
  rewrite seq_nth by assumption. reflexivity.
Qed.

Lemma bundle_exact_length (bnd : MixedIntegerConstraintsReturn)
      (D : tensor -> Prop) (F : tensor -> tensor) (xv : tensor) :
  bundle_exact bnd D F -> D xv -> length (F xv) = length (Cout bnd).
Proof.
  intros [H1 H2] HD. destruct (H2 xv xv (veq_refl _) HD) as (s & b & Hp).
  pose proof (H1 xv xv s b (veq_refl _) HD Hp) as Hv.
  apply veq_length in Hv. rewrite bundle_output_length in Hv. congruence.
Qed.

(** C1: for a system whose bundles are exact on the box, the model that
    [constraint_tester] builds with [add_system_constraint] on the state
    pinned to [x_val] is built without error; it has as many slack and
    binary variables as the bundles declare (none for a bundle without
    slack and binary, as the ones of a linear system); when [x_val] is in
    the box [[x_lo, x_up]] the model is feasible and at each of its feasible
    points the variables [f] equal [f(x_val)] and the variables [Gt[i]] the
    column [i] of [G(x_val)]; when [x_val] is outside the box the model is
    infeasible. *)
Theorem add_system_constraint_exact
        (x_dim u_dim : nat) (x_lo x_up : tensor)
        (cnstr_f : MixedIntegerConstraintsReturn)
        (cnstr_G : list MixedIntegerConstraintsReturn)
        (sys_f : tensor -> tensor) (sys_G : tensor -> matrix)
        (x_val : tensor) :
  length x_lo = x_dim -> length x_up = x_dim -> length x_val = x_dim ->
  bundle_exact cnstr_f (in_box x_lo x_up) sys_f ->
  length (Cout cnstr_f) = x_dim ->
  length cnstr_G = u_dim ->
  (forall i c, nth_error cnstr_G i = Some c ->
     bundle_exact c (in_box x_lo x_up) (fun x => column i (sys_G x)) /\
     length (Cout c) = x_dim) ->
  exists x f Gt r m,
    constraint_tester x_dim u_dim x_lo x_up (cnstr_f, cnstr_G) x_val empty_mip
    = Ok (x, f, Gt, r) m /\
    length (slack r) = (num_slack cnstr_f + list_sum (map num_slack cnstr_G))%nat /\
    length (binary r) = (num_binary cnstr_f + list_sum (map num_binary cnstr_G))%nat /\
    (in_box x_lo x_up x_val ->
     (exists a, feasible m a) /\
     (forall a, feasible m a ->
        veq (vals a x) x_val /\
        veq (vals a f) (sys_f x_val) /\
        forall i, (i < u_dim)%nat ->
          veq (vals a (nth i Gt [])) (column i (sys_G x_val)))) /\
    (~ in_box x_lo x_up x_val -> status_INFEASIBLE m).
Proof.
  intros Hlo Hup Hxv Hf Hfo HGl HG.
  set (n := x_dim) in *.
  set (m0 := mip_add_vars empty_mip
               (map (fun p => mkVar (Some (fst p)) (Some (snd p)) CONTINUOUS)
                    (combine x_val x_val))).
  set (x := seq 0 (length x_val)).
  set (m1 := mip_add_vars m0 (repeat (mkVar None None CONTINUOUS) n)).
  set (f := seq (nvars m0) n).
  assert (Hn0 : nvars m0 = n).
  { unfold m0. rewrite nvars_add_vars, length_map, combine_same_length.
    simpl. assumption. }
  assert (Hn1 : nvars m1 = (n + n)%nat)
    by (unfold m1; rewrite nvars_add_vars, repeat_length; lia).
  destruct (alloc_columns_spec n (seq 0 u_dim) [] m1) as (mG & RG & NG & CG & FG).
  rewrite length_seq in RG, NG. cbn [app] in RG. rewrite Hn1 in RG, NG.
  set (Gt := column_vars (n + n) n u_dim) in *.
  assert (Hwx : vars_wf (nvars mG) x) by (apply vars_wf_seq; lia).
  assert (Hwf : vars_wf (nvars mG) f) by (apply vars_wf_seq; lia).
  assert (HwG : Forall (vars_wf (nvars mG)) Gt)
    by (rewrite NG; apply column_vars_wf).
  assert (Hlx : length x = n) by (unfold x; rewrite length_seq; assumption).
  assert (Hlf : length f = n) by apply length_seq.
  destruct (add_system_constraint_encodes n u_dim x_lo x_up cnstr_f cnstr_G
              sys_f sys_G Hlo Hup Hf Hfo HGl HG x f Gt Hlx Hlf
              (length_column_vars _ _ _) (column_vars_shape _ _ _)
              mG Hwx Hwf HwG)
    as (r & m' & Hrun & Hn & Hwfm & Hret & Hs & Hc).
  destruct (add_system_constraint_counts n u_dim x_lo x_up cnstr_f cnstr_G
              x f Gt BINARY r mG m' (eq_sym HGl) Hrun) as [Cs Cb].
  assert (Hpin : forall a, feasible mG a -> veq (vals a x) x_val).
  { intros a Ha. apply FG in Ha. apply feasible_free_vars in Ha.
    apply feasible_pinned in Ha. apply Ha. }
  exists x, f, Gt, r, m'.
  split; [|split; [exact Cs|split; [exact Cb|split]]].
  - unfold constraint_tester.
    rewrite (bind_Ok (addVars_bounds x_val x_val) _ empty_mip m0 x)
      by (unfold addVars_bounds; rewrite combine_same_length; reflexivity).
    rewrite (bind_Ok (addVars _ _ _ _) _ m0 m1 f eq_refl).
    rewrite (bind_Ok _ _ _ _ _ RG). rewrite (bind_Ok _ _ _ _ _ Hrun).
    reflexivity.
  - intros Hbox.
    assert (Hlsf : length (sys_f x_val) = n)
      by (rewrite (bundle_exact_length _ _ _ _ Hf Hbox); assumption).
    split.
    + set (a0 := fun v : nat =>
                   if (v <? n)%nat then nth v x_val 0
                   else if (v <? n + n)%nat then nth (v - n) (sys_f x_val) 0
                   else nth ((v - (n + n)) mod n)
                            (column ((v - (n + n)) / n) (sys_G x_val)) 0).
      assert (Hx0 : veq (vals a0 x) x_val).
      { apply veq_of_nth; [rewrite vals_length; lia|].
        intros i Hi. rewrite vals_length, Hlx in Hi. unfold x.
        rewrite vals_seq_nth by lia. unfold a0. simpl.
        replace (i <? n)%nat with true by (symmetry; apply Nat.ltb_lt; lia).
        reflexivity. }
      assert (Ha0 : feasible mG a0).
      { apply FG. apply feasible_free_vars. apply feasible_pinned.
        split; [apply feasible_empty | exact Hx0]. }
      assert (HwfG : wf_mip mG)
        by (unfold wf_mip; rewrite CG; simpl; constructor).
      destruct (Hc HwfG a0 Ha0) as (a' & _ & Ha').
      * exists x_val. split; [exact Hx0|]. split; [exact Hbox|]. split.
        -- apply veq_of_nth; [rewrite vals_length; lia|].
           intros i Hi. rewrite vals_length, Hlf in Hi. unfold f.
           rewrite vals_seq_nth, Hn0 by lia. unfold a0.
           replace (n + i <? n)%nat with false
             by (symmetry; apply Nat.ltb_ge; lia).
           replace (n + i <? n + n)%nat with true
             by (symmetry; apply Nat.ltb_lt; lia).
           replace (n + i - n)%nat with i by lia. reflexivity.
        -- intros i Hi.
           assert (Ec : nth_error cnstr_G i <> None)
             by (apply nth_error_Some; lia).
           destruct (nth_error cnstr_G i) as [c|] eqn:Eci; [|contradiction].
           destruct (HG i c Eci) as [Hex Hco].
           pose proof (bundle_exact_length _ _ _ _ Hex Hbox) as Hlc.
           cbv beta in Hlc. rewrite Hco in Hlc.
           unfold Gt. rewrite nth_column_vars by assumption.
           apply veq_of_nth; [rewrite vals_length, length_seq; lia|].
           intros j Hj. rewrite vals_length, length_seq in Hj.
           rewrite vals_seq_nth by lia. unfold a0.
           replace (n + n + i * n + j <? n)%nat with false
             by (symmetry; apply Nat.ltb_ge; lia).
           replace (n + n + i * n + j <? n + n)%nat with false
             by (symmetry; apply Nat.ltb_ge; lia).
           replace (n + n + i * n + j - (n + n))%nat with (j + i * n)%nat by lia.
           rewrite Nat.Div0.mod_add, Nat.div_add, Nat.mod_small, Nat.div_small
             by lia.
           reflexivity.
      * exists a'. exact Ha'.
    + intros a Ha. destruct (Hs a Ha) as [HaG [_ HP]].
      pose proof (Hpin a HaG) as Hx. destruct (HP x_val Hx) as [Hfv HGv].
      split; [exact Hx|]. split; [exact Hfv | exact HGv].
  - intros Hout a Ha. destruct (Hs a Ha) as [HaG [Hb _]].
    apply Hout. eapply in_box_veq; [apply (Hpin a HaG) | exact Hb].
Qed.

(** *** The bundles of a linear system *)

Lemma affine_bundle_point (Aout : option matrix) (C : tensor) (xin : tensor) :
  bundle_point (affine_bundle Aout C) xin [] [].
Proof.
  split; [reflexivity|]. split; [reflexivity|]. split; [constructor|].
  split; intros i Hi; simpl in Hi; lia.
Qed.

Lemma affine_bundle_exact (Aout : option matrix) (C : tensor)
      (D : tensor -> Prop) (F : tensor -> tensor) :
  (forall xv, length (F xv) = length C) ->
  (forall xv i, (i < length C)%nat ->
     nth i (F xv) 0 == dot (nth i (block Aout) []) xv + nth i C 0) ->
  bundle_exact (affine_bundle Aout C) D F.
Proof.
  intros HlF HF. split.
  - intros xin xv s b Hx _ _. apply veq_of_nth.
    + rewrite bundle_output_length. simpl. symmetry. apply HlF.
    + intros i Hi. rewrite bundle_output_length in Hi. simpl in Hi.
      rewrite bundle_output_nth by assumption. simpl.
      rewrite !row_val_nil, HF by assumption. unfold row_val.
      rewrite (dot_veq _ _ _ Hx). lra.
  - intros xin xv _ _. exists [], []. apply affine_bundle_point.
Qed.

Lemma LinearSystem_cnstr_f_exact (A B : matrix) (u_dim : nat)
      (D : tensor -> Prop) :
  bundle_exact (fst (LinearSystem_mixed_integer_constraints A B u_dim)) D
               (LinearSystem_f A).
Proof.
  simpl. apply affine_bundle_exact.
  - intros xv. unfold LinearSystem_f. rewrite matvec_length, repeat_length.
    reflexivity.
  - intros xv i Hi. unfold LinearSystem_f. rewrite matvec_nth, nth_repeat_0.
    simpl. lra.
Qed.

Lemma LinearSystem_cnstr_G_exact (A B : matrix) (u_dim : nat)
      (D : tensor -> Prop) (i : nat) (c : MixedIntegerConstraintsReturn) :
  nth_error (snd (LinearSystem_mixed_integer_constraints A B u_dim)) i = Some c ->
  bundle_exact c D (fun x => column i (LinearSystem_G B x)) /\
  length (Cout c) = length B.
Proof.
  simpl. intros H.
  rewrite nth_error_map, nth_error_seq in H.
  destruct (i <? u_dim)%nat; [|discriminate].
  simpl in H. injection H as <-. split.
  - apply affine_bundle_exact.
    + intros xv. reflexivity.
    + intros xv j Hj. unfold LinearSystem_G. simpl. destruct j; simpl; lra.
  - simpl. unfold column. apply length_map.
Qed.

(** The linear system of the tests, [A = [[2, 1], [-0.5, 1]]] on the box
    [[-2, 1] x [-3, 4]]: at the state [[1, 2]] of the box the model is
    feasible and gives [f = A @ [1, 2]] without slack or binary variable;
    at the state [[-3, 0]] outside the box it is infeasible. *)
Lemma add_system_constraint_exact_witness :
  let A := [[2; 1]; [-(1#2); 1]] in
  let B := [[1#2; 1#5; 3#10]; [1#10; 1#5; -(3#2)]] in
  let x_lo := [-(2); -(3)] in
  let x_up := [1; 4] in
  let c := LinearSystem_mixed_integer_constraints A B 3 in
  (exists x f Gt r m,
     constraint_tester 2 3 x_lo x_up (fst c, snd c) [1; 2] empty_mip
     = Ok (x, f, Gt, r) m /\
     length (slack r) = 0%nat /\ length (binary r) = 0%nat /\
     (exists a, feasible m a) /\
     (forall a, feasible m a ->
        veq (vals a x) [1; 2] /\
        veq (vals a f) (LinearSystem_f A [1; 2]) /\
        forall i, (i < 3)%nat ->
          veq (vals a (nth i Gt [])) (column i B))) /\
  veq (LinearSystem_f A [1; 2]) [4; 3#2] /\
  (exists x f Gt r m,
     constraint_tester 2 3 x_lo x_up (fst c, snd c) [-(3); 0] empty_mip
     = Ok (x, f, Gt, r) m /\
     status_INFEASIBLE m).
Proof.
  intros A B x_lo x_up c.
  assert (HG : forall i c0, nth_error (snd c) i = Some c0 ->
             bundle_exact c0 (in_box x_lo x_up)
                          (fun x => column i (LinearSystem_G B x)) /\
             length (Cout c0) = 2%nat).
  { intros i c0 H.
    apply (LinearSystem_cnstr_G_exact A B 3 (in_box x_lo x_up) i c0 H). }
  split; [|split].
  - destruct (add_system_constraint_exact 2 3 x_lo x_up (fst c) (snd c)
                (LinearSystem_f A) (LinearSystem_G B) [1; 2]
                eq_refl eq_refl eq_refl
                (LinearSystem_cnstr_f_exact A B 3 (in_box x_lo x_up))
                eq_refl eq_refl HG)
      as (x & f & Gt & r & m & Hrun & Hs & Hb & Hin & _).
    exists x, f, Gt, r, m. split; [exact Hrun|]. split; [exact Hs|].
    split; [exact Hb|]. apply Hin.
    split; repeat constructor; simpl; lra.
  - repeat constructor; simpl; lra.
  - destruct (add_system_constraint_exact 2 3 x_lo x_up (fst c) (snd c)
                (LinearSystem_f A) (LinearSystem_G B) [-(3); 0]
                eq_refl eq_refl eq_refl
                (LinearSystem_cnstr_f_exact A B 3 (in_box x_lo x_up))
                eq_refl eq_refl HG)
      as (x & f & Gt & r & m & Hrun & _ & _ & _ & Hout).
    exists x, f, Gt, r, m. split; [exact Hrun|]. apply Hout.
    intros [H _]. inversion H as [|? ? ? ? H1 _]; subst. simpl in H1. lra.
Defined.

(** ** The Lyapunov condition engine *)

Lemma leaky_relu_abs (z : Q) : leaky_relu (-(1)) z == Qabs z.
Proof.
  destruct (leaky_relu_cases (-(1)) z) as [[H ->]|[H ->]].
  - rewrite Qabs_pos by assumption. reflexivity.
  - rewrite Qabs_neg by lra. ring.
Qed.

Lemma dot_vsub (c u v : tensor) :
  length u = length v -> dot c (vsub u v) == dot c u - dot c v.
Proof.
  revert u v. induction c as [|x c IH]; intros [|y u] [|z v] H; simpl in *;
    try discriminate; try ring.
  rewrite IH by lia. ring.
Qed.

Lemma matvec_veq (A : matrix) (u v : tensor) :
  veq u v -> veq (matvec A u) (matvec A v).
Proof.
  intros H. induction A as [|r A IH]; simpl; constructor; [|exact IH].
  apply dot_veq. assumption.
Qed.

Lemma add_l1_norm_encodes (R : matrix) (xbar_var : list var)
      (xbar_eq lo up : tensor) :
  Forall (fun row => length row = length xbar_var) R ->
  length xbar_eq = length xbar_var ->
  forall m, vars_wf (nvars m) xbar_var ->
    encodes (add_l1_norm R xbar_var xbar_eq lo up) m
            (fun a => in_box lo up (vals a xbar_var))
            (fun r m' => expr_wf (nvars m') r)
            (fun r a => in_box lo up (vals a xbar_var) ->
                        eval a r ==
                        norm1 (matvec R (vsub (vals a xbar_var) xbar_eq))).
Proof.
  intros HR Heq. induction HR as [|row R Hrow HR IH]; intros m Hw.
  - simpl. eapply encodes_weaken; [apply encodes_ret| | |].
    + intros; exact I.
    + intros r m' _ _ [-> _]. constructor.
    + intros r a _ -> _. reflexivity.
  - cbn [add_l1_norm].
    set (c := - dot row xbar_eq).
    set (l := dot (map pos_part row) lo + dot (map neg_part row) up + c).
    set (u := dot (map pos_part row) up + dot (map neg_part row) lo + c).
    assert (Hev : forall a, eval a (combine row xbar_var) + c ==
                            dot row (vsub (vals a xbar_var) xbar_eq)).
    { intros a. rewrite eval_combine, dot_vsub
        by (rewrite vals_length; lia). unfold c. ring. }
    assert (Hbd : forall a, in_box lo up (vals a xbar_var) ->
                    l <= eval a (combine row xbar_var) + c /\
                    eval a (combine row xbar_var) + c <= u).
    { intros a [H1 H2]. rewrite eval_combine.
      pose proof (ia_dot_bounds row lo up (vals a xbar_var) H1 H2).
      unfold l, u. lra. }
    eapply encodes_bind_sound.
    + apply (add_relu_unit_encodes (-(1)) (combine row xbar_var) c l u m);
        [lra | apply expr_wf_combine; assumption].
    + intros a _ Hb. apply Hbd. assumption.
    + intros [t bs] m1 _ (Et & Ht & _) Hn1 _. cbn [fst snd] in *.
      exists (fun a => in_box lo up (vals a xbar_var)),
             (fun r a => exists rest, r = (1, t) :: rest /\
                (in_box lo up (vals a xbar_var) ->
                 eval a rest ==
                 norm1 (matvec R (vsub (vals a xbar_var) xbar_eq)))).
      split; [|split].
      * eapply encodes_bind_sound.
        -- apply (IH m1). eapply vars_wf_mono; eassumption.
        -- intros a _ H. exact H.
        -- intros rest m2 _ Hrest Hn2 _.
           exists (fun _ => True), (fun r _ => r = (1, t) :: rest).
           split; [|split].
           ++ eapply encodes_weaken; [apply encodes_ret| | |].
              ** intros; exact I.
              ** intros r m' _ _ [-> ->]. constructor; [simpl; lia | exact Hrest].
              ** intros r a _ H. exact H.
           ++ intros; exact I.
           ++ intros r a _ HP ->. exists rest. split; [reflexivity | exact HP].
      * intros a a1 _ Hb Hag _ _.
        rewrite (vals_agree (nvars m) a a1) by assumption. exact Hb.
      * intros r a _ HP1 (rest & -> & HP2) Hb.
        destruct (Hbd a Hb) as [B1 B2].
        cbn [eval matvec map]. rewrite norm1_cons.
        rewrite (HP1 B1 B2), (HP2 Hb), leaky_relu_abs, Hev. unfold matvec. ring.
Qed.

Lemma aff_eval_add (a : assignment) (e1 e2 : AffExpr) :
  aff_eval a (aff_add e1 e2) == aff_eval a e1 + aff_eval a e2.
Proof. unfold aff_eval, aff_add. simpl. rewrite eval_app. ring. Qed.

Lemma aff_eval_scale (a : assignment) (k : Q) (e : AffExpr) :
  aff_eval a (aff_scale k e) == k * aff_eval a e.
Proof. unfold aff_eval, aff_scale. simpl. rewrite eval_scale_expr. ring. Qed.

Lemma bundle_value (oc_bundle : MixedIntegerConstraintsReturn)
      (net : Sequential) (lo up xin s b : tensor) :
  bundle_exact oc_bundle (in_box lo up) (sequential_forward net) ->
  Aout_input oc_bundle = None -> Aout_binary oc_bundle = None ->
  length (Cout oc_bundle) = 1%nat ->
  in_box lo up xin -> bundle_point oc_bundle xin s b ->
  dot (nth 0 (block (Aout_slack oc_bundle)) []) s + nth 0 (Cout oc_bundle) 0
  == nth 0 (sequential_forward net xin) 0.
Proof.
  intros Hex HAi HAb HlC Hbox Hp.
  pose proof (proj1 Hex xin xin s b (veq_refl _) Hbox Hp) as Hv.
  apply (veq_nth _ _ O) in Hv.
  rewrite bundle_output_nth in Hv by lia. rewrite HAi, HAb in Hv.
  simpl in Hv. rewrite !row_val_nil in Hv. unfold row_val in Hv. lra.
Qed.

Lemma select_vals (a : assignment) (idx : list nat) (x : list var) :
  Forall (fun j => (j < length x)%nat) idx ->
  vals a (select O idx x) = select 0 idx (vals a x).
Proof.
  intros H. unfold vals at 1, select. rewrite map_map. apply map_ext_in.
  intros j Hj. rewrite Forall_forall in H. rewrite vals_nth by (apply H; exact Hj).
  reflexivity.
Qed.

Lemma select_wf (n : nat) (idx : list nat) (x : list var) :
  Forall (fun j => (j < length x)%nat) idx -> vars_wf n x ->
  vars_wf n (select O idx x).
Proof.
  intros H Hw. unfold select. apply Forall_map.
  rewrite Forall_forall in H. apply Forall_forall. intros j Hj.
  apply (vars_wf_nth n); [exact Hw | apply H; exact Hj].
Qed.

Lemma vle_select (idx : list nat) (u v : tensor) :
  vle u v -> vle (select 0 idx u) (select 0 idx v).
Proof.
  intros H. induction idx as [|j idx IH]; simpl; constructor; [|exact IH].
  apply vle_nth. exact H.
Qed.

Lemma in_box_select (idx : list nat) (lo up x : tensor) :
  in_box lo up x ->
  in_box (select 0 idx lo) (select 0 idx up) (select 0 idx x).
Proof. intros [H1 H2]. split; apply vle_select; assumption. Qed.

Lemma veq_select (idx : list nat) (u v : tensor) :
  veq u v -> veq (select 0 idx u) (select 0 idx v).
Proof.
  intros H. induction idx as [|j idx IH]; simpl; constructor; [|exact IH].
  apply veq_nth. exact H.
Qed.

Lemma phi_veq (relu : Sequential) (x x' : tensor) :
  veq x x' -> phi relu x == phi relu x'.
Proof.
  intros H. unfold phi. apply veq_nth.
  apply (controller_forward_veq (SequentialController relu)). exact H.
Qed.

Section LyapunovEngineFacts.

Variable output_constraint :
  Sequential -> tensor -> tensor ->
  MixedIntegerConstraintsReturn * tensor * tensor.
Variable compute_network_at_xhat :
  list var -> tensor -> Sequential -> list nat -> tensor -> tensor ->
  M (list var * list var * matrix * tensor * tensor * tensor).
Variable x_dim : nat.
Variables x_lo x_up : tensor.
Variable relu : Sequential.
Variable x_equilibrium : tensor.
Variable xhat_indices : option (list nat).
Hypothesis Hlo : length x_lo = x_dim.
Hypothesis Hup : length x_up = x_dim.
Hypothesis Hxe : length x_equilibrium = x_dim.
Hypothesis Hwf_relu : sequential_wf relu.
Hypothesis Hout : out_features (output_layer relu) = 1%nat.
Hypothesis oc_exact :
  output_constraint_exact_at output_constraint relu x_lo x_up.
Hypothesis cx_exact :
  forall idx, xhat_indices = Some idx ->
    compute_network_at_xhat_exact_at compute_network_at_xhat
      x_equilibrium relu idx x_lo x_up.

Lemma add_network_difference_encodes (x : list var) (m : GurobiTorchMIP) :
  length x = x_dim -> vars_wf (nvars m) x ->
  encodes (add_network_difference output_constraint compute_network_at_xhat
             x_dim x_lo x_up relu x x_equilibrium xhat_indices) m
          (fun a => in_box x_lo x_up (vals a x))
          (fun r m' => expr_wf (nvars m') (fst r))
          (fun r a => in_box x_lo x_up (vals a x) ->
                      aff_eval a r ==
                      phi relu (vals a x) -
                      phi relu (_get_xhat_val (vals a x) x_equilibrium
                                              xhat_indices)).
Proof.
  intros Hlx Hwx. unfold add_network_difference.
  destruct (output_constraint relu x_lo x_up) as [[cnstr olo] oup] eqn:Eoc.
  pose proof oc_exact as Hoc. unfold output_constraint_exact_at in Hoc.
  rewrite Eoc in Hoc. simpl in Hoc.
  destruct Hoc as (Hex & HAi & HAb & HlC & _). rewrite Hout in HlC.
  apply encodes_assert; [rewrite HAi; reflexivity|].
  apply encodes_assert; [rewrite HAb; reflexivity|].
  eapply encodes_bind_sound.
  - apply (add_mixed_integer_linear_constraints_encodes cnstr x None m);
      [assumption|]. intros o Eo; discriminate.
  - intros a _ Hb.
    destruct (proj2 Hex (vals a x) (vals a x) (veq_refl _) Hb) as (s & b & Hp).
    exists s, b. split; [assumption|]. intros o Eo; discriminate.
  - intros [cs cb] m1 _ [Er Hn1] Hle1 _. injection Er as -> ->.
    set (cs := seq (nvars m) (num_slack cnstr)) in *.
    set (row := nth 0 (block (Aout_slack cnstr)) []).
    assert (Hwc : vars_wf (nvars m1) cs) by (apply vars_wf_seq; lia).
    assert (Hwx1 : vars_wf (nvars m1) x)
      by (eapply vars_wf_mono; eassumption).
    exists (fun a => in_box x_lo x_up (vals a x)),
           (fun r a => in_box x_lo x_up (vals a x) ->
                       aff_eval a r ==
                       eval a (combine row cs) + nth 0 (Cout cnstr) 0 -
                       phi relu (_get_xhat_val (vals a x) x_equilibrium
                                               xhat_indices)).
    split; [|split].
    + destruct (xhat_is_equilibrium xhat_indices x_dim) eqn:Exh.
      * eapply encodes_weaken; [apply encodes_ret| | |].
        -- intros; exact I.
        -- intros r m' _ _ [-> ->]. simpl. apply expr_wf_combine. assumption.
        -- intros r a _ -> Hb. unfold aff_eval. cbn [fst snd].
           rewrite (get_xhat_val_equilibrium _ _ _ x_dim)
             by (try assumption; rewrite vals_length; assumption).
           fold row. ring.
      * destruct xhat_indices as [idx|] eqn:Eidx; [|discriminate Exh].
        eapply encodes_bind_sound.
        -- apply (cx_exact idx eq_refl m1 x); [assumption | lia].
        -- intros a _ Hb. exists (vals a x). split; [apply veq_refl | exact Hb].
        -- intros [[[[[xs xb] xA] xC] xlo] xup] m2 _ (Hwxs & _) Hle2 _.
           exists (fun _ => True),
                  (fun r _ => r = aff_add (combine row cs, nth 0 (Cout cnstr) 0)
                                          (aff_scale (-(1))
                                             (combine (nth 0 xA []) xs,
                                              nth 0 xC 0))).
           split; [|split].
           ++ eapply encodes_weaken; [apply encodes_ret| | |].
              ** intros; exact I.
              ** intros r m' _ _ [-> ->]. simpl. apply expr_wf_app.
                 --- apply expr_wf_combine. eapply vars_wf_mono; eassumption.
                 --- apply expr_wf_scale, expr_wf_combine. assumption.
              ** intros r a _ H. exact H.
           ++ intros; exact I.
           ++ intros r a _ HP -> Hb.
              destruct (HP (vals a x) (veq_refl _) Hb) as (Hv & _).
              pose proof (veq_length _ _ Hv) as Hlv.
              unfold sequential_forward in Hlv.
              rewrite linear_forward_length, Hout in Hlv by apply Hwf_relu.
              unfold vadd in Hlv. rewrite zipWith_length, matvec_length in Hlv.
              apply (veq_nth _ _ O) in Hv.
              rewrite vadd_nth, matvec_nth in Hv
                by (rewrite ?matvec_length; lia).
              rewrite aff_eval_add, aff_eval_scale. unfold aff_eval, phi.
              cbn [fst snd]. rewrite !eval_combine. lra.
    + intros a a1 _ Hb Hag _ _.
      rewrite (vals_agree (nvars m) a a1) by assumption. exact Hb.
    + intros r a _ [Hp _] HP2 Hb. rewrite (HP2 Hb), eval_combine.
      pose proof (bundle_value cnstr relu x_lo x_up _ _ _ Hex HAi HAb HlC Hb Hp)
        as Hbv.
      cbn [fst snd] in Hbv. unfold row, phi. lra.
Qed.

Variable R : matrix.
Variable xbar_indices : option (list nat).
Hypothesis Hxbar :
  Forall (fun j => (j < x_dim)%nat) (_get_xbar_indices x_dim xbar_indices).
Hypothesis HR :
  Forall (fun row => length row =
                     length (_get_xbar_indices x_dim xbar_indices)) R.

Lemma add_lyapunov_value_encodes (x : list var) (m : GurobiTorchMIP) :
  length x = x_dim -> vars_wf (nvars m) x ->
  encodes (add_lyapunov_value output_constraint compute_network_at_xhat
             x_dim x_lo x_up relu x x_equilibrium R xbar_indices
             xhat_indices) m
          (fun a => in_box x_lo x_up (vals a x))
          (fun r m' => expr_wf (nvars m') (fst (fst r)) /\
                       expr_wf (nvars m') (snd r))
          (fun r a => in_box x_lo x_up (vals a x) ->
             aff_eval a (fst r) ==
               phi relu (vals a x) -
               phi relu (_get_xhat_val (vals a x) x_equilibrium xhat_indices) /\
             eval a (snd r) ==
               norm1 (matvec R
                        (vsub (select 0 (_get_xbar_indices x_dim xbar_indices)
                                      (vals a x))
                              (select 0 (_get_xbar_indices x_dim xbar_indices)
                                      x_equilibrium)))).
Proof.
  intros Hlx Hwx. unfold add_lyapunov_value.
  set (xbar := _get_xbar_indices x_dim xbar_indices) in *.
  assert (Hsel : forall a, vals a (select O xbar x) = select 0 xbar (vals a x)).
  { intros a. apply select_vals. rewrite Hlx. exact Hxbar. }
  eapply encodes_bind_sound.
  - apply add_network_difference_encodes; assumption.
  - intros a _ H. exact H.
  - intros nd m1 _ Hnd Hn1 _.
    exists (fun a => in_box x_lo x_up (vals a x)),
           (fun r a => fst r = nd /\
              (in_box x_lo x_up (vals a x) ->
               eval a (snd r) ==
               norm1 (matvec R (vsub (select 0 xbar (vals a x))
                                     (select 0 xbar x_equilibrium))))).
    split; [|split].
    + eapply encodes_bind_sound.
      * apply (add_l1_norm_encodes R (select O xbar x)
                 (select 0 xbar x_equilibrium) (select 0 xbar x_lo)
                 (select 0 xbar x_up)).
        -- unfold select at 1. rewrite length_map. exact HR.
        -- unfold select. rewrite !length_map. reflexivity.
        -- apply select_wf; [rewrite Hlx; exact Hxbar|].
           eapply vars_wf_mono; eassumption.
      * intros a _ Hb. cbv beta. rewrite Hsel. apply in_box_select. exact Hb.
      * intros l1 m2 _ Hl1 Hn2 _.
        exists (fun _ => True), (fun r _ => r = (nd, l1)). split; [|split].
        -- eapply encodes_weaken; [apply encodes_ret| | |].
           ++ intros; exact I.
           ++ intros r m' _ _ [-> ->]. split; [|exact Hl1].
              eapply expr_wf_mono; [|exact Hnd]. exact Hn2.
           ++ intros r a _ H. exact H.
        -- intros; exact I.
        -- intros r a _ HP -> . split; [reflexivity|]. intros Hb.
           cbv beta in HP. rewrite Hsel in HP. apply HP. apply in_box_select.
           exact Hb.
    + intros a a1 _ Hb Hag _ _.
      rewrite (vals_agree (nvars m) a a1) by assumption. exact Hb.
    + intros r a _ HP1 [Er HP2] Hb. rewrite Er. split; [apply HP1 | apply HP2];
        exact Hb.
Qed.

End LyapunovEngineFacts.

(** *** Models with a state in a box, a fixed state and an objective *)

Lemma nth_error_boxed (lo up : tensor) (k : nat) :
  length lo = length up -> (k < length lo)%nat ->
  nth_error (map (fun p => mkVar (Some (fst p)) (Some (snd p)) CONTINUOUS)
                 (combine lo up)) k =
  Some (mkVar (Some (nth k lo 0)) (Some (nth k up 0)) CONTINUOUS).
Proof.
  revert up k. induction lo as [|l lo IH]; intros [|u up] [|k] Hl Hk;
    simpl in *; try lia; try discriminate; [reflexivity|].
  apply IH; lia.
Qed.

(** Variables created with [lb = lo] and [ub = up] take their values in the
    box. *)
Lemma feasible_boxed (m : GurobiTorchMIP) (lo up : tensor) (a : assignment) :
  length lo = length up ->
  (feasible (mip_add_vars m
               (map (fun p => mkVar (Some (fst p)) (Some (snd p)) CONTINUOUS)
                    (combine lo up))) a <->
   feasible m a /\ in_box lo up (vals a (seq (nvars m) (length lo)))).
Proof.
  intros Hl. rewrite feasible_add_vars. split; intros [Hf H]; (split; [assumption|]).
  - split; (apply vle_of_nth; [rewrite vals_length, length_seq; lia|]);
      intros i Hi; rewrite ?vals_length, ?length_seq in Hi;
      rewrite vals_seq_nth by lia;
      destruct (H i _ (nth_error_boxed lo up i Hl ltac:(lia))) as (H1 & H2 & _);
      simpl in H1, H2; assumption.
  - intros k v Hk.
    assert (Hlt : (k < length lo)%nat).
    { assert (Hne : nth_error
                      (map (fun p => mkVar (Some (fst p)) (Some (snd p))
                                           CONTINUOUS) (combine lo up)) k
                    <> None) by congruence.
      apply nth_error_Some in Hne.
      rewrite length_map, length_combine in Hne. lia. }
    rewrite (nth_error_boxed lo up k Hl Hlt) in Hk. injection Hk as <-.
    destruct H as [H1 H2].
    pose proof (vle_nth _ _ k H1) as L. pose proof (vle_nth _ _ k H2) as U.
    rewrite vals_seq_nth in L, U by lia.
    unfold var_ok. simpl. split; [exact L|]. split; [exact U|]. discriminate.
Qed.

Lemma fix_coordinates_spec (x : list var) (x_val : tensor) (l : list nat)
      (m : GurobiTorchMIP) :
  exists m',
    for_each l (fun i => addLConstr [[1]] [[nth i x O]] EQUAL (nth i x_val 0)) m
    = Ok tt m' /\
    vars m' = vars m /\ obj m' = obj m /\ obj_constant m' = obj_constant m /\
    obj_sense m' = obj_sense m /\
    (forall a, feasible m' a <->
               feasible m a /\
               forall i, In i l -> a (nth i x O) == nth i x_val 0).
Proof.
  revert m. induction l as [|i l IH]; intros m.
  - exists m. simpl. repeat (split; [reflexivity|]). intros a. split; [|tauto].
    intros H. split; [exact H|]. intros i [].
  - cbn [for_each].
    set (m1 := mip_add_constrs m
                 [mkLConstr (lin [[1]] [[nth i x O]]) EQUAL (nth i x_val 0)]).
    destruct (IH m1) as (m' & R & Hv & Ho & Hc & Hs & F).
    exists m'. split; [|repeat (split; [assumption|])].
    + unfold bind at 1. unfold addLConstr at 1, add_constrs at 1. fold m1.
      exact R.
    + intros a. rewrite F. unfold m1. rewrite feasible_add_constrs. split.
      * intros [[Hf Hh] Hl]. split; [exact Hf|]. intros j [<-|Hj]; [|auto].
        apply Forall_inv in Hh. unfold holds, lin in Hh. simpl in Hh. lra.
      * intros [Hf Hl]. split; [split; [exact Hf|]|].
        -- constructor; [|constructor]. unfold holds, lin. simpl.
           pose proof (Hl i (or_introl eq_refl)). lra.
        -- intros j Hj. apply Hl. right. exact Hj.
Qed.

Lemma fix_state_spec (x : list var) (x_val : tensor) (m : GurobiTorchMIP) :
  length x_val = length x ->
  exists m',
    fix_state x x_val m = Ok tt m' /\
    obj m' = obj m /\ obj_constant m' = obj_constant m /\
    obj_sense m' = obj_sense m /\
    (forall a, feasible m' a <-> feasible m a /\ veq (vals a x) x_val).
Proof.
  intros Hl. unfold fix_state.
  destruct (fix_coordinates_spec x x_val (seq 0 (length x)) m)
    as (m' & R & _ & Ho & Hc & Hs & F).
  exists m'. repeat (split; [assumption|]). intros a. rewrite F.
  split; intros [Hf H]; (split; [exact Hf|]).
  - apply veq_of_nth; [rewrite vals_length; lia|]. intros i Hi.
    rewrite vals_length in Hi. rewrite vals_nth by assumption.
    apply H. apply in_seq. lia.
  - intros i Hi. apply in_seq in Hi. rewrite <- vals_nth by lia.
    apply veq_nth. exact H.
Qed.

Lemma objective_value_affine (e : AffExpr) (s : ModelSense)
      (m : GurobiTorchMIP) :
  exists m',
    setObjective_affine e s m = Ok tt m' /\
    vars m' = vars m /\ constrs m' = constrs m /\ obj_sense m' = s /\
    (forall a, objective_value m' a == aff_eval a e).
Proof.
  eexists. split; [reflexivity|]. simpl. repeat (split; [reflexivity|]).
  intros a0. unfold objective_value, aff_eval. simpl.
  rewrite eval_lin_cons. unfold lin. simpl.
  assert (E : dot (map fst (fst e)) (vals a0 (map snd (fst e))) ==
              eval a0 (fst e)).
  { induction (fst e) as [|[c v] l IH]; simpl; [reflexivity|].
    rewrite IH. reflexivity. }
  rewrite E. ring.
Qed.

Lemma optimal_of_constant_objective (m : GurobiTorchMIP) (v : Q) :
  (exists a, feasible m a) ->
  (forall a, feasible m a -> objective_value m a == v) ->
  (exists a, optimal m a v) /\ (forall a w, optimal m a w -> w == v).
Proof.
  intros [a Ha] Hv. split.
  - exists a. split; [exact Ha|]. split; [apply Hv; exact Ha|].
    intros a' Ha'. pose proof (Hv a' Ha') as E.
    destruct (obj_sense m); simpl; lra.
  - intros a' w (Ha' & Hw & _). rewrite <- Hw. apply Hv. exact Ha'.
Qed.

Lemma feasible_same_constraints (m m' : GurobiTorchMIP) (a : assignment) :
  vars m' = vars m -> constrs m' = constrs m ->
  (feasible m' a <-> feasible m a).
Proof. intros Hv Hc. unfold feasible. rewrite Hv, Hc. tauto. Qed.

(** C5: with the state fixed to a point [x_val] of the box, the Lyapunov
    positivity MILP is built without error and is solved to optimality, and
    its optimal objective value is
    [(eps - lambda) |R (xbar - xbar_eq)|_1 - phi(x_val) + phi(xhat)], [phi]
    the Lyapunov network, [xhat] the partial-equilibrium substitution of
    [x_val] and [xbar] the selected coordinates. *)
Theorem lyapunov_positivity_milp_value
        (output_constraint :
           Sequential -> tensor -> tensor ->
           MixedIntegerConstraintsReturn * tensor * tensor)
        (compute_network_at_xhat :
           list var -> tensor -> Sequential -> list nat -> tensor -> tensor ->
           M (list var * list var * matrix * tensor * tensor * tensor))
        (x_dim : nat) (x_lo x_up : tensor) (relu : Sequential)
        (x_equilibrium : tensor) (V_lambda V_epsilon : Q) (R : matrix)
        (xbar_indices xhat_indices : option (list nat)) (x_val : tensor) :
  let xbar := _get_xbar_indices x_dim xbar_indices in
  let expected :=
    (V_epsilon - V_lambda) *
      norm1 (matvec R (vsub (select 0 xbar x_val)
                            (select 0 xbar x_equilibrium)))
    - phi relu x_val
    + phi relu (_get_xhat_val x_val x_equilibrium xhat_indices) in
  length x_lo = x_dim -> length x_up = x_dim ->
  length x_equilibrium = x_dim ->
  sequential_wf relu -> out_features (output_layer relu) = 1%nat ->
  output_constraint_exact_at output_constraint relu x_lo x_up ->
  (forall idx, xhat_indices = Some idx ->
     compute_network_at_xhat_exact_at compute_network_at_xhat
       x_equilibrium relu idx x_lo x_up) ->
  Forall (fun j => (j < x_dim)%nat) xbar ->
  Forall (fun row => length row = length xbar) R ->
  in_box x_lo x_up x_val ->
  exists x m,
    lyapunov_positivity_at output_constraint compute_network_at_xhat
      x_dim x_lo x_up relu x_equilibrium V_lambda V_epsilon R
      xbar_indices xhat_indices x_val empty_mip = Ok x m /\
    obj_sense m = MAXIMIZE /\
    (exists a, optimal m a expected) /\
    (forall a v, optimal m a v -> v == expected).
Proof.
  intros xbar expected Hlo Hup Hxe Hwf Hout Hoc Hcx Hxbar HR Hbox.
  subst xbar expected.
  set (xbar := _get_xbar_indices x_dim xbar_indices) in *.
  set (expected :=
         (V_epsilon - V_lambda) *
           norm1 (matvec R (vsub (select 0 xbar x_val)
                                 (select 0 xbar x_equilibrium)))
         - phi relu x_val
         + phi relu (_get_xhat_val x_val x_equilibrium xhat_indices)).
  assert (Hlv : length x_val = x_dim)
    by (destruct Hbox as [H _]; apply vle_length in H; lia).
  set (m0 := mip_add_vars empty_mip
               (map (fun p => mkVar (Some (fst p)) (Some (snd p)) CONTINUOUS)
                    (combine x_lo x_up))).
  set (x := seq 0 x_dim).
  assert (Hn0 : nvars m0 = x_dim).
  { unfold m0. rewrite nvars_add_vars, length_map, length_combine. simpl. lia. }
  assert (Hwx : vars_wf (nvars m0) x) by (apply vars_wf_seq; lia).
  assert (Hlx : length x = x_dim) by apply length_seq.
  assert (F0 : forall a, feasible m0 a <-> in_box x_lo x_up (vals a x)).
  { intros a. unfold m0. rewrite feasible_boxed by lia.
    change (nvars empty_mip) with O. rewrite Hlo. fold x.
    pose proof (feasible_empty a). tauto. }
  destruct (add_lyapunov_value_encodes output_constraint
              compute_network_at_xhat x_dim x_lo x_up relu x_equilibrium
              xhat_indices Hlo Hup Hxe Hwf Hout Hoc Hcx R xbar_indices
              Hxbar HR x m0 Hlx Hwx)
    as ([nd l1] & m1 & Hrun & Hn1 & _ & _ & Hs1 & Hc1).
  set (objective := aff_add (aff_scale (V_epsilon - V_lambda) (l1, 0))
                            (aff_scale (-(1)) nd)).
  destruct (objective_value_affine objective MAXIMIZE m1)
    as (m2 & Hrun2 & Hv2 & Hc2 & Hs2 & Hobj2).
  destruct (fix_state_spec x x_val m2 ltac:(lia))
    as (m3 & Hrun3 & Ho3 & Hoc3 & Hs3 & F3).
  assert (Hval : forall a, feasible m3 a -> objective_value m3 a == expected).
  { intros a Ha. apply F3 in Ha. destruct Ha as [Ha Hx].
    apply (feasible_same_constraints m1 m2 a Hv2 Hc2) in Ha.
    destruct (Hs1 a Ha) as [Ha0 HP]. apply F0 in Ha0.
    destruct (HP Ha0) as [E1 E2]. cbn [fst snd] in E1, E2. fold xbar in E2.
    unfold objective_value. rewrite Ho3, Hoc3.
    change (eval a (obj m2) + obj_constant m2) with (objective_value m2 a).
    rewrite Hobj2. unfold objective.
    rewrite aff_eval_add, !aff_eval_scale, E1.
    unfold aff_eval at 1. cbn [fst snd]. rewrite E2.
    unfold expected.
    rewrite (phi_veq relu _ _ Hx).
    rewrite (phi_veq relu _ _ (get_xhat_val_veq _ _ x_equilibrium
                                 xhat_indices Hx)).
    rewrite (norm1_veq _ _ (matvec_veq R _ _
               (vsub_veq _ _ _ _ (veq_select xbar _ _ Hx) (veq_refl _)))).
    ring. }
  exists x, m3. split; [|split].
  - unfold lyapunov_positivity_at, lyapunov_positivity_as_milp.
    rewrite (bind_Ok _ _ empty_mip m2 x); [rewrite (bind_Ok _ _ _ _ _ Hrun3);
                                           reflexivity|].
    rewrite (bind_Ok (addVars_bounds x_lo x_up) _ empty_mip m0 x)
      by (unfold addVars_bounds; rewrite length_combine, Hlo, Hup, Nat.min_id;
          reflexivity).
    rewrite (bind_Ok _ _ _ _ _ Hrun). fold objective.
    rewrite (bind_Ok _ _ _ _ _ Hrun2). reflexivity.
  - rewrite Hs3. exact Hs2.
  - apply optimal_of_constant_objective; [|exact Hval].
    set (a0 := override (fun _ => 0) O x_val).
    assert (Hx0 : vals a0 x = x_val)
      by (unfold x; rewrite <- Hlv; apply vals_override_new; reflexivity).
    assert (Ha0 : feasible m0 a0) by (apply F0; rewrite Hx0; exact Hbox).
    assert (Hwf0 : wf_mip m0) by (unfold wf_mip; simpl; constructor).
    destruct (Hc1 Hwf0 a0 Ha0) as (a' & Hag & Ha').
    + cbv beta. rewrite Hx0. exact Hbox.
    + exists a'. apply F3. split.
      * apply (feasible_same_constraints m1 m2 a' Hv2 Hc2). exact Ha'.
      * rewrite (vals_agree (nvars m0) a0 a') by assumption.
        rewrite Hx0. apply veq_refl.
Qed.

Lemma scalar_controller_wf : sequential_wf scalar_controller.
Proof. exact (wf_controller scalar_loop scalar_loop_wf). Qed.

(** The Lyapunov function [V(x) = -relu(x)/2 + |x|] on [[-1, 1]], at
    [x = 1/2]. *)
Lemma lyapunov_positivity_milp_value_witness :
  let expected :=
    ((1#2) - 1) *
      norm1 (matvec [[1]] (vsub (select 0 (_get_xbar_indices 1 None) [1#2])
                                (select 0 (_get_xbar_indices 1 None) [0])))
    - phi scalar_controller [1#2]
    + phi scalar_controller (_get_xhat_val [1#2] [0] None) in
  exists x m,
    lyapunov_positivity_at scalar_output_constraint no_network_at_xhat
      1 [-(1)] [1] scalar_controller [0] 1 (1#2) [[1]] None None [1#2]
      empty_mip = Ok x m /\
    obj_sense m = MAXIMIZE /\
    (exists a, optimal m a expected) /\
    (forall a v, optimal m a v -> v == expected).
Proof.
  apply (lyapunov_positivity_milp_value scalar_output_constraint
           no_network_at_xhat 1 [-(1)] [1] scalar_controller [0] 1 (1#2)
           [[1]] None None [1#2]).
  - reflexivity.
  - reflexivity.
  - reflexivity.
  - exact scalar_controller_wf.
  - reflexivity.
  - exact scalar_output_constraint_exact.
  - intros idx E. discriminate E.
  - repeat constructor.
  - repeat constructor.
  - split; (constructor; [|constructor]); lra.
Defined.

(** *** The Lyapunov derivative MILP *)

Lemma linear_autonomous_system_exact (A : matrix) (lo up : tensor) :
  length A = length lo ->
  autonomous_system_exact (linear_step_forward A)
                          (linear_add_dynamics_constraint A) lo up.
Proof.
  intros HA m x_var x_next_var Hwx Hwn Hlx Hln.
  unfold linear_add_dynamics_constraint, linear_step_forward.
  set (n := length A) in *.
  assert (Hrow : forall a i, (i < n)%nat ->
            (row_holds a [A; mneg (eye n)] [x_var; x_next_var]
                       EQUAL (repeat 0 n) i <->
             a (nth i x_next_var O) == dot (nth i A []) (vals a x_var))).
  { intros a i Hi. unfold row_holds. cbn [map dots].
    rewrite nth_mneg, nth_eye, dot_vneg, dot_eye_row by assumption.
    rewrite vals_nth by lia. rewrite nth_repeat_0. split; intros H; lra. }
  eapply encodes_bind.
  - apply encodes_addMConstrs. repeat (constructor; [assumption|]). constructor.
  - intros a _ (xv & H1 & _ & H3) i Hi. rewrite repeat_length in Hi.
    apply Hrow; [assumption|].
    pose proof (veq_nth _ _ i H3) as Hn. rewrite vals_nth in Hn by lia.
    rewrite Hn, matvec_nth, (dot_veq _ _ _ H1). reflexivity.
  - intros [] m1 _ _ _.
    exists (fun _ => True), (fun _ _ => True). split; [|split].
    + eapply encodes_weaken; [apply encodes_ret| | |]; intros; exact I.
    + intros; exact I.
    + intros r a Hrows _ xv H1 _.
      apply veq_of_nth; [rewrite vals_length, matvec_length; lia|].
      intros i Hi. rewrite vals_length in Hi.
      rewrite vals_nth, matvec_nth by lia.
      rewrite <- (dot_veq _ _ _ H1).
      apply Hrow; [lia|]. apply Hrows. rewrite repeat_length. lia.
Qed.

Lemma derivative_objective_eval (a : assignment) (eps_type : ConvergenceEps)
      (epsilon : Q) (V V_next l1 : AffExpr) :
  aff_eval a (derivative_objective eps_type epsilon V V_next l1) ==
  match eps_type with
  | ExpLower => aff_eval a V_next - aff_eval a V + epsilon * aff_eval a V
  | ExpUpper => - (aff_eval a V_next - aff_eval a V + epsilon * aff_eval a V)
  | Asymp => aff_eval a V_next - aff_eval a V + epsilon * aff_eval a l1
  end.
Proof.
  unfold derivative_objective.
  destruct eps_type; rewrite ?aff_eval_scale, ?aff_eval_add, ?aff_eval_scale,
    ?aff_eval_add, ?aff_eval_scale; ring.
Qed.

Lemma lyapunov_value_veq (x_dim : nat) (relu : Sequential)
      (x x' x_eq : tensor) (V_lambda : Q) (R : matrix)
      (xbar_indices xhat_indices : option (list nat)) :
  veq x x' ->
  lyapunov_value x_dim relu x x_eq V_lambda R xbar_indices xhat_indices ==
  lyapunov_value x_dim relu x' x_eq V_lambda R xbar_indices xhat_indices.
Proof.
  intros H. unfold lyapunov_value.
  rewrite (phi_veq relu _ _ H).
  rewrite (phi_veq relu _ _ (get_xhat_val_veq _ _ x_eq xhat_indices H)).
  rewrite (norm1_veq _ _ (matvec_veq R _ _
             (vsub_veq _ _ _ _ (veq_select _ _ _ H) (veq_refl _)))).
  reflexivity.
Qed.




(* ================================================================== *)
(** * Part III.  Further properties of the code                        *)
(* ================================================================== *)

(** ** [FeedbackSystem.compute_u] and [FeedbackSystem.step_forward] *)

Lemma compute_u_entry (fb : FeedbackSystem) (x : tensor) (i : nat) :
  (i < length (compute_u fb x))%nat ->
  (i < length (u_pre_sat_value fb x))%nat /\
  nth i (compute_u fb x) 0 =
  saturate (nth i (u_lower_limit fb) None) (nth i (u_upper_limit fb) None)
           (nth i (u_pre_sat_value fb x) 0).
Proof.
  change (compute_u fb x)
    with (zipWith max_lower (zipWith min_upper (u_pre_sat_value fb x)
                                     (u_upper_limit fb)) (u_lower_limit fb)).
  rewrite !zipWith_length. intros Hi. split; [lia|].
  rewrite (zipWith_nth max_lower _ _ i 0 None)
    by (rewrite ?zipWith_length; lia).
  rewrite (zipWith_nth min_upper _ _ i 0 None) by lia.
  reflexivity.
Qed.

(** The saturation of [compute_u], [max(min(u_pre_sat, upper), lower)], one
    entry at a time and whatever the limits are: the control is never below
    a finite lower limit; it is not above a finite upper limit as long as
    the lower limit is not above the upper one; a pre-saturation value that
    is within the limits is passed on unchanged; and when the lower limit
    is above the upper one, it is the lower limit that comes out. *)
Theorem compute_u_saturates (fb : FeedbackSystem) (x : tensor) (i : nat) :
  (i < length (compute_u fb x))%nat ->
  let lower := nth i (u_lower_limit fb) None in
  let upper := nth i (u_upper_limit fb) None in
  let v := nth i (u_pre_sat_value fb x) 0 in
  let u := nth i (compute_u fb x) 0 in
  lb_ok lower u /\
  (limit_leb lower upper = true -> ub_ok upper u) /\
  (lb_ok lower v -> ub_ok upper v -> u == v) /\
  (limit_leb lower upper = false -> forall l, lower = Some l -> u == l).
Proof.
  intros Hi lower upper v u.
  destruct (compute_u_entry fb x i Hi) as [_ E].
  subst u. rewrite E. fold lower upper v. clear E.
  unfold saturate, max_lower, min_upper, lb_ok, ub_ok, limit_leb.
  destruct lower as [l|], upper as [up|]; simpl.
  - destruct (Qle_bool l up) eqn:Hle.
    + apply Qle_bool_iff in Hle.
      repeat split; try discriminate; intros; minmax; lra.
    + apply Qle_bool_false in Hle.
      split; [minmax; lra|]. split; [discriminate|].
      split; [intros; minmax; lra|]. intros _ l0 [= <-]. minmax; lra.
  - repeat split; try discriminate; intros; minmax; lra.
  - repeat split; try discriminate; intros; minmax; lra.
  - repeat split; try discriminate; intros; lra.
Qed.

(** The loop [scalar_loop] at [x = 1/2]: [u_pre_sat = -1/4] is within the
    limits [[-1/4, 1/4]]. *)
Lemma compute_u_saturates_witness :
  let lower := nth 0 (u_lower_limit scalar_loop) None in
  let upper := nth 0 (u_upper_limit scalar_loop) None in
  let v := nth 0 (u_pre_sat_value scalar_loop [1#2]) 0 in
  let u := nth 0 (compute_u scalar_loop [1#2]) 0 in
  lb_ok lower u /\
  (limit_leb lower upper = true -> ub_ok upper u) /\
  (lb_ok lower v -> ub_ok upper v -> u == v) /\
  (limit_leb lower upper = false -> forall l, lower = Some l -> u == l).
Proof.
  apply (compute_u_saturates scalar_loop [1#2] 0). simpl. lia.
Defined.

Lemma vsub_self_nth (u v : tensor) (i : nat) :
  veq u v -> (i < length u)%nat -> nth i (vsub u v) 0 == 0.
Proof.
  intros H Hi. rewrite vsub_nth by (rewrite <- ?(veq_length _ _ H); lia).
  rewrite (veq_nth _ _ i H). ring.
Qed.

Lemma u_pre_sat_value_cancels (fb : FeedbackSystem) (x : tensor) (i : nat) :
  veq (_get_xhat_val x (x_equilibrium fb) (xhat_indices fb)) x ->
  (i < length (u_pre_sat_value fb x))%nat ->
  nth i (u_pre_sat_value fb x) 0 == nth i (u_equilibrium fb) 0.
Proof.
  intros Hxhat Hp. unfold u_pre_sat_value in *. unfold vadd, vsub in Hp.
  rewrite !zipWith_length in Hp.
  rewrite vadd_nth by (unfold vsub; rewrite ?zipWith_length; lia).
  rewrite vsub_self_nth; [ring| |lia].
  apply controller_forward_veq. apply veq_sym. exact Hxhat.
Qed.

Lemma saturate_inside (lower upper : limit) (v : Q) :
  lb_ok lower v -> ub_ok upper v -> saturate lower upper v == v.
Proof.
  unfold saturate, max_lower, min_upper, lb_ok, ub_ok.
  destruct lower, upper; intros; minmax; lra.
Qed.

(** "We allow u[n] = u* when x[xhat_indices] = x*[xhat_indices]"
    (docstring of [__init__]): at a state [x] whose [xhat] is [x] itself --
    the equilibrium when [xhat_indices] is [None] -- the two network terms
    of [compute_u] cancel and the control is the saturation of [u_eq]; it
    is [u_eq] when [u_eq] is within the limits. *)
Theorem compute_u_at_equilibrium (fb : FeedbackSystem) (x : tensor) (i : nat) :
  veq (_get_xhat_val x (x_equilibrium fb) (xhat_indices fb)) x ->
  (i < length (compute_u fb x))%nat ->
  let lower := nth i (u_lower_limit fb) None in
  let upper := nth i (u_upper_limit fb) None in
  let u_eq := nth i (u_equilibrium fb) 0 in
  nth i (compute_u fb x) 0 == saturate lower upper u_eq /\
  (lb_ok lower u_eq -> ub_ok upper u_eq -> nth i (compute_u fb x) 0 == u_eq).
Proof.
  intros Hxhat Hi lower upper u_eq.
  destruct (compute_u_entry fb x i Hi) as [Hp E].
  pose proof (u_pre_sat_value_cancels fb x i Hxhat Hp) as Ev. fold u_eq in Ev.
  assert (Es : nth i (compute_u fb x) 0 == saturate lower upper u_eq).
  { rewrite E. fold lower upper. apply saturate_proper. exact Ev. }
  split; [exact Es|].
  intros Hl Hu. rewrite Es. apply saturate_inside; assumption.
Qed.

(** [scalar_loop] at its equilibrium [x = 0], where [u* = 0]. *)
Lemma compute_u_at_equilibrium_witness :
  let lower := nth 0 (u_lower_limit scalar_loop) None in
  let upper := nth 0 (u_upper_limit scalar_loop) None in
  let u_eq := nth 0 (u_equilibrium scalar_loop) 0 in
  nth 0 (compute_u scalar_loop [0]) 0 == saturate lower upper u_eq /\
  (lb_ok lower u_eq -> ub_ok upper u_eq ->
   nth 0 (compute_u scalar_loop [0]) 0 == u_eq).
Proof.
  apply (compute_u_at_equilibrium scalar_loop [0] 0).
  - apply veq_refl.
  - simpl. lia.
Defined.

Lemma get_xhat_val_of_equilibrium (x_eq : tensor) (idx : option (list nat)) :
  _get_xhat_val x_eq x_eq idx = x_eq.
Proof.
  unfold _get_xhat_val. destruct idx as [idx|]; [|reflexivity].
  set (f := fun ix : nat * Q =>
              if existsb (Nat.eqb (fst ix)) idx
              then nth (fst ix) x_eq 0 else snd ix).
  apply nth_ext with (d := f (O, 0)) (d' := 0).
  - rewrite length_map, length_combine, length_seq. lia.
  - intros i Hi. rewrite length_map, length_combine, length_seq, Nat.min_id in Hi.
    rewrite (map_nth f), combine_nth by (rewrite length_seq; reflexivity).
    rewrite seq_nth by assumption. unfold f. simpl.
    destruct (existsb (Nat.eqb i) idx); reflexivity.
Qed.

Lemma controller_forward_length_wf (c : Controller) (x : tensor) :
  controller_wf c ->
  length (controller_forward c x) =
  match c with
  | LinearController l => out_features l
  | SequentialController net => out_features (output_layer net)
  end.
Proof.
  destruct c as [l|net]; simpl; intros H.
  - apply linear_forward_length. exact H.
  - unfold sequential_forward. apply linear_forward_length. apply H.
Qed.

Lemma compute_u_length_init (fb : FeedbackSystem) (x : tensor) :
  init_ok fb = true -> controller_wf (controller_network fb) ->
  length (compute_u fb x) = u_dim (forward_system fb).
Proof.
  intros Hi Hc. destruct (init_ok_lengths fb Hi) as (_ & Hu & Hl & Hup).
  assert (Hf : forall y, length (controller_forward (controller_network fb) y)
                         = u_dim (forward_system fb)).
  { intros y. rewrite controller_forward_length_wf by assumption.
    unfold init_ok in Hi. destruct (controller_network fb);
      rewrite !andb_true_iff, !Nat.eqb_eq in Hi; tauto. }
  unfold compute_u, vadd, vsub. rewrite !zipWith_length, !Hf, Hu, Hl, Hup. lia.
Qed.

(** The closed loop keeps the equilibrium: when the pair of [x_equilibrium]
    and [u_equilibrium] is an equilibrium of the forward system and
    [u_equilibrium] is within the control limits, [compute_u] gives
    [u_equilibrium] at [x_equilibrium] and [step_forward] maps
    [x_equilibrium] to itself, for either kind of forward system and
    controller and any [xhat_indices]. *)
Theorem step_forward_keeps_equilibrium (fb : FeedbackSystem) :
  let fs := forward_system fb in
  let x_eq := x_equilibrium fb in
  let u_eq := u_equilibrium fb in
  init_ok fb = true -> controller_wf (controller_network fb) ->
  (forall i, (i < u_dim fs)%nat ->
     lb_ok (nth i (u_lower_limit fb) None) (nth i u_eq 0) /\
     ub_ok (nth i (u_upper_limit fb) None) (nth i u_eq 0)) ->
  (forall u u', veq u u' ->
     veq (forward_next fs x_eq u) (forward_next fs x_eq u')) ->
  veq (forward_next fs x_eq u_eq) x_eq ->
  veq (compute_u fb x_eq) u_eq /\ veq (step_forward fb x_eq) x_eq.
Proof.
  intros fs x_eq u_eq Hinit Hc Hlim Hproper Hfix.
  assert (Hu : veq (compute_u fb x_eq) u_eq).
  { destruct (init_ok_lengths fb Hinit) as (_ & Hlu & _).
    pose proof (compute_u_length_init fb x_eq Hinit Hc) as Hlen.
    apply veq_of_nth; [unfold u_eq; lia|]. intros i Hi.
    destruct (compute_u_entry fb x_eq i Hi) as [Hp E]. rewrite E.
    rewrite (saturate_proper _ _ _ (nth i u_eq 0)).
    - apply saturate_inside; apply Hlim; unfold fs; lia.
    - apply u_pre_sat_value_cancels; [|exact Hp].
      unfold x_eq. rewrite get_xhat_val_of_equilibrium. apply veq_refl. }
  split; [exact Hu|].
  change (step_forward fb x_eq) with (forward_next fs x_eq (compute_u fb x_eq)).
  eapply veq_trans; [apply Hproper; exact Hu | exact Hfix].
Qed.

(** [scalar_loop]: [x = 0], [u = 0] is an equilibrium of
    [x[n+1] = x[n]/2 + u[n]]. *)
Lemma step_forward_keeps_equilibrium_witness :
  veq (compute_u scalar_loop [0]) [0] /\ veq (step_forward scalar_loop [0]) [0].
Proof.
  apply (step_forward_keeps_equilibrium scalar_loop).
  - reflexivity.
  - exact scalar_controller_wf.
  - intros [|i] Hi; [simpl; split; lra|].
    change (S i < 1)%nat in Hi. lia.
  - intros u u' H. simpl. unfold affine_step.
    apply vadd_veq; [apply veq_refl | apply matvec_veq; exact H].
  - vm_compute. constructor; [reflexivity | constructor].
Defined.

(** ** The bounds that the saturation block reports *)

Lemma add_input_saturation_constraint_result
      (sat : var -> var -> Q -> Q -> Q -> Q -> M (list var))
      (u_var u_pre_sat : list var) (lower upper : list limit)
      (pre_lo pre_up : tensor) (m m' : GurobiTorchMIP) (r : tensor * tensor) :
  _add_input_saturation_constraint sat u_var u_pre_sat lower upper
                                   pre_lo pre_up m = Ok r m' ->
  r = (zipWith min_upper (zipWith max_lower pre_lo lower) upper,
       zipWith max_lower (zipWith min_upper pre_up upper) lower).
Proof.
  unfold _add_input_saturation_constraint, bind, assert_.
  destruct (forallb _ _); [|discriminate]. cbn [ret].
  destruct (vleb pre_lo pre_up); [|discriminate]. cbn [ret].
  destruct (for_each _ _ m) as [[] m1|e]; [|discriminate].
  destruct (vleb _ _); [|discriminate]. cbn [ret].
  intros [= <- _]. reflexivity.
Qed.

Lemma saturation_bounds_enclose (lower upper : limit) (lo up v : Q) :
  lo <= v -> v <= up ->
  min_upper (max_lower lo lower) upper <= saturate lower upper v /\
  saturate lower upper v <= max_lower (min_upper up upper) lower.
Proof.
  intros H1 H2. unfold saturate, max_lower, min_upper.
  destruct lower, upper; split; minmax; lra.
Qed.

(** [_add_input_saturation_constraint] "also output[s] the bounds of u
    after the saturation": when every dimension has both limits or none,
    the block is built and the bounds it returns are ordered and enclose
    the saturated control, that is [lb[i] <= saturate(v) <= ub[i]] for every
    pre-saturation value [v] within [[u_pre_sat_lo[i], u_pre_sat_up[i]]]. *)
Theorem saturation_block_reports_bounds
        (sat : var -> var -> Q -> Q -> Q -> Q -> M (list var))
        (u_var u_pre_sat : list var) (lower upper : list limit)
        (pre_lo pre_up : tensor) (m : GurobiTorchMIP) :
  saturation_exact sat ->
  limits_consistent lower upper ->
  length u_pre_sat = length u_var ->
  length lower = length u_var -> length upper = length u_var ->
  length pre_lo = length u_var -> length pre_up = length u_var ->
  vars_wf (nvars m) u_var -> vars_wf (nvars m) u_pre_sat ->
  vle pre_lo pre_up ->
  exists u_lower_bound u_upper_bound m',
    _add_input_saturation_constraint sat u_var u_pre_sat lower upper
                                     pre_lo pre_up m
    = Ok (u_lower_bound, u_upper_bound) m' /\
    length u_lower_bound = length u_var /\
    length u_upper_bound = length u_var /\
    vle u_lower_bound u_upper_bound /\
    forall i v, (i < length u_var)%nat ->
      nth i pre_lo 0 <= v -> v <= nth i pre_up 0 ->
      nth i u_lower_bound 0
        <= saturate (nth i lower None) (nth i upper None) v /\
      saturate (nth i lower None) (nth i upper None) v
        <= nth i u_upper_bound 0.
Proof.
  intros Hsat Hcons Hlp Hll Hlu Hllo Hlup Hwu Hwp Hle.
  destruct (add_input_saturation_constraint_encodes sat Hsat u_var u_pre_sat
              lower upper pre_lo pre_up (nvars m) Hlp Hll Hlu Hllo Hlup
              Hwu Hwp Hle m Hcons (Nat.le_refl _))
    as ([lb ub] & m' & Hrun & _).
  pose proof (add_input_saturation_constraint_result _ _ _ _ _ _ _ _ _ _ Hrun)
    as E.
  injection E as -> ->.
  exists (zipWith min_upper (zipWith max_lower pre_lo lower) upper),
         (zipWith max_lower (zipWith min_upper pre_up upper) lower), m'.
  split; [exact Hrun|].
  split; [rewrite !zipWith_length; lia|].
  split; [rewrite !zipWith_length; lia|].
  split.
  - apply vleb_spec.
    apply (saturation_bounds_ordered u_var u_pre_sat lower upper pre_lo pre_up);
      assumption.
  - intros i v Hi Hlo Hup.
    rewrite (zipWith_nth min_upper _ _ i 0 None),
            (zipWith_nth max_lower _ _ i 0 None)
      by (rewrite ?zipWith_length; lia).
    rewrite (zipWith_nth max_lower _ _ i 0 None),
            (zipWith_nth min_upper _ _ i 0 None)
      by (rewrite ?zipWith_length; lia).
    apply saturation_bounds_enclose; assumption.
Qed.

(** The block with the limits [[-1, 1]] on a pre-saturation value in
    [[-5, 1/2]]: the control is reported within [[-1, 1/2]]. *)
Lemma saturation_block_reports_bounds_witness :
  exists u_lower_bound u_upper_bound m',
    _add_input_saturation_constraint saturation_by_relu_units
      [O] [1%nat] [Some (-(1))] [Some 1] [-(5)] [1#2]
      (mip_add_vars empty_mip (repeat (mkVar None None CONTINUOUS) 2))
    = Ok (u_lower_bound, u_upper_bound) m' /\
    length u_lower_bound = length [O] /\
    length u_upper_bound = length [O] /\
    vle u_lower_bound u_upper_bound /\
    forall i v, (i < length [O])%nat ->
      nth i [-(5)] 0 <= v -> v <= nth i [1#2] 0 ->
      nth i u_lower_bound 0
        <= saturate (nth i [Some (-(1))] None) (nth i [Some 1] None) v /\
      saturate (nth i [Some (-(1))] None) (nth i [Some 1] None) v
        <= nth i u_upper_bound 0.
Proof.
  apply (saturation_block_reports_bounds saturation_by_relu_units
           [O] [1%nat] [Some (-(1))] [Some 1] [-(5)] [1#2]
           (mip_add_vars empty_mip (repeat (mkVar None None CONTINUOUS) 2))).
  - exact saturation_by_relu_units_exact.
  - constructor; [simpl; lra | constructor].
  - reflexivity.
  - reflexivity.
  - reflexivity.
  - reflexivity.
  - reflexivity.
  - apply (vars_wf_seq 0 1 2). simpl. lia.
  - apply (vars_wf_seq 1 1 2). simpl. lia.
  - constructor; [|constructor]. lra.
Defined.

(** ** A linear controller with a partial [xhat_indices] *)

(** A [torch.nn.Linear] controller is encoded only when xhat is the
    equilibrium: with [xhat_indices] neither [None] nor
    [list(range(x_dim))], [add_dynamics_mip_constraint] fails the assertion
    of [_add_linear_controller_mip_constraint] as soon as the forward system
    has added its constraints, whatever the limits and the state variables
    are. *)
Theorem linear_controller_partial_xhat_rejected
        (sat : var -> var -> Q -> Q -> Q -> Q -> M (list var))
        (output_constraint :
           Sequential -> tensor -> tensor ->
           MixedIntegerConstraintsReturn * tensor * tensor)
        (compute_network_at_xhat :
           list var -> tensor -> Sequential -> list nat -> tensor -> tensor ->
           M (list var * list var * matrix * tensor * tensor * tensor))
        (fb : FeedbackSystem) (l : Linear)
        (x_var x_next_var : list var) (m : GurobiTorchMIP) :
  let fs := forward_system fb in
  controller_network fb = LinearController l ->
  xhat_is_equilibrium (xhat_indices fb) (x_dim fs) = false ->
  (exists r m1,
     add_dynamics_constraint fs x_var x_next_var (seq (nvars m) (u_dim fs))
       (mip_add_vars m (repeat (mkVar None None CONTINUOUS) (u_dim fs)))
     = Ok r m1) ->
  add_dynamics_mip_constraint sat output_constraint compute_network_at_xhat
                              fb x_var x_next_var m
  = Raise AssertionError.
Proof.
  intros fs Hc Hx (r & m1 & Hrun).
  unfold add_dynamics_mip_constraint. fold fs.
  rewrite (bind_Ok (addVars (u_dim fs) None None CONTINUOUS) _ m _ _ eq_refl).
  rewrite (bind_Ok _ _ _ _ _ Hrun). destruct r as [fslack fbin].
  apply bind_Raise.
  unfold _add_controller_mip_constraint. rewrite Hc.
  unfold _add_linear_controller_mip_constraint. fold fs.
  rewrite (bind_Ok (addVars (u_dim fs) None None CONTINUOUS) _ m1 _ _ eq_refl).
  apply bind_Raise. rewrite Hx. reflexivity.
Qed.

(** A linear controller on [scalar_plant] with [xhat_indices = []], that is
    [xhat = x]. *)
Lemma linear_controller_partial_xhat_rejected_witness :
  add_dynamics_mip_constraint saturation_by_relu_units
    scalar_output_constraint no_network_at_xhat
    (mkFeedbackSystem scalar_plant
       (LinearController (mkLinear 1 [[-(1#2)]] None))
       [0] [0] [Some (-(1#4))] [Some (1#4)] (Some []))
    [O] [1%nat]
    (mip_add_vars empty_mip (repeat (mkVar None None CONTINUOUS) 2))
  = Raise AssertionError.
Proof.
  apply (linear_controller_partial_xhat_rejected saturation_by_relu_units
           scalar_output_constraint no_network_at_xhat
           (mkFeedbackSystem scalar_plant
              (LinearController (mkLinear 1 [[-(1#2)]] None))
              [0] [0] [Some (-(1#4))] [Some (1#4)] (Some []))
           (mkLinear 1 [[-(1#2)]] None) [O] [1%nat]).
  - reflexivity.
  - reflexivity.
  - eexists _, _. reflexivity.
Defined.

(** ** [ControlLyapunov.lyapunov_derivative] minimises over the control *)

Lemma dot_vadd_r (d a b : tensor) :
  length a = length b -> dot d (vadd a b) == dot d a + dot d b.
Proof.
  revert a b. induction d as [|c d IH]; intros [|x a] [|y b] H; simpl in *;
    try discriminate; try ring.
  rewrite IH by lia. ring.
Qed.

Lemma dot_vadd_l (a b u : tensor) :
  length a = length b -> dot (vadd a b) u == dot a u + dot b u.
Proof.
  revert b u. induction a as [|x a IH]; intros [|y b] [|z u] H; simpl in *;
    try discriminate; try ring.
  rewrite IH by lia. ring.
Qed.

Lemma dot_vscale_l (c : Q) (a u : tensor) :
  dot (vscale c a) u == c * dot a u.
Proof.
  revert u. induction a as [|x a IH]; intros [|z u]; simpl; try ring.
  rewrite IH. ring.
Qed.

Lemma dot_zeros_l (n : nat) (u : tensor) : dot (repeat 0 n) u == 0.
Proof.
  revert u. induction n as [|n IH]; intros [|z u]; simpl; try ring.
  rewrite IH. ring.
Qed.

(** [d @ (G @ u) = (d @ G) @ u]. *)
Lemma dot_matvec_vecmat (n : nat) (d : tensor) (G : matrix) (u : tensor) :
  length d = length G -> Forall (fun row => length row = n) G ->
  dot d (matvec G u) == dot (vecmat n d G) u.
Proof.
  intros Hd HG. revert d Hd.
  induction HG as [|row G Hr HG IH]; intros [|c d] Hd; simpl in *;
    try discriminate.
  - rewrite dot_zeros_l. reflexivity.
  - rewrite dot_vadd_l, dot_vscale_l, IH by
        (try (unfold vscale; rewrite length_map, vecmat_length by assumption);
         lia).
    reflexivity.
Qed.

(** The least value of a linear function on a box, in the form of the class
    docstring: [c @ (lo + up)/2 - |c * (up - lo)/2|_1]. *)
Lemma box_linear_lower_bound (c lo up u : tensor) :
  length c = length u -> vle lo u -> vle u up ->
  dot c (vscale (1#2) (vadd lo up))
  - norm1 (vmul c (vscale (1#2) (vsub up lo))) <= dot c u.
Proof.
  intros Hc Hlo. revert c up Hc.
  induction Hlo as [|l x lo u Hl Hlo IH]; intros [|ci c] up Hc Hup;
    inversion Hup as [|? y ? up' Hx Hup']; subst;
    try discriminate Hc; try (cbn; lra).
  specialize (IH c up' ltac:(simpl in Hc; lia) Hup').
  change (ci * ((1#2) * (l + y)) + dot c (vscale (1#2) (vadd lo up'))
          - (Qabs (ci * ((1#2) * (y - l)))
             + norm1 (vmul c (vscale (1#2) (vsub up' lo))))
          <= ci * x + dot c u).
  assert (Habs : ci * ((1#2) * (l + y)) - Qabs (ci * ((1#2) * (y - l)))
                 <= ci * x).
  { destruct (Qlt_le_dec ci 0) as [Hneg|Hpos].
    - rewrite Qabs_neg by nra. nra.
    - rewrite Qabs_pos by nra. nra. }
  lra.
Qed.

Lemma box_linear_minimiser (c lo up : tensor) :
  length c = length lo -> vle lo up ->
  exists u, in_box lo up u /\
    dot c u == dot c (vscale (1#2) (vadd lo up))
               - norm1 (vmul c (vscale (1#2) (vsub up lo))).
Proof.
  intros Hc Hle. revert c Hc.
  induction Hle as [|l y lo up Hl Hle IH]; intros [|ci c] Hc;
    try discriminate Hc.
  - exists []. split; [split; constructor | reflexivity].
  - destruct (IH c ltac:(simpl in Hc; lia)) as (u & [Hu1 Hu2] & E).
    assert (Hstep : forall x,
              ci * x == ci * ((1#2) * (l + y)) - Qabs (ci * ((1#2) * (y - l))) ->
              dot (ci :: c) (x :: u) ==
              dot (ci :: c) (vscale (1#2) (vadd (l :: lo) (y :: up)))
              - norm1 (vmul (ci :: c)
                            (vscale (1#2) (vsub (y :: up) (l :: lo))))).
    { intros x Hx.
      change (ci * x + dot c u ==
              ci * ((1#2) * (l + y)) + dot c (vscale (1#2) (vadd lo up))
              - (Qabs (ci * ((1#2) * (y - l)))
                 + norm1 (vmul c (vscale (1#2) (vsub up lo))))).
      rewrite E, Hx. ring. }
    destruct (Qlt_le_dec ci 0) as [Hneg|Hpos].
    + exists (y :: u). split; [split; constructor; auto; lra|].
      apply Hstep. rewrite Qabs_neg by nra. ring.
    + exists (l :: u). split; [split; constructor; auto; lra|].
      apply Hstep. rewrite Qabs_pos by nra. ring.
Qed.

Section MinOverControls.

Variable system_x_dim : nat.
Variable system_u_dim : nat.
Variables system_u_lo system_u_up : tensor.
Variable system_f : tensor -> tensor.
Variable system_G : tensor -> matrix.
Variable x : tensor.
Hypothesis Hf : length (system_f x) = system_x_dim.
Hypothesis HG : length (system_G x) = system_x_dim.
Hypothesis HGrows : Forall (fun row => length row = system_u_dim) (system_G x).
Hypothesis Hlo : length system_u_lo = system_u_dim.
Hypothesis Hbox : vle system_u_lo system_u_up.

Let xdot (u : tensor) : tensor := vadd (system_f x) (matvec (system_G x) u).

Lemma dot_xdot (d u : tensor) :
  length d = system_x_dim ->
  dot d (xdot u) ==
  dot d (system_f x) + dot (vecmat system_u_dim d (system_G x)) u.
Proof.
  intros Hd. unfold xdot.
  rewrite dot_vadd_r by (rewrite matvec_length; lia).
  rewrite (dot_matvec_vecmat system_u_dim) by (assumption || lia).
  reflexivity.
Qed.

(** The closed form that [lyapunov_derivative] evaluates for a gradient
    [d] is the least value of [d @ (f(x) + G(x) u)] over the controls of the
    box. *)
Lemma min_u_Vdot_lower_bound (d u : tensor) :
  length d = system_x_dim -> in_box system_u_lo system_u_up u ->
  min_u_Vdot system_u_dim system_u_lo system_u_up system_f system_G d x
  <= dot d (xdot u).
Proof.
  intros Hd [Hu1 Hu2]. rewrite dot_xdot by assumption. unfold min_u_Vdot.
  pose proof (box_linear_lower_bound
                (vecmat system_u_dim d (system_G x))
                system_u_lo system_u_up u) as H.
  rewrite vecmat_length in H by assumption.
  specialize (H ltac:(apply vle_length in Hu1; lia) Hu1 Hu2). lra.
Qed.

Lemma min_u_Vdot_attained (d : tensor) :
  length d = system_x_dim ->
  exists u, in_box system_u_lo system_u_up u /\
    dot d (xdot u) ==
    min_u_Vdot system_u_dim system_u_lo system_u_up system_f system_G d x.
Proof.
  intros Hd.
  destruct (box_linear_minimiser
              (vecmat system_u_dim d (system_G x)) system_u_lo system_u_up)
    as (u & Hu & E).
  - rewrite vecmat_length by assumption. lia.
  - exact Hbox.
  - exists u. split; [exact Hu|]. rewrite dot_xdot by assumption.
    unfold min_u_Vdot. rewrite E. ring.
Qed.

End MinOverControls.

Lemma dV_dx_length (n : nat) (p : tensor) (V_lambda : Q) (s : tensor)
      (R : matrix) :
  length p = n -> Forall (fun row => length row = n) R ->
  length (dV_dx n p V_lambda s R) = n.
Proof.
  intros Hp HR. unfold dV_dx, vadd, vscale.
  rewrite zipWith_length, length_map, signed_rows_sum_vecmat, vecmat_length
    by assumption.
  lia.
Qed.

(** [lyapunov_derivative] computes "min_u Vdot + eps*V subject to
    u_lo <= u <= u_up": for tensors of the documented shapes and
    [u_lo <= u_up], the value it returns is a lower bound of
    [dVdx @ (f(x) + G(x) u) + eps*V(x)] for every gradient
    [dVdx = p + lambda * sum_i s_i R[i, :]] of [V] at [x] ([p] a gradient
    of the network, [s] a row of signs that [utils.l1_gradient] returns
    for [R (x - x_equilibrium)]) and every control [u] within the input
    bounds, and it is attained by one such triple. *)
Theorem lyapunov_derivative_is_min_over_controls
        (system_x_dim system_u_dim : nat) (system_u_lo system_u_up : tensor)
        (system_f : tensor -> tensor) (system_G : tensor -> matrix)
        (relu_network_gradient l1_gradient : tensor -> matrix)
        (lyapunov_value : tensor -> tensor -> Q -> matrix -> Q)
        (x x_equilibrium : tensor) (V_lambda epsilon : Q) (R : option matrix) :
  let R' := _get_R R system_x_dim in
  let P := relu_network_gradient x in
  let S := l1_gradient (matvec R' (vsub x x_equilibrium)) in
  let V := lyapunov_value x x_equilibrium V_lambda R' in
  let Vdot p s u :=
    dot (dV_dx system_x_dim p V_lambda s R')
        (vadd (system_f x) (matvec (system_G x) u)) in
  length x = system_x_dim ->
  length x_equilibrium = system_x_dim ->
  Forall (fun row => length row = system_x_dim) R' ->
  P <> [] -> Forall (fun p => length p = system_x_dim) P ->
  S <> [] -> Forall (fun s => length s = length R') S ->
  length (system_f x) = system_x_dim ->
  length (system_G x) = system_x_dim ->
  Forall (fun row => length row = system_u_dim) (system_G x) ->
  length system_u_lo = system_u_dim ->
  vle system_u_lo system_u_up ->
  exists v,
    lyapunov_derivative system_x_dim system_u_dim system_u_lo system_u_up
                        system_f system_G relu_network_gradient l1_gradient
                        lyapunov_value x x_equilibrium V_lambda epsilon R
    = inr v /\
    (forall p s u, In p P -> In s S -> in_box system_u_lo system_u_up u ->
                   v <= Vdot p s u + epsilon * V) /\
    (exists p s u, In p P /\ In s S /\ in_box system_u_lo system_u_up u /\
                   v == Vdot p s u + epsilon * V).
Proof.
  intros R' P S V Vdot Hx Hxe HR HP HPn HS _ Hf HG HGr Hlo Hbox.
  set (closed_form := fun d =>
         min_u_Vdot system_u_dim system_u_lo system_u_up system_f system_G d x).
  assert (Hlen : forall p s, In p P ->
            length (dV_dx system_x_dim p V_lambda s R') = system_x_dim).
  { intros p s Hp. apply dV_dx_length; [|exact HR].
    rewrite Forall_forall in HPn. apply HPn. exact Hp. }
  rewrite lyapunov_derivative_runs by assumption.
  fold R'. fold P. fold S. fold closed_form. fold V.
  destruct (tensor_min_over_gradient_sums closed_form system_x_dim P S
              V_lambda R') as (d & rest & -> & Hle & p & s & Hp & Hs & E);
    try assumption.
  { intros d d' Hd. apply min_u_Vdot_veq. exact Hd. }
  exists (tensor_min d rest + epsilon * V). split; [reflexivity|]. split.
  - intros p' s' u Hp' Hs' Hu.
    pose proof (Hle p' s' Hp' Hs') as H1.
    pose proof (min_u_Vdot_lower_bound system_x_dim system_u_dim
                  system_u_lo system_u_up system_f system_G x Hf HG HGr
                  Hlo (dV_dx system_x_dim p' V_lambda s' R') u
                  (Hlen p' s' Hp') Hu) as H2.
    cbv beta zeta in H2. unfold closed_form in H1. unfold Vdot. lra.
  - destruct (min_u_Vdot_attained system_x_dim system_u_dim
                system_u_lo system_u_up system_f system_G x Hf HG HGr Hlo
                Hbox (dV_dx system_x_dim p V_lambda s R') (Hlen p s Hp))
      as (u & Hu & Eu).
    exists p, s, u. repeat (split; [assumption|]).
    cbv beta zeta in Eu. rewrite E. unfold Vdot, closed_form. rewrite Eu.
    reflexivity.
Qed.

(** The scalar system [xdot = -x + u], [-1 <= u <= 1], with
    [V(x) = relu(x) + |x|], at the kink [x = 0]. *)
Lemma lyapunov_derivative_is_min_over_controls_witness :
  let f := fun x : tensor => vneg x in
  let G := fun _ : tensor => [[1]] in
  let P := relu_unit_gradient [0] in
  let S := l1_gradient (matvec (_get_R None 1) (vsub [0] [0])) in
  let V := relu_unit_value [0] [0] 1 (_get_R None 1) in
  let Vdot p s u :=
    dot (dV_dx 1 p 1 s (_get_R None 1)) (vadd (f [0]) (matvec (G [0]) u)) in
  exists v,
    lyapunov_derivative 1 1 [-(1)] [1] f G relu_unit_gradient l1_gradient
                        relu_unit_value [0] [0] 1 (1#2) None = inr v /\
    (forall p s u, In p P -> In s S -> in_box [-(1)] [1] u ->
                   v <= Vdot p s u + (1#2) * V) /\
    (exists p s u, In p P /\ In s S /\ in_box [-(1)] [1] u /\
                   v == Vdot p s u + (1#2) * V).
Proof.
  intros f G P S V Vdot.
  apply (lyapunov_derivative_is_min_over_controls
           1 1 [-(1)] [1] f G relu_unit_gradient l1_gradient relu_unit_value
           [0] [0] 1 (1#2) None).
  - reflexivity.
  - reflexivity.
  - repeat constructor.
  - discriminate.
  - vm_compute. repeat constructor.
  - discriminate.
  - vm_compute. repeat constructor.
  - reflexivity.
  - reflexivity.
  - repeat constructor.
  - reflexivity.
  - constructor; [lra | constructor].
Defined.

(** ** The bounds that [add_system_constraint] sets on the state variables *)

Lemma set_bounds_of_x_vars (lo up : tensor) (x : list var) (i : nat)
      (m m' : GurobiTorchMIP) :
  set_bounds_of_x lo up x i m = Ok tt m' ->
  constrs m' = constrs m /\
  exists g, nth_error x i = Some (nth i x O) /\
    nth_error (vars m) (nth i x O) = Some g /\
    forall j, nth_error (vars m') j =
              if Nat.eqb j (nth i x O)
              then Some (tightened (nth i lo 0) (nth i up 0) g)
              else nth_error (vars m) j.
Proof.
  unfold set_bounds_of_x. intros H.
  apply bind_Ok_inv in H. destruct H as (xi & m0 & Hxi & H).
  unfold getitem in Hxi. destruct (nth_error x i) as [xi'|] eqn:Ei;
    [|discriminate]. injection Hxi as -> <-.
  assert (Exi : nth i x O = xi).
  { apply nth_error_nth with (d := O) in Ei. exact Ei. }
  rewrite Exi.
  apply bind_Ok_inv in H. destruct H as (g & m1 & Hg & H).
  unfold get_var in Hg. destruct (nth_error (vars m) xi) as [g0|] eqn:Eg;
    [|discriminate]. injection Hg as -> <-.
  apply bind_Ok_inv in H. destruct H as ([] & m2 & H1 & H).
  apply bind_Ok_inv in H. destruct H as (g' & m3 & Hg' & H2).
  unfold get_var in Hg'. destruct (nth_error (vars m2) xi) as [g1|] eqn:Eg1;
    [|discriminate]. injection Hg' as -> <-.
  assert (S1 : constrs m2 = constrs m /\
               g' = mkVar (if lb_lt (lb g) (nth i lo 0)
                           then Some (nth i lo 0) else lb g)
                          (ub g) (vtype g) /\
               forall j, nth_error (vars m2) j =
                         if Nat.eqb j xi then Some g'
                         else nth_error (vars m) j).
  { destruct (lb_lt (lb g) (nth i lo 0)).
    - injection H1 as <-. cbn [vars constrs] in *.
      rewrite nth_error_update_nth, Nat.eqb_refl, Eg in Eg1.
      injection Eg1 as <-. split; [reflexivity|]. split; [reflexivity|].
      intros j. rewrite nth_error_update_nth.
      destruct (Nat.eqb j xi) eqn:Ej; [|reflexivity].
      apply Nat.eqb_eq in Ej. subst j. rewrite Eg. reflexivity.
    - injection H1 as <-. rewrite Eg in Eg1. injection Eg1 as <-.
      split; [reflexivity|]. split; [destruct g; reflexivity|].
      intros j. destruct (Nat.eqb j xi) eqn:Ej; [|reflexivity].
      apply Nat.eqb_eq in Ej. subst j. exact Eg. }
  destruct S1 as (C1 & Eg' & V1).
  assert (Eub : ub g' = ub g) by (rewrite Eg'; reflexivity).
  assert (Et : tightened (nth i lo 0) (nth i up 0) g =
               mkVar (lb g') (if ub_gt (ub g') (nth i up 0)
                              then Some (nth i up 0) else ub g') (vtype g')).
  { rewrite Eub. rewrite Eg'. reflexivity. }
  split.
  - destruct (ub_gt (ub g') (nth i up 0)); injection H2 as <-;
      cbn [constrs]; exact C1.
  - exists g. split; [reflexivity|]. split; [reflexivity|]. intros j.
    rewrite Et. destruct (ub_gt (ub g') (nth i up 0)).
    + injection H2 as <-. cbn [vars]. rewrite nth_error_update_nth, V1.
      destruct (Nat.eqb j xi); reflexivity.
    + injection H2 as <-. rewrite V1.
      destruct (Nat.eqb j xi); [destruct g'; reflexivity | reflexivity].
Qed.

Lemma set_bounds_loop_vars (lo up : tensor) (x : list var) (l : list nat)
      (m m' : GurobiTorchMIP) :
  NoDup x -> NoDup l ->
  for_each l (set_bounds_of_x lo up x) m = Ok tt m' ->
  constrs m' = constrs m /\
  (forall i, In i l -> (i < length x)%nat) /\
  (forall i, In i l ->
     exists g, nth_error (vars m) (nth i x O) = Some g /\
               nth_error (vars m') (nth i x O)
               = Some (tightened (nth i lo 0) (nth i up 0) g)) /\
  (forall j, (forall i, In i l -> nth i x O <> j) ->
             nth_error (vars m') j = nth_error (vars m) j).
Proof.
  intros Hx Hl. revert m. induction l as [|i l IH]; intros m H; simpl in H.
  - injection H as <-. split; [reflexivity|]. split; [intros i []|].
    split; [intros i []|]. reflexivity.
  - apply bind_Ok_inv in H. destruct H as ([] & m1 & H1 & H2).
    inversion Hl as [|? ? Hnotin Hl']; subst.
    destruct (IH Hl' m1 H2) as (C & Hlt & Hin & Hout).
    destruct (set_bounds_of_x_vars lo up x i m m1 H1)
      as (C1 & g & Exi & Eg & V1).
    assert (Hi : (i < length x)%nat)
      by (apply nth_error_Some; rewrite Exi; discriminate).
    assert (Hne : forall i', In i' l -> nth i' x O <> nth i x O).
    { intros i' Hi' E. apply (NoDup_nth x O) in E; auto.
      subst i'. contradiction. }
    split; [congruence|]. split; [|split].
    + intros i' [<-|Hi']; auto.
    + intros i' [<-|Hi'].
      * exists g. split; [exact Eg|].
        rewrite Hout by (intros i' Hi'; apply Hne; exact Hi').
        rewrite V1, Nat.eqb_refl. reflexivity.
      * destruct (Hin i' Hi') as (g1 & E1 & E2). exists g1.
        split; [|exact E2]. rewrite V1 in E1.
        replace (Nat.eqb (nth i' x O) (nth i x O)) with false in E1
          by (symmetry; apply Nat.eqb_neq; apply Hne; exact Hi').
        exact E1.
    + intros j Hj. rewrite Hout by (intros i' Hi'; apply Hj; right; exact Hi').
      rewrite V1.
      replace (Nat.eqb j (nth i x O)) with false; [reflexivity|].
      symmetry. apply Nat.eqb_neq. intros ->. apply (Hj i); [left|]; reflexivity.
Qed.

(** [add_mixed_integer_linear_constraints] and the loop over the columns of
    [G] create variables and add constraints; they leave the variables that
    exist alone. *)
Lemma add_mixed_integer_linear_constraints_vars
      (bnd : MixedIntegerConstraintsReturn) (input : list var)
      (out : option (list var)) (t : VType) (m : GurobiTorchMIP) :
  exists r m' vs,
    add_mixed_integer_linear_constraints bnd input out t m = Ok r m' /\
    vars m' = vars m ++ vs.
Proof.
  unfold add_mixed_integer_linear_constraints, bind, addVars, addMConstrs,
    add_constrs, ret.
  destruct out; eexists _, _, _; (split; [reflexivity|]); simpl;
    rewrite <- app_assoc; reflexivity.
Qed.

Lemma for_fold_G_vars (x : list var) (G : list (list var))
      (cnstr_G : list MixedIntegerConstraintsReturn) (t : VType)
      (l : list nat) (sb : list var * list var) (m : GurobiTorchMIP) :
  (forall i, In i l -> (i < length G)%nat /\ (i < length cnstr_G)%nat) ->
  exists r m' vs,
    for_fold l sb (add_G_column x G cnstr_G t) m = Ok r m' /\
    vars m' = vars m ++ vs.
Proof.
  revert sb m. induction l as [|i l IH]; intros sb m Hl; simpl.
  - exists sb, m, []. split; [reflexivity|]. rewrite app_nil_r. reflexivity.
  - destruct (Hl i (or_introl eq_refl)) as [HG Hc].
    destruct (nth_error cnstr_G i) as [c|] eqn:Ec;
      [|apply nth_error_None in Ec; lia].
    destruct (nth_error G i) as [Gi|] eqn:EG;
      [|apply nth_error_None in EG; lia].
    destruct (add_mixed_integer_linear_constraints_vars c x (Some Gi) t m)
      as ([s b] & m1 & vs1 & R1 & V1).
    destruct (IH (fst sb ++ s, snd sb ++ b) m1
                 (fun j Hj => Hl j (or_intror Hj)))
      as (r & m' & vs & R & V).
    exists r, m', (vs1 ++ vs). split.
    + unfold add_G_column at 1.
      unfold bind at 1. unfold bind at 1, getitem at 1. rewrite Ec.
      unfold bind at 1, getitem at 1. rewrite EG.
      unfold bind at 1. rewrite R1. exact R.
    + rewrite V, V1, app_assoc. reflexivity.
Qed.

Lemma set_bounds_loop_runs (lo up : tensor) (x : list var) (l : list nat)
      (m : GurobiTorchMIP) :
  vars_wf (nvars m) x -> (forall i, In i l -> (i < length x)%nat) ->
  exists m', for_each l (set_bounds_of_x lo up x) m = Ok tt m' /\
             nvars m' = nvars m.
Proof.
  revert m. induction l as [|i l IH]; intros m Hw Hl; simpl.
  - exists m. split; reflexivity.
  - destruct (set_bounds_of_x_spec lo up x i m (Hl i (or_introl eq_refl)) Hw)
      as (m1 & R1 & N1 & _).
    destruct (IH m1) as (m' & R & N).
    + rewrite N1. exact Hw.
    + intros j Hj. apply Hl. right. exact Hj.
    + exists m'. split; [|congruence].
      rewrite (bind_Ok _ _ _ _ _ R1). exact R.
Qed.

Lemma nth_error_app_Some {A} (l vs : list A) (j : nat) (g : A) :
  nth_error l j = Some g -> nth_error (l ++ vs) j = Some g.
Proof.
  intros H. rewrite nth_error_app1; [exact H|].
  apply nth_error_Some. rewrite H. discriminate.
Qed.

(** [add_system_constraint] changes the caller's state variables: on
    arguments of the documented shapes ([len(f) = x_dim], [len(G) = u_dim],
    [len(G[i]) = x_dim], a box of dimension [x_dim]) it succeeds, and afterwards the variable [x[i]]
    has the lower bound [max(lb, x_lo[i])] and the upper bound
    [min(ub, x_up[i])] -- a bound is replaced only when the box is tighter,
    never loosened -- and its type; every variable of the model that is not
    among [x] is as it was, and no variable is removed. *)
Theorem add_system_constraint_tightens_bounds
        (x_dim u_dim : nat) (x_lo x_up : tensor)
        (cnstr_f : MixedIntegerConstraintsReturn)
        (cnstr_G : list MixedIntegerConstraintsReturn)
        (x f : list var) (G : list (list var)) (t : VType)
        (m : GurobiTorchMIP) :
  length f = x_dim -> length G = u_dim -> length cnstr_G = u_dim ->
  Forall (fun Gi => length Gi = x_dim) G ->
  length x_lo = x_dim -> length x_up = x_dim ->
  length x = x_dim -> NoDup x -> vars_wf (nvars m) x ->
  exists r m',
    add_system_constraint x_dim u_dim x_lo x_up (cnstr_f, cnstr_G) x f G t m
    = Ok r m' /\
    (nvars m <= nvars m')%nat /\
    (forall i, (i < x_dim)%nat ->
       exists g, nth_error (vars m) (nth i x O) = Some g /\
                 nth_error (vars m') (nth i x O)
                 = Some (tightened (nth i x_lo 0) (nth i x_up 0) g)) /\
    (forall j g, ~ In j x -> nth_error (vars m) j = Some g ->
                 nth_error (vars m') j = Some g).
Proof.
  intros Hf HG Hc _ _ _ Hx Hnd Hw.
  set (m1 := mip_add_constrs m
               (map (mrow [eye x_dim] [x] LESS_EQUAL)
                    (combine (seq 0 (length x_up)) x_up))).
  set (m2 := mip_add_constrs m1
               (map (mrow [eye x_dim] [x] GREATER_EQUAL)
                    (combine (seq 0 (length x_lo)) x_lo))).
  destruct (set_bounds_loop_runs x_lo x_up x (seq 0 x_dim) m2 Hw)
    as (m3 & R3 & N3).
  { intros i Hi. apply in_seq in Hi. lia. }
  destruct (set_bounds_loop_vars x_lo x_up x (seq 0 x_dim) m2 m3 Hnd
              (seq_NoDup _ _) R3) as (_ & _ & Hin & Hout).
  destruct (add_mixed_integer_linear_constraints_vars cnstr_f x (Some f) t m3)
    as (sb & m4 & vs4 & R4 & V4).
  destruct (for_fold_G_vars x G cnstr_G t (seq 0 u_dim) sb m4)
    as (sb' & m5 & vs5 & R5 & V5).
  { intros i Hi. apply in_seq in Hi. lia. }
  exists (mkSystemConstraintReturn (fst sb') (snd sb') cnstr_f cnstr_G), m5.
  assert (V : vars m5 = vars m3 ++ (vs4 ++ vs5))
    by (rewrite V5, V4, <- app_assoc; reflexivity).
  split; [|split; [|split]].
  - unfold add_system_constraint.
    rewrite Hf, HG, !Nat.eqb_refl. cbn [assert_].
    rewrite (bind_Ok (ret tt) _ m m tt eq_refl).
    rewrite (bind_Ok (ret tt) _ m m tt eq_refl).
    rewrite (bind_Ok (addMConstrs _ _ _ _) _ m m1 tt eq_refl).
    rewrite (bind_Ok (addMConstrs _ _ _ _) _ m1 m2 tt eq_refl).
    rewrite (bind_Ok _ _ _ _ _ R3).
    rewrite (bind_Ok _ _ _ _ _ R4).
    rewrite (bind_Ok _ _ _ _ _ R5). reflexivity.
  - unfold nvars in *. rewrite V, length_app.
    change (vars m2) with (vars m) in N3. lia.
  - intros i Hi. destruct (Hin i) as (g & E1 & E2); [apply in_seq; lia|].
    exists g. split; [exact E1|]. rewrite V.
    apply nth_error_app_Some. exact E2.
  - intros j g Hj Eg. rewrite V. apply nth_error_app_Some.
    rewrite Hout; [exact Eg|].
    intros i Hi E. apply Hj. rewrite <- E. apply nth_In.
    apply in_seq in Hi. lia.
Qed.

(** The system [xdot = 2 x + u] on the box [[-1, 1]]; the state variable
    comes with the bounds [[-3, 1/2]] and leaves with [[-1, 1/2]]. *)
Lemma add_system_constraint_tightens_bounds_witness :
  let m := mip_add_vars empty_mip
             (mkVar (Some (-(3))) (Some (1#2)) CONTINUOUS
              :: repeat (mkVar None None CONTINUOUS) 2) in
  exists r m',
    add_system_constraint 1 1 [-(1)] [1]
      (affine_bundle (Some [[2]]) [0], [affine_bundle None [1]])
      [O] [1%nat] [[2%nat]] BINARY m
    = Ok r m' /\
    (nvars m <= nvars m')%nat /\
    (forall i, (i < 1)%nat ->
       exists g, nth_error (vars m) (nth i [O] O) = Some g /\
                 nth_error (vars m') (nth i [O] O)
                 = Some (tightened (nth i [-(1)] 0) (nth i [1] 0) g)) /\
    (forall j g, ~ In j [O] -> nth_error (vars m) j = Some g ->
                 nth_error (vars m') j = Some g).
Proof.
  intros m.
  apply (add_system_constraint_tightens_bounds 1 1 [-(1)] [1]
           (affine_bundle (Some [[2]]) [0]) [affine_bundle None [1]]
           [O] [1%nat] [[2%nat]] BINARY m).
  - reflexivity.
  - reflexivity.
  - reflexivity.
  - constructor; [reflexivity|constructor].
  - reflexivity.
  - reflexivity.
  - reflexivity.
  - constructor; [intros []|constructor].
  - apply (vars_wf_seq 0 1 3). simpl. lia.
Defined.

(** ** [SamplesBuffer] *)

Lemma cat0_inr (a b : Tensor2d) :
  ncols b = ncols a ->
  cat0 a b = inr (mkTensor2d (ncols a) (trows a ++ trows b)).
Proof. intros H. unfold cat0. rewrite H, Nat.eqb_refl. reflexivity. Qed.

Lemma skipn_combine {A B} (k : nat) (l : list A) (l' : list B) :
  skipn k (combine l l') = combine (skipn k l) (skipn k l').
Proof.
  revert l l'. induction k as [|k IH]; intros [|a l] [|b l']; simpl;
    try reflexivity.
  - destruct (skipn k l); reflexivity.
  - apply IH.
Qed.

Lemma combine_app {A B} (l1 l2 : list A) (l1' l2' : list B) :
  length l1 = length l1' ->
  combine (l1 ++ l2) (l1' ++ l2') = combine l1 l1' ++ combine l2 l2'.
Proof.
  revert l1'. induction l1 as [|a l1 IH]; intros [|b l1'] H; simpl in *;
    try discriminate; [reflexivity|].
  rewrite IH by lia. reflexivity.
Qed.

(** The number of old rows that [add_samples] drops:
    [num_extra = max_size - num_new_samples] when the buffer would
    overflow, none otherwise. *)
Lemma add_samples_runs (self : SamplesBuffer) (new_x new_v : Tensor2d) :
  shape0 new_x = shape0 new_v ->
  (forall size, max_size self = Some size -> (shape0 new_x <= size)%nat) ->
  ncols new_x = ncols (x_samples self) ->
  ncols new_v = ncols (v_labels self) ->
  exists k,
    k = match max_size self with
        | Some size =>
            if Nat.ltb size (num_samples self + shape0 new_x)
            then (size - shape0 new_x)%nat else O
        | None => O
        end /\
    add_samples self new_x new_v =
    inr (mkSamplesBuffer (samples_dim self) (max_size self)
           (mkTensor2d (ncols (x_samples self))
                       (skipn k (trows (x_samples self)) ++ trows new_x))
           (mkTensor2d (ncols (v_labels self))
                       (skipn k (trows (v_labels self)) ++ trows new_v))
           (current_sample self)).
Proof.
  intros Hn Hmax Hcx Hcv. eexists. split; [reflexivity|].
  unfold add_samples. rewrite Hn, Nat.eqb_refl. cbn [negb].
  destruct (max_size self) as [size|] eqn:Em.
  - specialize (Hmax size eq_refl). rewrite <- Hn.
    replace (Nat.leb (shape0 new_x) size) with true
      by (symmetry; apply Nat.leb_le; exact Hmax).
    cbn [negb].
    destruct (Nat.ltb size (num_samples self + shape0 new_x)).
    + rewrite !cat0_inr by assumption. reflexivity.
    + rewrite !cat0_inr by assumption.
      destruct (x_samples self), (v_labels self). reflexivity.
  - rewrite !cat0_inr by assumption.
    destruct (x_samples self), (v_labels self). reflexivity.
Qed.

(** [add_samples] puts the new samples and labels behind the ones it
    keeps, and it keeps a tail of the old ones: a sample and its label are
    never separated, the newest pairs are the last rows, and the buffer
    stays aligned.  It raises only on the two asserted conditions or on
    tensors of another width. *)
Theorem add_samples_keeps_pairs (self : SamplesBuffer)
        (new_x new_v : Tensor2d) :
  shape0 new_x = shape0 new_v ->
  (forall size, max_size self = Some size -> (shape0 new_x <= size)%nat) ->
  ncols new_x = ncols (x_samples self) ->
  ncols new_v = ncols (v_labels self) ->
  shape0 (x_samples self) = shape0 (v_labels self) ->
  exists self' k,
    add_samples self new_x new_v = inr self' /\
    combine (trows (x_samples self')) (trows (v_labels self')) =
    skipn k (combine (trows (x_samples self)) (trows (v_labels self)))
    ++ combine (trows new_x) (trows new_v) /\
    shape0 (x_samples self') = shape0 (v_labels self') /\
    (max_size self = None -> k = O) /\
    ncols (x_samples self') = ncols (x_samples self) /\
    ncols (v_labels self') = ncols (v_labels self) /\
    current_sample self' = current_sample self /\
    max_size self' = max_size self.
Proof.
  intros Hn Hmax Hcx Hcv Hal.
  destruct (add_samples_runs self new_x new_v Hn Hmax Hcx Hcv)
    as (k & Ek & Hrun).
  eexists _, k. split; [exact Hrun|]. cbn [x_samples v_labels trows ncols
    current_sample max_size].
  unfold shape0 in *. cbn [trows].
  split; [|split; [|split]].
  - rewrite skipn_combine. apply combine_app.
    rewrite !length_skipn. lia.
  - rewrite !length_app, !length_skipn. lia.
  - intros E. rewrite E in Ek. exact Ek.
  - repeat split.
Qed.

(** A buffer of width 1 and [max_size = 3] that holds two pairs takes two
    more: the oldest pair is dropped. *)
Lemma add_samples_keeps_pairs_witness :
  let self := mkSamplesBuffer 1 (Some 3%nat) (mkTensor2d 1 [[1]; [2]])
                              (mkTensor2d 1 [[10]; [20]]) 0 in
  let new_x := mkTensor2d 1 [[3]; [4]] in
  let new_v := mkTensor2d 1 [[30]; [40]] in
  exists self' k,
    add_samples self new_x new_v = inr self' /\
    combine (trows (x_samples self')) (trows (v_labels self')) =
    skipn k (combine (trows (x_samples self)) (trows (v_labels self)))
    ++ combine (trows new_x) (trows new_v) /\
    shape0 (x_samples self') = shape0 (v_labels self') /\
    (max_size self = None -> k = O) /\
    ncols (x_samples self') = ncols (x_samples self) /\
    ncols (v_labels self') = ncols (v_labels self) /\
    current_sample self' = current_sample self /\
    max_size self' = max_size self.
Proof.
  intros self new_x new_v.
  apply (add_samples_keeps_pairs self new_x new_v).
  - reflexivity.
  - intros size [= <-]. unfold new_x, shape0. simpl. lia.
  - reflexivity.
  - reflexivity.
  - reflexivity.
Defined.

Lemma add_samples_inr_inv (self self' : SamplesBuffer)
      (new_x new_v : Tensor2d) :
  add_samples self new_x new_v = inr self' ->
  shape0 new_x = shape0 new_v /\
  (forall size, max_size self = Some size -> (shape0 new_x <= size)%nat) /\
  ncols new_x = ncols (x_samples self) /\
  ncols new_v = ncols (v_labels self).
Proof.
  unfold add_samples.
  destruct (Nat.eqb (shape0 new_x) (shape0 new_v)) eqn:En; [|discriminate].
  apply Nat.eqb_eq in En. cbn [negb].
  assert (Hcat : forall a b c, cat0 a b = inr c -> ncols b = ncols a).
  { intros a b c. unfold cat0. destruct (Nat.eqb (ncols a) (ncols b)) eqn:E;
      [|discriminate]. apply Nat.eqb_eq in E. auto. }
  destruct (max_size self) as [size|].
  - destruct (Nat.leb (shape0 new_x) size) eqn:El; [|discriminate].
    apply Nat.leb_le in El. cbn [negb].
    destruct (Nat.ltb size (num_samples self + shape0 new_x));
      destruct (cat0 _ new_x) as [e|xs'] eqn:Ex; try discriminate;
      destruct (cat0 _ new_v) as [e|vs'] eqn:Ev; try discriminate;
      intros _; apply Hcat in Ex; apply Hcat in Ev;
      (split; [exact En|]); (split; [intros s [= <-]; exact El|]);
      split; assumption.
  - destruct (cat0 _ new_x) as [e|xs'] eqn:Ex; try discriminate.
    destruct (cat0 _ new_v) as [e|vs'] eqn:Ev; try discriminate.
    intros _. apply Hcat in Ex. apply Hcat in Ev.
    split; [exact En|]. split; [intros s E; discriminate E|].
    split; assumption.
Qed.

(** [max_size] is not a bound on the buffer: after [add_samples] has put
    [k] new samples into a buffer of [n] samples, the buffer holds
    [n + 2k - max_size] samples if it would have overflown and [n + k]
    otherwise, so that it is within [max_size] exactly when
    [n + 2k <= 2 max_size].  On overflow the code drops
    [max_size - k] old samples, not [n + k - max_size]. *)
Theorem add_samples_capacity (self self' : SamplesBuffer)
        (new_x new_v : Tensor2d) (size : nat) :
  add_samples self new_x new_v = inr self' ->
  max_size self = Some size ->
  let n := num_samples self in
  let k := shape0 new_x in
  num_samples self' =
    (if Nat.ltb size (n + k) then n + 2 * k - size else n + k)%nat /\
  ((num_samples self' <= size)%nat <-> (n + 2 * k <= 2 * size)%nat).
Proof.
  intros Hrun Hmax n k.
  destruct (add_samples_inr_inv self self' new_x new_v Hrun)
    as (Hn & Hle & Hcx & Hcv).
  specialize (Hle size Hmax). fold k in Hle.
  destruct (add_samples_runs self new_x new_v Hn
              (fun s E => eq_ind size (fun s => (shape0 new_x <= s)%nat) Hle s
                            (f_equal (fun o => match o with
                                               | Some s' => s' | None => size
                                               end)
                                     (eq_trans (eq_sym Hmax) E)))
              Hcx Hcv) as (kk & Ek & Hrun').
  rewrite Hrun in Hrun'. injection Hrun' as ->.
  rewrite Hmax in Ek. subst n k.
  unfold num_samples, shape0 in *. cbn [x_samples trows].
  rewrite length_app, length_skipn.
  destruct (Nat.ltb size _) eqn:El.
  - apply Nat.ltb_lt in El. subst kk. split; lia.
  - apply Nat.ltb_ge in El. subst kk. split; lia.
Qed.

(** A full buffer with [max_size = 2] takes two more samples and holds
    four. *)
Lemma add_samples_capacity_witness :
  let self := mkSamplesBuffer 1 (Some 2%nat) (mkTensor2d 1 [[1]; [2]])
                              (mkTensor2d 1 [[10]; [20]]) 0 in
  let new_x := mkTensor2d 1 [[3]; [4]] in
  let self' := mkSamplesBuffer 1 (Some 2%nat)
                 (mkTensor2d 1 [[1]; [2]; [3]; [4]])
                 (mkTensor2d 1 [[10]; [20]; [30]; [40]]) 0 in
  num_samples self' =
    (if Nat.ltb 2 (num_samples self + shape0 new_x)
     then num_samples self + 2 * shape0 new_x - 2
     else num_samples self + shape0 new_x)%nat /\
  ((num_samples self' <= 2)%nat <->
   (num_samples self + 2 * shape0 new_x <= 2 * 2)%nat).
Proof.
  intros self new_x self'.
  apply (add_samples_capacity self self' new_x
           (mkTensor2d 1 [[30]; [40]]) 2).
  - reflexivity.
  - reflexivity.
Defined.

Lemma np_mod_lt (n i : nat) : (0 < n)%nat -> (np_mod n i < n)%nat.
Proof.
  intros Hn. unfold np_mod.
  replace (Nat.eqb n 0) with false by (symmetry; apply Nat.eqb_neq; lia).
  apply Nat.mod_upper_bound. lia.
Qed.

Lemma np_mod_eq (n i : nat) : (0 < n)%nat -> np_mod n i = Nat.modulo i n.
Proof.
  intros Hn. unfold np_mod.
  replace (Nat.eqb n 0) with false by (symmetry; apply Nat.eqb_neq; lia).
  reflexivity.
Qed.

Lemma get_next_sample_indices_runs (self : SamplesBuffer) (k : nat) :
  get_next_sample_indices self (S k) =
  inr (map (np_mod (num_samples self)) (seq (current_sample self) (S k)),
       mkSamplesBuffer (samples_dim self) (max_size self) (x_samples self)
         (v_labels self)
         (S (np_mod (num_samples self) (current_sample self + k)))).
Proof.
  unfold get_next_sample_indices.
  rewrite seq_S, map_app, rev_app_distr. reflexivity.
Qed.

(** [get_next_sample_indices] on a buffer that is not empty, for at least
    one index: it gives the [num_indices] consecutive indices
    [(current_sample + j) % num_samples], all of them indices of the
    buffer, leaves the samples alone and moves [current_sample] to one past
    the last index given, a value between 1 and [num_samples]. *)
Theorem get_next_sample_indices_in_range (self : SamplesBuffer)
        (num_indices : nat) :
  let n := num_samples self in
  (0 < n)%nat -> (0 < num_indices)%nat ->
  exists indices self',
    get_next_sample_indices self num_indices = inr (indices, self') /\
    length indices = num_indices /\
    (forall j, (j < num_indices)%nat ->
       nth j indices O = Nat.modulo (current_sample self + j) n) /\
    Forall (fun i => (i < n)%nat) indices /\
    current_sample self' =
      S (Nat.modulo (current_sample self + num_indices - 1) n) /\
    (1 <= current_sample self' <= n)%nat /\
    x_samples self' = x_samples self /\ v_labels self' = v_labels self.
Proof.
  intros n Hn Hk. destruct num_indices as [|k]; [lia|].
  eexists _, _. split; [apply get_next_sample_indices_runs|].
  cbn [current_sample x_samples v_labels]. fold n.
  split; [rewrite length_map, length_seq; reflexivity|].
  split; [|split; [|split; [|split]]].
  - intros j Hj.
    rewrite (nth_indep _ O (np_mod n O)) by (rewrite length_map, length_seq; lia).
    rewrite map_nth, seq_nth by lia. apply np_mod_eq. exact Hn.
  - apply Forall_forall. intros i Hi. apply in_map_iff in Hi.
    destruct Hi as (j & <- & _). apply np_mod_lt. exact Hn.
  - rewrite np_mod_eq by exact Hn. f_equal. f_equal. lia.
  - pose proof (np_mod_lt n (current_sample self + k) Hn). lia.
  - split; reflexivity.
Qed.

(** A buffer of three samples with [current_sample = 2] gives the indices
    2, 0, 1, 2. *)
Lemma get_next_sample_indices_in_range_witness :
  let self := mkSamplesBuffer 1 None (mkTensor2d 1 [[1]; [2]; [3]])
                              (mkTensor2d 1 [[10]; [20]; [30]]) 2 in
  exists indices self',
    get_next_sample_indices self 4 = inr (indices, self') /\
    length indices = 4%nat /\
    (forall j, (j < 4)%nat ->
       nth j indices O = Nat.modulo (current_sample self + j) (num_samples self)) /\
    Forall (fun i => (i < num_samples self)%nat) indices /\
    current_sample self' =
      S (Nat.modulo (current_sample self + 4 - 1) (num_samples self)) /\
    (1 <= current_sample self' <= num_samples self)%nat /\
    x_samples self' = x_samples self /\ v_labels self' = v_labels self.
Proof.
  intros self.
  apply (get_next_sample_indices_in_range self 4).
  - unfold self, num_samples, shape0. simpl. lia.
  - lia.
Defined.

Lemma seq_as_map (s k : nat) : seq s k = map (fun j => (s + j)%nat) (seq 0 k).
Proof.
  revert s. induction k as [|k IH]; intros s; simpl; [reflexivity|].
  rewrite Nat.add_0_r. f_equal. rewrite (IH (S s)), <- seq_shift, map_map.
  apply map_ext. intros j. lia.
Qed.

Lemma np_mod_succ_shift (n c j : nat) :
  (0 < n)%nat -> np_mod n (S (np_mod n c) + j) = np_mod n (S c + j).
Proof.
  intros Hn. rewrite !np_mod_eq by exact Hn.
  replace (S (c mod n) + j)%nat with (c mod n + (1 + j))%nat by lia.
  replace (S c + j)%nat with (c + (1 + j))%nat by lia.
  apply Nat.Div0.add_mod_idemp_l.
Qed.



Lemma index_rows_in_range (indices : list nat) (t : Tensor2d) :
  Forall (fun i => (i < shape0 t)%nat) indices ->
  index_rows indices t = inr (map (fun i => nth i (trows t) []) indices).
Proof.
  induction 1 as [|i rest Hi _ IH]; simpl; [reflexivity|].
  rewrite IH. unfold shape0 in Hi.
  rewrite (nth_error_nth' (trows t) [] Hi). reflexivity.
Qed.

Lemma get_next_samples_runs (self : SamplesBuffer) (k : nat) :
  let n := num_samples self in
  let indices := map (np_mod n) (seq (current_sample self) (S k)) in
  (0 < n)%nat -> shape0 (v_labels self) = n ->
  get_next_samples self (S k) =
  inr (mkTensor2d (ncols (x_samples self))
                  (map (fun i => nth i (trows (x_samples self)) []) indices),
       mkTensor2d (ncols (v_labels self))
                  (map (fun i => nth i (trows (v_labels self)) []) indices),
       mkSamplesBuffer (samples_dim self) (max_size self) (x_samples self)
         (v_labels self) (S (np_mod n (current_sample self + k)))).
Proof.
  intros n indices Hn Hal. unfold get_next_samples.
  rewrite get_next_sample_indices_runs. fold n. fold indices.
  assert (Hidx : Forall (fun i => (i < n)%nat) indices).
  { apply Forall_forall. intros i Hi. apply in_map_iff in Hi.
    destruct Hi as (j & <- & _). apply np_mod_lt. exact Hn. }
  unfold get_samples_from_indices, take_rows. cbn [x_samples v_labels].
  rewrite !index_rows_in_range by (rewrite ?Hal; exact Hidx).
  reflexivity.
Qed.



Lemma mod_wrap (n c j : nat) :
  (0 < n)%nat -> (j < n)%nat ->
  Nat.modulo (c + j) n =
  if Nat.ltb (Nat.modulo c n + j) n
  then (Nat.modulo c n + j)%nat else (Nat.modulo c n + j - n)%nat.
Proof.
  intros Hn Hj. rewrite <- Nat.Div0.add_mod_idemp_l.
  pose proof (Nat.mod_upper_bound c n ltac:(lia)) as Hc.
  destruct (Nat.ltb (c mod n + j) n) eqn:E.
  - apply Nat.ltb_lt in E. apply Nat.mod_small. exact E.
  - apply Nat.ltb_ge in E.
    replace (c mod n + j)%nat with ((c mod n + j - n) + 1 * n)%nat at 1 by lia.
    rewrite Nat.Div0.mod_add. apply Nat.mod_small. lia.
Qed.

(** Reading [n] rows cyclically from the row [c] of [n] rows gives the rows
    from [c % n] on, followed by the rows before it. *)
Lemma cyclic_rows_rotate {A} (d : A) (X : list A) (c : nat) :
  X <> [] ->
  map (fun i => nth i X d)
      (map (fun j => Nat.modulo j (length X)) (seq c (length X))) =
  skipn (Nat.modulo c (length X)) X ++ firstn (Nat.modulo c (length X)) X.
Proof.
  intros HX. set (n := length X).
  assert (Hn : (0 < n)%nat) by (unfold n; destruct X; [contradiction|simpl; lia]).
  pose proof (Nat.mod_upper_bound c n ltac:(lia)) as Hc.
  set (r := Nat.modulo c n) in *.
  apply nth_ext with (d := d) (d' := d).
  - rewrite !length_map, length_seq, length_app, length_skipn, length_firstn.
    fold n. lia.
  - intros j Hj. rewrite !length_map, length_seq in Hj.
    rewrite map_map.
    rewrite (nth_indep _ d (nth (0 mod n) X d))
      by (rewrite length_map, length_seq; exact Hj).
    rewrite (map_nth (fun x => nth (x mod n) X d)), seq_nth by exact Hj.
    rewrite (mod_wrap n c j Hn Hj). fold r.
    destruct (Nat.ltb (r + j) n) eqn:E.
    + apply Nat.ltb_lt in E.
      rewrite app_nth1 by (rewrite length_skipn; fold n; lia).
      rewrite nth_skipn. reflexivity.
    + apply Nat.ltb_ge in E.
      rewrite app_nth2 by (rewrite length_skipn; fold n; lia).
      rewrite length_skipn. fold n.
      rewrite nth_firstn.
      replace (Nat.ltb (j - (n - r)) r) with true
        by (symmetry; apply Nat.ltb_lt; lia).
      f_equal. lia.
Qed.

Lemma get_next_samples_runs_pos (self : SamplesBuffer) (num : nat) :
  let n := num_samples self in
  let indices := map (np_mod n) (seq (current_sample self) num) in
  (0 < n)%nat -> shape0 (v_labels self) = n -> (0 < num)%nat ->
  get_next_samples self num =
  inr (mkTensor2d (ncols (x_samples self))
                  (map (fun i => nth i (trows (x_samples self)) []) indices),
       mkTensor2d (ncols (v_labels self))
                  (map (fun i => nth i (trows (v_labels self)) []) indices),
       mkSamplesBuffer (samples_dim self) (max_size self) (x_samples self)
         (v_labels self) (S (np_mod n (current_sample self + (num - 1))))).
Proof.
  intros n indices Hn Hal Hk. destruct num as [|k]; [lia|].
  replace (S k - 1)%nat with k by lia.
  apply get_next_samples_runs; assumption.
Qed.

(** One sweep: asked for as many samples as the buffer holds,
    [get_next_samples] returns every stored pair of a sample and its label
    exactly once -- the buffer rotated to start at the row
    [current_sample % num_samples] -- and leaves [current_sample] at the
    same row, so that the next sweep returns the same rows in the same
    order. *)
Theorem get_next_samples_full_sweep (self : SamplesBuffer) :
  let n := num_samples self in
  let r := Nat.modulo (current_sample self) n in
  (0 < n)%nat -> shape0 (v_labels self) = n ->
  exists xs vs self',
    get_next_samples self n = inr (xs, vs, self') /\
    trows xs = skipn r (trows (x_samples self))
               ++ firstn r (trows (x_samples self)) /\
    trows vs = skipn r (trows (v_labels self))
               ++ firstn r (trows (v_labels self)) /\
    Permutation (combine (trows xs) (trows vs))
                (combine (trows (x_samples self)) (trows (v_labels self))) /\
    Nat.modulo (current_sample self') n = r.
Proof.
  intros n r Hn Hal.
  assert (HX : trows (x_samples self) <> []).
  { intros E. unfold n, num_samples, shape0 in Hn. rewrite E in Hn.
    simpl in Hn. lia. }
  assert (HV : trows (v_labels self) <> []).
  { intros E. unfold shape0 in Hal. rewrite E in Hal. simpl in Hal. lia. }
  assert (Hidx : forall c, map (np_mod n) (seq c n) =
                           map (fun j => Nat.modulo j n) (seq c n)).
  { intros c. apply map_ext. intros j. apply np_mod_eq. exact Hn. }
  assert (EX : map (fun i => nth i (trows (x_samples self)) [])
                   (map (np_mod n) (seq (current_sample self) n)) =
               skipn r (trows (x_samples self))
               ++ firstn r (trows (x_samples self))).
  { rewrite Hidx. apply (cyclic_rows_rotate [] _ _ HX). }
  assert (EV : map (fun i => nth i (trows (v_labels self)) [])
                   (map (np_mod n) (seq (current_sample self) n)) =
               skipn r (trows (v_labels self))
               ++ firstn r (trows (v_labels self))).
  { rewrite Hidx. unfold r. rewrite <- Hal.
    apply (cyclic_rows_rotate [] _ _ HV). }
  eexists _, _, _. split.
  { apply get_next_samples_runs_pos; assumption. }
  cbn [trows current_sample]. fold n.
  split; [exact EX|]. split; [exact EV|]. split.
  - assert (Hlen : length (trows (x_samples self)) =
                   length (trows (v_labels self)))
      by (symmetry; exact Hal).
    rewrite EX, EV, combine_app by (rewrite !length_skipn, Hlen; reflexivity).
    rewrite <- skipn_combine, <- combine_firstn.
    eapply Permutation_trans; [apply Permutation_app_comm|].
    rewrite firstn_skipn. apply Permutation_refl.
  - rewrite np_mod_eq by lia. unfold r.
    replace (S ((current_sample self + (n - 1)) mod n))
      with ((current_sample self + (n - 1)) mod n + 1)%nat by lia.
    rewrite Nat.Div0.add_mod_idemp_l.
    replace (current_sample self + (n - 1) + 1)%nat
      with (current_sample self + 1 * n)%nat by lia.
    apply Nat.Div0.mod_add.
Qed.

(** A sweep over a buffer of three pairs that starts at the row 2. *)
Lemma get_next_samples_full_sweep_witness :
  let self := mkSamplesBuffer 1 None (mkTensor2d 1 [[1]; [2]; [3]])
                              (mkTensor2d 1 [[10]; [20]; [30]]) 2 in
  let n := num_samples self in
  let r := Nat.modulo (current_sample self) n in
  exists xs vs self',
    get_next_samples self n = inr (xs, vs, self') /\
    trows xs = skipn r (trows (x_samples self))
               ++ firstn r (trows (x_samples self)) /\
    trows vs = skipn r (trows (v_labels self))
               ++ firstn r (trows (v_labels self)) /\
    Permutation (combine (trows xs) (trows vs))
                (combine (trows (x_samples self)) (trows (v_labels self))) /\
    Nat.modulo (current_sample self') n = r.
Proof.
  intros self.
  apply (get_next_samples_full_sweep self).
  - unfold self, num_samples, shape0. simpl. lia.
  - reflexivity.
Defined.

(** ** [add_system_constraint] confines the state to the box *)

Lemma extends_model_refl (m : GurobiTorchMIP) : extends_model m m.
Proof. exists [], []. rewrite !app_nil_r. split; reflexivity. Qed.

Lemma extends_model_trans (m1 m2 m3 : GurobiTorchMIP) :
  extends_model m1 m2 -> extends_model m2 m3 -> extends_model m1 m3.
Proof.
  intros (vs & cs & V & C) (vs' & cs' & V' & C').
  exists (vs ++ vs'), (cs ++ cs'). rewrite V', C', V, C, !app_assoc.
  split; reflexivity.
Qed.

Lemma feasible_of_extension (m m' : GurobiTorchMIP) (a : assignment) :
  extends_model m m' -> feasible m' a -> feasible m a.
Proof.
  intros (vs & cs & V & C) [Hv Hc]. split.
  - intros i g Hg. apply Hv. rewrite V. apply nth_error_app_Some. exact Hg.
  - rewrite C in Hc. apply Forall_app in Hc. apply Hc.
Qed.

Lemma add_mixed_integer_linear_constraints_extends
      (bnd : MixedIntegerConstraintsReturn) (input : list var)
      (out : option (list var)) (t : VType) (m m' : GurobiTorchMIP)
      (r : list var * list var) :
  add_mixed_integer_linear_constraints bnd input out t m = Ok r m' ->
  extends_model m m'.
Proof.
  unfold add_mixed_integer_linear_constraints, bind, addVars, addMConstrs,
    add_constrs, ret.
  destruct out; intros H; injection H as _ <-; eexists _, _; simpl;
    rewrite <- !app_assoc; split; reflexivity.
Qed.

Lemma for_fold_G_extends (x : list var) (G : list (list var))
      (cnstr_G : list MixedIntegerConstraintsReturn) (t : VType)
      (l : list nat) (sb r : list var * list var) (m m' : GurobiTorchMIP) :
  for_fold l sb (add_G_column x G cnstr_G t) m = Ok r m' ->
  extends_model m m'.
Proof.
  revert sb m. induction l as [|i l IH]; intros sb m H; simpl in H.
  - injection H as _ <-. apply extends_model_refl.
  - apply bind_Ok_inv in H. destruct H as (sb1 & m1 & H1 & H2).
    apply (extends_model_trans m m1 m'); [|apply (IH _ _ H2)].
    unfold add_G_column in H1.
    apply bind_Ok_inv in H1. destruct H1 as (c & m2 & Hc & H1).
    unfold getitem in Hc. destruct (nth_error cnstr_G i); [|discriminate].
    injection Hc as -> <-.
    apply bind_Ok_inv in H1. destruct H1 as (Gi & m3 & HG & H1).
    unfold getitem in HG. destruct (nth_error G i); [|discriminate].
    injection HG as -> <-.
    apply bind_Ok_inv in H1. destruct H1 as ([s b] & m4 & Hadd & H1).
    injection H1 as _ <-.
    apply (add_mixed_integer_linear_constraints_extends _ _ _ _ _ _ _ Hadd).
Qed.

(** Whatever the bundles of the system are -- exact or not --
    [add_system_constraint] only removes points: on arguments of the
    documented shapes it succeeds, and every feasible point of the model
    it leaves is a feasible point of the model it was given and has the
    state within [[x_lo, x_up]]. *)
Theorem add_system_constraint_confines_state
        (x_dim u_dim : nat) (x_lo x_up : tensor)
        (cnstr_f : MixedIntegerConstraintsReturn)
        (cnstr_G : list MixedIntegerConstraintsReturn)
        (x f : list var) (G : list (list var)) (t : VType)
        (m : GurobiTorchMIP) :
  length f = x_dim -> length G = u_dim -> length cnstr_G = u_dim ->
  Forall (fun Gi => length Gi = x_dim) G ->
  length x_lo = x_dim -> length x_up = x_dim ->
  length x = x_dim -> vars_wf (nvars m) x ->
  exists r m',
    add_system_constraint x_dim u_dim x_lo x_up (cnstr_f, cnstr_G) x f G t m
    = Ok r m' /\
    forall a, feasible m' a ->
              feasible m a /\ in_box x_lo x_up (vals a x).
Proof.
  intros Hf HG Hc _ Hlo Hup Hx Hw.
  set (rows_up := map (mrow [eye x_dim] [x] LESS_EQUAL)
                      (combine (seq 0 (length x_up)) x_up)).
  set (rows_lo := map (mrow [eye x_dim] [x] GREATER_EQUAL)
                      (combine (seq 0 (length x_lo)) x_lo)).
  set (m1 := mip_add_constrs m rows_up).
  set (m2 := mip_add_constrs m1 rows_lo).
  destruct (encodes_for_each (set_bounds_of_x x_lo x_up x) (nvars m)
              (fun i a => within x x_lo x_up a i)
              (fun i a => within x x_lo x_up a i) (seq 0 x_dim))
    with (m := m2) as ([] & m3 & R3 & _ & _ & _ & S3 & _).
  { intros i Hi. apply in_seq in Hi. apply within_stable; [assumption|lia]. }
  { intros i m0 Hi Hm0. apply in_seq in Hi.
    apply set_bounds_of_x_encodes; [lia|].
    eapply vars_wf_mono; eassumption. }
  { unfold m2, m1. rewrite !nvars_add_constrs. lia. }
  destruct (add_mixed_integer_linear_constraints_vars cnstr_f x (Some f) t m3)
    as (sb & m4 & vs4 & R4 & _).
  destruct (for_fold_G_vars x G cnstr_G t (seq 0 u_dim) sb m4)
    as (sb' & m5 & vs5 & R5 & _).
  { intros i Hi. apply in_seq in Hi. lia. }
  exists (mkSystemConstraintReturn (fst sb') (snd sb') cnstr_f cnstr_G), m5.
  split.
  - unfold add_system_constraint.
    rewrite Hf, HG, !Nat.eqb_refl. cbn [assert_].
    rewrite (bind_Ok (ret tt) _ m m tt eq_refl).
    rewrite (bind_Ok (ret tt) _ m m tt eq_refl).
    rewrite (bind_Ok (addMConstrs _ _ _ _) _ m m1 tt eq_refl).
    rewrite (bind_Ok (addMConstrs _ _ _ _) _ m1 m2 tt eq_refl).
    rewrite (bind_Ok _ _ _ _ _ R3).
    rewrite (bind_Ok _ _ _ _ _ R4).
    rewrite (bind_Ok _ _ _ _ _ R5). reflexivity.
  - intros a Ha.
    apply (feasible_of_extension m4 m5) in Ha;
      [|apply (for_fold_G_extends _ _ _ _ _ _ _ _ _ R5)].
    apply (feasible_of_extension m3 m4) in Ha;
      [|apply (add_mixed_integer_linear_constraints_extends _ _ _ _ _ _ _ R4)].
    apply S3 in Ha. destruct Ha as [Ha _].
    unfold m2 in Ha. apply feasible_add_constrs in Ha. destruct Ha as [Ha Hlo'].
    unfold m1 in Ha. apply feasible_add_constrs in Ha. destruct Ha as [Ha Hup'].
    split; [exact Ha|].
    apply in_box_within; [lia | lia |]. intros i Hi. split.
    + apply (box_rows_ge a x_dim x x_lo i); [lia | assumption |].
      apply holds_mrow.
      apply (proj1 (Forall_mrows (holds a) _ _ _ _) Hlo'). lia.
    + apply (box_rows_le a x_dim x x_up i); [lia | assumption |].
      apply holds_mrow.
      apply (proj1 (Forall_mrows (holds a) _ _ _ _) Hup'). lia.
Qed.

(** The system [xdot = 2 x + u] on the box [[-1, 1]], on a model whose
    state variable has the bounds [[-3, 1/2]]. *)
Lemma add_system_constraint_confines_state_witness :
  let m := mip_add_vars empty_mip
             (mkVar (Some (-(3))) (Some (1#2)) CONTINUOUS
              :: repeat (mkVar None None CONTINUOUS) 2) in
  exists r m',
    add_system_constraint 1 1 [-(1)] [1]
      (affine_bundle (Some [[2]]) [0], [affine_bundle None [1]])
      [O] [1%nat] [[2%nat]] BINARY m
    = Ok r m' /\
    forall a, feasible m' a ->
              feasible m a /\ in_box [-(1)] [1] (vals a [O]).
Proof.
  intros m.
  apply (add_system_constraint_confines_state 1 1 [-(1)] [1]
           (affine_bundle (Some [[2]]) [0]) [affine_bundle None [1]]
           [O] [1%nat] [[2%nat]] BINARY m).
  - reflexivity.
  - reflexivity.
  - reflexivity.
  - constructor; [reflexivity|constructor].
  - reflexivity.
  - reflexivity.
  - reflexivity.
  - apply (vars_wf_seq 0 1 3). simpl. lia.
Defined.
